(** * Calibration curves of the Direct Laser Calibration Wizard

    A shallow embedding of [ChannelCalibration]
    (src/direct_calibration_wizard.py, lines 105-298) and the properties of
    its point management, interpolation, look-up table export and snapshot
    code.

    Python integers are [Z]; Python floats are IEEE binary64 numbers, the
    kernel's [float]; a dictionary keyed by integers is a [gmap Z]; an
    exception is a value of [exn] carried by the result type [res]. *)

From Stdlib Require Import ZArith Lia List Floats Ascii String.
From stdpp Require Import base option list sorting gmap strings pretty.

Local Open Scope Z_scope.

(** ** Exceptions *)

Inductive exn : Set :=
  | ZeroDivisionError
  | OverflowError
  | ValueError
  | IndexError
  | KeyError.

Inductive res (A : Type) : Type :=
  | Ok (a : A)
  | Raise (e : exn).
Arguments Ok {A} a.
Arguments Raise {A} e.

#[global] Instance res_ret : MRet res := λ A a, Ok a.
#[global] Instance res_bind : MBind res := λ A B k r,
  match r with
  | Ok a => k a
  | Raise e => Raise e
  end.

Definition of_option {A : Type} (e : exn) (o : option A) : res A :=
  match o with
  | Some a => Ok a
  | None => Raise e
  end.

(** ** Constants (lines 35-37) *)

Definition PWM_MAX : Z := 65535.
Definition LUT_SIZE : Z := 65536.

(** ** The calibration record (lines 105-119) *)

Record ChannelCalibration : Type := mkCal {
  name : string;
  threshold : Z;
  use_smooth : bool;
  points : gmap Z Z
}.

Definition default_points : gmap Z Z :=
  <[0 := 0]> (<[1 := 0]> (<[50 := PWM_MAX `div` 2]> (<[100 := PWM_MAX]> ∅))).

(** [ChannelCalibration.__init__] *)
Definition init (nm : string) : ChannelCalibration :=
  mkCal nm 0 true default_points.

Definition with_points (c : ChannelCalibration) (m : gmap Z Z) : ChannelCalibration :=
  mkCal (name c) (threshold c) (use_smooth c) m.

(** ** Point management (lines 121-141) *)

(** [self.points[percent] = max(0, min(PWM_MAX, pwm_value))] *)
Definition set_point (c : ChannelCalibration) (percent pwm_value : Z) : ChannelCalibration :=
  with_points c (<[percent := Z.max 0 (Z.min PWM_MAX pwm_value)]> (points c)).

(** [if percent not in [0, 100]: self.points.pop(percent, None)] *)
Definition remove_point (c : ChannelCalibration) (percent : Z) : ChannelCalibration :=
  if bool_decide (percent = 0 ∨ percent = 100) then c
  else with_points c (delete percent (points c)).

(** [add_point_between]: the curve after the call and the returned value
    ([None] is Python's [None]). [//] is floor division, [Z.div]. *)
Definition add_point_between (c : ChannelCalibration) (lower_percent upper_percent : Z)
  : ChannelCalibration * option Z :=
  let new_percent := (lower_percent + upper_percent) `div` 2 in
  if bool_decide (points c !! new_percent = None)
     && negb (new_percent =? lower_percent)
     && negb (new_percent =? upper_percent)
  then
    let lower_val := default 0 (points c !! lower_percent) in
    let upper_val := default PWM_MAX (points c !! upper_percent) in
    let new_val := (lower_val + upper_val) `div` 2 in
    (with_points c (<[new_percent := new_val]> (points c)), Some new_percent)
  else (c, None).

(** [sorted(self.points.keys())] *)
Definition get_sorted_percents (c : ChannelCalibration) : list Z :=
  merge_sort Z.le (elements (dom (points c))).

(** ** Python numbers

    A Python number is an [int] or a [float]. Mixed arithmetic converts the
    [int] operand to a [float] (correctly rounded, [OverflowError] when
    it is out of range); comparisons between an [int] and a [float] are
    exact; [/] is true division and raises [ZeroDivisionError]. *)

Inductive num : Set :=
  | Int (z : Z)
  | Flt (f : float).

(** The least magnitude whose conversion to binary64 rounds to infinity. *)
Definition float_overflow : Z := Eval vm_compute in 2 ^ 1024 - 2 ^ 970.

(** The binary64 number nearest to an integer. *)
Definition float_of (z : Z) : float := SF2Prim (binary_normalize prec emax z 0 false).
Arguments float_of : simpl never.

(** [float(z)] *)
Definition of_int (z : Z) : res float :=
  if Z.abs z <? float_overflow then Ok (float_of z) else Raise OverflowError.
Arguments of_int : simpl never.

Definition to_float (a : num) : res float :=
  match a with
  | Int z => of_int z
  | Flt f => Ok f
  end.

Definition nadd (a b : num) : res num :=
  match a, b with
  | Int x, Int y => Ok (Int (x + y))
  | _, _ => x ← to_float a; y ← to_float b; Ok (Flt (x + y)%float)
  end.

Definition nsub (a b : num) : res num :=
  match a, b with
  | Int x, Int y => Ok (Int (x - y))
  | _, _ => x ← to_float a; y ← to_float b; Ok (Flt (x - y)%float)
  end.

Definition nmul (a b : num) : res num :=
  match a, b with
  | Int x, Int y => Ok (Int (x * y))
  | _, _ => x ← to_float a; y ← to_float b; Ok (Flt (x * y)%float)
  end.

(** An [int] as an operand of a binary64 operation: the mantissa is the
    integer itself, of any size, so that nothing is rounded before the
    operation. *)
Definition SF_of_Z (z : Z) : spec_float :=
  match z with
  | Z0 => S754_zero false
  | Zpos p => S754_finite false p 0
  | Zneg p => S754_finite true p 0
  end.

(** [x / y] for two [int]s: the exact quotient, rounded once to the nearest
    [float]; [OverflowError] when that is beyond the largest [float]. *)
Definition int_true_div (x y : Z) : res float :=
  if y =? 0 then Raise ZeroDivisionError
  else
    match SFdiv prec emax (SF_of_Z x) (SF_of_Z y) with
    | S754_infinity _ => Raise OverflowError
    | q => Ok (SF2Prim q)
    end.

(** True division: of the two integers when both operands are [int]s, of
    the two [float]s otherwise, after the conversion of an [int]
    operand. *)
Definition ndiv (a b : num) : res num :=
  match a, b with
  | Int x, Int y => q ← int_true_div x y; Ok (Flt q)
  | _, _ =>
      fx ← to_float a; fy ← to_float b;
      if (fy =? 0)%float then Raise ZeroDivisionError
      else Ok (Flt (fx / fy)%float)
  end.

(** The exact order between a binary64 number and an integer; [None] for a
    NaN. *)
Definition SF_cmp_Z (x : spec_float) (z : Z) : option comparison :=
  match x with
  | S754_nan => None
  | S754_infinity s => Some (if s then Lt else Gt)
  | S754_zero _ => Some (0 ?= z)
  | S754_finite s m e =>
      let v := cond_Zopp s (Zpos m) in
      Some (if 0 <=? e then v * 2 ^ e ?= z else v ?= z * 2 ^ (- e))
  end.

Definition ncompare (a b : num) : option comparison :=
  match a, b with
  | Int x, Int y => Some (x ?= y)
  | Flt f, Int y => SF_cmp_Z (Prim2SF f) y
  | Int x, Flt g => CompOpp <$> SF_cmp_Z (Prim2SF g) x
  | Flt f, Flt g => SFcompare (Prim2SF f) (Prim2SF g)
  end.

Definition nlt (a b : num) : bool :=
  match ncompare a b with Some Lt => true | _ => false end.
Definition nle (a b : num) : bool :=
  match ncompare a b with Some Lt | Some Eq => true | _ => false end.
Definition ngt (a b : num) : bool :=
  match ncompare a b with Some Gt => true | _ => false end.
Definition nge (a b : num) : bool :=
  match ncompare a b with Some Gt | Some Eq => true | _ => false end.
Definition neqb (a b : num) : bool :=
  match ncompare a b with Some Eq => true | _ => false end.

(** [min(a, b)] and [max(a, b)]: the first argument unless the second is
    strictly smaller (larger). *)
Definition py_min (a b : num) : num := if nlt b a then b else a.
Definition py_max (a b : num) : num := if ngt b a then b else a.

(** [int(x)]: truncation toward zero. *)
Definition SF_trunc (x : spec_float) : res Z :=
  match x with
  | S754_nan => Raise ValueError
  | S754_infinity _ => Raise OverflowError
  | S754_zero _ => Ok 0
  | S754_finite s m e =>
      Ok (cond_Zopp s (if 0 <=? e then Zpos m * 2 ^ e else Zpos m `div` 2 ^ (- e)))
  end.

Definition py_int (a : num) : res Z :=
  match a with
  | Int z => Ok z
  | Flt f => SF_trunc (Prim2SF f)
  end.

(** [math.sqrt(x)] *)
Definition py_sqrt (a : num) : res num :=
  x ← to_float a;
  if (x <? 0)%float then Raise ValueError else Ok (Flt (sqrt x)).

(** The integer a number is equal to, if any: the key under which a
    dictionary with integer keys finds it. *)
Definition num_key (a : num) : option Z :=
  match a with
  | Int z => Some z
  | Flt f =>
      match SF_trunc (Prim2SF f) with
      | Ok z => if neqb a (Int z) then Some z else None
      | Raise _ => None
      end
  end.

(** [d[k]] and [l[i]] *)
Definition getitem (m : gmap Z Z) (k : Z) : res Z := of_option KeyError (m !! k).
Definition item {A : Type} (l : list A) (i : nat) : res A := of_option IndexError (l !! i).
Definition item_last {A : Type} (l : list A) : res A := of_option IndexError (last l).

(** A [for] loop whose body may raise. *)
Fixpoint for_each {A S : Type} (body : S → A → res S) (l : list A) (s : S) : res S :=
  match l with
  | [] => Ok s
  | a :: l' => s' ← body s a; for_each body l' s'
  end.

(** [range(n)] as indices of a list. *)
Definition range (n : nat) : list nat := seq 0 n.

(** ** Linear interpolation (lines 143-169) *)

(** The loop of lines 158-163: [lower] follows the keys below [percent],
    the first key above it becomes [upper] and ends the loop. *)
Fixpoint bracket (percent : num) (l : list Z) (lower upper : Z) : Z * Z :=
  match l with
  | [] => (lower, upper)
  | p :: l' =>
      if nlt (Int p) percent then bracket percent l' p upper
      else if ngt (Int p) percent then (lower, p)
      else bracket percent l' lower upper
  end.

Definition interpolate_linear (c : ChannelCalibration) (percent : num) : res Z :=
  let sorted_pts := get_sorted_percents c in
  first ← item sorted_pts 0;
  if nle percent (Int first) then getitem (points c) first
  else
    final ← item_last sorted_pts;
    if nge percent (Int final) then getitem (points c) final
    else
      match num_key percent ≫= λ k, points c !! k with
      | Some v => Ok v
      | None =>
          let '(lower, upper) := bracket percent sorted_pts first final in
          if upper =? lower then getitem (points c) lower
          else
            d ← nsub percent (Int lower);
            t ← ndiv d (Int (upper - lower));
            vl ← getitem (points c) lower;
            vu ← getitem (points c) upper;
            vl' ← getitem (points c) lower;
            s ← nmul t (Int (vu - vl'));
            r ← nadd (Int vl) s;
            py_int r
      end.

(** ** Monotone cubic interpolation (lines 171-262) *)

(** Lines 188-192: the first segment whose end points enclose [percent],
    segment 0 when there is none. *)
Fixpoint find_segment (percent : num) (l : list Z) (i : nat) : nat :=
  match l with
  | a :: (b :: _) as l' =>
      if nle (Int a) percent && nle percent (Int b) then i
      else find_segment percent l' (S i)
  | _ => 0%nat
  end.

(** Lines 199-203: the secant of every segment. *)
Fixpoint secants (xs ys : list Z) : res (list num) :=
  match xs, ys with
  | x0 :: (x1 :: _) as xs', y0 :: (y1 :: _) as ys' =>
      let dx := x1 - x0 in
      let dy := y1 - y0 in
      d ← (if negb (dx =? 0) then ndiv (Int dy) (Int dx) else Ok (Int 0));
      ds ← secants xs' ys';
      Ok (d :: ds)
  | _, _ => Ok []
  end.

(** Lines 212-218: the tangent at interior point [i]. *)
Definition interior_tangent (deltas : list num) (tangents : list num) (i : nat)
  : res (list num) :=
  dp ← item deltas (i - 1);
  di ← item deltas i;
  p ← nmul dp di;
  if nle p (Int 0) then Ok (<[i := Int 0]> tangents)
  else
    dp' ← item deltas (i - 1);
    rp ← ndiv (Int 1) dp';
    di' ← item deltas i;
    ri ← ndiv (Int 1) di';
    s ← nadd rp ri;
    m ← ndiv (Int 2) s;
    Ok (<[i := m]> tangents).

(** Lines 224-236: the limit on the tangents of segment [i]. *)
Definition limit_tangents (deltas : list num) (tangents : list num) (i : nat)
  : res (list num) :=
  di ← item deltas i;
  if neqb di (Int 0) then Ok (<[S i := Int 0]> (<[i := Int 0]> tangents))
  else
    ti ← item tangents i;
    alpha ← ndiv ti di;
    ti1 ← item tangents (S i);
    beta ← ndiv ti1 di;
    aa ← nmul alpha alpha;
    bb ← nmul beta beta;
    s ← nadd aa bb;
    if ngt s (Int 9) then
      r ← py_sqrt s;
      tau ← ndiv (Flt 3) r;
      ta ← nmul tau alpha;
      m0 ← nmul ta di;
      let tangents' := <[i := m0]> tangents in
      tb ← nmul tau beta;
      m1 ← nmul tb di;
      Ok (<[S i := m1]> tangents')
    else Ok tangents.

(** Lines 199-236: all tangents of the curve through [(xs, ys)]. *)
Definition tangents_of (xs ys : list Z) : res (list num) :=
  let n := length xs in
  deltas ← secants xs ys;
  let tangents := replicate n (Flt 0) in
  d0 ← item deltas 0;
  let tangents := <[0%nat := d0]> tangents in
  tangents ← for_each (interior_tangent deltas) (seq 1 (n - 2)) tangents;
  dl ← item_last deltas;
  let tangents := <[(n - 1)%nat := dl]> tangents in
  for_each (limit_tangents deltas) (range (n - 1)) tangents.

(** Lines 238-255: the cubic Hermite polynomial of one segment. *)
Definition hermite (percent : num) (x0 x1 y0 y1 : Z) (m0 m1 : num) : res num :=
  let h := x1 - x0 in
  t ← (if negb (h =? 0) then d ← nsub percent (Int x0); ndiv d (Int h) else Ok (Int 0));
  t2 ← nmul t t;
  t3 ← nmul t2 t;
  a ← nmul (Int 2) t3; b ← nmul (Int 3) t2; ab ← nsub a b; h00 ← nadd ab (Int 1);
  a ← nmul (Int 2) t2; b ← nsub t3 a; h10 ← nadd b t;
  a ← nmul (Int (-2)) t3; b ← nmul (Int 3) t2; h01 ← nadd a b;
  h11 ← nsub t3 t2;
  p0 ← nmul h00 (Int y0);
  a ← nmul h10 (Int h); p1 ← nmul a m0;
  p2 ← nmul h01 (Int y1);
  a ← nmul h11 (Int h); p3 ← nmul a m1;
  s ← nadd p0 p1; s ← nadd s p2; nadd s p3.

(** Lines 257-262: the clamp to the segment, the clamp to the PWM range,
    and [int]. *)
Definition clamp_result (y0 y1 : Z) (result : num) : res Z :=
  let min_val := Z.min y0 y1 in
  let max_val := Z.max y0 y1 in
  let result := py_max (Int min_val) (py_min (Int max_val) result) in
  py_int (py_max (Int 0) (py_min (Int PWM_MAX) result)).

Definition interpolate_smooth (c : ChannelCalibration) (percent : num) : res Z :=
  let sorted_pts := get_sorted_percents c in
  let n := length sorted_pts in
  if (n <? 2)%nat then
    match sorted_pts with
    | p :: _ => Ok (default 0 (points c !! p))
    | [] => Ok 0
    end
  else
    first ← item sorted_pts 0;
    if nle percent (Int first) then getitem (points c) first
    else
      final ← item_last sorted_pts;
      if nge percent (Int final) then getitem (points c) final
      else
        let seg_idx := find_segment percent sorted_pts 0 in
        let x_vals := sorted_pts in
        y_vals ← mapM (getitem (points c)) sorted_pts;
        tangents ← tangents_of x_vals y_vals;
        let i := seg_idx in
        x0 ← item x_vals i; x1 ← item x_vals (S i);
        y0 ← item y_vals i; y1 ← item y_vals (S i);
        m0 ← item tangents i; m1 ← item tangents (S i);
        result ← hermite percent x0 x1 y0 y1 m0 m1;
        clamp_result y0 y1 result.

(** ** Evaluation with the threshold (lines 264-277) *)

Definition raw_interpolate (c : ChannelCalibration) (percent : num) : res Z :=
  if use_smooth c && (3 <=? size (points c))%nat
  then interpolate_smooth c percent
  else interpolate_linear c percent.

Definition apply_threshold (c : ChannelCalibration) (raw_value : Z) : res Z :=
  let usable_range := PWM_MAX - threshold c in
  raw_normalized ← ndiv (Int raw_value) (Int PWM_MAX);
  s ← nmul raw_normalized (Int usable_range);
  r ← nadd (Int (threshold c)) s;
  py_int r.

Definition interpolate (c : ChannelCalibration) (percent : num) : res Z :=
  raw_value ← raw_interpolate c percent;
  if (0 <? threshold c) && ngt percent (Int 0)
  then apply_threshold c raw_value
  else Ok raw_value.

(** ** Look-up table (lines 279-284) *)

Definition lut_percent (size i : Z) : res num :=
  q ← ndiv (Int i) (Int (size - 1));
  nmul q (Int 100).

Definition generate_lut (c : ChannelCalibration) (size : Z) : res (list Z) :=
  mapM (λ i, percent ← lut_percent size i; interpolate c percent)
       (seqZ 0 size).

(** ** Snapshots (lines 286-298)

    A snapshot is the dictionary [to_dict] builds and [from_dict] reads:
    every field may be absent, and the [points] field is a dictionary whose
    keys are strings or integers, kept here in iteration order. *)

Inductive key : Set :=
  | KStr (s : string)
  | KInt (z : Z).

Record snapshot : Type := mkSnap {
  snap_name : option string;
  snap_threshold : option Z;
  snap_use_smooth : option bool;
  snap_points : option (list (key * Z))
}.

(** [str(k)] for an integer [k] *)
Definition py_str (k : Z) : string := pretty k.

(** A string is a sequence of characters with codes 0..255, read as the
    code points of the same numbers.

    The blanks of [str.split] and [str.isspace] among them: tab to carriage
    return, the four separators 28..31, the space, and the code points 133
    and 160. *)
Definition is_space (a : ascii) : bool :=
  let n := N_of_ascii a in
  ((9 <=? n) && (n <=? 13) || (28 <=? n) && (n <=? 32) || (n =? 133) || (n =? 160))%N.

(** The blanks [int] skips at both ends of its argument: the same without
    the separators 28..31, on which [int] raises. *)
Definition is_int_space (a : ascii) : bool :=
  let n := N_of_ascii a in
  ((9 <=? n) && (n <=? 13) || (n =? 32) || (n =? 133) || (n =? 160))%N.

Fixpoint lstrip (s : string) : string :=
  match s with
  | String a s' => if is_int_space a then lstrip s' else s
  | EmptyString => s
  end.

Fixpoint rstrip (s : string) : string :=
  match s with
  | EmptyString => EmptyString
  | String a s' =>
      match rstrip s' with
      | EmptyString => if is_int_space a then EmptyString else String a EmptyString
      | r => String a r
      end
  end.

Definition digit_val (a : ascii) : option Z :=
  let n := N_of_ascii a in
  if ((48 <=? n) && (n <=? 57))%N then Some (Z.of_N n - 48) else None.

(** Decimal digits, with single underscores allowed between two digits. *)
Fixpoint parse_digits (s : string) (acc : Z) (after_digit : bool) : option Z :=
  match s with
  | EmptyString => if after_digit then Some acc else None
  | String a s' =>
      match digit_val a with
      | Some d => parse_digits s' (acc * 10 + d) true
      | None =>
          if Ascii.eqb a "_" && after_digit then parse_digits s' acc false else None
      end
  end.

(** [int(s)]: blanks, an optional sign, decimal digits with single
    underscores between them, blanks; anything else raises [ValueError].
    (No code point from 128 to 255 is a decimal digit. The limit some
    versions of the interpreter put on the number of digits, 4300 unless
    configured otherwise, is not modelled.) *)
Definition int_of_str (s : string) : res Z :=
  let s := rstrip (lstrip s) in
  of_option ValueError
    match s with
    | String "-" r => Z.opp <$> parse_digits r 0 false
    | String "+" r => parse_digits r 0 false
    | _ => parse_digits s 0 false
    end.

(** [int(k)] for a key of a loaded dictionary *)
Definition int_of_key (k : key) : res Z :=
  match k with
  | KInt z => Ok z
  | KStr s => int_of_str s
  end.

(** [{int(k): v for k, v in items}]: a later item overwrites an earlier one
    with an equal key; the first key that is no integer raises. *)
Fixpoint coerce_items (items : list (key * Z)) (acc : gmap Z Z) : res (gmap Z Z) :=
  match items with
  | [] => Ok acc
  | (k, v) :: rest => z ← int_of_key k; coerce_items rest (<[z := v]> acc)
  end.

(** The order of the items is that of the map's enumeration; Python's is
    insertion order, which the loading code does not depend on. *)
Definition to_dict (c : ChannelCalibration) : snapshot :=
  mkSnap (Some (name c)) (Some (threshold c)) (Some (use_smooth c))
         (Some ((λ kv, (KStr (py_str kv.1), kv.2)) <$> map_to_list (points c))).

(** [from_dict] assigns the four attributes in turn: when the conversion of
    a key raises, the first three are already assigned and [points] is
    not. *)
Definition from_dict (c : ChannelCalibration) (data : snapshot)
  : ChannelCalibration * option exn :=
  let nm := default (name c) (snap_name data) in
  let th := default 0 (snap_threshold data) in
  let sm := default true (snap_use_smooth data) in
  match coerce_items (default [] (snap_points data)) ∅ with
  | Ok m => (mkCal nm th sm m, None)
  | Raise e => (mkCal nm th sm (points c), Some e)
  end.

(** ** Sequences of edits *)

Inductive edit : Set :=
  | SetPoint (percent pwm_value : Z)
  | RemovePoint (percent : Z)
  | InsertBetween (lower_percent upper_percent : Z).

Definition apply_edit (c : ChannelCalibration) (e : edit) : ChannelCalibration :=
  match e with
  | SetPoint p v => set_point c p v
  | RemovePoint p => remove_point c p
  | InsertBetween l u => (add_point_between c l u).1
  end.

Definition apply_edits (c : ChannelCalibration) (es : list edit) : ChannelCalibration :=
  foldl apply_edit c es.

(** ** Vocabulary of the properties *)

(** A value clamped to the PWM range. *)
Definition clamp_pwm (v : Z) : Z := Z.max 0 (Z.min PWM_MAX v).

(** Every key of the curve is a percentage. *)
Definition keys_in_range (c : ChannelCalibration) : Prop :=
  ∀ k, is_Some (points c !! k) → 0 ≤ k ≤ 100.

(** The floor midpoint of two percents. *)
Definition midpoint (lower upper : Z) : Z := (lower + upper) `div` 2.

(** The curve has its two end points. *)
Definition has_endpoints (c : ChannelCalibration) : Prop :=
  is_Some (points c !! 0) ∧ is_Some (points c !! 100).

(** [c'] has the name, threshold and mode of [c]. *)
Definition same_settings (c c' : ChannelCalibration) : Prop :=
  name c' = name c ∧ threshold c' = threshold c ∧ use_smooth c' = use_smooth c.

(** No character of [s] is a blank. *)
Fixpoint no_space (s : string) : bool :=
  match s with
  | EmptyString => true
  | String a s' => negb (is_space a) && no_space s'
  end.

(** An item of the [points] dictionary [to_dict] writes. *)
Definition str_item (kv : Z * Z) : key * Z := (KStr (py_str kv.1), kv.2).

(** The threshold remap as one expression of binary64 arithmetic. *)
Definition remap_formula (t v : Z) : res Z :=
  SF_trunc (Prim2SF (float_of t + float_of v / float_of 65535 * float_of (65535 - t))%float).

(** A sequence that never decreases. *)
Definition non_decreasing (l : list Z) : Prop :=
  ∀ i j a b, (i ≤ j)%nat → l !! i = Some a → l !! j = Some b → a ≤ b.

(** The stored values do not decrease as the percent grows. *)
Definition values_non_decreasing (c : ChannelCalibration) : Prop :=
  ∀ p q v w, p ≤ q → points c !! p = Some v → points c !! q = Some w → v ≤ w.

(** A curve that reaches its top value at 99 percent. *)
Definition flat_top : ChannelCalibration :=
  mkCal "red" 0 true (<[0 := 0]> (<[1 := 65534]> (<[99 := 65535]> (<[100 := 65535]> ∅)))).

(** Python's [round]: to the nearest integer, ties to the even one. *)
Definition SF_round (x : spec_float) : res Z :=
  match x with
  | S754_nan => Raise ValueError
  | S754_infinity _ => Raise OverflowError
  | S754_zero _ => Ok 0
  | S754_finite s m e =>
      Ok (cond_Zopp s
            (if 0 <=? e then Zpos m * 2 ^ e
             else
               let d := 2 ^ (- e) in
               let q := Zpos m `div` d in
               match 2 * (Zpos m `mod` d) ?= d with
               | Lt => q
               | Gt => q + 1
               | Eq => if Z.even q then q else q + 1
               end))
  end.

(** [round(x)] *)
Definition py_round (a : num) : res Z :=
  match a with
  | Int z => Ok z
  | Flt f => SF_round (Prim2SF f)
  end.

(** The value on the line through [(lower, vl)] and [(upper, vu)] at
    [percent], made an integer by [to_int]. *)
Definition linear_value (to_int : num → res Z) (percent : num) (lower upper vl vu : Z)
  : res Z :=
  d ← nsub percent (Int lower);
  t ← ndiv d (Int (upper - lower));
  s ← nmul t (Int (vu - vl));
  r ← nadd (Int vl) s;
  to_int r.

(** Following the spec's words for the linear interpolator:
    [round(value[lower] + t * (value[upper] - value[lower]))] with
    [t = (percent - lower) / (upper - lower)]. *)
Definition spec_linear_value (percent : num) (lower upper vl vu : Z) : res Z :=
  linear_value py_round percent lower upper vl vu.

(** The default curve in linear mode. *)
Definition linear_default : ChannelCalibration := mkCal "red" 0 false default_points.

(** [a < percent] and [percent < b], as the comparisons of the code. *)
Definition above (percent : num) (a : Z) : Prop := ncompare percent (Int a) = Some Gt.
Definition below (percent : num) (b : Z) : Prop := ncompare percent (Int b) = Some Lt.

(** The sign of a binary64 number that is not a NaN. *)
Definition SF_signed (s : bool) (x : spec_float) : Prop :=
  match x with
  | S754_nan => False
  | S754_zero s' | S754_infinity s' | S754_finite s' _ _ => s' = s
  end.

(** Neither a zero nor a NaN, with sign [s]. *)
Definition SF_nonzero (s : bool) (x : spec_float) : Prop :=
  match x with
  | S754_infinity s' | S754_finite s' _ _ => s' = s
  | _ => False
  end.

(** A secant is zero, or finite with a finite non-zero reciprocal of its
    sign. *)
Definition delta_class_ok (one d : float) : bool :=
  match classify d with
  | PZero | NZero => true
  | PNormal | PSubn =>
      match classify (one / d)%float with PNormal | PSubn => true | _ => false end
  | NNormal | NSubn =>
      match classify (one / d)%float with NNormal | NSubn => true | _ => false end
  | _ => false
  end.

(** [P] holds of the [n] integers from [z] on. *)
Fixpoint all_from (n : nat) (z : Z) (P : Z → bool) : bool :=
  match n with
  | O => true
  | S n' => if P z then all_from n' (z + 1) P else false
  end.

(** The [float]s of the [n] integers from [z] on. *)
Fixpoint floats_from (n : nat) (z : Z) : list float :=
  match n with
  | O => []
  | S n' => float_of z :: floats_from n' (z + 1)
  end.

(** Every quotient of a difference of values in [lo, hi] by a difference of
    keys in [1, width] is a good secant. *)
Definition deltas_ok (lo hi width : Z) : bool :=
  let one := float_of 1 in
  let fdx := floats_from (Z.to_nat width) 1 in
  all_from (Z.to_nat (hi - lo + 1)) lo
    (λ dy, let fy := float_of dy in
           forallb (λ fx, delta_class_ok one (fy / fx)%float) fdx).

(** No width of a segment converts to a zero. *)
Definition widths_ok (width : Z) : bool :=
  all_from (Z.to_nat width) 1 (λ h, negb (float_of h =? 0)%float).

(** A secant as [secants] computes it on a curve of the documented domain. *)
Definition good_delta (d : num) : Prop :=
  ∃ f, d = Flt f ∧ delta_class_ok (float_of 1) f = true.

(** A tangent is a [float] or the integer 0. *)
Definition tangent_ok (a : num) : Prop :=
  match a with
  | Int z => z = 0
  | Flt _ => True
  end.

(** A number that converts to a [float] without overflow. *)
Definition small (a : num) : Prop :=
  match a with
  | Int z => Z.abs z < float_overflow
  | Flt _ => True
  end.

(** Every value of the curve is a PWM value. *)
Definition values_in_range (c : ChannelCalibration) : Prop :=
  ∀ k v, points c !! k = Some v → 0 ≤ v ≤ 65535.

(** * The serial link and the user interface

    The rest of src/direct_calibration_wizard.py, as far as it computes:
    the frames [LaserSerial] writes, the list of point widgets and the
    handlers of [ChannelTab], and the text [ExportTab] generates and loads.
    Colours, style sheets and label texts are not modelled. *)

(** ** Failures

    Besides the exceptions of [exn], [struct.pack] raises [struct.error]. *)

Inductive error : Set :=
  | Exn (e : exn)
  | StructError.

Inductive result (A : Type) : Type :=
  | Fine (a : A)
  | Failed (e : error).
Arguments Fine {A} a.
Arguments Failed {A} e.

#[global] Instance result_ret : MRet result := λ A a, Fine a.
#[global] Instance result_bind : MBind result := λ A B k r,
  match r with
  | Fine a => k a
  | Failed e => Failed e
  end.

(** A computation of the calibration code inside the interface code. *)
Definition lift {A : Type} (r : res A) : result A :=
  match r with
  | Ok a => Fine a
  | Raise e => Failed (Exn e)
  end.

(** ** The serial link (lines 44-98) *)

(** pyserial's [Serial] object, as far as the code uses it: [is_open],
    [close], and [write], which sends the bytes or raises when the device
    does not take them. *)
Record Serial : Type := mkSerial {
  is_open : bool;
  accepts : bool
}.

(** The two attributes of [LaserSerial], and with them the bytes the device
    has been sent so far, which the Python object does not hold: [wire] is
    there to state what a call sends. A byte is an integer from 0 to 255. *)
Record LaserSerial : Type := mkLaser {
  ser : option Serial;
  port : option string;
  wire : list Z
}.

(** [LaserSerial.__init__] *)
Definition laser_init : LaserSerial := mkLaser None None [].

(** [connect]: [opened] is what [serial.Serial(port, baud, timeout=0.1)]
    gives, [None] when it raises; the call returns whether it succeeded. *)
Definition connect (l : LaserSerial) (port_name : string) (opened : option Serial)
  : LaserSerial * bool :=
  match opened with
  | Some s => (mkLaser (Some s) (Some port_name) (wire l), true)
  | None => (l, false)
  end.

(** [self.ser is not None and self.ser.is_open] *)
Definition is_connected (l : LaserSerial) : bool :=
  match ser l with
  | Some s => is_open s
  | None => false
  end.

(** [struct.pack('<H', v)]: two bytes, the low one first; [struct.error]
    outside 0..65535. *)
Definition pack_H (v : Z) : result (list Z) :=
  if (0 <=? v) && (v <=? 65535)
  then Fine [Z.land v 255; Z.shiftr v 8]
  else Failed StructError.

(** [struct.pack('<HHH', r, g, b)] *)
Definition pack_HHH (r g b : Z) : result (list Z) :=
  br ← pack_H r; bg ← pack_H g; bb ← pack_H b; Fine (br ++ bg ++ bb).

(** [self.ser.write(data)] inside [try: ... except: pass]: whatever
    [write] raises is dropped. *)
Definition write (l : LaserSerial) (data : list Z) : LaserSerial :=
  match ser l with
  | Some s => if accepts s then mkLaser (ser l) (port l) (wire l ++ data) else l
  | None => l
  end.

(** [send_rgb] (lines 78-88) *)
Definition send_rgb (l : LaserSerial) (r g b : num) : result LaserSerial :=
  if negb (is_connected l) then Fine l
  else
    r ← lift (py_int r);
    let r := Z.max 0 (Z.min PWM_MAX r) in
    g ← lift (py_int g);
    let g := Z.max 0 (Z.min PWM_MAX g) in
    b ← lift (py_int b);
    let b := Z.max 0 (Z.min PWM_MAX b) in
    data ← pack_HHH r g b;
    Fine (write l data).

(** [send_channel] (lines 90-98) *)
Definition send_channel (l : LaserSerial) (channel : string) (value : num)
  : result LaserSerial :=
  value ← lift (py_int value);
  let value := Z.max 0 (Z.min PWM_MAX value) in
  if String.eqb channel "red" then send_rgb l (Int value) (Int 0) (Int 0)
  else if String.eqb channel "green" then send_rgb l (Int 0) (Int value) (Int 0)
  else if String.eqb channel "blue" then send_rgb l (Int 0) (Int 0) (Int value)
  else Fine l.

(** [disconnect] (lines 68-73) *)
Definition disconnect (l : LaserSerial) : result LaserSerial :=
  l' ← (if is_connected l then send_rgb l (Int 0) (Int 0) (Int 0) else Fine l);
  Fine (mkLaser None None (wire l')).

(** The two-byte value a frame holds at offset [i], low byte first: what
    [struct.unpack('<H', ...)] reads on the receiving side. *)
Definition unpack_H (data : list Z) (i : nat) : option Z :=
  lo ← data !! i; hi ← data !! S i; Some (lo + 256 * hi).

(** ** Strings of the interface *)

(** [pat in s] *)
Fixpoint contains (pat s : string) : bool :=
  String.prefix pat s
  || match s with
     | String _ s' => contains pat s'
     | EmptyString => false
     end.

(** [s.lower()]: the capital letters among the code points below 256 are
    65..90 and 192..222 without 215, each 32 below its small letter. *)
Definition ascii_lower (a : ascii) : ascii :=
  let n := N_of_ascii a in
  if ((65 <=? n) && (n <=? 90)
      || (192 <=? n) && (n <=? 222) && negb (n =? 215))%N
  then ascii_of_N (n + 32) else a.

Fixpoint py_lower (s : string) : string :=
  match s with
  | EmptyString => EmptyString
  | String a s' => String (ascii_lower a) (py_lower s')
  end.

(** ** The channel tab (lines 530-947) *)

(** The widgets of the point list: a [PointEntryWidget] with its percent,
    the value its spin box shows and whether it has a remove button, and an
    [AddPointButton] with its two percents. *)
Inductive ui_item : Set :=
  | PointEntryWidget (percent pwm_value : Z) (removable : bool)
  | AddPointButton (lower upper : Z).

(** The percent an [AddPointButton] names in its text (line 507). *)
Definition button_mid (lower_percent upper_percent : Z) : Z :=
  (lower_percent + upper_percent) `div` 2.

(** The attributes of [ChannelTab] the handlers compute with. The spin box
    [threshold_input] is its value; a timer is whether it runs, and
    [threshold_timer] is [None] until [_find_threshold] creates it;
    [curve_sweep_position] is [curve_display.sweep_position]. The laser is
    shared by the three tabs and passed to the handlers. *)
Record ChannelTab : Type := mkTab {
  channel_name : string;
  calibration : ChannelCalibration;
  points_layout : list ui_item;
  current_test_index : Z;
  threshold_input : Z;
  threshold_value : Z;
  threshold_timer : option bool;
  sweep_running : bool;
  sweep_position : num;
  sweep_direction : Z;
  sweep_timer : bool;
  curve_sweep_position : Z
}.

Definition set_calibration (t : ChannelTab) (c : ChannelCalibration) : ChannelTab :=
  mkTab (channel_name t) c (points_layout t) (current_test_index t)
        (threshold_input t) (threshold_value t) (threshold_timer t)
        (sweep_running t) (sweep_position t) (sweep_direction t) (sweep_timer t)
        (curve_sweep_position t).

Definition set_points_layout (t : ChannelTab) (l : list ui_item) : ChannelTab :=
  mkTab (channel_name t) (calibration t) l (current_test_index t)
        (threshold_input t) (threshold_value t) (threshold_timer t)
        (sweep_running t) (sweep_position t) (sweep_direction t) (sweep_timer t)
        (curve_sweep_position t).

Definition set_current_test_index (t : ChannelTab) (i : Z) : ChannelTab :=
  mkTab (channel_name t) (calibration t) (points_layout t) i
        (threshold_input t) (threshold_value t) (threshold_timer t)
        (sweep_running t) (sweep_position t) (sweep_direction t) (sweep_timer t)
        (curve_sweep_position t).

Definition set_threshold_input (t : ChannelTab) (v : Z) : ChannelTab :=
  mkTab (channel_name t) (calibration t) (points_layout t) (current_test_index t)
        v (threshold_value t) (threshold_timer t)
        (sweep_running t) (sweep_position t) (sweep_direction t) (sweep_timer t)
        (curve_sweep_position t).

Definition set_threshold_finder (t : ChannelTab) (v : Z) (timer : option bool) : ChannelTab :=
  mkTab (channel_name t) (calibration t) (points_layout t) (current_test_index t)
        (threshold_input t) v timer
        (sweep_running t) (sweep_position t) (sweep_direction t) (sweep_timer t)
        (curve_sweep_position t).

Definition set_sweep (t : ChannelTab) (running : bool) (position : num) (direction : Z)
    (timer : bool) : ChannelTab :=
  mkTab (channel_name t) (calibration t) (points_layout t) (current_test_index t)
        (threshold_input t) (threshold_value t) (threshold_timer t)
        running position direction timer
        (curve_sweep_position t).

Definition set_curve_sweep_position (t : ChannelTab) (percent : Z) : ChannelTab :=
  mkTab (channel_name t) (calibration t) (points_layout t) (current_test_index t)
        (threshold_input t) (threshold_value t) (threshold_timer t)
        (sweep_running t) (sweep_position t) (sweep_direction t) (sweep_timer t)
        percent.

(** *** The point list (lines 727-761) *)

(** [enumerate(l)] *)
Definition enumerate {A : Type} (l : list A) : list (nat * A) := imap pair l.

(** The body of the loop of lines 740-759: the widget of a point, and the
    button to the next point when the two are not adjacent. *)
Definition rebuild_body (c : ChannelCalibration) (sorted_percents : list Z)
    (layout : list ui_item) (ip : nat * Z) : res (list ui_item) :=
  let '(i, percent) := ip in
  pwm_value ← getitem (points c) percent;
  let removable := negb (bool_decide (percent = 0 ∨ percent = 100)) in
  let layout := layout ++ [PointEntryWidget percent pwm_value removable] in
  if Z.of_nat i <? Z.of_nat (length sorted_percents) - 1 then
    next_percent ← item sorted_percents (S i);
    if 1 <? next_percent - percent
    then Ok (layout ++ [AddPointButton percent next_percent])
    else Ok layout
  else Ok layout.

(** [_rebuild_points_ui]: the new content of [points_layout]. *)
Definition rebuild_points_ui (c : ChannelCalibration) : res (list ui_item) :=
  let sorted_percents := get_sorted_percents c in
  for_each (rebuild_body c sorted_percents) (enumerate sorted_percents) [].

(** [ChannelTab.__init__] and the state [_setup_ui] leaves. *)
Definition tab_init (name : string) : res ChannelTab :=
  let c := init name in
  layout ← rebuild_points_ui c;
  Ok (mkTab (py_lower name) c layout 0 0 0 None false (Flt 0) 1 false (-1)).

(** *** Editing the points (lines 763-796)

    A handler returns the tab and whether it emitted
    [calibration_changed]. *)

Definition on_point_value_changed (t : ChannelTab) (percent value : Z) : ChannelTab * bool :=
  (set_calibration t (set_point (calibration t) percent value), true).

Definition on_remove_point (t : ChannelTab) (percent : Z) : res (ChannelTab * bool) :=
  let t := set_calibration t (remove_point (calibration t) percent) in
  layout ← rebuild_points_ui (calibration t);
  Ok (set_points_layout t layout, true).

(** [if new_percent:] holds of an integer that is not 0. *)
Definition truthy (o : option Z) : bool :=
  match o with
  | Some z => negb (z =? 0)
  | None => false
  end.

Definition on_add_point (t : ChannelTab) (lower upper : Z) : res (ChannelTab * bool) :=
  let '(c, new_percent) := add_point_between (calibration t) lower upper in
  let t := set_calibration t c in
  if truthy new_percent then
    layout ← rebuild_points_ui (calibration t);
    Ok (set_points_layout t layout, true)
  else Ok (t, false).

Definition on_threshold_changed (t : ChannelTab) (value : Z) : ChannelTab * bool :=
  let c := calibration t in
  (set_calibration t (mkCal (name c) value (use_smooth c) (points c)), true).

Definition on_smooth_toggle (t : ChannelTab) (checked : bool) : ChannelTab * bool :=
  if checked then
    let c := calibration t in
    (set_calibration t (mkCal (name c) (threshold c) true (points c)), true)
  else (t, false).

Definition on_linear_toggle (t : ChannelTab) (checked : bool) : ChannelTab * bool :=
  if checked then
    let c := calibration t in
    (set_calibration t (mkCal (name c) (threshold c) false (points c)), true)
  else (t, false).

(** *** Testing a point (lines 768-778, 835-839, 924-933) *)

(** [value = self.calibration.interpolate(percent)] followed by
    [self.laser.send_channel(self.channel_name, value)]: the laser after
    the two calls and the value sent. *)
Definition send_interpolated (t : ChannelTab) (l : LaserSerial) (percent : Z)
  : result (LaserSerial * Z) :=
  value ← lift (interpolate (calibration t) (Int percent));
  l ← send_channel l (channel_name t) (Int value);
  Fine (l, value).

(** [_on_test_point] *)
Definition on_test_point (t : ChannelTab) (l : LaserSerial) (percent : Z)
  : result (LaserSerial * Z) :=
  send_interpolated t l percent.

(** [_on_sweep_change], the handler of the manual slider. *)
Definition on_sweep_change (t : ChannelTab) (l : LaserSerial) (percent : Z)
  : ChannelTab * result (LaserSerial * Z) :=
  match send_interpolated t l percent with
  | Fine lv => (set_curve_sweep_position t percent, Fine lv)
  | Failed e => (t, Failed e)
  end.

(** [_jump_to_next]: the index is assigned before the point is tested, so
    the tab is returned beside the outcome; the outcome holds the percent
    tested and the value sent, [None] when there is no point. *)
Definition jump_to_next (t : ChannelTab) (l : LaserSerial)
  : ChannelTab * result (LaserSerial * option (Z * Z)) :=
  let sorted_percents := get_sorted_percents (calibration t) in
  match sorted_percents with
  | [] => (t, Fine (l, None))
  | _ =>
      let t := set_current_test_index t
                 ((current_test_index t + 1) `mod` Z.of_nat (length sorted_percents)) in
      (t,
       percent ← lift (item sorted_percents (Z.to_nat (current_test_index t)));
       lv ← on_test_point t l percent;
       Fine (lv.1, Some (percent, lv.2)))
  end.

(** *** The threshold finder (lines 793-817) *)

(** [threshold_input.setValue(v)]: the spin box, whose range is 0..5000,
    keeps the value within its range and calls [_on_threshold_changed] when
    its value changes. *)
Definition threshold_input_setValue (t : ChannelTab) (v : Z) : ChannelTab :=
  let v := Z.max 0 (Z.min 5000 v) in
  if v =? threshold_input t then t
  else (on_threshold_changed (set_threshold_input t v) v).1.

Definition find_threshold (t : ChannelTab) : ChannelTab :=
  set_threshold_finder t 0 (Some true).

Definition threshold_tick (t : ChannelTab) (l : LaserSerial) : ChannelTab * result LaserSerial :=
  let t := set_threshold_finder t (threshold_value t + 10) (threshold_timer t) in
  match send_channel l (channel_name t) (Int (threshold_value t)) with
  | Failed e => (t, Failed e)
  | Fine l =>
      let t := threshold_input_setValue t (threshold_value t) in
      if 2000 <=? threshold_value t then
        let t := set_threshold_finder t (threshold_value t) (Some false) in
        (t, send_channel l (channel_name t) (Int 0))
      else (t, Fine l)
  end.

(** *** The sweep (lines 841-922) *)

(** [_stop_sweep] *)
Definition stop_sweep (t : ChannelTab) (l : LaserSerial) : ChannelTab * result LaserSerial :=
  let t := set_sweep t false (sweep_position t) (sweep_direction t) false in
  match send_channel l (channel_name t) (Int 0) with
  | Failed e => (t, Failed e)
  | Fine l => (set_curve_sweep_position t (-1), Fine l)
  end.

(** [_toggle_sweep] *)
Definition toggle_sweep (t : ChannelTab) (l : LaserSerial) (checked : bool)
    (direction_text : string) : ChannelTab * result LaserSerial :=
  if checked then
    if contains "Reverse" direction_text
    then (set_sweep t true (Flt 100) (-1) true, Fine l)
    else (set_sweep t true (Flt 0) 1 true, Fine l)
  else stop_sweep t l.

(** Lines 875-880: the position after one step; [0.02] is the binary64
    number nearest to it. *)
Definition sweep_step (position : num) (direction speed : Z) : res num :=
  step ← nmul (Int speed) (Flt 0x1.47ae147ae147bp-6);
  d ← nmul step (Int direction);
  nadd position d.

(** Lines 885-911: the position and the direction at a boundary, [None]
    when the sweep stops there. *)
Definition sweep_bounds (position : num) (direction : Z) (direction_text mode_text : string)
  : option (num * Z) :=
  if nge position (Int 100) then
    if contains "Loop" direction_text then Some (Int 100, -1)
    else if contains "Single" mode_text then None
    else Some (Int 0, direction)
  else if nle position (Int 0) then
    if contains "Loop" direction_text then Some (Int 0, 1)
    else if contains "Single" mode_text then None
    else Some (Int 100, direction)
  else Some (position, direction).

(** The position the attribute holds when the sweep stops at a boundary:
    the boundary, assigned before [_stop_sweep] is called. *)
Definition sweep_stop_position (position : num) : num :=
  if nge position (Int 100) then Int 100 else Int 0.

(** [_sweep_tick] with the values of the speed slider and of the two combo
    boxes. *)
Definition sweep_tick (t : ChannelTab) (l : LaserSerial) (speed : Z)
    (direction_text mode_text : string) : ChannelTab * result LaserSerial :=
  if negb (sweep_running t) then (t, Fine l)
  else
    match sweep_step (sweep_position t) (sweep_direction t) speed with
    | Raise e => (t, Failed (Exn e))
    | Ok position =>
        match sweep_bounds position (sweep_direction t) direction_text mode_text with
        | None =>
            stop_sweep (set_sweep t (sweep_running t) (sweep_stop_position position)
                                  (sweep_direction t) (sweep_timer t)) l
        | Some (position, direction) =>
            let t := set_sweep t (sweep_running t) position direction (sweep_timer t) in
            match py_int (sweep_position t) with
            | Raise e => (t, Failed (Exn e))
            | Ok percent =>
                match send_interpolated t l percent with
                | Failed e => (t, Failed e)
                | Fine lv => (set_curve_sweep_position t percent, Fine lv.1)
                end
            end
        end
    end.

(** [ChannelTab.stop] *)
Definition tab_stop (t : ChannelTab) (l : LaserSerial) : ChannelTab * result LaserSerial :=
  match send_channel l (channel_name t) (Int 0) with
  | Failed e => (t, Failed e)
  | Fine l =>
      let t := set_threshold_finder t (threshold_value t)
                 (match threshold_timer t with Some _ => Some false | None => None end) in
      (set_sweep t false (sweep_position t) (sweep_direction t) false, Fine l)
  end.
(** ** The export tab (lines 954-1089) *)

(** [s.split()]: the words between runs of blanks. *)
Definition starts_with_space (s : string) : bool :=
  match s with
  | String b _ => is_space b
  | EmptyString => true
  end.

Fixpoint split (s : string) : list string :=
  match s with
  | EmptyString => []
  | String a s' =>
      if is_space a then split s'
      else if starts_with_space s' then String a EmptyString :: split s'
      else
        match split s' with
        | w :: ws => String a w :: ws
        | [] => [String a EmptyString]
        end
  end.

(** [_get_size]: [int(text.split()[0])] *)
Definition get_size (text : string) : res Z :=
  word ← item (split text) 0;
  int_of_str word.

Fixpoint spaces (n : nat) : string :=
  match n with
  | O => EmptyString
  | S n' => String " " (spaces n')
  end.

(** [f"{val:5d}"]: the decimal digits, after blanks when they are fewer
    than five characters. *)
Definition format_5d (val : Z) : string :=
  let s := py_str val in
  spaces (5 - String.length s) +:+ s.

(** The body of the loop of lines 1034-1039 on a table of [n] entries: the
    state is the current [row] and the [lines] so far. *)
Definition row_body (n : Z) (st : list string * list string) (iv : nat * Z)
  : list string * list string :=
  let '(row, lines) := st in
  let '(i, val) := iv in
  let row := row ++ [format_5d val] in
  if (length row =? 8)%nat || (Z.of_nat i =? n - 1) then
    let comma := if Z.of_nat i <? n - 1 then "," else "" in
    ([], lines ++ ["    " +:+ String.concat ", " row +:+ comma])
  else (row, lines).

(** Lines 1033-1039: the lines of the rows of a table, added to [lines]. *)
Definition code_rows (lut : list Z) (lines : list string) : list string :=
  (foldl (row_body (Z.of_nat (length lut))) ([], lines) (enumerate lut)).2.

(** Lines 1027-1042 for one channel. *)
Definition code_channel (lines : list string) (name : string) (cal : ChannelCalibration)
    (size : Z) : res (list string) :=
  lut ← generate_lut cal size;
  let lines :=
    lines ++ ["// " +:+ name +:+ ": Threshold=" +:+ py_str (threshold cal)
              +:+ ", Points=" +:+ py_str (Z.of_nat (base.size (points cal)))] in
  let lines :=
    lines ++ ["const uint16_t " +:+ name +:+ "_LUT[" +:+ py_str size +:+ "] PROGMEM = {"] in
  let lines := code_rows lut lines in
  Ok (lines ++ ["};"; ""]).

Definition newline : string := String (ascii_of_N 10) EmptyString.

(** [_generate_code]: the text of the code view, for the text of the size
    box and the three curves. *)
Definition generate_code (size_text : string) (red green blue : ChannelCalibration)
  : res string :=
  size ← get_size size_text;
  let lines :=
    ["// Laser Calibration LUTs (" +:+ py_str size +:+ " entries each)";
     "// Generated by Direct Calibration Wizard";
     ""] in
  lines ← code_channel lines "RED" red size;
  lines ← code_channel lines "GREEN" green size;
  lines ← code_channel lines "BLUE" blue size;
  Ok (String.concat newline lines).

(** The tab: the three curves, which it shares with the channel tabs, the
    text of the size box and the text of the code view. *)
Record ExportTab : Type := mkExport {
  red_cal : ChannelCalibration;
  green_cal : ChannelCalibration;
  blue_cal : ChannelCalibration;
  size_text : string;
  code_text : string
}.

(** A calibration file as [json.load] returns it: a dictionary in which
    each of ['red'], ['green'] and ['blue'] may be absent, holding the
    dictionaries [to_dict] writes. *)
Record calibration_file : Type := mkFile {
  file_red : option snapshot;
  file_green : option snapshot;
  file_blue : option snapshot
}.

(** [_save_json]: the dictionary handed to [json.dump]. *)
Definition save_json (e : ExportTab) : calibration_file :=
  mkFile (Some (to_dict (red_cal e))) (Some (to_dict (green_cal e)))
         (Some (to_dict (blue_cal e))).

(** [refresh], and the last line of [_load_json]: the code view is set
    when [_generate_code] returns. *)
Definition refresh (e : ExportTab) : ExportTab * option exn :=
  match generate_code (size_text e) (red_cal e) (green_cal e) (blue_cal e) with
  | Ok text => (mkExport (red_cal e) (green_cal e) (blue_cal e) (size_text e) text, None)
  | Raise x => (e, Some x)
  end.

(** [if channel in data: cal.from_dict(data[channel])] *)
Definition load_channel (c : ChannelCalibration) (data : option snapshot)
  : ChannelCalibration * option exn :=
  match data with
  | Some d => from_dict c d
  | None => (c, None)
  end.

(** [_load_json] on the dictionary read from the file: the curves are
    loaded in turn and an exception ends the call where it is raised. *)
Definition load_json (e : ExportTab) (data : calibration_file) : ExportTab * option exn :=
  match load_channel (red_cal e) (file_red data) with
  | (r, Some x) => (mkExport r (green_cal e) (blue_cal e) (size_text e) (code_text e), Some x)
  | (r, None) =>
      match load_channel (green_cal e) (file_green data) with
      | (g, Some x) => (mkExport r g (blue_cal e) (size_text e) (code_text e), Some x)
      | (g, None) =>
          match load_channel (blue_cal e) (file_blue data) with
          | (b, Some x) => (mkExport r g b (size_text e) (code_text e), Some x)
          | (b, None) => refresh (mkExport r g b (size_text e) (code_text e))
          end
      end
  end.

(** The numbers of a line of a table, read back: the line is cut at its
    commas and [int] reads every piece that is not blank. *)
Fixpoint cut_commas (s : string) : list string :=
  match s with
  | EmptyString => [EmptyString]
  | String a s' =>
      if Ascii.eqb a "," then EmptyString :: cut_commas s'
      else
        match cut_commas s' with
        | w :: ws => String a w :: ws
        | [] => [String a EmptyString]
        end
  end.

Definition is_blank (s : string) : bool :=
  match lstrip s with
  | EmptyString => true
  | _ => false
  end.

Definition read_row (line : string) : res (list Z) :=
  mapM int_of_str (filter (λ w, is_blank w = false) (cut_commas line)).
(** ** The curve display (lines 305-421) *)

(** What [paintEvent] draws of a curve: lines and ellipses, in pixels, with
    the arguments of [drawLine] and [drawEllipse]. *)
Inductive shape : Set :=
  | Line (x1 y1 x2 y2 : Z)
  | Ellipse (x y w h : Z).

(** The plot area (lines 332-335): its corner [x, y] and its size [w, h],
    for the width and the height of the widget. *)
Record plot : Set := mkPlot {
  plot_x : Z;
  plot_y : Z;
  plot_w : Z;
  plot_h : Z
}.

Definition margin : Z := 35.

Definition plot_area (width height : Z) : plot :=
  let m := margin in
  mkPlot m 15 (width - m - 15) (height - m - 15).

(** [x + int((percent / 100) * w)] *)
Definition pixel_x (a : plot) (percent : Z) : res Z :=
  q ← ndiv (Int percent) (Int 100);
  s ← nmul q (Int (plot_w a));
  i ← py_int s;
  Ok (plot_x a + i).

(** [y + h - int((value / PWM_MAX) * h)] *)
Definition pixel_y (a : plot) (value : Z) : res Z :=
  q ← ndiv (Int value) (Int PWM_MAX);
  s ← nmul q (Int (plot_h a));
  i ← py_int s;
  Ok (plot_y a + plot_h a - i).

(** The pixels of a curve at the percents 0 to 100 (lines 364-368 and
    377-381), [eval] being [interpolate_linear] or [interpolate]. *)
Definition curve_pixels (a : plot) (eval : num → res Z) : res (list (Z * Z)) :=
  mapM (λ i, value ← eval (Int i);
             px ← pixel_x a i;
             py ← pixel_y a value;
             Ok (px, py))
       (seqZ 0 101).

(** Lines 369-371 and 383-385: a line from every pixel to the next. *)
Fixpoint polyline (prev : option (Z * Z)) (pixels : list (Z * Z)) : list shape :=
  match pixels with
  | [] => []
  | p :: rest =>
      match prev with
      | Some q => Line q.1 q.2 p.1 p.2 :: polyline (Some p) rest
      | None => polyline (Some p) rest
      end
  end.

(** Lines 388-394: the marker of a stored point. *)
Definition marker (a : plot) (point : Z * Z) : res shape :=
  let '(percent, value) := point in
  px ← pixel_x a percent;
  py ← pixel_y a value;
  Ok (Ellipse (px - 5) (py - 5) 10 10).

(** [paintEvent], lines 351-409: what is drawn of the curve, in the order
    of the calls: the threshold line, the linear curve of a smooth curve,
    the curve, the markers of the points (here in the order of the map's
    enumeration) and the sweep indicator. [None] is a widget without
    calibration. *)
Definition paint_curve (width height : Z) (calibration : option ChannelCalibration)
    (sweep_position : Z) : res (list shape) :=
  let a := plot_area width height in
  let x := plot_x a in
  let y := plot_y a in
  let w := plot_w a in
  let h := plot_h a in
  match calibration with
  | None => Ok []
  | Some cal =>
      thresh ← (if 0 <? threshold cal then
                  thresh_y ← pixel_y a (threshold cal);
                  Ok [Line x thresh_y (x + w) thresh_y]
                else Ok []);
      faint ← (if use_smooth cal && (3 <=? size (points cal))%nat then
                 pixels ← curve_pixels a (interpolate_linear cal);
                 Ok (polyline None pixels)
               else Ok []);
      pixels ← curve_pixels a (interpolate cal);
      markers ← mapM (marker a) (map_to_list (points cal));
      sweep ← (if (0 <=? sweep_position) && (sweep_position <=? 100) then
                 sweep_x ← pixel_x a sweep_position;
                 sweep_value ← interpolate cal (Int sweep_position);
                 sweep_y ← pixel_y a sweep_value;
                 Ok [Line sweep_x y sweep_x (y + h);
                     Ellipse (sweep_x - 6) (sweep_y - 6) 12 12]
               else Ok []);
      Ok (thresh ++ faint ++ polyline None pixels ++ markers ++ sweep)
  end.
(** ** The main window (lines 1094-1231) *)

(** The attributes of [DirectCalibrationWizard] its handlers compute with:
    the one [LaserSerial], which the three tabs share, the three tabs, the
    items of the port box with the index of the current one, and the texts
    of the connect button and of the status label. *)
Record DirectCalibrationWizard : Type := mkWizard {
  laser : LaserSerial;
  red_tab : ChannelTab;
  green_tab : ChannelTab;
  blue_tab : ChannelTab;
  port_items : list string;
  port_index : nat;
  connect_btn : string;
  status_label : string
}.

(** [port_combo.currentText()]: the empty string when there is no current
    item. *)
Definition port_text (w : DirectCalibrationWizard) : string :=
  default "" (port_items w !! port_index w).

(** [_refresh_ports], for the list [list_ports] returns: the box is
    cleared and filled, and its first item becomes the current one. *)
Definition refresh_ports (w : DirectCalibrationWizard) (ports : list string)
  : DirectCalibrationWizard :=
  let items := match ports with
               | [] => ["No ports found"]
               | _ => ports
               end in
  mkWizard (laser w) (red_tab w) (green_tab w) (blue_tab w) items 0
           (connect_btn w) (status_label w).

(** [__init__] and [_setup_ui], for the ports found at start. *)
Definition wizard_init (ports : list string) : res DirectCalibrationWizard :=
  red ← tab_init "Red";
  green ← tab_init "Green";
  blue ← tab_init "Blue";
  Ok (refresh_ports (mkWizard laser_init red green blue [] 0 "Connect" "Disconnected") ports).

(** [if port:] holds of a string that is not empty. *)
Definition nonempty (s : string) : bool :=
  match s with
  | EmptyString => false
  | _ => true
  end.

(** [_toggle_connection]; [opened] is what [serial.Serial] gives for the
    current port, [None] when it raises. *)
Definition toggle_connection (w : DirectCalibrationWizard) (opened : option Serial)
  : DirectCalibrationWizard * option error :=
  if is_connected (laser w) then
    match disconnect (laser w) with
    | Failed e => (w, Some e)
    | Fine l =>
        (mkWizard l (red_tab w) (green_tab w) (blue_tab w) (port_items w) (port_index w)
                  "Connect" "Disconnected", None)
    end
  else
    let port := port_text w in
    if nonempty port && negb (contains "No ports" port) then
      match connect (laser w) port opened with
      | (l, true) =>
          (mkWizard l (red_tab w) (green_tab w) (blue_tab w) (port_items w) (port_index w)
                    "Disconnect" ("Connected: " +:+ port), None)
      | (l, false) =>
          (mkWizard l (red_tab w) (green_tab w) (blue_tab w) (port_items w) (port_index w)
                    (connect_btn w) (status_label w), None)
      end
    else (w, None).

(** [closeEvent]: the three tabs are stopped in turn, then the link is
    closed; an exception ends the call where it is raised. *)
Definition close_event (w : DirectCalibrationWizard) : DirectCalibrationWizard * option error :=
  let finish r g b l e :=
    (mkWizard l r g b (port_items w) (port_index w) (connect_btn w) (status_label w), e) in
  match tab_stop (red_tab w) (laser w) with
  | (r, Failed e) => finish r (green_tab w) (blue_tab w) (laser w) (Some e)
  | (r, Fine l) =>
      match tab_stop (green_tab w) l with
      | (g, Failed e) => finish r g (blue_tab w) l (Some e)
      | (g, Fine l) =>
          match tab_stop (blue_tab w) l with
          | (b, Failed e) => finish r g b l (Some e)
          | (b, Fine l) =>
              match disconnect l with
              | Failed e => finish r g b l (Some e)
              | Fine l => finish r g b l None
              end
          end
      end
  end.
(** ** Vocabulary of the properties of the link and the interface *)

(** The place of a channel in a frame: red, green, blue. *)
Definition channel_slot (channel : string) : option nat :=
  if String.eqb channel "red" then Some 0%nat
  else if String.eqb channel "green" then Some 1%nat
  else if String.eqb channel "blue" then Some 2%nat
  else None.

(** A port that is open and takes what is written to it. *)
Definition working (l : LaserSerial) : Prop :=
  ∃ s, ser l = Some s ∧ is_open s = true ∧ accepts s = true.

(** The laser [l] after the device has been sent [data]. *)
Definition sent (l : LaserSerial) (data : list Z) : LaserSerial :=
  mkLaser (ser l) (port l) (wire l ++ data).

(** [l] and [u] are two keys of the curve with no key between them. *)
Definition consecutive (c : ChannelCalibration) (l u : Z) : Prop :=
  is_Some (points c !! l) ∧ is_Some (points c !! u) ∧ l < u
  ∧ ∀ k, l < k < u → points c !! k = None.

(** The percent of a point widget. *)
Definition widget_percent (w : ui_item) : option Z :=
  match w with
  | PointEntryWidget percent _ _ => Some percent
  | AddPointButton _ _ => None
  end.

(** The widgets of the points at the keys [l], in turn: each point, and a
    button after it when the next key is not the next integer. *)
Fixpoint widgets_of (c : ChannelCalibration) (l : list Z) : list ui_item :=
  match l with
  | [] => []
  | p :: rest =>
      PointEntryWidget p (default 0 (points c !! p)) (negb (bool_decide (p = 0 ∨ p = 100)))
      :: match rest with
         | q :: _ => if 1 <? q - p then AddPointButton p q :: widgets_of c rest
                     else widgets_of c rest
         | [] => []
         end
  end.

(** The tab after [k] presses of the jump button. *)
Fixpoint jumps (k : nat) (t : ChannelTab) (l : LaserSerial) : ChannelTab :=
  match k with
  | O => t
  | S k' => (jump_to_next (jumps k' t l) l).1
  end.

(** The frame that holds [r], [g] and [b], and the frame [send_channel]
    sends for a value within [0, 65535]. *)
Definition rgb_frame (r g b : Z) : list Z :=
  [Z.land r 255; Z.shiftr r 8; Z.land g 255; Z.shiftr g 8; Z.land b 255; Z.shiftr b 8].

Definition channel_frame (channel : string) (v : Z) : list Z :=
  if String.eqb channel "red" then rgb_frame v 0 0
  else if String.eqb channel "green" then rgb_frame 0 v 0
  else if String.eqb channel "blue" then rgb_frame 0 0 v
  else [].

(** [k] ticks of the timer of the threshold finder. *)
Fixpoint threshold_ticks (k : nat) (t : ChannelTab) (l : LaserSerial)
  : ChannelTab * result LaserSerial :=
  match k with
  | O => (t, Fine l)
  | S k' =>
      match threshold_ticks k' t l with
      | (t', Fine l') => threshold_tick t' l'
      | (t', Failed e) => (t', Failed e)
      end
  end.

(** A binary64 number that is neither an infinity nor a NaN. *)
Definition finite_float (f : float) : bool :=
  match Prim2SF f with
  | S754_zero _ | S754_finite _ _ _ => true
  | _ => false
  end.

(** A number that is not a NaN. *)
Definition not_nan (a : num) : Prop :=
  match a with
  | Int _ => True
  | Flt f => Prim2SF f ≠ S754_nan
  end.

(** The steps of the sweep at every speed of the slider, forward and
    backward, are finite, and so is the [float] of every whole percent. *)
Definition sweep_steps_ok : bool :=
  all_from 100 1
    (λ speed,
       finite_float (float_of speed * 0x1.47ae147ae147bp-6 * float_of 1)
       && finite_float (float_of speed * 0x1.47ae147ae147bp-6 * float_of (-1)))
  && all_from 101 0 (λ z, finite_float (float_of z)).

(** The state of a sweep: a position from 0 to 100 and a direction. *)
Definition sweep_ok (t : ChannelTab) : Prop :=
  nle (Int 0) (sweep_position t) = true
  ∧ nle (sweep_position t) (Int 100) = true
  ∧ (sweep_direction t = 1 ∨ sweep_direction t = -1).

(** Every character of [s] satisfies [P]. *)
Fixpoint all_chars (P : ascii → bool) (s : string) : bool :=
  match s with
  | EmptyString => true
  | String a s' => P a && all_chars P s'
  end.

(** A character that is neither a blank nor a comma. *)
Definition plain (a : ascii) : bool := negb (is_space a) && negb (Ascii.eqb a ",").

(** The last character of [s] is a comma. *)
Fixpoint ends_with_comma (s : string) : bool :=
  match s with
  | EmptyString => false
  | String a EmptyString => Ascii.eqb a ","
  | String _ s' => ends_with_comma s'
  end.

(** A character that is no comma. *)
Definition not_comma (a : ascii) : bool := negb (Ascii.eqb a ",").

(** The order between a binary64 number and an integer, not strict: [x] is
    no NaN and [lo ≤ x], [x ≤ hi]. *)
Definition SF_geZ (x : spec_float) (n : Z) : Prop :=
  SF_cmp_Z x n = Some Gt ∨ SF_cmp_Z x n = Some Eq.

Definition SF_leZ (x : spec_float) (n : Z) : Prop :=
  SF_cmp_Z x n = Some Lt ∨ SF_cmp_Z x n = Some Eq.

Definition SF_between (lo hi : Z) (x : spec_float) : Prop := SF_geZ x lo ∧ SF_leZ x hi.

Definition between (lo hi : Z) (f : float) : Prop := SF_between lo hi (Prim2SF f).

(** A location that is not exact. *)
Definition inexact (l : location) : bool :=
  match l with
  | loc_Exact => false
  | loc_Inexact _ => true
  end.

(** A pixel within the plot area, edges included. *)
Definition inside (a : plot) (p : Z * Z) : Prop :=
  plot_x a ≤ p.1 ≤ plot_x a + plot_w a ∧ plot_y a ≤ p.2 ≤ plot_y a + plot_h a.

(** A line whose two ends, and an ellipse whose centre, are within the
    plot area. *)
Definition shape_inside (a : plot) (s : shape) : Prop :=
  match s with
  | Line x1 y1 x2 y2 => inside a (x1, y1) ∧ inside a (x2, y2)
  | Ellipse x y w h => inside a (x + w `div` 2, y + h `div` 2)
  end.

(** [k] ticks of the timer of the sweep, the slider and the two combo
    boxes left as they are. *)
Fixpoint sweep_ticks (k : nat) (t : ChannelTab) (l : LaserSerial) (speed : Z)
    (direction_text mode_text : string) : ChannelTab * result LaserSerial :=
  match k with
  | O => (t, Fine l)
  | S k' =>
      match sweep_ticks k' t l speed direction_text mode_text with
      | (t', Fine l') => sweep_tick t' l' speed direction_text mode_text
      | (t', Failed e) => (t', Failed e)
      end
  end.

(** A curve of the documented domain: at least one point, keys from 0 to
    100, values from 0 to 65535, and a threshold from 0 to 65535. *)
Definition documented (c : ChannelCalibration) : Prop :=
  keys_in_range c ∧ values_in_range c ∧ points c ≠ ∅ ∧ 0 ≤ threshold c ≤ 65535.

(** The lines of the code view for one channel and its table. *)
Definition channel_lines (name : string) (cal : ChannelCalibration) (size : Z)
    (lut : list Z) : list string :=
  ["// " +:+ name +:+ ": Threshold=" +:+ py_str (threshold cal)
     +:+ ", Points=" +:+ py_str (Z.of_nat (base.size (points cal)));
   "const uint16_t " +:+ name +:+ "_LUT[" +:+ py_str size +:+ "] PROGMEM = {"]
  ++ code_rows lut [] ++ ["};"; ""].

(** The first lines of the code view. *)
Definition code_header (size : Z) : list string :=
  ["// Laser Calibration LUTs (" +:+ py_str size +:+ " entries each)";
   "// Generated by Direct Calibration Wizard";
   ""].

(** The binary order of magnitude of a finite number that is not zero:
    [E = digits m + e], so that [2^(E-1) ≤ |x| < 2^E]. [SF_mag lo hi x]:
    [x] is a zero, or finite with [lo ≤ E ≤ hi]; [SF_nz s lo hi x]: [x] is
    finite and not zero, of sign [s], with [lo ≤ E ≤ hi]. *)
Definition SF_mag (lo hi : Z) (x : spec_float) : Prop :=
  match x with
  | S754_zero _ => True
  | S754_finite _ m e => lo ≤ Z.pos (digits2_pos m) + e ≤ hi
  | _ => False
  end.

Definition SF_nz (s : bool) (lo hi : Z) (x : spec_float) : Prop :=
  match x with
  | S754_finite s' m e => s' = s ∧ lo ≤ Z.pos (digits2_pos m) + e ≤ hi
  | _ => False
  end.

(** A tangent that is the integer 0 or a [float] of bounded magnitude. *)
Definition num_mag (lo hi : Z) (t : num) : Prop :=
  match t with
  | Int z => z = 0
  | Flt f => SF_mag lo hi (Prim2SF f)
  end.

(** A secant of a curve of the documented domain: a [float] that is a zero
    or of an order of magnitude from -6 to 18. *)
Definition delta_mag (d : num) : Prop := ∃ f, d = Flt f ∧ SF_mag (-6) 18 (Prim2SF f).

(** [r] is [x] truncated toward zero: the integer with [r ≤ x < r + 1] when
    [x] is not negative and with [r - 1 < x ≤ r] when it is, in the exact
    order between numbers and integers; a NaN and the infinities have
    none. *)
Definition truncation (x : num) (r : Z) : Prop :=
  match ncompare x (Int 0) with
  | Some Lt => nle x (Int r) = true ∧ nlt (Int (r - 1)) x = true
  | Some _ => nle (Int r) x = true ∧ nlt x (Int (r + 1)) = true
  | None => False
  end.
(** * Theorems *)

(** ** Point management *)

(** C5, as amended: [set_point] always succeeds and stores, under the
    percent it is given (which it does not clamp), the value clamped to
    [0, 65535]; the keys of the curve are the old ones and that percent. *)
Theorem set_point_stores_clamped_value c percent pwm_value :
  points (set_point c percent pwm_value) !! percent = Some (clamp_pwm pwm_value)
  ∧ 0 ≤ clamp_pwm pwm_value ≤ 65535
  ∧ (0 ≤ pwm_value ≤ 65535 → clamp_pwm pwm_value = pwm_value)
  ∧ (pwm_value < 0 → clamp_pwm pwm_value = 0)
  ∧ (65535 < pwm_value → clamp_pwm pwm_value = 65535)
  ∧ dom (points (set_point c percent pwm_value)) = {[percent]} ∪ dom (points c).
Proof.
  unfold set_point, clamp_pwm, PWM_MAX; simpl.
  rewrite lookup_insert_eq, dom_insert_L.
  repeat split; lia.
Qed.

(** C5, counterexample: [set_point(150, 7)] on the default curve stores key
    150, outside 0..100, and leaves key 100 as it was. *)
Lemma set_point_key_outside_range :
  points (set_point (init "red") 150 7) !! 150 = Some 7
  ∧ points (set_point (init "red") 150 7) !! 100 = Some 65535
  ∧ ¬ keys_in_range (set_point (init "red") 150 7).
Proof.
  assert (H : points (set_point (init "red") 150 7) !! 150 = Some 7) by reflexivity.
  split; [exact H|]. split; [reflexivity|].
  intros Hr. specialize (Hr 150 (ex_intro _ _ H)). lia.
Qed.

(** C6: [add_point_between] takes the floor midpoint; it returns [None] and
    leaves the curve alone when the midpoint is a stored key or one of the
    two arguments; otherwise it stores there the floor average of the values
    at the arguments (0 and 65535 standing for an absent lower and upper
    one) and returns the midpoint. So (20, 21) creates nothing and (20, 30)
    creates 25 when 25 is free. *)
Theorem add_point_between_spec c lower upper :
  let mid := midpoint lower upper in
  let seed := (default 0 (points c !! lower) + default 65535 (points c !! upper)) `div` 2 in
  (is_Some (points c !! mid) ∨ mid = lower ∨ mid = upper →
     add_point_between c lower upper = (c, None))
  ∧ (points c !! mid = None → mid ≠ lower → mid ≠ upper →
     add_point_between c lower upper
       = (with_points c (<[mid := seed]> (points c)), Some mid))
  ∧ (upper = lower + 1 → add_point_between c lower upper = (c, None))
  ∧ add_point_between c 20 21 = (c, None)
  ∧ (points c !! 25 = None →
     add_point_between c 20 30
       = (with_points c (<[25 := (default 0 (points c !! 20) + default 65535 (points c !! 30)) `div` 2]> (points c)),
          Some 25)).
Proof.
  intros mid seed.
  assert (Hdecl : is_Some (points c !! mid) ∨ mid = lower ∨ mid = upper →
     add_point_between c lower upper = (c, None)).
  { intros H. unfold add_point_between. fold (midpoint lower upper). fold mid.
    destruct H as [[v Hv]|[H|H]].
    - rewrite bool_decide_eq_false_2 by congruence. done.
    - rewrite (proj2 (Z.eqb_eq mid lower) H). by rewrite andb_false_r.
    - rewrite (proj2 (Z.eqb_eq mid upper) H). by rewrite andb_false_r. }
  assert (Hok : ∀ l u, points c !! midpoint l u = None → midpoint l u ≠ l → midpoint l u ≠ u →
     add_point_between c l u
       = (with_points c (<[midpoint l u := (default 0 (points c !! l) + default 65535 (points c !! u)) `div` 2]> (points c)), Some (midpoint l u))).
  { intros l u H1 H2 H3. unfold add_point_between. fold (midpoint l u).
    rewrite bool_decide_eq_true_2 by done.
    rewrite (proj2 (Z.eqb_neq _ _) H2), (proj2 (Z.eqb_neq _ _) H3). done. }
  split; [exact Hdecl|]. split; [apply Hok|].
  split.
  { intros ->. apply Hdecl. right; left. unfold mid, midpoint.
    replace (lower + (lower + 1)) with (1 + lower * 2) by lia.
    rewrite Z.div_add by lia. change (1 `div` 2) with 0. lia. }
  split.
  { unfold add_point_between. replace ((20 + 21) `div` 2) with 20 by reflexivity.
    simpl. by rewrite andb_false_r. }
  intros H. apply (Hok 20 30); unfold midpoint; simpl; done.
Qed.

Lemma with_points_id c : with_points c (points c) = c.
Proof. by destruct c. Qed.

Lemma set_point_endpoints c p v : has_endpoints c → has_endpoints (set_point c p v).
Proof.
  intros [H0 H100]. unfold has_endpoints, set_point; simpl.
  rewrite !lookup_insert_is_Some. split; destruct (decide (p = 0)), (decide (p = 100)); auto.
Qed.

Lemma remove_point_endpoints c p : has_endpoints c → has_endpoints (remove_point c p).
Proof.
  intros [H0 H100]. unfold has_endpoints, remove_point.
  case_bool_decide as Hp; [done|]. simpl.
  rewrite !lookup_delete_ne by (intros ->; apply Hp; auto). done.
Qed.

Lemma add_point_between_endpoints c l u :
  has_endpoints c → has_endpoints (add_point_between c l u).1.
Proof.
  intros [H0 H100]. unfold has_endpoints, add_point_between.
  case_match; simpl; [|done].
  rewrite !lookup_insert_is_Some.
  split; [destruct (decide ((l + u) `div` 2 = 0))|destruct (decide ((l + u) `div` 2 = 100))]; auto.
Qed.

Lemma init_endpoints nm : has_endpoints (init nm).
Proof. split; eexists; reflexivity. Qed.

Lemma apply_edits_endpoints es : ∀ c, has_endpoints c → has_endpoints (apply_edits c es).
Proof.
  unfold apply_edits. induction es as [|e es IH]; intros c Hc; simpl; [done|].
  apply IH. destruct e; simpl;
    auto using set_point_endpoints, remove_point_endpoints, add_point_between_endpoints.
Qed.

Lemma endpoints_size c : has_endpoints c → (2 ≤ size (points c))%nat.
Proof.
  intros [H0 H100].
  assert (Hsub : ({[0; 100]} : gset Z) ⊆ dom (points c)).
  { intros k Hk. apply elem_of_dom.
    apply elem_of_union in Hk as [Hk|Hk]; apply elem_of_singleton in Hk; by subst. }
  apply subseteq_size in Hsub. rewrite size_dom in Hsub.
  rewrite size_union, !size_singleton in Hsub; [done|].
  intros k Hk1 Hk2. apply elem_of_singleton in Hk1, Hk2. lia.
Qed.

(** C7: after any sequence of edits of the default curve the keys 0 and 100
    are present and the curve has at least two points; removing 0, 100 or
    an absent key changes nothing, removing another key deletes it. *)
Theorem endpoints_never_removed :
  (∀ nm es,
     let c := apply_edits (init nm) es in
     is_Some (points c !! 0) ∧ is_Some (points c !! 100) ∧ (2 ≤ size (points c))%nat)
  ∧ (∀ c, remove_point c 0 = c)
  ∧ (∀ c, remove_point c 100 = c)
  ∧ (∀ c p, points c !! p = None → remove_point c p = c)
  ∧ (∀ c p, p ≠ 0 → p ≠ 100 →
       points (remove_point c p) = delete p (points c)
       ∧ points (remove_point c p) !! p = None).
Proof.
  split.
  { intros nm es c.
    assert (Hc : has_endpoints c) by (apply apply_edits_endpoints, init_endpoints).
    split; [apply Hc|]. split; [apply Hc|]. by apply endpoints_size. }
  split; [done|]. split; [done|]. split.
  { intros c p Hp. unfold remove_point. case_bool_decide; [done|].
    rewrite delete_id by done. apply with_points_id. }
  intros c p H0 H100. unfold remove_point.
  rewrite bool_decide_eq_false_2 by (intros [?|?]; done). simpl.
  split; [done|apply lookup_delete_eq].
Qed.

(** C10: [set_point] and [remove_point] leave the settings and every entry
    but the one at their percent unchanged; [add_point_between] either
    returns [None] and the curve unchanged, or returns the midpoint, which
    was free, and changes that entry only. *)
Theorem edits_touch_one_entry :
  (∀ c p v, same_settings c (set_point c p v)
            ∧ ∀ k, k ≠ p → points (set_point c p v) !! k = points c !! k)
  ∧ (∀ c p, same_settings c (remove_point c p)
            ∧ ∀ k, k ≠ p → points (remove_point c p) !! k = points c !! k)
  ∧ (∀ c l u,
       match add_point_between c l u with
       | (c', Some mid) =>
           mid = (l + u) `div` 2 ∧ points c !! mid = None
           ∧ same_settings c c'
           ∧ ∀ k, k ≠ mid → points c' !! k = points c !! k
       | (c', None) => c' = c
       end).
Proof.
  split; [|split].
  - intros c p v. split; [done|]. intros k Hk. unfold set_point; simpl.
    by rewrite lookup_insert_ne.
  - intros c p. unfold remove_point. case_bool_decide; [done|].
    split; [done|]. intros k Hk; simpl. by rewrite lookup_delete_ne.
  - intros c l u. unfold add_point_between.
    destruct (bool_decide (points c !! ((l + u) `div` 2) = None)
              && negb ((l + u) `div` 2 =? l) && negb ((l + u) `div` 2 =? u)) eqn:Hg; [|done].
    apply andb_prop in Hg as [Hg _]. apply andb_prop in Hg as [Hg _].
    apply bool_decide_eq_true in Hg.
    split; [done|]. split; [done|]. split; [done|].
    intros k Hk; simpl. by rewrite lookup_insert_ne.
Qed.

(** ** Snapshots *)

Lemma digit_cases (d : N) :
  (d < 10)%N →
  d = 0%N ∨ d = 1%N ∨ d = 2%N ∨ d = 3%N ∨ d = 4%N ∨ d = 5%N ∨ d = 6%N
  ∨ d = 7%N ∨ d = 8%N ∨ d = 9%N.
Proof. lia. Qed.

Lemma digit_val_pretty d : (d < 10)%N → digit_val (pretty_N_char d) = Some (Z.of_N d).
Proof. intros H. apply digit_cases in H. destruct_or!; subst; reflexivity. Qed.

Lemma is_space_pretty d : (d < 10)%N → is_space (pretty_N_char d) = false.
Proof. intros H. apply digit_cases in H. destruct_or!; subst; reflexivity. Qed.

(** Every blank of [int] is a blank of [str.split]. *)
Lemma int_space_is_space a : is_space a = false → is_int_space a = false.
Proof. by destruct a as [[] [] [] [] [] [] [] []]. Qed.

Lemma lstrip_no_space s : no_space s = true → lstrip s = s.
Proof.
  destruct s as [|a s]; [done|]. simpl. intros H%andb_prop.
  destruct H as [H%negb_true_iff%int_space_is_space _]. by rewrite H.
Qed.

Lemma rstrip_no_space s : no_space s = true → rstrip s = s.
Proof.
  induction s as [|a s IH]; [done|]. simpl. intros H%andb_prop.
  destruct H as [Ha%negb_true_iff%int_space_is_space Hs]. rewrite (IH Hs).
  destruct s; [|done]. by rewrite Ha.
Qed.

Lemma pretty_N_go_no_space x : ∀ s, no_space s = true → no_space (pretty_N_go x s) = true.
Proof.
  induction (N.lt_wf_0 x) as [x _ IH]. intros s Hs.
  destruct (decide (x = 0)%N) as [->|Hx]; [by rewrite pretty_N_go_0|].
  rewrite pretty_N_go_step by lia. apply IH.
  - apply N.div_lt; lia.
  - simpl. rewrite is_space_pretty by (apply N.mod_lt; lia). done.
Qed.

(** The digits of [x] in front of [s] read as [x] appended to what was
    read before. *)
Lemma parse_digits_pretty_N_go x :
  (0 < x)%N →
  ∃ p, ∀ s acc b,
    parse_digits (pretty_N_go x s) acc b = parse_digits s (acc * p + Z.of_N x) true.
Proof.
  induction (N.lt_wf_0 x) as [x _ IH]. intros Hx.
  destruct (decide (x `div` 10 = 0)%N) as [Hq|Hq].
  - exists 10. intros s acc b. rewrite pretty_N_go_step, Hq, pretty_N_go_0 by done.
    simpl. rewrite digit_val_pretty by (apply N.mod_lt; lia).
    apply N.div_small_iff in Hq; [|lia]. by rewrite N.mod_small.
  - destruct (IH (x `div` 10)%N) as [p Hp];
      [apply N.div_lt; lia|by apply N.neq_0_lt_0|].
    exists (p * 10). intros s acc b.
    rewrite pretty_N_go_step, Hp by done. simpl.
    rewrite digit_val_pretty by (apply N.mod_lt; lia).
    f_equal. rewrite (N.div_mod x 10) at 3 by lia.
    rewrite N2Z.inj_add, N2Z.inj_mul. simpl Z.of_N. lia.
Qed.

Lemma pretty_N_go_head x s :
  (0 < x)%N → ∃ d rest, (d < 10)%N ∧ pretty_N_go x s = String (pretty_N_char d) rest.
Proof.
  revert s. induction (N.lt_wf_0 x) as [x _ IH]. intros s Hx.
  rewrite pretty_N_go_step by done.
  destruct (decide (x `div` 10 = 0)%N) as [Hq|Hq].
  - rewrite Hq, pretty_N_go_0. eexists _, _. split; [|done]. apply N.mod_lt; lia.
  - apply IH; [apply N.div_lt; lia|by apply N.neq_0_lt_0].
Qed.

Lemma int_of_str_pretty_pos p : int_of_str (pretty_N_go (N.pos p) "") = Ok (Z.pos p).
Proof.
  unfold int_of_str.
  rewrite lstrip_no_space, rstrip_no_space by (by apply pretty_N_go_no_space).
  destruct (parse_digits_pretty_N_go (N.pos p)) as [q Hq]; [lia|].
  destruct (pretty_N_go_head (N.pos p) "") as (d & rest & Hd & Heq); [lia|].
  assert (Hparse : parse_digits (pretty_N_go (N.pos p) "") 0 false = Some (Z.pos p)).
  { rewrite Hq. simpl. done. }
  rewrite Heq in *. apply digit_cases in Hd.
  destruct_or!; subst d; simpl pretty_N_char in *; cbv match; by rewrite Hparse.
Qed.

Lemma int_of_str_py_str z : int_of_str (py_str z) = Ok z.
Proof.
  destruct z as [|p|p].
  - reflexivity.
  - apply int_of_str_pretty_pos.
  - assert (Heq : py_str (Z.neg p) = String "-" (pretty_N_go (N.pos p) "")) by reflexivity.
    assert (Hns : no_space (String "-" (pretty_N_go (N.pos p) "")) = true).
    { simpl. by apply pretty_N_go_no_space. }
    unfold int_of_str. rewrite Heq, lstrip_no_space, rstrip_no_space by done.
    destruct (parse_digits_pretty_N_go (N.pos p)) as [q Hq]; [lia|].
    cbv match. rewrite Hq. reflexivity.
Qed.

Lemma coerce_items_str (l : list (Z * Z)) : ∀ acc : gmap Z Z,
  NoDup l.*1 → (∀ k, k ∈ l.*1 → acc !! k = None) →
  coerce_items (str_item <$> l) acc = Ok (list_to_map l ∪ acc).
Proof.
  induction l as [|[k v] l IH]; intros acc Hnd Hacc; simpl.
  { by rewrite (left_id_L ∅ (∪)). }
  rewrite int_of_str_py_str. simpl.
  apply NoDup_cons in Hnd as [Hk Hnd].
  rewrite IH; [|done|].
  - f_equal. rewrite <- insert_union_r by (by apply not_elem_of_list_to_map_1).
    by rewrite insert_union_l.
  - intros k' Hk'. rewrite lookup_insert_ne by (intros ->; done).
    apply Hacc. simpl. by apply list_elem_of_further.
Qed.

Lemma coerce_items_to_dict (m : gmap Z Z) :
  coerce_items (str_item <$> map_to_list m) ∅ = Ok m.
Proof.
  rewrite coerce_items_str.
  - by rewrite (right_id_L ∅ (∪)), list_to_map_to_list.
  - apply NoDup_fst_map_to_list.
  - intros. apply lookup_empty.
Qed.

(** ** Look-up tables *)

Lemma of_int_small z : Z.abs z < float_overflow → of_int z = Ok (float_of z).
Proof. intros H. unfold of_int. by rewrite (proj2 (Z.ltb_lt _ _) H). Qed.

Lemma mapM_Ok_lookup {A B : Type} (f : A → res B) (l : list A) :
  ∀ ks i a, mapM f l = Ok ks → l !! i = Some a → ∃ b, f a = Ok b ∧ ks !! i = Some b.
Proof.
  induction l as [|x l IH]; intros ks i a Hm Hi; [done|].
  simpl in Hm. destruct (f x) as [y|] eqn:Hy; [|done]. simpl in Hm.
  destruct (mapM f l) as [k|] eqn:Hk; [|done]. simpl in Hm.
  injection Hm as <-.
  destruct i as [|i]; simpl in *.
  - injection Hi as <-. eauto.
  - eapply IH; eauto.
Qed.

Lemma mapM_Ok_length {A B : Type} (f : A → res B) (l : list A) :
  ∀ ks, mapM f l = Ok ks → length ks = length l.
Proof.
  induction l as [|x l IH]; intros ks Hm; simpl in Hm.
  - by injection Hm as <-.
  - destruct (f x) as [y|]; [|done]. simpl in Hm.
    destruct (mapM f l) as [k|]; [|done]. simpl in Hm.
    injection Hm as <-. simpl. f_equal. by apply IH.
Qed.

Lemma flat_top_values : values_non_decreasing flat_top.
Proof.
  intros p q v w Hpq Hp Hq. unfold flat_top in *; simpl in *.
  repeat (apply lookup_insert_Some in Hp as [[<- <-]|[? Hp]]);
    try (by rewrite lookup_empty in Hp);
    repeat (apply lookup_insert_Some in Hq as [[<- <-]|[? Hq]]);
    try (by rewrite lookup_empty in Hq); lia.
Qed.

Lemma generate_lut_lookup c size l (i : Z) :
  generate_lut c size = Ok l → 0 ≤ i < size →
  ∃ v, (percent ← lut_percent size i; interpolate c percent) = Ok v
       ∧ l !! Z.to_nat i = Some v.
Proof.
  intros Hl Hi. unfold generate_lut in Hl.
  eapply (mapM_Ok_lookup _ _ l (Z.to_nat i) i) in Hl; [done|].
  apply lookup_seqZ. lia.
Qed.

(** C8: on every curve [generate_lut(1)] raises [ZeroDivisionError], its
    only entry needing [0 / (1 - 1)]; whenever [generate_lut(size)] returns,
    [size] is not 1, the table has [size] entries and entry [i] is the
    evaluation at [i / (size - 1) * 100]. *)
Theorem generate_lut_size_one_raises :
  (∀ c, generate_lut c 1 = Raise ZeroDivisionError)
  ∧ lut_percent 1 0 = Raise ZeroDivisionError
  ∧ (∀ c size l,
       generate_lut c size = Ok l →
       size ≠ 1
       ∧ length l = Z.to_nat size
       ∧ ∀ i, 0 ≤ i < size →
           ∃ v, (percent ← lut_percent size i; interpolate c percent) = Ok v
                ∧ l !! Z.to_nat i = Some v).
Proof.
  split; [done|]. split; [done|].
  intros c size l Hl. split; [by intros ->|]. split.
  - apply mapM_Ok_length in Hl. by rewrite Hl, length_seqZ.
  - intros i Hi. by apply (generate_lut_lookup c size).
Qed.

(** ** Order between numbers and integers *)

Lemma SF_cmp_Z_Lt_mono x a b :
  SF_cmp_Z x a = Some Lt → a ≤ b → SF_cmp_Z x b = Some Lt.
Proof.
  destruct x as [s|s| |s m e]; unfold SF_cmp_Z; intros H Hab; try done.
  - destruct a, b; simpl in *; try done; lia.
  - injection H as H. f_equal. revert H. destruct (0 <=? e); intros H.
    + apply (proj1 (Z.compare_lt_iff _ _)) in H. apply Z.compare_lt_iff. lia.
    + apply (proj1 (Z.compare_lt_iff _ _)) in H. apply Z.compare_lt_iff.
      assert (a * 2 ^ (- e) ≤ b * 2 ^ (- e))
        by (apply Z.mul_le_mono_nonneg_r; [apply Z.pow_nonneg|]; lia).
      lia.
Qed.

Lemma SF_cmp_Z_Gt_mono x a b :
  SF_cmp_Z x a = Some Gt → b ≤ a → SF_cmp_Z x b = Some Gt.
Proof.
  destruct x as [s|s| |s m e]; unfold SF_cmp_Z; intros H Hab; try done.
  - destruct a, b; simpl in *; try done; lia.
  - injection H as H. f_equal. revert H. destruct (0 <=? e); intros H.
    + apply (proj1 (Z.compare_gt_iff _ _)) in H. apply Z.compare_gt_iff. lia.
    + apply (proj1 (Z.compare_gt_iff _ _)) in H. apply Z.compare_gt_iff.
      assert (b * 2 ^ (- e) ≤ a * 2 ^ (- e))
        by (apply Z.mul_le_mono_nonneg_r; [apply Z.pow_nonneg|]; lia).
      lia.
Qed.

Lemma SF_cmp_Z_Eq_inj x a b :
  SF_cmp_Z x a = Some Eq → SF_cmp_Z x b = Some Eq → a = b.
Proof.
  destruct x as [s|s| |s m e]; unfold SF_cmp_Z; intros Ha Hb; try done.
  - destruct a, b; simpl in *; try done; lia.
  - by destruct s.
  - injection Ha as Ha. injection Hb as Hb. revert Ha Hb.
    destruct (0 <=? e) eqn:He; intros Ha Hb.
    + apply (proj1 (Z.compare_eq_iff _ _)) in Ha, Hb. lia.
    + apply (proj1 (Z.compare_eq_iff _ _)) in Ha, Hb.
      assert (0 < 2 ^ (- e)) by (apply Z.pow_pos_nonneg; lia).
      apply (Z.mul_reg_r _ _ (2 ^ (- e))); lia.
Qed.

Lemma ncompare_Int_r_Lt p a b :
  ncompare p (Int a) = Some Lt → a ≤ b → ncompare p (Int b) = Some Lt.
Proof.
  destruct p as [z|f]; simpl.
  - intros [= H] Hab. apply (proj1 (Z.compare_lt_iff _ _)) in H. f_equal. apply Z.compare_lt_iff. lia.
  - apply SF_cmp_Z_Lt_mono.
Qed.

Lemma ncompare_Int_r_Gt p a b :
  ncompare p (Int a) = Some Gt → b ≤ a → ncompare p (Int b) = Some Gt.
Proof.
  destruct p as [z|f]; simpl.
  - intros [= H] Hab. apply (proj1 (Z.compare_gt_iff _ _)) in H. f_equal. apply Z.compare_gt_iff. lia.
  - apply SF_cmp_Z_Gt_mono.
Qed.

Lemma ncompare_Int_r_Eq p a b :
  ncompare p (Int a) = Some Eq → ncompare p (Int b) = Some Eq → a = b.
Proof.
  destruct p as [z|f]; simpl.
  - intros [= Ha] [= Hb]. apply (proj1 (Z.compare_eq_iff _ _)) in Ha, Hb. lia.
  - apply SF_cmp_Z_Eq_inj.
Qed.

Lemma ncompare_Int_l p a : ncompare (Int a) p = CompOpp <$> ncompare p (Int a).
Proof.
  destruct p as [z|f]; simpl; [|done]. f_equal. apply Z.compare_antisym.
Qed.

Lemma above_below_lt p a b : above p a → below p b → a < b.
Proof.
  unfold above, below. intros Ha Hb.
  destruct (Z.lt_ge_cases a b) as [|Hle]; [done|].
  rewrite (ncompare_Int_r_Gt p a b Ha) in Hb by lia. done.
Qed.

Lemma nlt_Int_l p a : nlt (Int a) p = true ↔ above p a.
Proof.
  unfold nlt, above. rewrite ncompare_Int_l.
  destruct (ncompare p (Int a)) as [[]|]; simpl; split; congruence.
Qed.

Lemma ngt_Int_l p a : ngt (Int a) p = true ↔ below p a.
Proof.
  unfold ngt, below. rewrite ncompare_Int_l.
  destruct (ncompare p (Int a)) as [[]|]; simpl; split; congruence.
Qed.

Lemma nle_Int_l p a : nle (Int a) p = true ↔ above p a ∨ ncompare p (Int a) = Some Eq.
Proof.
  unfold nle, above. rewrite ncompare_Int_l.
  destruct (ncompare p (Int a)) as [[]|]; simpl; split; intros H;
    try congruence; try (by right); try (by left); destruct H; congruence.
Qed.

Lemma nlt_Int_r p a : nlt p (Int a) = true ↔ below p a.
Proof. unfold nlt, below. destruct (ncompare p (Int a)) as [[]|]; split; congruence. Qed.

Lemma nle_above p a b : above p a → b ≤ a → nle p (Int b) = false.
Proof.
  intros Ha Hb. unfold nle. by rewrite (ncompare_Int_r_Gt p a b Ha Hb).
Qed.

Lemma nge_below p a b : below p a → a ≤ b → nge p (Int b) = false.
Proof.
  intros Ha Hb. unfold nge. by rewrite (ncompare_Int_r_Lt p a b Ha Hb).
Qed.

Lemma above_mono p a b : above p a → b ≤ a → above p b.
Proof. apply ncompare_Int_r_Gt. Qed.

Lemma below_mono p a b : below p a → a ≤ b → below p b.
Proof. apply ncompare_Int_r_Lt. Qed.

Lemma num_key_Some p k : num_key p = Some k → ncompare p (Int k) = Some Eq.
Proof.
  destruct p as [z|f]; unfold num_key.
  - intros H. inversion H; subst. unfold ncompare. f_equal. apply Z.compare_refl.
  - destruct (SF_trunc (Prim2SF f)) as [z|]; [|done].
    unfold neqb. destruct (ncompare (Flt f) (Int z)) as [[]|] eqn:E; try done.
    intros H. inversion H; subst. exact E.
Qed.

Lemma num_key_between p k a b : num_key p = Some k → above p a → below p b → a < k < b.
Proof.
  intros Hk%num_key_Some Ha Hb. unfold above, below in *. split.
  - destruct (Z.lt_ge_cases a k) as [|Hle]; [done|].
    rewrite (ncompare_Int_r_Gt p a k Ha) in Hk by lia. done.
  - destruct (Z.lt_ge_cases k b) as [|Hle]; [done|].
    rewrite (ncompare_Int_r_Lt p b k Hb) in Hk by lia. done.
Qed.

(** ** The sorted keys *)

Lemma sorted_percents_sorted c : StronglySorted Z.le (get_sorted_percents c).
Proof. apply StronglySorted_merge_sort; apply _. Qed.

Lemma sorted_percents_elem c k : k ∈ get_sorted_percents c ↔ is_Some (points c !! k).
Proof.
  unfold get_sorted_percents. rewrite merge_sort_Permutation, elem_of_elements.
  apply elem_of_dom.
Qed.

Lemma sorted_percents_NoDup c : NoDup (get_sorted_percents c).
Proof.
  unfold get_sorted_percents. rewrite merge_sort_Permutation. apply NoDup_elements.
Qed.

Lemma StronglySorted_le_lt (l : list Z) :
  StronglySorted Z.le l → NoDup l → StronglySorted Z.lt l.
Proof.
  induction 1 as [|a l Hs IH Hall]; intros Hnd; constructor.
  - apply IH. by apply NoDup_cons in Hnd as [_ ?].
  - apply NoDup_cons in Hnd as [Ha _].
    apply Forall_forall. intros k Hk.
    rewrite Forall_forall in Hall. specialize (Hall k Hk).
    assert (a ≠ k) by (intros ->; done). lia.
Qed.

Lemma sorted_percents_strict c : StronglySorted Z.lt (get_sorted_percents c).
Proof.
  apply StronglySorted_le_lt; [apply sorted_percents_sorted|apply sorted_percents_NoDup].
Qed.

Lemma sorted_head_least (l : list Z) a :
  StronglySorted Z.lt l → l !! 0%nat = Some a → ∀ k, k ∈ l → a ≤ k.
Proof.
  intros Hs Ha k Hk. destruct l as [|b l]; [done|]. simpl in Ha. simplify_eq.
  apply StronglySorted_inv in Hs as [_ Hall]. rewrite Forall_forall in Hall.
  apply elem_of_cons in Hk as [->|Hk]; [lia|]. specialize (Hall k Hk). lia.
Qed.

Lemma sorted_last_greatest (l : list Z) b :
  StronglySorted Z.lt l → last l = Some b → ∀ k, k ∈ l → k ≤ b.
Proof.
  intros Hs Hb k Hk. apply last_Some in Hb as [l' ->].
  apply elem_of_app in Hk as [Hk|Hk].
  - pose proof (StronglySorted_app_1_elem_of _ _ _ k b Hs Hk) as Hlt.
    specialize (Hlt ltac:(apply list_elem_of_here)). lia.
  - apply list_elem_of_singleton in Hk as ->. lia.
Qed.

(** ** The bracketing loop *)

Lemma bracket_consecutive percent lower upper :
  above percent lower → below percent upper →
  ∀ l lo up,
    StronglySorted Z.lt l →
    (∀ k, k ∈ l → k ≤ lower ∨ upper ≤ k) →
    upper ∈ l →
    (lower ∈ l ∨ (lo = lower ∧ ∀ k, k ∈ l → upper ≤ k)) →
    bracket percent l lo up = (lower, upper).
Proof.
  intros Ha Hb. pose proof (above_below_lt _ _ _ Ha Hb) as Hlt.
  induction l as [|p l IH]; intros lo up Hs Hdich Hup Hlo.
  { by apply elem_of_nil in Hup. }
  apply StronglySorted_inv in Hs as [Hs Hall]. rewrite Forall_forall in Hall.
  simpl. destruct (Hdich p ltac:(apply list_elem_of_here)) as [Hp|Hp].
  - rewrite (proj2 (nlt_Int_l percent p)) by (by apply (above_mono _ lower)).
    apply IH; [done| |  |].
    + intros k Hk. apply Hdich. by apply list_elem_of_further.
    + apply elem_of_cons in Hup as [->|Hup]; [lia|done].
    + destruct Hlo as [Hlo|[_ Hlo]].
      * apply elem_of_cons in Hlo as [->|Hlo]; [|by left].
        right. split; [done|]. intros k Hk. specialize (Hall k Hk).
        destruct (Hdich k ltac:(by apply list_elem_of_further)); [lia|done].
      * specialize (Hlo p ltac:(apply list_elem_of_here)). lia.
  - assert (Hbp : below percent p) by (by apply (below_mono _ upper)).
    assert (Hnlt : nlt (Int p) percent = false).
    { apply not_true_is_false. rewrite nlt_Int_l. unfold above, below in *. congruence. }
    rewrite Hnlt, (proj2 (ngt_Int_l percent p)) by done.
    assert (p = upper) as ->.
    { apply elem_of_cons in Hup as [->|Hup]; [done|]. specialize (Hall _ Hup). lia. }
    destruct Hlo as [Hlo|[-> _]]; [|done].
    apply elem_of_cons in Hlo as [->|Hlo]; [lia|]. specialize (Hall _ Hlo). lia.
Qed.

(** ** Linear interpolation *)

Lemma interpolate_linear_truncates c percent lower upper vl vu :
  points c !! lower = Some vl →
  points c !! upper = Some vu →
  (∀ k, lower < k < upper → points c !! k = None) →
  above percent lower →
  below percent upper →
  interpolate_linear c percent = linear_value py_int percent lower upper vl vu.
Proof.
  intros Hvl Hvu Hnone Ha Hb.
  pose proof (above_below_lt _ _ _ Ha Hb) as Hlt.
  pose proof (sorted_percents_strict c) as Hs.
  assert (Hl : lower ∈ get_sorted_percents c) by (apply sorted_percents_elem; eauto).
  assert (Hu : upper ∈ get_sorted_percents c) by (apply sorted_percents_elem; eauto).
  unfold interpolate_linear.
  destruct (get_sorted_percents c !! 0%nat) as [first|] eqn:Hfirst; cycle 1.
  { apply lookup_ge_None in Hfirst. destruct (get_sorted_percents c); [|simpl in *; lia].
    by apply elem_of_nil in Hl. }
  unfold item at 1. rewrite Hfirst. simpl.
  rewrite (nle_above percent lower first Ha) by (by apply (sorted_head_least _ _ Hs Hfirst)).
  destruct (last (get_sorted_percents c)) as [final|] eqn:Hfinal; cycle 1.
  { apply last_None in Hfinal. rewrite Hfinal in Hl. by apply elem_of_nil in Hl. }
  unfold item_last. rewrite Hfinal. simpl.
  rewrite (nge_below percent upper final Hb) by (by apply (sorted_last_greatest _ _ Hs Hfinal)).
  assert (Hkey : num_key percent ≫= (λ k, points c !! k) = None).
  { destruct (num_key percent) as [k|] eqn:Hk; [|done]. simpl.
    apply Hnone. by apply (num_key_between percent). }
  rewrite Hkey.
  rewrite (bracket_consecutive percent lower upper Ha Hb); [|done| |done|by left].
  - rewrite (proj2 (Z.eqb_neq upper lower)) by lia.
    unfold linear_value, getitem. rewrite Hvl, Hvu. simpl.
    destruct (nsub percent (Int lower)) as [d|]; [|done]. simpl.
    destruct (ndiv d (Int (upper - lower))) as [t|]; [|done]. done.
  - intros k Hk. apply sorted_percents_elem in Hk as [v Hv].
    destruct (Z.le_gt_cases k lower) as [|Hgt]; [by left|].
    destruct (Z.le_gt_cases upper k) as [|Hlt']; [by right|].
    rewrite Hnone in Hv by lia. done.
Qed.

Lemma interpolate_linear_key c percent k v :
  num_key percent = Some k → points c !! k = Some v →
  interpolate_linear c percent = Ok v.
Proof.
  intros Hk Hv.
  pose proof (num_key_Some _ _ Hk) as Heq.
  pose proof (sorted_percents_strict c) as Hs.
  assert (Hl : k ∈ get_sorted_percents c) by (apply sorted_percents_elem; eauto).
  unfold interpolate_linear.
  destruct (get_sorted_percents c !! 0%nat) as [first|] eqn:Hfirst; cycle 1.
  { apply lookup_ge_None in Hfirst. destruct (get_sorted_percents c); [|simpl in *; lia].
    by apply elem_of_nil in Hl. }
  unfold item at 1. rewrite Hfirst. simpl.
  pose proof (sorted_head_least _ _ Hs Hfirst k Hl) as Hfk.
  assert (Hfin : first ∈ get_sorted_percents c) by (by eapply list_elem_of_lookup_2).
  destruct (nle percent (Int first)) eqn:Hle.
  { (* [percent <= first]: then [first] is [k] *)
    assert (first = k) as ->; [|by unfold getitem; rewrite Hv].
    destruct (Z.eq_dec first k) as [|Hne]; [done|]. exfalso.
    unfold nle in Hle.
    destruct (ncompare percent (Int first)) as [[]|] eqn:E; try done.
    - by apply (ncompare_Int_r_Eq _ _ _ E) in Heq.
    - rewrite (ncompare_Int_r_Lt _ _ k E) in Heq by lia. done. }
  destruct (last (get_sorted_percents c)) as [final|] eqn:Hfinal; cycle 1.
  { apply last_None in Hfinal. rewrite Hfinal in Hl. by apply elem_of_nil in Hl. }
  unfold item_last. rewrite Hfinal. simpl.
  pose proof (sorted_last_greatest _ _ Hs Hfinal k Hl) as Hkf.
  destruct (nge percent (Int final)) eqn:Hge.
  { assert (final = k) as ->; [|by unfold getitem; rewrite Hv].
    destruct (Z.eq_dec final k) as [|Hne]; [done|]. exfalso.
    unfold nge in Hge.
    destruct (ncompare percent (Int final)) as [[]|] eqn:E; try done.
    - by apply (ncompare_Int_r_Eq _ _ _ E) in Heq.
    - rewrite (ncompare_Int_r_Gt _ _ k E) in Heq by lia. done. }
  rewrite Hk. simpl. by rewrite Hv.
Qed.

(** C4, as amended: strictly between two consecutive keys
    [interpolate_linear] returns [value[lower] + t * (value[upper] -
    value[lower])] with [t = (percent - lower) / (upper - lower)], made an
    integer by [int], that is truncated and not rounded; a percent equal to
    a key returns the value stored there; on the default curve in linear
    mode with threshold 0, 25 lies between the keys 1 and 50 and evaluates to
    16049. *)
Theorem interpolate_linear_spec :
  (∀ c percent lower upper vl vu,
     points c !! lower = Some vl →
     points c !! upper = Some vu →
     (∀ k, lower < k < upper → points c !! k = None) →
     above percent lower →
     below percent upper →
     interpolate_linear c percent = linear_value py_int percent lower upper vl vu)
  ∧ (∀ c percent k v,
       num_key percent = Some k → points c !! k = Some v →
       interpolate_linear c percent = Ok v)
  ∧ linear_value py_int (Int 25) 1 50 0 32767 = Ok 16049
  ∧ interpolate linear_default (Int 25) = Ok 16049.
Proof.
  split; [apply interpolate_linear_truncates|].
  split; [apply interpolate_linear_key|].
  split; by vm_compute.
Qed.

Lemma interpolate_linear_spec_witness :
  interpolate_linear linear_default (Int 25) = linear_value py_int (Int 25) 1 50 0 32767.
Proof.
  apply (proj1 interpolate_linear_spec); try reflexivity.
  intros k Hk. unfold linear_default, default_points; simpl.
  rewrite !lookup_insert_ne by lia. apply lookup_empty.
Defined.

(** C4, counterexample: on the default curve at 2 percent the line through
    (1, 0) and (50, 32767) has the value 668.71...; the code returns 668,
    rounding would give 669. *)
Lemma interpolate_linear_does_not_round :
  interpolate_linear linear_default (Int 2) = Ok 668
  ∧ spec_linear_value (Int 2) 1 50 0 32767 = Ok 669
  ∧ interpolate_linear linear_default (Int 2) ≠ spec_linear_value (Int 2) 1 50 0 32767.
Proof. split; [|split]; by vm_compute. Qed.

(** ** Binary64 arithmetic *)

(** ** Rounding in binary64 never loses a whole number *)

Lemma shr_1_m mrs : 0 ≤ shr_m mrs → shr_m (shr_1 mrs) = shr_m mrs `div` 2.
Proof.
  destruct mrs as [m r s]; simpl. intros Hm.
  destruct m as [|p|p]; [done| |lia].
  destruct p as [p|p|]; simpl.
  - change (Z.pos p~1) with (2 * Z.pos p + 1).
    apply Z.div_unique with 1; lia.
  - change (Z.pos p~0) with (2 * Z.pos p).
    apply Z.div_unique with 0; lia.
  - reflexivity.
Qed.

Lemma iter_shr_1 p : ∀ mrs,
  0 ≤ shr_m mrs → shr_m (SpecFloat.iter_pos shr_1 p mrs) = shr_m mrs `div` 2 ^ Z.pos p.
Proof.
  induction p as [p IH|p IH|]; intros mrs Hm; simpl SpecFloat.iter_pos.
  - assert (H1 : 0 ≤ shr_m (shr_1 mrs)).
    { rewrite shr_1_m by done. apply Z.div_pos; lia. }
    assert (H2 : 0 ≤ shr_m (SpecFloat.iter_pos shr_1 p (shr_1 mrs))).
    { rewrite IH by done. apply Z.div_pos; [done|]. apply Z.pow_pos_nonneg; lia. }
    rewrite IH, IH, shr_1_m by done.
    rewrite !Z.div_div by (try apply Z.pow_pos_nonneg; lia).
    f_equal. replace (Z.pos p~1) with (1 + Z.pos p + Z.pos p) by lia.
    rewrite !Z.pow_add_r by lia. lia.
  - assert (H2 : 0 ≤ shr_m (SpecFloat.iter_pos shr_1 p mrs)).
    { rewrite IH by done. apply Z.div_pos; [done|]. apply Z.pow_pos_nonneg; lia. }
    rewrite IH, IH by done.
    rewrite !Z.div_div by (try apply Z.pow_pos_nonneg; lia).
    f_equal. replace (Z.pos p~0) with (Z.pos p + Z.pos p) by lia.
    rewrite !Z.pow_add_r by lia. lia.
  - by rewrite shr_1_m.
Qed.

Lemma digits2_pos_bound p : 2 ^ (Z.pos (digits2_pos p) - 1) ≤ Z.pos p.
Proof.
  induction p as [p IH|p IH|]; simpl digits2_pos; [| |done].
  - rewrite Pos2Z.inj_succ. replace (Z.succ (Z.pos (digits2_pos p)) - 1)
      with (1 + (Z.pos (digits2_pos p) - 1)) by lia.
    rewrite Z.pow_add_r by lia. change (Z.pos p~1) with (2 * Z.pos p + 1). lia.
  - rewrite Pos2Z.inj_succ. replace (Z.succ (Z.pos (digits2_pos p)) - 1)
      with (1 + (Z.pos (digits2_pos p) - 1)) by lia.
    rewrite Z.pow_add_r by lia. change (Z.pos p~0) with (2 * Z.pos p). lia.
Qed.

Lemma shr_record_of_loc_m m l : shr_m (shr_record_of_loc m l) = m.
Proof. by destruct l as [|[]]. Qed.

Lemma shr_fexp_pos m e l :
  0 < m → emin ≤ e →
  0 < shr_m (shr_fexp prec emax m e l).1 ∧ emin ≤ (shr_fexp prec emax m e l).2.
Proof.
  intros Hm He. unfold shr_fexp, shr.
  destruct m as [|p|p]; [lia| |lia]. simpl Zdigits2.
  destruct (fexp prec emax (Z.pos (digits2_pos p) + e) - e) as [|n|n] eqn:Hn; simpl;
    rewrite ?shr_record_of_loc_m; try (split; [lia|done]).
  rewrite iter_shr_1 by (rewrite shr_record_of_loc_m; lia).
  rewrite shr_record_of_loc_m.
  unfold fexp, SpecFloat.emin, emin, prec, emax in *.
  assert (Hd : Z.pos n = Z.pos (digits2_pos p) - 53) by lia.
  split; [|lia].
  apply Z.div_str_pos. split; [apply Z.pow_pos_nonneg; lia|].
  etrans; [|apply digits2_pos_bound].
  apply Z.pow_le_mono_r; lia.
Qed.

Lemma shr_fexp_nonneg m e l : 0 ≤ m → 0 ≤ shr_m (shr_fexp prec emax m e l).1.
Proof.
  intros Hm. unfold shr_fexp, shr.
  destruct (fexp prec emax (Zdigits2 m + e) - e) as [|n|n]; simpl;
    rewrite ?shr_record_of_loc_m; try done.
  rewrite iter_shr_1 by (by rewrite shr_record_of_loc_m).
  rewrite shr_record_of_loc_m. apply Z.div_pos; [done|]. apply Z.pow_pos_nonneg; lia.
Qed.

Lemma round_nearest_even_le m l : m ≤ round_nearest_even m l.
Proof. destruct l as [|[]]; simpl; try lia. destruct (Z.even m); lia. Qed.

Lemma binary_round_aux_signed sx m e l :
  0 ≤ m → SF_signed sx (binary_round_aux prec emax sx m e l).
Proof.
  intros Hm. unfold binary_round_aux.
  pose proof (shr_fexp_nonneg m e l Hm) as H1.
  destruct (shr_fexp prec emax m e l) as [mrs' e']. simpl in H1.
  pose proof (round_nearest_even_le (shr_m mrs') (loc_of_shr_record mrs')) as H2.
  pose proof (shr_fexp_nonneg (round_nearest_even (shr_m mrs') (loc_of_shr_record mrs'))
                e' loc_Exact ltac:(lia)) as H3.
  destruct (shr_fexp prec emax _ e' loc_Exact) as [mrs'' e'']. simpl in H3.
  destruct (shr_m mrs'') as [|q|q]; simpl; [done| |lia].
  by destruct (e'' <=? emax - prec).
Qed.

Lemma binary_round_aux_nonzero sx m e l :
  0 < m → emin ≤ e → SF_nonzero sx (binary_round_aux prec emax sx m e l).
Proof.
  intros Hm He. unfold binary_round_aux.
  pose proof (shr_fexp_pos m e l Hm He) as [H1 H1e].
  destruct (shr_fexp prec emax m e l) as [mrs' e']. simpl in H1, H1e.
  pose proof (round_nearest_even_le (shr_m mrs') (loc_of_shr_record mrs')) as H2.
  pose proof (shr_fexp_pos (round_nearest_even (shr_m mrs') (loc_of_shr_record mrs'))
                e' loc_Exact ltac:(lia) H1e) as [H3 _].
  destruct (shr_fexp prec emax _ e' loc_Exact) as [mrs'' e'']. simpl in H3.
  destruct (shr_m mrs'') as [|q|q]; simpl; [lia| |lia].
  by destruct (e'' <=? emax - prec).
Qed.

(** ** The operations on numbers that are no NaN *)

Lemma shl_align_emin m e e' : emin ≤ e → emin ≤ e' → emin ≤ (shl_align m e e').2.
Proof. intros He He'. unfold shl_align. by destruct (e' - e). Qed.

Lemma binary_round_nonzero sx m e :
  emin ≤ e → SF_nonzero sx (binary_round prec emax sx m e).
Proof.
  intros He. unfold binary_round.
  pose proof (shl_align_emin m e (fexp prec emax (Z.pos (digits2_pos m) + e)) He) as H.
  destruct (shl_align m e _) as [mz ez]. simpl in H.
  apply binary_round_aux_nonzero; [lia|]. apply H. unfold fexp. lia.
Qed.

Lemma SFadd_nonzero s x y :
  SpecFloat.valid_binary prec emax x = true → SpecFloat.valid_binary prec emax y = true →
  SF_nonzero s x → SF_nonzero s y → SF_nonzero s (SFadd prec emax x y).
Proof.
  intros Hvx Hvy Hx Hy.
  destruct x as [| sx | | sx mx ex], y as [| sy | | sy my ey]; simpl in Hx, Hy; try done;
    subst; try (by destruct s).
  unfold SFadd.
  assert (Hex : emin ≤ ex).
  { simpl in Hvx. unfold bounded, canonical_mantissa in Hvx.
    apply andb_prop in Hvx as [Hc _]. apply Z.eqb_eq in Hc. unfold fexp in Hc. lia. }
  assert (Hey : emin ≤ ey).
  { simpl in Hvy. unfold bounded, canonical_mantissa in Hvy.
    apply andb_prop in Hvy as [Hc _]. apply Z.eqb_eq in Hc. unfold fexp in Hc. lia. }
  destruct (shl_align mx ex (Z.min ex ey)) as [px ?].
  destruct (shl_align my ey (Z.min ex ey)) as [py ?]. simpl fst.
  destruct s; simpl; apply binary_round_nonzero; lia.
Qed.

Lemma SFmul_signed x y sx sy :
  SF_nonzero sx x → SF_nonzero sy y → SF_signed (xorb sx sy) (SFmul prec emax x y).
Proof.
  intros Hx Hy.
  destruct x as [| ? | | ? mx ex], y as [| ? | | ? my ey]; simpl in Hx, Hy; try done;
    subst; try done.
  unfold SFmul. by apply binary_round_aux_signed.
Qed.

Lemma SFsqrt_nonzero x : SF_nonzero false x →
  SpecFloat.valid_binary prec emax x = true → SF_nonzero false (SFsqrt prec emax x).
Proof.
  intros Hx Hv. destruct x as [| s | | s m e]; simpl in Hx; try done; subst; [done|].
  assert (He : emin ≤ e).
  { simpl in Hv. unfold bounded, canonical_mantissa in Hv.
    apply andb_prop in Hv as [Hc _]. apply Z.eqb_eq in Hc. unfold fexp in Hc. lia. }
  unfold SFsqrt, SFsqrt_core_binary.
  set (e' := Z.min (fexp prec emax (Z.div2 (Zdigits2 (Z.pos m) + e + 1))) (Z.div2 e)).
  assert (He' : emin ≤ e' ∧ 2 * e' ≤ e).
  { unfold e', fexp. rewrite !Z.div2_div.
    unfold SpecFloat.emin, emin, prec, emax in *.
    pose proof (Z.div_mod e 2 ltac:(lia)). pose proof (Z.mod_pos_bound e 2 ltac:(lia)).
    split; lia. }
  set (m' := match e - 2 * e' with
             | 0 => Z.pos m
             | Z.pos _ => Z.shiftl (Z.pos m) (e - 2 * e')
             | Z.neg _ => 0
             end).
  assert (Hm' : 0 < m').
  { unfold m'. destruct (e - 2 * e') as [|p|p] eqn:Hs; [lia| |lia].
    rewrite Z.shiftl_mul_pow2 by lia.
    apply Z.mul_pos_pos; [lia|]. apply Z.pow_pos_nonneg; lia. }
  pose proof (Z.sqrtrem_spec m' ltac:(lia)) as Hsq.
  destruct (Z.sqrtrem m') as [q r].
  apply binary_round_aux_nonzero; [|lia].
  destruct Hsq as [Hsq Hr]. nia.
Qed.

(** ** Classes *)

Lemma classify_zero f :
  (classify f = PZero ∨ classify f = NZero) ↔ ∃ s, Prim2SF f = S754_zero s.
Proof.
  rewrite classify_spec. unfold SF64classify, SFclassify.
  destruct (Prim2SF f) as [[]|[]| |[] m e]; split;
    try (intros [?|?]; try done; eauto; fail);
    try (intros [? ?]; try done; eauto; fail);
    try (destruct (Z.pos (digits2_pos m) =? prec); intros [?|?]; done).
Qed.

Lemma classify_positive f :
  (classify f = PNormal ∨ classify f = PSubn) ↔ ∃ m e, Prim2SF f = S754_finite false m e.
Proof.
  rewrite classify_spec. unfold SF64classify, SFclassify.
  destruct (Prim2SF f) as [[]|[]| |[] m e]; split;
    try (intros [?|?]; done); try (intros (? & ? & ?); done).
  - destruct (Z.pos (digits2_pos m) =? prec); intros [?|?]; done.
  - intros _. eauto.
  - intros _. destruct (Z.pos (digits2_pos m) =? prec); auto.
Qed.

Lemma classify_negative f :
  (classify f = NNormal ∨ classify f = NSubn) ↔ ∃ m e, Prim2SF f = S754_finite true m e.
Proof.
  rewrite classify_spec. unfold SF64classify, SFclassify.
  destruct (Prim2SF f) as [[]|[]| |[] m e]; split;
    try (intros [?|?]; done); try (intros (? & ? & ?); done).
  - intros _. eauto.
  - intros _. destruct (Z.pos (digits2_pos m) =? prec); auto.
  - destruct (Z.pos (digits2_pos m) =? prec); intros [?|?]; done.
Qed.

Lemma Prim2SF_zero : Prim2SF 0 = S754_zero false.
Proof. reflexivity. Qed.

Lemma eqb_zero_false f : (∀ s, Prim2SF f ≠ S754_zero s) → (f =? 0)%float = false.
Proof.
  intros H. rewrite FloatAxioms.eqb_spec, Prim2SF_zero. unfold SFeqb, SFcompare.
  destruct (Prim2SF f) as [s|[]| |[] m e]; try done. by destruct (H s).
Qed.


(** ** Rounding between two integers

    A binary64 operation rounds its exact result to the nearest number of
    the format. The integers below [2^53] are numbers of the format, so an
    exact result between two of them is rounded to a number between
    them. *)

Lemma digits2_pos_lt p : Z.pos p < 2 ^ Z.pos (digits2_pos p).
Proof.
  induction p as [p IH|p IH|]; simpl digits2_pos; [| |done].
  - rewrite Pos2Z.inj_succ, Z.pow_succ_r by lia. change (Z.pos p~1) with (2 * Z.pos p + 1). lia.
  - rewrite Pos2Z.inj_succ, Z.pow_succ_r by lia. change (Z.pos p~0) with (2 * Z.pos p). lia.
Qed.

Lemma Zdigits2_bounds q :
  0 ≤ q → 0 ≤ Zdigits2 q ∧ q < 2 ^ Zdigits2 q ∧ (0 < q → 2 ^ (Zdigits2 q - 1) ≤ q).
Proof.
  intros Hq. destruct q as [|p|p]; [done| |lia]. simpl Zdigits2.
  split; [lia|]. split; [apply digits2_pos_lt|]. intros _. apply digits2_pos_bound.
Qed.

Lemma Zdigits2_le q a : 0 ≤ a → 0 ≤ q < 2 ^ a → Zdigits2 q ≤ a.
Proof.
  intros Ha [Hq Hlt]. destruct (Z.eq_dec q 0) as [->|Hne]; [done|].
  destruct (Zdigits2_bounds q Hq) as (Hd & _ & Hlo). specialize (Hlo ltac:(lia)).
  destruct (Z.le_gt_cases (Zdigits2 q) a) as [?|Hgt]; [done|]. exfalso.
  assert (2 ^ a ≤ 2 ^ (Zdigits2 q - 1)) by (apply Z.pow_le_mono_r; lia). lia.
Qed.

Lemma shr_1_exact mrs :
  shr_r mrs = false → shr_s mrs = false → 0 ≤ shr_m mrs → shr_m mrs `mod` 2 = 0 →
  shr_r (shr_1 mrs) = false ∧ shr_s (shr_1 mrs) = false.
Proof.
  destruct mrs as [m r s]; simpl. intros -> -> Hm Hmod.
  destruct m as [|p|p]; [done| |lia].
  destruct p as [p|p|]; simpl; [|done|].
  - change (Z.pos p~1) with (2 * Z.pos p + 1) in Hmod.
    rewrite Z.add_comm, Z.mul_comm, Z.mod_add in Hmod by lia. done.
  - done.
Qed.

Lemma mod_pow2_split m a b :
  0 ≤ a → 0 ≤ b → m `mod` 2 ^ (a + b) = 0 →
  m `mod` 2 ^ a = 0 ∧ (m `div` 2 ^ a) `mod` 2 ^ b = 0.
Proof.
  intros Ha Hb Hm. rewrite Z.pow_add_r in Hm by lia.
  assert (Hpa : 0 < 2 ^ a) by (apply Z.pow_pos_nonneg; lia).
  assert (Hpb : 0 < 2 ^ b) by (apply Z.pow_pos_nonneg; lia).
  apply Z.mod_divide in Hm; [|lia]. destruct Hm as [c Hc]. subst m.
  split.
  - apply Z.mod_divide; [lia|]. exists (c * 2 ^ b). lia.
  - replace (c * (2 ^ a * 2 ^ b)) with (c * 2 ^ b * 2 ^ a) by lia.
    rewrite Z.div_mul by lia. apply Z.mod_mul. lia.
Qed.

Lemma iter_shr_1_exact p : ∀ mrs,
  shr_r mrs = false → shr_s mrs = false → 0 ≤ shr_m mrs →
  shr_m mrs `mod` 2 ^ Z.pos p = 0 →
  shr_r (SpecFloat.iter_pos shr_1 p mrs) = false
  ∧ shr_s (SpecFloat.iter_pos shr_1 p mrs) = false.
Proof.
  induction p as [p IH|p IH|]; intros mrs Hr Hs Hm Hmod; simpl SpecFloat.iter_pos.
  - replace (Z.pos p~1) with (1 + (Z.pos p + Z.pos p)) in Hmod by lia.
    apply mod_pow2_split in Hmod as [H1 H2]; try lia.
    change (2 ^ 1) with 2 in H1, H2.
    destruct (shr_1_exact mrs Hr Hs Hm H1) as [Hr1 Hs1].
    assert (Hm1 : 0 ≤ shr_m (shr_1 mrs)) by (rewrite shr_1_m by done; apply Z.div_pos; lia).
    rewrite <- (shr_1_m mrs Hm) in H2.
    apply mod_pow2_split in H2 as [H2 H3]; try lia.
    destruct (IH _ Hr1 Hs1 Hm1 H2) as [Hr2 Hs2].
    assert (Hm2 : 0 ≤ shr_m (SpecFloat.iter_pos shr_1 p (shr_1 mrs))).
    { rewrite iter_shr_1 by done. apply Z.div_pos; [done|]. apply Z.pow_pos_nonneg; lia. }
    apply IH; [done..|]. by rewrite iter_shr_1.
  - replace (Z.pos p~0) with (Z.pos p + Z.pos p) in Hmod by lia.
    apply mod_pow2_split in Hmod as [H2 H3]; try lia.
    destruct (IH _ Hr Hs Hm H2) as [Hr2 Hs2].
    assert (Hm2 : 0 ≤ shr_m (SpecFloat.iter_pos shr_1 p mrs)).
    { rewrite iter_shr_1 by done. apply Z.div_pos; [done|]. apply Z.pow_pos_nonneg; lia. }
    apply IH; [done..|]. by rewrite iter_shr_1.
  - apply shr_1_exact; done.
Qed.

Lemma loc_of_shr_record_of_loc m l : loc_of_shr_record (shr_record_of_loc m l) = l.
Proof. by destruct l as [|[]]. Qed.

Lemma loc_exact_bits mrs :
  inexact (loc_of_shr_record mrs) = true → shr_r mrs = true ∨ shr_s mrs = true.
Proof. destruct mrs as [m [] []]; simpl; auto. Qed.

(** The first shift of [binary_round_aux]. *)
Lemma shr_fexp_first q e l :
  0 ≤ q → Zdigits2 q + e ≤ 53 →
  let e1 := Z.max e (fexp prec emax (Zdigits2 q + e)) in
  let mrs := (shr_fexp prec emax q e l).1 in
  (shr_fexp prec emax q e l).2 = e1
  ∧ shr_m mrs = q `div` 2 ^ (e1 - e)
  ∧ (inexact (loc_of_shr_record mrs) = true →
     inexact l = true ∨ q `mod` 2 ^ (e1 - e) ≠ 0)
  ∧ shr_m mrs < 2 ^ 53
  ∧ emin ≤ e1 ∧ e ≤ e1 ∧ (e ≤ 0 → e1 ≤ 0).
Proof.
  intros Hq Hd e1 mrs.
  destruct (Zdigits2_bounds q Hq) as (Hd0 & Hlt & _).
  assert (Hfe : fexp prec emax (Zdigits2 q + e) = Z.max (Zdigits2 q + e - 53) (-1074))
    by reflexivity.
  assert (Hemin : emin = -1074) by reflexivity.
  unfold mrs, shr_fexp, shr.
  destruct (fexp prec emax (Zdigits2 q + e) - e) as [|p|p] eqn:Hk.
  - assert (He1 : e1 = e) by (unfold e1; lia).
    rewrite He1, Z.sub_diag. cbn [fst snd]. rewrite shr_record_of_loc_m, loc_of_shr_record_of_loc.
    change (2 ^ 0) with 1. rewrite Z.div_1_r.
    split; [done|]. split; [done|]. split; [auto|].
    split; [|lia].
    eapply Z.lt_le_trans; [exact Hlt|]. apply Z.pow_le_mono_r; lia.
  - assert (He1 : e1 = e + Z.pos p) by (unfold e1; lia).
    rewrite He1. replace (e + Z.pos p - e) with (Z.pos p) by lia. cbn [fst snd].
    rewrite iter_shr_1 by (rewrite shr_record_of_loc_m; lia).
    rewrite shr_record_of_loc_m.
    split; [done|]. split; [done|]. split.
    { intros Hin. destruct l as [|c]; [|by left]. right. intros Hmod.
      destruct (iter_shr_1_exact p (shr_record_of_loc q loc_Exact)) as [Hr Hs];
        [done|done|simpl; lia|done|].
      apply loc_exact_bits in Hin as [H|H]; congruence. }
    split; [|lia].
    assert (Hp : 0 < 2 ^ Z.pos p) by (apply Z.pow_pos_nonneg; lia).
    apply Z.div_lt_upper_bound; [done|].
    eapply Z.lt_le_trans; [exact Hlt|].
    rewrite <- Z.pow_add_r by lia. apply Z.pow_le_mono_r; lia.
  - assert (He1 : e1 = e) by (unfold e1; lia).
    rewrite He1, Z.sub_diag. cbn [fst snd]. rewrite shr_record_of_loc_m, loc_of_shr_record_of_loc.
    change (2 ^ 0) with 1. rewrite Z.div_1_r.
    split; [done|]. split; [done|]. split; [auto|].
    split; [|lia].
    eapply Z.lt_le_trans; [exact Hlt|]. apply Z.pow_le_mono_r; lia.
Qed.

(** The second shift: none for a mantissa below [2^53], one place for
    [2^53]. *)
Lemma shr_fexp_second mr e1 :
  0 ≤ mr < 2 ^ 53 → emin ≤ e1 →
  shr_fexp prec emax mr e1 loc_Exact = (Build_shr_record mr false false, e1).
Proof.
  intros Hmr He. unfold shr_fexp, shr.
  assert (Hd : Zdigits2 mr ≤ 53) by (apply Zdigits2_le; lia).
  assert (Hfe : fexp prec emax (Zdigits2 mr + e1) = Z.max (Zdigits2 mr + e1 - 53) (-1074))
    by reflexivity.
  assert (Hemin : emin = -1074) by reflexivity.
  destruct (fexp prec emax (Zdigits2 mr + e1) - e1) as [|p|p] eqn:Hk; [done|lia|done].
Qed.

Lemma shr_fexp_second_top e1 :
  emin ≤ e1 →
  shr_fexp prec emax (2 ^ 53) e1 loc_Exact = (Build_shr_record (2 ^ 52) false false, e1 + 1).
Proof.
  intros He. unfold shr_fexp, shr.
  assert (Hfe : fexp prec emax (Zdigits2 (2 ^ 53) + e1) = Z.max (54 + e1 - 53) (-1074))
    by reflexivity.
  assert (Hemin : emin = -1074) by reflexivity.
  replace (fexp prec emax (Zdigits2 (2 ^ 53) + e1) - e1) with 1 by lia.
  reflexivity.
Qed.

Lemma SF_cmp_Z_finite_nonpos s m e n :
  e ≤ 0 → SF_cmp_Z (S754_finite s m e) n = Some (cond_Zopp s (Z.pos m) ?= n * 2 ^ (- e)).
Proof.
  intros He. unfold SF_cmp_Z. destruct (Z.leb_spec 0 e) as [H0|H0]; [|done].
  assert (e = 0) by lia. subst e. simpl. by rewrite !Z.mul_1_r.
Qed.

Lemma round_nearest_even_cases m l :
  (round_nearest_even m l = m ∨ round_nearest_even m l = m + 1)
  ∧ (inexact l = false → round_nearest_even m l = m).
Proof.
  destruct l as [|[]]; simpl; (split; [|done]); auto.
  destruct (Z.even m); auto.
Qed.

(** The rounding of [binary_round_aux], for a mantissa [q], an exponent
    [e ≤ 0] and a location [l]: the exact value is [q * 2^e] when [l] is
    exact and lies strictly between that and [(q + 1) * 2^e] otherwise. *)
Lemma round_between q e l lo hi :
  0 ≤ q → e ≤ 0 → 0 ≤ lo → hi < 2 ^ 53 →
  lo * 2 ^ (- e) ≤ q →
  (if inexact l then q < hi * 2 ^ (- e) else q ≤ hi * 2 ^ (- e)) →
  SF_between lo hi (binary_round_aux prec emax false q e l).
Proof.
  intros Hq He Hlo Hhi Hlow Hup.
  assert (Hpe : 0 < 2 ^ (- e)) by (apply Z.pow_pos_nonneg; lia).
  assert (Hqle : q ≤ hi * 2 ^ (- e)) by (destruct (inexact l); lia).
  assert (Hqlt : q < 2 ^ (53 - e)).
  { replace (53 - e) with (53 + - e) by lia. rewrite Z.pow_add_r by lia.
    eapply Z.le_lt_trans; [exact Hqle|]. apply Z.mul_lt_mono_pos_r; lia. }
  assert (Hd : Zdigits2 q ≤ 53 - e) by (apply Zdigits2_le; lia).
  destruct (shr_fexp_first q e l Hq ltac:(lia)) as (He1 & Hm1 & Hin & Hm53 & Hemin & Hee & He0).
  specialize (He0 He).
  unfold binary_round_aux.
  destruct (shr_fexp prec emax q e l) as [mrs e1']. cbn [fst snd] in He1, Hm1, Hin, Hm53.
  set (e1 := Z.max e (fexp prec emax (Zdigits2 q + e))) in *. subst e1'.
  set (k := e1 - e) in *.
  assert (Hk : 0 ≤ k) by (unfold k; lia).
  assert (Hpk : 0 < 2 ^ k) by (apply Z.pow_pos_nonneg; lia).
  assert (Hpe1 : 0 < 2 ^ (- e1)) by (apply Z.pow_pos_nonneg; lia).
  assert (Hsplit : 2 ^ (- e) = 2 ^ (- e1) * 2 ^ k).
  { rewrite <- Z.pow_add_r by lia. f_equal. unfold k. lia. }
  assert (Hm0 : 0 ≤ shr_m mrs) by (rewrite Hm1; apply Z.div_pos; lia).
  destruct (round_nearest_even_cases (shr_m mrs) (loc_of_shr_record mrs)) as [Hcase Hexact].
  set (mr := round_nearest_even (shr_m mrs) (loc_of_shr_record mrs)) in *.
  assert (Hlo1 : lo * 2 ^ (- e1) ≤ mr).
  { assert (lo * 2 ^ (- e1) ≤ shr_m mrs).
    { rewrite Hm1. apply Z.div_le_lower_bound; [done|]. rewrite Hsplit in Hlow. lia. }
    lia. }
  assert (Hhi1 : mr ≤ hi * 2 ^ (- e1)).
  { destruct (inexact (loc_of_shr_record mrs)) eqn:Hloc.
    - assert (Hlt : q < hi * 2 ^ (- e1) * 2 ^ k).
      { destruct (Hin eq_refl) as [Hl|Hmod].
        - rewrite Hl in Hup. rewrite Hsplit in Hup. lia.
        - rewrite Hsplit in Hqle.
          destruct (Z.eq_dec q (hi * 2 ^ (- e1) * 2 ^ k)) as [Heq|Hne]; [|lia].
          exfalso. apply Hmod. rewrite Heq. apply Z.mod_mul. lia. }
      assert (shr_m mrs < hi * 2 ^ (- e1)).
      { rewrite Hm1. apply Z.div_lt_upper_bound; [done|]. lia. }
      lia.
    - rewrite (Hexact eq_refl). rewrite Hm1.
      apply Z.div_le_upper_bound; [done|]. rewrite Hsplit in Hqle. lia. }
  assert (Hmr : 0 ≤ mr ≤ 2 ^ 53) by lia.
  destruct (Z.eq_dec mr (2 ^ 53)) as [Htop|Hnot].
  - rewrite Htop, shr_fexp_second_top by done. cbn [shr_m].
    assert (He1' : e1 < 0).
    { destruct (Z.eq_dec e1 0) as [E0|]; [|lia]. rewrite E0 in Hhi1. simpl in Hhi1. lia. }
    change (2 ^ 52) with (Z.pos 4503599627370496).
    replace (e1 + 1 <=? emax - prec) with true by (symmetry; apply Z.leb_le; unfold emax, prec; lia).
    assert (Hs2 : 2 ^ (- e1) = 2 * 2 ^ (- (e1 + 1))).
    { rewrite <- Z.pow_succ_r by lia. f_equal. lia. }
    unfold SF_between, SF_geZ, SF_leZ. rewrite !SF_cmp_Z_finite_nonpos by lia.
    cbn [cond_Zopp]. rewrite Hs2 in Hlo1, Hhi1. rewrite Htop in Hlo1, Hhi1.
    change (2 ^ 53) with (2 * 4503599627370496) in Hlo1, Hhi1.
    split.
    + destruct (Z.compare_spec 4503599627370496 (lo * 2 ^ (- (e1 + 1)))); auto. lia.
    + destruct (Z.compare_spec 4503599627370496 (hi * 2 ^ (- (e1 + 1)))); auto. lia.
  - rewrite shr_fexp_second by (done || lia). cbn [shr_m].
    destruct mr as [|p|p] eqn:Emr; [| |lia].
    + unfold SF_between, SF_geZ, SF_leZ, SF_cmp_Z.
      assert (lo = 0) by nia. subst lo.
      split; [auto|].
      assert (0 ≤ hi) by nia.
      destruct (Z.compare_spec 0 hi); auto. lia.
    + replace (e1 <=? emax - prec) with true by (symmetry; apply Z.leb_le; unfold emax, prec; lia).
      unfold SF_between, SF_geZ, SF_leZ. rewrite !SF_cmp_Z_finite_nonpos by lia.
      cbn [cond_Zopp]. split.
      * destruct (Z.compare_spec (Z.pos p) (lo * 2 ^ (- e1))); auto. lia.
      * destruct (Z.compare_spec (Z.pos p) (hi * 2 ^ (- e1))); auto. lia.
Qed.

(** ** Numbers between two integers *)

Lemma compare_ge_cases (a b : Z) : ((a ?= b) = Gt ∨ (a ?= b) = Eq) ↔ b ≤ a.
Proof. destruct (Z.compare_spec a b); split; intros; try lia; auto; by destruct H0. Qed.

Lemma compare_le_cases (a b : Z) : ((a ?= b) = Lt ∨ (a ?= b) = Eq) ↔ a ≤ b.
Proof. destruct (Z.compare_spec a b); split; intros; try lia; auto; by destruct H0. Qed.

Lemma Some_cmp_cases (c d e : comparison) :
  (Some c = Some d ∨ Some c = Some e) ↔ (c = d ∨ c = e).
Proof. split; intros [H|H]; simplify_eq; auto. Qed.

Lemma SF_geZ_finite s m e n :
  e ≤ 0 → SF_geZ (S754_finite s m e) n ↔ n * 2 ^ (- e) ≤ cond_Zopp s (Z.pos m).
Proof.
  intros He. unfold SF_geZ. rewrite SF_cmp_Z_finite_nonpos by done.
  by rewrite Some_cmp_cases, compare_ge_cases.
Qed.

Lemma SF_leZ_finite s m e n :
  e ≤ 0 → SF_leZ (S754_finite s m e) n ↔ cond_Zopp s (Z.pos m) ≤ n * 2 ^ (- e).
Proof.
  intros He. unfold SF_leZ. rewrite SF_cmp_Z_finite_nonpos by done.
  by rewrite Some_cmp_cases, compare_le_cases.
Qed.

Lemma SF_between_finite s m e lo hi :
  e ≤ 0 →
  SF_between lo hi (S754_finite s m e)
  ↔ lo * 2 ^ (- e) ≤ cond_Zopp s (Z.pos m) ≤ hi * 2 ^ (- e).
Proof. intros He. unfold SF_between. by rewrite SF_geZ_finite, SF_leZ_finite. Qed.

Lemma SF_between_zero s lo hi : SF_between lo hi (S754_zero s) ↔ lo ≤ 0 ≤ hi.
Proof.
  unfold SF_between, SF_geZ, SF_leZ, SF_cmp_Z.
  by rewrite !Some_cmp_cases, compare_ge_cases, compare_le_cases.
Qed.

Lemma SF_between_not_nan lo hi : ¬ SF_between lo hi S754_nan.
Proof. by intros [[?|?] _]. Qed.

Lemma SF_between_not_infinity s lo hi : ¬ SF_between lo hi (S754_infinity s).
Proof. unfold SF_between, SF_geZ, SF_leZ, SF_cmp_Z. destruct s; intros [[?|?] [?|?]]; done. Qed.

(** A number of the format that is no integer multiple of [2^53] or more
    has an exponent of 0 or less. *)
Lemma valid_exponent s m e :
  valid_binary (S754_finite s m e) = true →
  e = Z.max (Z.pos (digits2_pos m) + e - 53) (-1074).
Proof.
  unfold valid_binary, bounded, canonical_mantissa. intros [H _]%andb_prop.
  apply Z.eqb_eq in H. rewrite <- H at 1. reflexivity.
Qed.

Lemma SF_between_cases x lo hi :
  valid_binary x = true → - 2 ^ 53 < lo → hi < 2 ^ 53 → SF_between lo hi x →
  match x with
  | S754_zero _ => lo ≤ 0 ≤ hi
  | S754_finite s m e =>
      e ≤ 0 ∧ lo * 2 ^ (- e) ≤ cond_Zopp s (Z.pos m) ≤ hi * 2 ^ (- e)
  | _ => False
  end.
Proof.
  intros Hv Hlo Hhi Hb. destruct x as [s|s| |s m e].
  - by apply SF_between_zero in Hb.
  - by apply SF_between_not_infinity in Hb.
  - by apply SF_between_not_nan in Hb.
  - assert (He : e ≤ 0).
    { destruct (Z.le_gt_cases e 0) as [|Hpos]; [done|]. exfalso.
      apply valid_exponent in Hv.
      assert (Hd : Z.pos (digits2_pos m) = 53) by lia.
      pose proof (digits2_pos_bound m) as Hm. rewrite Hd in Hm.
      change (2 ^ (53 - 1)) with 4503599627370496 in Hm.
      assert (Hp : 2 ≤ 2 ^ e).
      { change 2 with (2 ^ 1) at 1. apply Z.pow_le_mono_r; lia. }
      destruct Hb as [Hge Hle]. unfold SF_geZ, SF_leZ, SF_cmp_Z in Hge, Hle.
      rewrite (proj2 (Z.leb_le 0 e)) in Hge, Hle by lia.
      rewrite Some_cmp_cases in Hge, Hle.
      apply compare_ge_cases in Hge. apply compare_le_cases in Hle.
      change (2 ^ 53) with 9007199254740992 in *.
      destruct s; unfold cond_Zopp in *; nia. }
    split; [done|]. by apply SF_between_finite.
Qed.

Lemma SF_between_mono x lo hi lo' hi' :
  lo' ≤ lo → hi ≤ hi' → SF_between lo hi x → SF_between lo' hi' x.
Proof.
  intros Hlo Hhi. destruct x as [s|s| |s m e].
  - rewrite !SF_between_zero. lia.
  - by intros ?%SF_between_not_infinity.
  - by intros ?%SF_between_not_nan.
  - unfold SF_between, SF_geZ, SF_leZ, SF_cmp_Z.
    rewrite !Some_cmp_cases.
    destruct (Z.leb_spec 0 e) as [He|He].
    + rewrite !compare_ge_cases, !compare_le_cases. lia.
    + rewrite !compare_ge_cases, !compare_le_cases.
      assert (0 < 2 ^ (- e)) by (apply Z.pow_pos_nonneg; lia). nia.
Qed.

(** The opposite. *)
Lemma SF_between_opp x lo hi : SF_between lo hi (SFopp x) ↔ SF_between (- hi) (- lo) x.
Proof.
  destruct x as [s|s| |s m e]; simpl SFopp.
  - rewrite !SF_between_zero. lia.
  - split; by intros ?%SF_between_not_infinity.
  - split; by intros ?%SF_between_not_nan.
  - unfold SF_between, SF_geZ, SF_leZ, SF_cmp_Z.
    rewrite !Some_cmp_cases.
    destruct (Z.leb_spec 0 e) as [He|He];
      rewrite !compare_ge_cases, !compare_le_cases; destruct s; unfold negb, cond_Zopp; lia.
Qed.

Lemma SFopp_involutive x : SFopp (SFopp x) = x.
Proof. destruct x as [s|s| |s m e]; simpl; by rewrite ?negb_involutive. Qed.

Lemma valid_opp x : valid_binary (SFopp x) = valid_binary x.
Proof. by destruct x. Qed.

Lemma binary_round_aux_opp s q e l :
  binary_round_aux prec emax (negb s) q e l = SFopp (binary_round_aux prec emax s q e l).
Proof.
  unfold binary_round_aux.
  destruct (shr_fexp prec emax q e l) as [mrs e1].
  destruct (shr_fexp prec emax _ e1 loc_Exact) as [mrs' e2].
  destruct (shr_m mrs') as [|p|p]; [done| |done].
  by destruct (e2 <=? emax - prec).
Qed.

(** The rounding of a result of either sign. *)
Lemma round_between_signed s q e l lo hi :
  0 ≤ q → e ≤ 0 → 0 ≤ lo → hi < 2 ^ 53 →
  lo * 2 ^ (- e) ≤ q →
  (if inexact l then q < hi * 2 ^ (- e) else q ≤ hi * 2 ^ (- e)) →
  let r := binary_round_aux prec emax s q e l in
  if s then SF_between (- hi) (- lo) r else SF_between lo hi r.
Proof.
  intros Hq He Hlo Hhi Hlow Hup. cbv zeta.
  pose proof (round_between q e l lo hi Hq He Hlo Hhi Hlow Hup) as H.
  destruct s; [|done].
  change true with (negb false). rewrite binary_round_aux_opp.
  apply SF_between_opp. by rewrite !Z.opp_involutive.
Qed.

(** ** The operations on numbers between two integers *)

Lemma pos_iter_xO m k : Z.pos (Pos.iter xO m k) = Z.pos m * 2 ^ Z.pos k.
Proof.
  induction k as [|k IH] using Pos.peano_ind.
  - simpl. lia.
  - rewrite Pos.iter_succ, Pos2Z.inj_succ, Z.pow_succ_r by lia.
    change (Z.pos (Pos.iter xO m k)~0) with (2 * Z.pos (Pos.iter xO m k)). lia.
Qed.

Lemma digits2_pos_iter m k : digits2_pos (Pos.iter xO m k) = (digits2_pos m + k)%positive.
Proof.
  induction k as [|k IH] using Pos.peano_ind.
  - simpl. lia.
  - rewrite Pos.iter_succ. simpl. rewrite IH. lia.
Qed.

Lemma shl_align_spec m e e' :
  e' ≤ e →
  (shl_align m e e').2 = e' ∧ Z.pos (shl_align m e e').1 = Z.pos m * 2 ^ (e - e').
Proof.
  intros He. unfold shl_align. destruct (e' - e) as [|d|d] eqn:Hd; cbn [fst snd].
  - assert (e = e') by lia. subst. rewrite Z.sub_diag. simpl. lia.
  - lia.
  - rewrite pos_iter_xO. split; [done|]. f_equal. f_equal. lia.
Qed.

(** An exact result between two integers, normalised. *)
Lemma binary_normalize_between M e lo hi :
  e ≤ 0 → 0 ≤ lo → hi < 2 ^ 53 → lo * 2 ^ (- e) ≤ M ≤ hi * 2 ^ (- e) →
  SF_between lo hi (binary_normalize prec emax M e false).
Proof.
  intros He Hlo Hhi [HM1 HM2].
  assert (Hpe : 0 < 2 ^ (- e)) by (apply Z.pow_pos_nonneg; lia).
  destruct M as [|m|m]; simpl binary_normalize.
  - apply SF_between_zero. nia.
  - unfold binary_round.
    set (e' := fexp prec emax (Z.pos (digits2_pos m) + e)).
    destruct (Z.le_gt_cases e' e) as [Hle|Hgt].
    + destruct (shl_align_spec m e e' Hle) as [H2 H1].
      destruct (shl_align m e e') as [mz ez]. cbn [fst snd] in H1, H2. subst ez.
      assert (Hp : 0 < 2 ^ (e - e')) by (apply Z.pow_pos_nonneg; lia).
      assert (Hsplit : 2 ^ (- e') = 2 ^ (- e) * 2 ^ (e - e')).
      { rewrite <- Z.pow_add_r by lia. f_equal. lia. }
      apply round_between; [lia|lia|done|done|..].
      * rewrite H1, Hsplit. nia.
      * simpl. rewrite H1, Hsplit. nia.
    + assert (Hsh : shl_align m e e' = (m, e)).
      { unfold shl_align. destruct (e' - e) eqn:Hd; [done|done|lia]. }
      rewrite Hsh. apply round_between; [lia|lia|done|done|lia|simpl; lia].
  - lia.
Qed.

(** The conversion of an integer below [2^53] in magnitude is exact. *)
Lemma binary_round_exact s m :
  Z.pos m < 2 ^ 53 →
  ∃ mz ez, binary_round prec emax s m 0 = S754_finite s mz ez
    ∧ valid_binary (S754_finite s mz ez) = true
    ∧ ez ≤ 0 ∧ Z.pos mz = Z.pos m * 2 ^ (- ez).
Proof.
  intros Hm.
  assert (Hd : Z.pos (digits2_pos m) ≤ 53).
  { change (Z.pos (digits2_pos m)) with (Zdigits2 (Z.pos m)). apply Zdigits2_le; lia. }
  unfold binary_round.
  assert (Hfe : fexp prec emax (Z.pos (digits2_pos m) + 0) = Z.pos (digits2_pos m) - 53).
  { unfold fexp. change (SpecFloat.emin prec emax) with (-1074). change prec with 53. lia. }
  rewrite Hfe.
  set (e' := Z.pos (digits2_pos m) - 53).
  assert (He' : -52 ≤ e' ≤ 0) by (unfold e'; lia).
  destruct (shl_align_spec m 0 e' ltac:(lia)) as [H2 H1].
  assert (Hdz : Z.pos (digits2_pos (shl_align m 0 e').1) = 53).
  { unfold shl_align. destruct (e' - 0) as [|d|d] eqn:Hd'; cbn [fst]; [lia|lia|].
    rewrite digits2_pos_iter. lia. }
  destruct (shl_align m 0 e') as [mz ez]. cbn [fst snd] in H1, H2, Hdz. subst ez.
  rewrite Z.sub_0_l in H1.
  assert (Hmz : Z.pos mz < 2 ^ 53).
  { pose proof (digits2_pos_lt mz) as H. by rewrite Hdz in H. }
  exists mz, e'.
  split; [|split; [|split; [lia|done]]].
  - unfold binary_round_aux.
    rewrite shr_fexp_second by (done || (change emin with (-1074); lia)).
    cbn [shr_m loc_of_shr_record round_nearest_even].
    rewrite shr_fexp_second by (done || (change emin with (-1074); lia)).
    cbn [shr_m].
    by rewrite (proj2 (Z.leb_le e' (emax - prec))) by (change (emax - prec) with 971; lia).
  - unfold valid_binary, bounded, canonical_mantissa. rewrite Hdz.
    apply andb_true_intro. split.
    + apply Z.eqb_eq. unfold fexp. change (SpecFloat.emin prec emax) with (-1074).
      change prec with 53. lia.
    + apply Z.leb_le. change (emax - prec) with 971. lia.
Qed.

Lemma float_of_between z : Z.abs z < 2 ^ 53 → between z z (float_of z).
Proof.
  intros Hz. unfold between, float_of. destruct z as [|m|m]; simpl binary_normalize.
  - rewrite Prim2SF_SF2Prim by done. by apply SF_between_zero.
  - destruct (binary_round_exact false m ltac:(lia)) as (mz & ez & -> & Hv & He & Hmz).
    rewrite Prim2SF_SF2Prim by done. apply SF_between_finite; [done|].
    simpl. lia.
  - destruct (binary_round_exact true m ltac:(lia)) as (mz & ez & -> & Hv & He & Hmz).
    rewrite Prim2SF_SF2Prim by done. apply SF_between_finite; [done|].
    simpl. lia.
Qed.

(** Products of numbers that are not negative. *)
Lemma SFmul_between x y l1 h1 l2 h2 :
  valid_binary x = true → valid_binary y = true →
  0 ≤ l1 → 0 ≤ l2 → h1 < 2 ^ 53 → h2 < 2 ^ 53 → h1 * h2 < 2 ^ 53 →
  SF_between l1 h1 x → SF_between l2 h2 y →
  SF_between (l1 * l2) (h1 * h2) (SFmul prec emax x y).
Proof.
  intros Hvx Hvy Hl1 Hl2 H1 H2 H12 Hx Hy.
  apply SF_between_cases in Hx; [|done|lia|done].
  apply SF_between_cases in Hy; [|done|lia|done].
  destruct x as [sx|sx| |sx mx ex]; try done;
    destruct y as [sy|sy| |sy my ey]; try done; simpl SFmul.
  - apply SF_between_zero. nia.
  - destruct Hy as (He & Hy1 & Hy2).
    assert (0 < 2 ^ (- ey)) by (apply Z.pow_pos_nonneg; lia).
    apply SF_between_zero. nia.
  - destruct Hx as (He & Hx1 & Hx2).
    assert (0 < 2 ^ (- ex)) by (apply Z.pow_pos_nonneg; lia).
    apply SF_between_zero. nia.
  - destruct Hx as (Hex & Hx1 & Hx2). destruct Hy as (Hey & Hy1 & Hy2).
    assert (Hpx : 0 < 2 ^ (- ex)) by (apply Z.pow_pos_nonneg; lia).
    assert (Hpy : 0 < 2 ^ (- ey)) by (apply Z.pow_pos_nonneg; lia).
    destruct sx; [simpl in Hx1; nia|]. destruct sy; [simpl in Hy1; nia|].
    simpl in Hx1, Hx2, Hy1, Hy2. simpl xorb.
    assert (Hsplit : 2 ^ (- (ex + ey)) = 2 ^ (- ex) * 2 ^ (- ey))
      by (rewrite <- Z.pow_add_r by lia; f_equal; lia).
    set (A := 2 ^ (- ex)) in *. set (B := 2 ^ (- ey)) in *.
    assert (Hup : Z.pos mx * Z.pos my ≤ (h1 * A) * (h2 * B))
      by (apply Z.mul_le_mono_nonneg; lia).
    assert (Hlow : (l1 * A) * (l2 * B) ≤ Z.pos mx * Z.pos my)
      by (apply Z.mul_le_mono_nonneg; nia).
    apply round_between; [lia|lia|nia|done|..].
    + rewrite Hsplit, Pos2Z.inj_mul. lia.
    + simpl. rewrite Hsplit, Pos2Z.inj_mul. lia.
Qed.

Lemma SFmul_opp_r x y : SFmul prec emax x (SFopp y) = SFopp (SFmul prec emax x y).
Proof.
  destruct x as [sx|sx| |sx mx ex]; destruct y as [sy|sy| |sy my ey]; simpl; try done;
    rewrite ?xorb_negb_r_eq; try done.
  all: try (by destruct sx, sy).
  replace (xorb sx (negb sy)) with (negb (xorb sx sy)) by (by destruct sx, sy).
  apply binary_round_aux_opp.
Qed.

(** Sums that are not negative. *)
Lemma SFadd_between x y lo1 hi1 lo2 hi2 :
  valid_binary x = true → valid_binary y = true →
  - 2 ^ 53 < lo1 → hi1 < 2 ^ 53 → - 2 ^ 53 < lo2 → hi2 < 2 ^ 53 →
  0 ≤ lo1 + lo2 → hi1 + hi2 < 2 ^ 53 →
  SF_between lo1 hi1 x → SF_between lo2 hi2 y →
  SF_between (lo1 + lo2) (hi1 + hi2) (SFadd prec emax x y).
Proof.
  intros Hvx Hvy Hl1 Hh1 Hl2 Hh2 Hlo Hhi Hx Hy.
  pose proof (SF_between_cases _ _ _ Hvx Hl1 Hh1 Hx) as Hcx.
  pose proof (SF_between_cases _ _ _ Hvy Hl2 Hh2 Hy) as Hcy.
  destruct x as [sx|sx| |sx mx ex]; try done;
    destruct y as [sy|sy| |sy my ey]; try done; simpl SFadd.
  - assert (SF_between (lo1 + lo2) (hi1 + hi2) (S754_zero false)) by (apply SF_between_zero; lia).
    assert (SF_between (lo1 + lo2) (hi1 + hi2) (S754_zero sx)) by (apply SF_between_zero; lia).
    by destruct sx, sy.
  - apply (SF_between_mono _ lo2 hi2); [lia|lia|done].
  - apply (SF_between_mono _ lo1 hi1); [lia|lia|done].
  - destruct Hcx as (Hex & Hx1 & Hx2). destruct Hcy as (Hey & Hy1 & Hy2).
    set (ez := Z.min ex ey).
    destruct (shl_align_spec mx ex ez ltac:(lia)) as [_ Hax].
    destruct (shl_align_spec my ey ez ltac:(lia)) as [_ Hay].
    assert (Hcz : ∀ s a b, cond_Zopp s (a * b) = cond_Zopp s a * b) by (intros []; simpl; lia).
    rewrite Hax, Hay, !Hcz.
    assert (Hpx : 0 < 2 ^ (ex - ez)) by (apply Z.pow_pos_nonneg; lia).
    assert (Hpy : 0 < 2 ^ (ey - ez)) by (apply Z.pow_pos_nonneg; lia).
    assert (Hsx : 2 ^ (- ez) = 2 ^ (- ex) * 2 ^ (ex - ez)).
    { rewrite <- Z.pow_add_r by lia. f_equal. lia. }
    assert (Hsy : 2 ^ (- ez) = 2 ^ (- ey) * 2 ^ (ey - ez)).
    { rewrite <- Z.pow_add_r by lia. f_equal. lia. }
    apply binary_normalize_between; [lia|done|done|].
    set (cx := cond_Zopp sx (Z.pos mx)) in *. set (cy := cond_Zopp sy (Z.pos my)) in *.
    assert (lo1 * 2 ^ (- ez) ≤ cx * 2 ^ (ex - ez) ≤ hi1 * 2 ^ (- ez)) by (rewrite Hsx; nia).
    assert (lo2 * 2 ^ (- ez) ≤ cy * 2 ^ (ey - ez) ≤ hi2 * 2 ^ (- ez)) by (rewrite Hsy; nia).
    lia.
Qed.

Lemma SFsub_add_opp x y : SFsub prec emax x y = SFadd prec emax x (SFopp y).
Proof.
  destruct x as [sx|sx| |sx mx ex]; destruct y as [sy|sy| |sy my ey]; simpl; try done;
    by destruct sx, sy.
Qed.

Lemma SFsub_between x y lo1 hi1 lo2 hi2 :
  valid_binary x = true → valid_binary y = true →
  - 2 ^ 53 < lo1 → hi1 < 2 ^ 53 → - 2 ^ 53 < lo2 → hi2 < 2 ^ 53 →
  0 ≤ lo1 - hi2 → hi1 - lo2 < 2 ^ 53 →
  SF_between lo1 hi1 x → SF_between lo2 hi2 y →
  SF_between (lo1 - hi2) (hi1 - lo2) (SFsub prec emax x y).
Proof.
  intros Hvx Hvy Hl1 Hh1 Hl2 Hh2 Hlo Hhi Hx Hy.
  rewrite SFsub_add_opp.
  apply (SFadd_between x (SFopp y) lo1 hi1 (- hi2) (- lo2)); try done; try lia.
  - by rewrite valid_opp.
  - apply SF_between_opp. by rewrite !Z.opp_involutive.
Qed.

(** Quotients by a whole number. *)
Lemma new_location_inexact n r : inexact (new_location n r) = true → r ≠ 0.
Proof.
  unfold new_location, new_location_even, new_location_odd. intros H ->.
  by destruct (Z.even n).
Qed.

Lemma SFdiv_between x y a b w lo hi :
  valid_binary x = true → valid_binary y = true →
  1 ≤ w < 2 ^ 53 → 0 ≤ lo → hi < 2 ^ 53 → b < 2 ^ 53 →
  lo * w ≤ a → b ≤ hi * w →
  SF_between a b x → SF_between w w y →
  SF_between lo hi (SFdiv prec emax x y).
Proof.
  intros Hvx Hvy Hw Hlo Hhi Hb Hla Hbh Hx Hy.
  assert (Ha : 0 ≤ a) by nia.
  apply SF_between_cases in Hx; [|done|lia|done].
  apply SF_between_cases in Hy; [|done|lia|lia].
  destruct y as [sy|sy| |sy my ey]; try done; [lia|].
  destruct Hy as (Hey & Hy1 & Hy2).
  assert (Hpy : 0 < 2 ^ (- ey)) by (apply Z.pow_pos_nonneg; lia).
  destruct sy; [simpl in Hy1; nia|]. simpl in Hy1, Hy2.
  assert (Hmy : Z.pos my = w * 2 ^ (- ey)) by lia. clear Hy1 Hy2.
  destruct x as [sx|sx| |sx mx ex]; try done; simpl SFdiv.
  - apply SF_between_zero. nia.
  - destruct Hx as (Hex & Hx1 & Hx2).
    assert (Hpx : 0 < 2 ^ (- ex)) by (apply Z.pow_pos_nonneg; lia).
    destruct sx; [simpl in Hx1; nia|]. simpl in Hx1, Hx2. simpl xorb.
    unfold SFdiv_core_binary.
    set (d1 := Zdigits2 (Z.pos mx)). set (d2 := Zdigits2 (Z.pos my)).
    set (e' := Z.min (fexp prec emax (d1 + ex - (d2 + ey))) (ex - ey)).
    set (s := ex - ey - e').
    assert (Hs : 0 ≤ s) by (unfold s, e'; lia).
    set (m' := match s with Z.pos _ => Z.shiftl (Z.pos mx) s | 0 => Z.pos mx | Z.neg _ => 0 end).
    assert (Hm' : m' = Z.pos mx * 2 ^ s).
    { unfold m'. destruct s as [|p|p] eqn:Es; [simpl; lia| |lia].
      by rewrite Z.shiftl_mul_pow2. }
    clearbody m'.
    destruct (Zdigits2_bounds (Z.pos mx) ltac:(lia)) as (_ & _ & Hd1). specialize (Hd1 ltac:(lia)).
    destruct (Zdigits2_bounds (Z.pos my) ltac:(lia)) as (Hd2p & Hd2 & _).
    fold d1 in Hd1. fold d2 in Hd2, Hd2p.
    assert (Hde1 : d1 + ex ≤ 53).
    { destruct (Z.le_gt_cases (d1 + ex) 53) as [|Hgt]; [done|]. exfalso.
      assert (2 ^ (53 - ex) ≤ 2 ^ (d1 - 1)) by (apply Z.pow_le_mono_r; lia).
      replace (53 - ex) with (53 + - ex) in H by lia. rewrite Z.pow_add_r in H by lia.
      nia. }
    assert (Hde2 : 1 ≤ d2 + ey).
    { destruct (Z.le_gt_cases 1 (d2 + ey)) as [|Hgt]; [done|]. exfalso.
      assert (2 ^ d2 ≤ 2 ^ (- ey)) by (apply Z.pow_le_mono_r; lia). nia. }
    assert (He' : e' ≤ 0).
    { unfold e', fexp. change (SpecFloat.emin prec emax) with (-1074). change prec with 53. lia. }
    assert (Hps : 0 < 2 ^ s) by (apply Z.pow_pos_nonneg; lia).
    assert (Hpe : 0 < 2 ^ (- e')) by (apply Z.pow_pos_nonneg; lia).
    assert (Hsplit : 2 ^ (- ex) * 2 ^ s = 2 ^ (- ey) * 2 ^ (- e')).
    { rewrite <- !Z.pow_add_r by lia. f_equal. unfold s. lia. }
    set (A := 2 ^ (- ex)) in *. set (S := 2 ^ s) in *.
    set (B := 2 ^ (- ey)) in *. set (P := 2 ^ (- e')) in *.
    assert (Hlow : lo * P * Z.pos my ≤ m').
    { rewrite Hm', Hmy.
      assert (a * (A * S) ≤ Z.pos mx * S) by nia.
      rewrite Hsplit in H. nia. }
    assert (Hupp : m' ≤ hi * P * Z.pos my).
    { rewrite Hm', Hmy.
      assert (Z.pos mx * S ≤ b * (A * S)) by nia.
      rewrite Hsplit in H. nia. }
    pose proof (Z_div_mod m' (Z.pos my) ltac:(lia)) as Hdm.
    destruct (Z.div_eucl m' (Z.pos my)) as [q r]. destruct Hdm as [Hdm Hr].
    assert (Hq : 0 ≤ q) by nia.
    apply round_between; [done|done|done|done|nia|].
    destruct (inexact (new_location (Z.pos my) r)) eqn:Hin; [|nia].
    apply new_location_inexact in Hin. nia.
Qed.

(** [int] of a number between two integers. *)
Lemma SF_trunc_between x lo hi :
  SF_between lo hi x → ∃ r, SF_trunc x = Ok r ∧ lo ≤ r ≤ hi.
Proof.
  destruct x as [s|s| |s m e].
  - intros H%SF_between_zero. by exists 0.
  - by intros ?%SF_between_not_infinity.
  - by intros ?%SF_between_not_nan.
  - unfold SF_between, SF_geZ, SF_leZ, SF_cmp_Z, SF_trunc.
    rewrite !Some_cmp_cases. intros [Hge Hle]. eexists. split; [done|].
    revert Hge Hle. destruct (Z.leb_spec 0 e) as [He|He];
      rewrite compare_ge_cases, compare_le_cases; intros Hge Hle.
    + destruct s; simpl in *; lia.
    + assert (HP : 0 < 2 ^ (- e)) by (apply Z.pow_pos_nonneg; lia).
      set (P := 2 ^ (- e)) in *.
      pose proof (Z.div_mod (Z.pos m) P ltac:(lia)) as Hdm.
      pose proof (Z.mod_pos_bound (Z.pos m) P HP) as Hmod.
      destruct s; unfold cond_Zopp in *; nia.
Qed.

(** ** Rounding keeps the order of magnitude

    Far from the least and the greatest numbers of the format, a binary64
    operation returns a finite number whose binary order of magnitude is
    that of the exact result, or one more. *)

Lemma Zdigits2_unique q d : 2 ^ (d - 1) ≤ q < 2 ^ d → 1 ≤ d → Zdigits2 q = d.
Proof.
  intros [Hlo Hhi] Hd.
  assert (Hq : 0 < q).
  { assert (0 < 2 ^ (d - 1)) by (apply Z.pow_pos_nonneg; lia). lia. }
  destruct (Zdigits2_bounds q ltac:(lia)) as (Hd0 & Hlt & Hge). specialize (Hge Hq).
  assert (Zdigits2 q ≤ d) by (apply Zdigits2_le; lia).
  destruct (Z.le_gt_cases d (Zdigits2 q)) as [|Hgt]; [lia|]. exfalso.
  assert (2 ^ Zdigits2 q ≤ 2 ^ (d - 1)) by (apply Z.pow_le_mono_r; lia). lia.
Qed.

Lemma Zdigits2_pos_bounds q :
  0 < q → 1 ≤ Zdigits2 q ∧ 2 ^ (Zdigits2 q - 1) ≤ q < 2 ^ Zdigits2 q.
Proof.
  intros Hq. destruct (Zdigits2_bounds q ltac:(lia)) as (Hd0 & Hlt & Hge).
  specialize (Hge Hq). split; [|lia].
  destruct q as [|p|p]; try lia. simpl. lia.
Qed.

(** The first shift of [binary_round_aux] on a mantissa of 53 bits or
    more. *)
Lemma shr_fexp_normal q e l :
  0 < q → 53 ≤ Zdigits2 q → -1021 ≤ Zdigits2 q + e →
  let n := Zdigits2 q - 53 in
  (shr_fexp prec emax q e l).2 = e + n
  ∧ shr_m (shr_fexp prec emax q e l).1 = q `div` 2 ^ n.
Proof.
  intros Hq Hd He n.
  assert (Hfe : fexp prec emax (Zdigits2 q + e) = Z.max (Zdigits2 q + e - 53) (-1074))
    by reflexivity.
  unfold shr_fexp, shr. rewrite Hfe.
  replace (Z.max (Zdigits2 q + e - 53) (-1074) - e) with n by (unfold n; lia).
  destruct n as [|p|p] eqn:Hn; cbn [fst snd].
  - rewrite shr_record_of_loc_m. change (2 ^ 0) with 1. rewrite Z.div_1_r. lia.
  - rewrite iter_shr_1 by (rewrite shr_record_of_loc_m; lia).
    by rewrite shr_record_of_loc_m.
  - lia.
Qed.

Lemma round_mag s q e l :
  0 < q → 53 ≤ Zdigits2 q → -1021 ≤ Zdigits2 q + e ≤ 1023 →
  ∃ m' e',
    binary_round_aux prec emax s q e l = S754_finite s m' e'
    ∧ Zdigits2 q + e ≤ Z.pos (digits2_pos m') + e' ≤ Zdigits2 q + e + 1.
Proof.
  intros Hq Hd HE.
  destruct (Zdigits2_pos_bounds q Hq) as (_ & Hlo & Hhi).
  destruct (shr_fexp_normal q e l Hq Hd ltac:(lia)) as [He1 Hm1].
  unfold binary_round_aux.
  destruct (shr_fexp prec emax q e l) as [mrs e1]. cbn [fst snd] in He1, Hm1. subst e1.
  set (n := Zdigits2 q - 53) in *.
  assert (Hn : 0 ≤ n) by (unfold n; lia).
  assert (Hpn : 0 < 2 ^ n) by (apply Z.pow_pos_nonneg; lia).
  assert (Hsplit : 2 ^ (Zdigits2 q - 1) = 2 ^ 52 * 2 ^ n).
  { rewrite <- Z.pow_add_r by lia. f_equal. unfold n. lia. }
  assert (Hsplit' : 2 ^ Zdigits2 q = 2 ^ 53 * 2 ^ n).
  { rewrite <- Z.pow_add_r by lia. f_equal. unfold n. lia. }
  assert (Hm1r : 2 ^ 52 ≤ shr_m mrs < 2 ^ 53).
  { rewrite Hm1. split.
    - apply Z.div_le_lower_bound; [done|]. rewrite Hsplit in Hlo. lia.
    - apply Z.div_lt_upper_bound; [done|]. rewrite Hsplit' in Hhi. lia. }
  destruct (round_nearest_even_cases (shr_m mrs) (loc_of_shr_record mrs)) as [Hcase _].
  set (mr := round_nearest_even (shr_m mrs) (loc_of_shr_record mrs)) in *.
  change (2 ^ 52) with 4503599627370496 in Hm1r.
  change (2 ^ 53) with 9007199254740992 in Hm1r.
  destruct (Z.eq_dec mr (2 ^ 53)) as [Htop|Hnot].
  - rewrite Htop, shr_fexp_second_top by (change emin with (-1074); lia).
    cbn [shr_m]. change (2 ^ 52) with (Z.pos 4503599627370496).
    rewrite (proj2 (Z.leb_le (e + n + 1) (emax - prec)))
      by (change (emax - prec) with 971; unfold n; lia).
    eexists _, _. split; [done|].
    change (Z.pos (digits2_pos 4503599627370496)) with 53. unfold n. lia.
  - change (2 ^ 53) with 9007199254740992 in Hnot.
    rewrite shr_fexp_second
      by ((change (2 ^ 53) with 9007199254740992; lia) || (change emin with (-1074); lia)).
    cbn [shr_m].
    destruct mr as [|p|p] eqn:Emr; [lia| |lia].
    rewrite (proj2 (Z.leb_le (e + n) (emax - prec)))
      by (change (emax - prec) with 971; unfold n; lia).
    eexists _, _. split; [done|].
    assert (Hdp : Zdigits2 (Z.pos p) = 53).
    { apply Zdigits2_unique; [|lia].
      change (2 ^ (53 - 1)) with 4503599627370496.
      change (2 ^ 53) with 9007199254740992. lia. }
    simpl in Hdp. rewrite Hdp. unfold n. lia.
Qed.

(** A number of the format whose order of magnitude is above -1022 has a
    mantissa of 53 bits. *)
Lemma valid_normal s m e :
  valid_binary (S754_finite s m e) = true → -1021 ≤ Z.pos (digits2_pos m) + e →
  Z.pos (digits2_pos m) = 53.
Proof. intros Hv%valid_exponent HE. lia. Qed.

Lemma digits_mul a b :
  0 < a → 0 < b →
  Zdigits2 a + Zdigits2 b - 1 ≤ Zdigits2 (a * b) ≤ Zdigits2 a + Zdigits2 b.
Proof.
  intros Ha Hb.
  destruct (Zdigits2_pos_bounds a Ha) as (Hda & Hla & Hha).
  destruct (Zdigits2_pos_bounds b Hb) as (Hdb & Hlb & Hhb).
  destruct (Zdigits2_pos_bounds (a * b) ltac:(lia)) as (Hdab & Hlab & Hhab).
  assert (H1 : 2 ^ (Zdigits2 a - 1) * 2 ^ (Zdigits2 b - 1) ≤ a * b)
    by (apply Z.mul_le_mono_nonneg; try done; apply Z.pow_nonneg; lia).
  assert (H2 : a * b < 2 ^ Zdigits2 a * 2 ^ Zdigits2 b)
    by (apply Z.mul_lt_mono_nonneg; lia).
  rewrite <- Z.pow_add_r in H1, H2 by lia.
  split.
  - destruct (Z.le_gt_cases (Zdigits2 a + Zdigits2 b - 1) (Zdigits2 (a * b))) as [|Hgt];
      [done|]. exfalso.
    assert (2 ^ Zdigits2 (a * b) ≤ 2 ^ (Zdigits2 a - 1 + (Zdigits2 b - 1)))
      by (apply Z.pow_le_mono_r; lia). lia.
  - apply Zdigits2_le; lia.
Qed.

(** ** The order of magnitude of products, quotients, sums and roots *)

Lemma SF_nz_mag s lo hi x : SF_nz s lo hi x → SF_mag lo hi x.
Proof. destruct x; simpl; try done. by intros [_ ?]. Qed.

Lemma SF_mag_mono lo hi lo' hi' x : lo' ≤ lo → hi ≤ hi' → SF_mag lo hi x → SF_mag lo' hi' x.
Proof. destruct x; simpl; try done. lia. Qed.

Lemma SF_nz_mono s lo hi lo' hi' x : lo' ≤ lo → hi ≤ hi' → SF_nz s lo hi x → SF_nz s lo' hi' x.
Proof. destruct x; simpl; try done. intros ?? [-> ?]. split; [done|lia]. Qed.

Lemma SF_mag_cases lo hi x :
  SF_mag lo hi x → (∃ s, x = S754_zero s) ∨ ∃ s, SF_nz s lo hi x.
Proof. destruct x as [s|s| |s m e]; simpl; try done; eauto. Qed.

Lemma SFmul_nz x y sx sy lx hx ly hy :
  valid_binary x = true → valid_binary y = true →
  SF_nz sx lx hx x → SF_nz sy ly hy y →
  -1021 ≤ lx → -1021 ≤ ly → -1020 ≤ lx + ly → hx + hy ≤ 1023 →
  SF_nz (xorb sx sy) (lx + ly - 1) (hx + hy + 1) (SFmul prec emax x y).
Proof.
  intros Hvx Hvy Hx Hy Hlx Hly Hl Hh.
  destruct x as [| | |sx' mx ex]; try done. destruct y as [| | |sy' my ey]; try done.
  destruct Hx as [-> Hx], Hy as [-> Hy].
  pose proof (valid_normal _ _ _ Hvx ltac:(lia)) as Hdx.
  pose proof (valid_normal _ _ _ Hvy ltac:(lia)) as Hdy.
  pose proof (digits_mul (Z.pos mx) (Z.pos my) ltac:(lia) ltac:(lia)) as Hd.
  simpl Zdigits2 in Hd. rewrite Hdx, Hdy in Hd. rewrite Hdx in Hx. rewrite Hdy in Hy.
  simpl SFmul.
  destruct (round_mag (xorb sx sy) (Z.pos (mx * my)) (ex + ey) loc_Exact)
    as (m' & e' & -> & HE); [lia|simpl; lia|simpl; lia|].
  simpl. split; [done|]. simpl in HE. lia.
Qed.

Lemma SFmul_mag x y lx hx ly hy :
  valid_binary x = true → valid_binary y = true →
  SF_mag lx hx x → SF_mag ly hy y →
  -1021 ≤ lx → -1021 ≤ ly → -1020 ≤ lx + ly → hx + hy ≤ 1023 →
  SF_mag (lx + ly - 1) (hx + hy + 1) (SFmul prec emax x y).
Proof.
  intros Hvx Hvy Hx Hy Hlx Hly Hl Hh.
  destruct (SF_mag_cases _ _ _ Hx) as [[sx ->]|[sx Hx']];
    destruct (SF_mag_cases _ _ _ Hy) as [[sy ->]|[sy Hy']].
  - done.
  - by destruct y.
  - by destruct x.
  - eapply SF_nz_mag. by apply (SFmul_nz x y sx sy).
Qed.

Lemma div_pow2_bounds m' my :
  2 ^ 105 ≤ m' < 2 ^ 106 → 2 ^ 52 ≤ my < 2 ^ 53 →
  2 ^ 52 ≤ m' `div` my < 2 ^ 54.
Proof.
  intros Hm Hy.
  change (2 ^ 105) with (2 ^ 52 * 2 ^ 53) in Hm.
  change (2 ^ 106) with (2 ^ 54 * 2 ^ 52) in Hm.
  change (2 ^ 52) with 4503599627370496 in *.
  change (2 ^ 53) with 9007199254740992 in *.
  change (2 ^ 54) with 18014398509481984 in *.
  split.
  - apply Z.div_le_lower_bound; [lia|]. nia.
  - apply Z.div_lt_upper_bound; [lia|]. nia.
Qed.

Lemma SFdiv_nz x y sx sy lx hx ly hy :
  valid_binary x = true → valid_binary y = true →
  SF_nz sx lx hx x → SF_nz sy ly hy y →
  -1021 ≤ lx → -1021 ≤ ly → -1021 ≤ lx - hy → hx - ly ≤ 1022 →
  SF_nz (xorb sx sy) (lx - hy) (hx - ly + 2) (SFdiv prec emax x y).
Proof.
  intros Hvx Hvy Hx Hy Hlx Hly Hl Hh.
  destruct x as [| | |sx' mx ex]; try done. destruct y as [| | |sy' my ey]; try done.
  destruct Hx as [-> Hx], Hy as [-> Hy].
  pose proof (valid_normal _ _ _ Hvx ltac:(lia)) as Hdx.
  pose proof (valid_normal _ _ _ Hvy ltac:(lia)) as Hdy.
  rewrite Hdx in Hx. rewrite Hdy in Hy.
  destruct (Zdigits2_pos_bounds (Z.pos mx) ltac:(lia)) as (_ & Hmx1 & Hmx2).
  destruct (Zdigits2_pos_bounds (Z.pos my) ltac:(lia)) as (_ & Hmy1 & Hmy2).
  simpl Zdigits2 in Hmx1, Hmx2, Hmy1, Hmy2. rewrite Hdx in Hmx1, Hmx2. rewrite Hdy in Hmy1, Hmy2.
  change (53 - 1) with 52 in *.
  simpl SFdiv. unfold SFdiv_core_binary. simpl Zdigits2. rewrite Hdx, Hdy.
  assert (He' : Z.min (fexp prec emax (53 + ex - (53 + ey))) (ex - ey) = ex - ey - 53).
  { unfold fexp. change (SpecFloat.emin prec emax) with (-1074). change prec with 53. lia. }
  rewrite He'. replace (ex - ey - (ex - ey - 53)) with 53 by lia.
  rewrite Z.shiftl_mul_pow2 by lia.
  assert (Hm' : 2 ^ 105 ≤ Z.pos mx * 2 ^ 53 < 2 ^ 106).
  { change (2 ^ 105) with (2 ^ 52 * 2 ^ 53). change (2 ^ 106) with (2 ^ 53 * 2 ^ 53).
    change (2 ^ 53) with 9007199254740992 in *. lia. }
  pose proof (div_pow2_bounds _ _ Hm' (conj Hmy1 Hmy2)) as Hq.
  pose proof (Z_div_mod (Z.pos mx * 2 ^ 53) (Z.pos my) ltac:(lia)) as Hdm.
  unfold Z.div in Hq.
  destruct (Z.div_eucl (Z.pos mx * 2 ^ 53) (Z.pos my)) as [q r]. cbn [fst] in Hq.
  assert (Hdq : 53 ≤ Zdigits2 q ≤ 54).
  { assert (0 < q) by (change (2 ^ 52) with 4503599627370496 in Hq; lia).
    destruct (Zdigits2_pos_bounds q ltac:(done)) as (_ & Hq1 & Hq2).
    split.
    - destruct (Z.le_gt_cases 53 (Zdigits2 q)) as [|Hgt]; [done|]. exfalso.
      assert (2 ^ Zdigits2 q ≤ 2 ^ 52) by (apply Z.pow_le_mono_r; lia). lia.
    - apply Zdigits2_le; lia. }
  destruct (round_mag (xorb sx sy) q (ex - ey - 53) (new_location (Z.pos my) r))
    as (m' & e' & -> & HE);
    [change (2 ^ 52) with 4503599627370496 in Hq; lia|lia|lia|].
  simpl. split; [done|]. lia.
Qed.

Lemma SFdiv_mag x y sy lx hx ly hy :
  valid_binary x = true → valid_binary y = true →
  SF_mag lx hx x → SF_nz sy ly hy y →
  -1021 ≤ lx → -1021 ≤ ly → -1021 ≤ lx - hy → hx - ly ≤ 1022 →
  SF_mag (lx - hy) (hx - ly + 2) (SFdiv prec emax x y).
Proof.
  intros Hvx Hvy Hx Hy Hlx Hly Hl Hh.
  destruct (SF_mag_cases _ _ _ Hx) as [[sx ->]|[sx Hx']].
  - by destruct y.
  - eapply SF_nz_mag. by apply (SFdiv_nz x y sx sy).
Qed.

(** Sums of numbers of one sign. *)
Lemma SFadd_nz x y s lx hx ly hy :
  valid_binary x = true → valid_binary y = true →
  SF_nz s lx hx x → SF_nz s ly hy y →
  -1021 ≤ lx → -1021 ≤ ly → Z.max hx hy ≤ 1022 →
  SF_nz s (Z.max lx ly) (Z.max hx hy + 2) (SFadd prec emax x y).
Proof.
  intros Hvx Hvy Hx Hy Hlx Hly Hh.
  destruct x as [| | |sx' mx ex]; try done. destruct y as [| | |sy' my ey]; try done.
  destruct Hx as [-> Hx], Hy as [-> Hy].
  pose proof (valid_normal _ _ _ Hvx ltac:(lia)) as Hdx.
  pose proof (valid_normal _ _ _ Hvy ltac:(lia)) as Hdy.
  rewrite Hdx in Hx. rewrite Hdy in Hy.
  destruct (Zdigits2_pos_bounds (Z.pos mx) ltac:(lia)) as (_ & Hmx1 & Hmx2).
  destruct (Zdigits2_pos_bounds (Z.pos my) ltac:(lia)) as (_ & Hmy1 & Hmy2).
  simpl Zdigits2 in Hmx1, Hmx2, Hmy1, Hmy2. rewrite Hdx in Hmx1, Hmx2. rewrite Hdy in Hmy1, Hmy2.
  change (53 - 1) with 52 in *.
  simpl SFadd. set (ez := Z.min ex ey).
  destruct (shl_align_spec mx ex ez ltac:(lia)) as [_ Hax].
  destruct (shl_align_spec my ey ez ltac:(lia)) as [_ Hay].
  assert (Hcz : ∀ a b, cond_Zopp s a + cond_Zopp s b = cond_Zopp s (a + b))
    by (intros; destruct s; simpl; lia).
  rewrite Hcz, Hax, Hay.
  set (X := Z.pos mx * 2 ^ (ex - ez)). set (Y := Z.pos my * 2 ^ (ey - ez)).
  assert (Hpx : 0 < 2 ^ (ex - ez)) by (apply Z.pow_pos_nonneg; lia).
  assert (Hpy : 0 < 2 ^ (ey - ez)) by (apply Z.pow_pos_nonneg; lia).
  set (E := Z.max (53 + ex) (53 + ey)).
  assert (HXY : 2 ^ (E - 1 - ez) ≤ X + Y < 2 ^ (E + 1 - ez)).
  { assert (HX : 2 ^ (52 + ex - ez) ≤ X < 2 ^ (53 + ex - ez)).
    { unfold X. replace (52 + ex - ez) with (52 + (ex - ez)) by lia.
      replace (53 + ex - ez) with (53 + (ex - ez)) by lia.
      rewrite !Z.pow_add_r by lia. nia. }
    assert (HY : 2 ^ (52 + ey - ez) ≤ Y < 2 ^ (53 + ey - ez)).
    { unfold Y. replace (52 + ey - ez) with (52 + (ey - ez)) by lia.
      replace (53 + ey - ez) with (53 + (ey - ez)) by lia.
      rewrite !Z.pow_add_r by lia. nia. }
    assert (H1 : 2 ^ (53 + ex - ez) ≤ 2 ^ (E - ez)) by (apply Z.pow_le_mono_r; lia).
    assert (H2 : 2 ^ (53 + ey - ez) ≤ 2 ^ (E - ez)) by (apply Z.pow_le_mono_r; lia).
    assert (H3 : 2 ^ (E + 1 - ez) = 2 * 2 ^ (E - ez)).
    { rewrite <- Z.pow_succ_r by lia. f_equal. lia. }
    split; [|lia].
    destruct (Z.le_ge_cases ex ey).
    - replace (E - 1 - ez) with (52 + ey - ez) by lia. lia.
    - replace (E - 1 - ez) with (52 + ex - ez) by lia. lia. }
  assert (HXYpos : 0 < X + Y) by lia.
  assert (Hd : E - ez ≤ Zdigits2 (X + Y) ≤ E + 1 - ez).
  { destruct (Zdigits2_pos_bounds (X + Y) HXYpos) as (_ & Hq1 & Hq2). split.
    - destruct (Z.le_gt_cases (E - ez) (Zdigits2 (X + Y))) as [|Hgt]; [done|]. exfalso.
      assert (2 ^ Zdigits2 (X + Y) ≤ 2 ^ (E - 1 - ez)) by (apply Z.pow_le_mono_r; lia). lia.
    - apply Zdigits2_le; lia. }
  destruct (X + Y) as [|p|p] eqn:Ep; [lia| |lia].
  assert (Hround : ∀ sz, ∃ m' e',
            binary_round prec emax sz p ez = S754_finite sz m' e'
            ∧ E ≤ Z.pos (digits2_pos m') + e' ≤ E + 2).
  { intros sz. unfold binary_round.
    assert (Hsh : shl_align p ez (fexp prec emax (Z.pos (digits2_pos p) + ez)) = (p, ez)).
    { unfold shl_align, fexp. change (SpecFloat.emin prec emax) with (-1074). change prec with 53.
      simpl Zdigits2 in Hd.
      destruct (Z.max (Z.pos (digits2_pos p) + ez - 53) (-1074) - ez) eqn:Hk; [done|done|lia]. }
    rewrite Hsh.
    destruct (round_mag sz (Z.pos p) ez loc_Exact) as (m' & e' & -> & HE);
      [lia|unfold E, ez in *; lia|unfold E, ez in *; lia|].
    eexists _, _. split; [done|]. lia. }
  destruct s; simpl cond_Zopp; simpl binary_normalize.
  - destruct (Hround true) as (m' & e' & -> & HE). simpl. split; [done|]. unfold E in HE. lia.
  - destruct (Hround false) as (m' & e' & -> & HE). simpl. split; [done|]. unfold E in HE. lia.
Qed.

(** Sums of numbers that are not negative. *)

Lemma SFadd_pos x y lx hx ly hy :
  valid_binary x = true → valid_binary y = true →
  (x = S754_zero false ∨ SF_nz false lx hx x) →
  (y = S754_zero false ∨ SF_nz false ly hy y) →
  -1021 ≤ lx → -1021 ≤ ly → Z.max hx hy ≤ 1022 →
  SFadd prec emax x y = S754_zero false
  ∨ SF_nz false (Z.min lx ly) (Z.max hx hy + 2) (SFadd prec emax x y).
Proof.
  intros Hvx Hvy [-> |Hx] [-> |Hy] Hlx Hly Hh.
  - by left.
  - right. destruct y; try done. simpl. destruct Hy as [-> Hy]. split; [done|lia].
  - right. destruct x; try done. simpl. destruct Hx as [-> Hx]. split; [done|lia].
  - right. eapply SF_nz_mono; [| |by apply (SFadd_nz x y false lx hx ly hy)]; lia.
Qed.

(** Square roots. *)
Lemma SFsqrt_nz x lx hx :
  valid_binary x = true → SF_nz false lx hx x →
  -1021 ≤ lx → hx ≤ 1023 →
  SF_nz false ((lx + 1) `div` 2) ((hx + 1) `div` 2 + 1) (SFsqrt prec emax x).
Proof.
  intros Hvx Hx Hlx Hhx.
  destruct x as [| | |sx' mx ex]; try done. destruct Hx as [-> Hx].
  pose proof (valid_normal _ _ _ Hvx ltac:(lia)) as Hdx. rewrite Hdx in Hx.
  destruct (Zdigits2_pos_bounds (Z.pos mx) ltac:(lia)) as (_ & Hmx1 & Hmx2).
  simpl Zdigits2 in Hmx1, Hmx2. rewrite Hdx in Hmx1, Hmx2. change (53 - 1) with 52 in *.
  simpl SFsqrt. unfold SFsqrt_core_binary. simpl Zdigits2. rewrite Hdx.
  rewrite !Z.div2_div.
  set (k := (53 + ex + 1) `div` 2).
  pose proof (Z.div_mod (53 + ex + 1) 2 ltac:(lia)) as Hk1.
  pose proof (Z.mod_pos_bound (53 + ex + 1) 2 ltac:(lia)) as Hk2. fold k in Hk1.
  pose proof (Z.div_mod ex 2 ltac:(lia)) as He1.
  pose proof (Z.mod_pos_bound ex 2 ltac:(lia)) as He2.
  assert (He' : Z.min (fexp prec emax k) (ex `div` 2) = k - 53).
  { unfold fexp. change (SpecFloat.emin prec emax) with (-1074). change prec with 53. lia. }
  rewrite He'. set (s := ex - 2 * (k - 53)).
  assert (Hs : s = 52 ∨ s = 53) by (unfold s; lia).
  set (m' := match s with
             | 0 => Z.pos mx
             | Z.pos _ => Z.shiftl (Z.pos mx) s
             | Z.neg _ => 0
             end).
  assert (Hm' : m' = Z.pos mx * 2 ^ s).
  { unfold m'. destruct s as [|p|p] eqn:Es; [lia| |lia]. by rewrite Z.shiftl_mul_pow2. }
  clearbody m'.
  assert (Hm'r : 2 ^ 104 ≤ m' < 2 ^ 106).
  { rewrite Hm'. change (2 ^ 104) with (2 ^ 52 * 2 ^ 52).
    change (2 ^ 106) with (2 ^ 53 * 2 ^ 53).
    destruct Hs as [-> | ->];
      change (2 ^ 52) with 4503599627370496 in *;
      change (2 ^ 53) with 9007199254740992 in *; lia. }
  pose proof (Z.sqrtrem_spec m' ltac:(lia)) as Hsq.
  destruct (Z.sqrtrem m') as [q r]. destruct Hsq as [Hsq Hr].
  assert (Hq : 2 ^ 52 ≤ q < 2 ^ 53).
  { change (2 ^ 104) with (2 ^ 52 * 2 ^ 52) in Hm'r.
    change (2 ^ 106) with (2 ^ 53 * 2 ^ 53) in Hm'r.
    change (2 ^ 52) with 4503599627370496 in *.
    change (2 ^ 53) with 9007199254740992 in *. nia. }
  assert (Hdq : Zdigits2 q = 53) by (apply Zdigits2_unique; [done|lia]).
  set (l := if r =? 0 then loc_Exact else loc_Inexact (if r <=? q then Lt else Gt)).
  destruct (round_mag false q (k - 53) l) as (mz & e' & -> & HE);
    [change (2 ^ 52) with 4503599627370496 in Hq; lia|lia|lia|].
  simpl. split; [done|].
  rewrite Hdq in HE.
  assert ((lx + 1) `div` 2 ≤ k) by (apply Z.div_le_mono; lia).
  assert (k ≤ (hx + 1) `div` 2) by (apply Z.div_le_mono; lia).
  lia.
Qed.

(** ** The division of two integers

    [int_true_div] rounds the exact quotient; for operands below [2^53] in
    magnitude, which convert to [float] without rounding, it is the
    division of the converted operands. *)

(** Bounds against [2^53]. *)
Ltac below_53 := change (2 ^ 53) with 9007199254740992 in *; lia.

Lemma binary_round_exact_digits m mz ez :
  Z.pos mz = Z.pos m * 2 ^ (- ez) → ez ≤ 0 →
  Z.pos (digits2_pos mz) + ez = Z.pos (digits2_pos m).
Proof.
  intros Hmz He.
  destruct (Zdigits2_pos_bounds (Z.pos m) ltac:(lia)) as (Hd & Hlo & Hhi).
  simpl Zdigits2 in Hd, Hlo, Hhi.
  assert (Hp : 0 < 2 ^ (- ez)) by (apply Z.pow_pos_nonneg; lia).
  assert (H : Zdigits2 (Z.pos mz) = Z.pos (digits2_pos m) - ez); [|simpl in H; lia].
  apply Zdigits2_unique; [|lia]. rewrite Hmz.
  replace (Z.pos (digits2_pos m) - ez - 1) with (Z.pos (digits2_pos m) - 1 + - ez) by lia.
  replace (Z.pos (digits2_pos m) - ez) with (Z.pos (digits2_pos m) + - ez) by lia.
  rewrite !Z.pow_add_r by lia. nia.
Qed.

Lemma float_of_nz z h :
  1 ≤ Z.abs z < 2 ^ h → 0 ≤ h ≤ 53 →
  SF_nz (z <? 0) 1 h (Prim2SF (float_of z)).
Proof.
  intros Hz Hh. unfold float_of.
  assert (H53 : 2 ^ h ≤ 2 ^ 53) by (apply Z.pow_le_mono_r; lia).
  destruct z as [|m|m]; [simpl in Hz; lia| |]; simpl binary_normalize.
  - destruct (binary_round_exact false m ltac:(simpl in Hz; lia)) as (mz & ez & -> & Hv & He & Hmz).
    rewrite Prim2SF_SF2Prim by done. simpl. split; [done|].
    rewrite (binary_round_exact_digits m mz ez Hmz He).
    destruct (Zdigits2_pos_bounds (Z.pos m) ltac:(lia)) as (Hd & Hlo & Hhi).
    simpl Zdigits2 in Hd, Hlo, Hhi. split; [lia|].
    change (Z.pos (digits2_pos m)) with (Zdigits2 (Z.pos m)). apply Zdigits2_le; [lia|].
    simpl in Hz. lia.
  - destruct (binary_round_exact true m ltac:(simpl in Hz; lia)) as (mz & ez & -> & Hv & He & Hmz).
    rewrite Prim2SF_SF2Prim by done. simpl. split; [done|].
    rewrite (binary_round_exact_digits m mz ez Hmz He).
    destruct (Zdigits2_pos_bounds (Z.pos m) ltac:(lia)) as (Hd & Hlo & Hhi).
    simpl Zdigits2 in Hd, Hlo, Hhi. split; [lia|].
    change (Z.pos (digits2_pos m)) with (Zdigits2 (Z.pos m)). apply Zdigits2_le; [lia|].
    simpl in Hz. lia.
Qed.

Lemma Prim2SF_float_of_zero : Prim2SF (float_of 0) = S754_zero false.
Proof. by vm_compute. Qed.

Lemma SF_nz_not_zero s lo hi f : SF_nz s lo hi (Prim2SF f) → (f =? 0)%float = false.
Proof. intros H. apply eqb_zero_false. intros s' Hs. by rewrite Hs in H. Qed.

Lemma new_location_spec n k :
  new_location n k = if k =? 0 then loc_Exact else loc_Inexact (2 * k ?= n).
Proof.
  unfold new_location, new_location_even, new_location_odd.
  destruct (Z.even n) eqn:He; [done|].
  destruct (k =? 0); [done|]. f_equal.
  pose proof (Zmod_even n) as Hm. rewrite He in Hm.
  pose proof (Z.div_mod n 2 ltac:(lia)) as Hd.
  destruct (Z.compare_spec (2 * k + 1) n), (Z.compare_spec (2 * k) n); try done; lia.
Qed.

Lemma Zdigits2_scale (m : positive) a :
  0 ≤ a → Zdigits2 (Z.pos m * 2 ^ a) = Zdigits2 (Z.pos m) + a.
Proof.
  intros Ha.
  destruct (Zdigits2_pos_bounds (Z.pos m) ltac:(lia)) as (Hd & Hlo & Hhi).
  assert (Hp : 0 < 2 ^ a) by (apply Z.pow_pos_nonneg; lia).
  apply Zdigits2_unique; [|lia].
  replace (Zdigits2 (Z.pos m) + a - 1) with (Zdigits2 (Z.pos m) - 1 + a) by lia.
  rewrite !Z.pow_add_r by lia. nia.
Qed.

Lemma shift_cases m s :
  0 ≤ s →
  match s with
  | Z.pos _ => Z.shiftl m s
  | 0 => m
  | Z.neg _ => 0
  end = m * 2 ^ s.
Proof.
  intros Hs. destruct s as [|p|p]; [simpl; lia| |lia].
  by rewrite Z.shiftl_mul_pow2.
Qed.

(** The quotient and the remainder's position do not change when both
    operands are written with a larger mantissa and a smaller exponent. *)
Lemma SFdiv_core_binary_scale (m1 m2 : positive) a b :
  0 ≤ a → 0 ≤ b →
  fexp prec emax (Zdigits2 (Z.pos m1) - Zdigits2 (Z.pos m2)) ≤ 0 →
  fexp prec emax (Zdigits2 (Z.pos m1) - Zdigits2 (Z.pos m2)) ≤ b - a →
  SFdiv_core_binary prec emax (Z.pos m1 * 2 ^ a) (- a) (Z.pos m2 * 2 ^ b) (- b)
  = SFdiv_core_binary prec emax (Z.pos m1) 0 (Z.pos m2) 0.
Proof.
  intros Ha Hb HF0 HFab. unfold SFdiv_core_binary.
  rewrite !Zdigits2_scale by done.
  set (F := fexp prec emax (Zdigits2 (Z.pos m1) - Zdigits2 (Z.pos m2))) in *.
  replace (Zdigits2 (Z.pos m1) + a + - a - (Zdigits2 (Z.pos m2) + b + - b))
    with (Zdigits2 (Z.pos m1) - Zdigits2 (Z.pos m2)) by lia.
  replace (Zdigits2 (Z.pos m1) + 0 - (Zdigits2 (Z.pos m2) + 0))
    with (Zdigits2 (Z.pos m1) - Zdigits2 (Z.pos m2)) by lia.
  fold F.
  rewrite (Z.min_l F (- a - - b)) by lia. rewrite (Z.min_l F (0 - 0)) by lia.
  rewrite (shift_cases _ (- a - - b - F)) by lia.
  rewrite (shift_cases _ (0 - 0 - F)) by lia.
  assert (Hc : 0 < 2 ^ b) by (apply Z.pow_pos_nonneg; lia).
  assert (Hx : Z.pos m1 * 2 ^ a * 2 ^ (- a - - b - F)
               = Z.pos m1 * 2 ^ (0 - 0 - F) * 2 ^ b).
  { rewrite <- !Z.mul_assoc, <- !Z.pow_add_r by lia. do 2 f_equal. lia. }
  rewrite Hx. set (x := Z.pos m1 * 2 ^ (0 - 0 - F)).
  assert (Hq : (x * 2 ^ b) `div` (Z.pos m2 * 2 ^ b) = x `div` Z.pos m2)
    by (apply Z.div_mul_cancel_r; lia).
  assert (Hr : (x * 2 ^ b) `mod` (Z.pos m2 * 2 ^ b) = x `mod` Z.pos m2 * 2 ^ b)
    by (apply Z.mul_mod_distr_r; lia).
  unfold Z.div, Z.modulo in Hq, Hr.
  destruct (Z.div_eucl (x * 2 ^ b) (Z.pos m2 * 2 ^ b)) as [q r].
  destruct (Z.div_eucl x (Z.pos m2)) as [q' r']. cbn [fst snd] in Hq, Hr. subst q r.
  f_equal. rewrite !new_location_spec.
  replace (2 * (r' * 2 ^ b)) with (2 * r' * 2 ^ b) by lia.
  assert (Hcmp : (2 * r' * 2 ^ b ?= Z.pos m2 * 2 ^ b) = (2 * r' ?= Z.pos m2)).
  { destruct (Z.compare_spec (2 * r') (Z.pos m2));
      [apply Z.compare_eq_iff|apply Z.compare_lt_iff|apply Z.compare_gt_iff]; nia. }
  rewrite Hcmp.
  destruct (Z.eqb_spec r' 0) as [->|Hne]; [done|].
  destruct (Z.eqb_spec (r' * 2 ^ b) 0) as [H0|_]; [|done]. nia.
Qed.

(** The two forms of an integer below [2^53] that is not zero. *)
Lemma float_of_repr z :
  z ≠ 0 → Z.abs z < 2 ^ 53 →
  ∃ m mz a,
    SF_of_Z z = S754_finite (z <? 0) m 0
    ∧ Prim2SF (float_of z) = S754_finite (z <? 0) mz (- a)
    ∧ Z.pos mz = Z.pos m * 2 ^ a
    ∧ a = 53 - Zdigits2 (Z.pos m)
    ∧ 1 ≤ Zdigits2 (Z.pos m) ≤ 53.
Proof.
  intros Hz Hlt. unfold float_of.
  destruct z as [|m|m]; [done| |]; simpl binary_normalize.
  - destruct (binary_round_exact false m ltac:(simpl in Hlt; lia))
      as (mz & ez & -> & Hv & He & Hmz).
    rewrite Prim2SF_SF2Prim by done.
    pose proof (valid_exponent _ _ _ Hv) as Hve.
    rewrite (binary_round_exact_digits m mz ez Hmz He) in Hve.
    destruct (Zdigits2_pos_bounds (Z.pos m) ltac:(lia)) as (Hd & _ & _).
    assert (Hd53 : Zdigits2 (Z.pos m) ≤ 53) by (apply Zdigits2_le; simpl in Hlt; lia).
    simpl Zdigits2 in *.
    exists m, mz, (- ez). rewrite Z.opp_involutive. repeat split; try done; lia.
  - destruct (binary_round_exact true m ltac:(simpl in Hlt; lia))
      as (mz & ez & -> & Hv & He & Hmz).
    rewrite Prim2SF_SF2Prim by done.
    pose proof (valid_exponent _ _ _ Hv) as Hve.
    rewrite (binary_round_exact_digits m mz ez Hmz He) in Hve.
    destruct (Zdigits2_pos_bounds (Z.pos m) ltac:(lia)) as (Hd & _ & _).
    assert (Hd53 : Zdigits2 (Z.pos m) ≤ 53) by (apply Zdigits2_le; simpl in Hlt; lia).
    simpl Zdigits2 in *.
    exists m, mz, (- ez). rewrite Z.opp_involutive. repeat split; try done; lia.
Qed.

Lemma SFdiv_of_Z x y :
  Z.abs x < 2 ^ 53 → Z.abs y < 2 ^ 53 →
  SFdiv prec emax (SF_of_Z x) (SF_of_Z y)
  = SFdiv prec emax (Prim2SF (float_of x)) (Prim2SF (float_of y)).
Proof.
  intros Hx Hy.
  destruct (Z.eq_dec x 0) as [->|Hx0]; destruct (Z.eq_dec y 0) as [->|Hy0];
    rewrite ?Prim2SF_float_of_zero; cbn [SF_of_Z].
  - done.
  - destruct (float_of_repr y Hy0 Hy) as (m & mz & a & -> & -> & _). done.
  - destruct (float_of_repr x Hx0 Hx) as (m & mz & a & -> & -> & _). done.
  - destruct (float_of_repr x Hx0 Hx) as (m1 & mz1 & a & -> & -> & Hm1 & Ha & Hd1).
    destruct (float_of_repr y Hy0 Hy) as (m2 & mz2 & b & -> & -> & Hm2 & Hb & Hd2).
    unfold SFdiv. rewrite Hm1, Hm2.
    rewrite SFdiv_core_binary_scale; [done|lia|lia| |].
    + unfold fexp, emin, prec, emax. lia.
    + unfold fexp, emin, prec, emax. lia.
Qed.

Lemma ndiv_Int_small x y :
  Z.abs x < 2 ^ 53 → Z.abs y < 2 ^ 53 → y ≠ 0 →
  ndiv (Int x) (Int y) = Ok (Flt (float_of x / float_of y)).
Proof.
  intros Hx Hy Hy0. unfold ndiv, int_true_div.
  rewrite (proj2 (Z.eqb_neq y 0)) by done.
  rewrite SFdiv_of_Z by done.
  change (SFdiv prec emax) with SF64div. rewrite <- div_spec.
  assert (Hfin : ∀ s, Prim2SF (float_of x / float_of y) ≠ S754_infinity s).
  { intros s. rewrite div_spec.
    pose proof (float_of_nz y 53 ltac:(lia) ltac:(lia)) as Hny.
    destruct (Z.eq_dec x 0) as [->|Hx0].
    - rewrite Prim2SF_float_of_zero. unfold SF64div.
      by destruct (Prim2SF (float_of y)).
    - pose proof (float_of_nz x 53 ltac:(lia) ltac:(lia)) as Hnx.
      pose proof (SFdiv_nz _ _ _ _ 1 53 1 53 (Prim2SF_valid _) (Prim2SF_valid _) Hnx Hny
                    ltac:(lia) ltac:(lia) ltac:(lia) ltac:(lia)) as H.
      unfold SF64div. by destruct (SFdiv prec emax _ _). }
  destruct (Prim2SF (float_of x / float_of y)) as [s|s| |s m e] eqn:Hq;
    [|by destruct (Hfin s)| |]; cbn [mbind res_bind];
    by rewrite <- Hq, SF2Prim_Prim2SF.
Qed.

(** C3: [interpolate] remaps the raw value exactly when the threshold and
    the percent are both positive; the remapped value is
    [threshold + (v / 65535) * (65535 - threshold)] in binary64 arithmetic,
    truncated; with threshold 1000 the raw value 65535 stays 65535, and at
    percent 0 the raw value of the default curve, 0, is returned. *)
Theorem interpolate_threshold_remap :
  (∀ c percent,
     interpolate c percent
       = v ← raw_interpolate c percent;
         if bool_decide (0 < threshold c) && ngt percent (Int 0)
         then apply_threshold c v else Ok v)
  ∧ (∀ c v, Z.abs v < 2 ^ 53 → Z.abs (threshold c) < 2 ^ 53 →
       apply_threshold c v = remap_formula (threshold c) v)
  ∧ (∀ nm sm pts, apply_threshold (mkCal nm 1000 sm pts) 65535 = Ok 65535)
  ∧ (∀ nm, interpolate (mkCal nm 1000 true default_points) (Int 100) = Ok 65535
           ∧ interpolate (mkCal nm 1000 false default_points) (Int 100) = Ok 65535
           ∧ interpolate (mkCal nm 1000 true default_points) (Int 0) = Ok 0
           ∧ interpolate (mkCal nm 1000 false default_points) (Int 0) = Ok 0).
Proof.
  split.
  { intros c percent. unfold interpolate.
    destruct (raw_interpolate c percent) as [v|]; [|done]. simpl.
    destruct (Z.ltb_spec 0 (threshold c)).
    - by rewrite bool_decide_eq_true_2.
    - by rewrite bool_decide_eq_false_2 by lia. }
  split.
  { intros c v Hv Ht. unfold apply_threshold, remap_formula.
    rewrite ndiv_Int_small by (unfold PWM_MAX; (done || below_53)).
    unfold nmul, nadd, to_float. cbn [mbind res_bind].
    assert (Hb : 2 ^ 53 + 65535 < float_overflow) by (by vm_compute).
    rewrite !of_int_small by (unfold PWM_MAX; lia). reflexivity. }
  split; [by vm_compute|].
  intros nm. repeat split; by vm_compute.
Qed.

(** ** The secant table *)

Lemma all_from_spec n P : ∀ z,
  all_from n z P = true → ∀ k, z ≤ k < z + Z.of_nat n → P k = true.
Proof.
  induction n as [|n IH]; intros z H k Hk; [lia|].
  simpl in H. destruct (P z) eqn:Hz; [|done].
  destruct (Z.eq_dec k z) as [->|Hne]; [done|].
  apply (IH (z + 1)); [done|lia].
Qed.

Lemma floats_from_elem n : ∀ z k, z ≤ k < z + Z.of_nat n → In (float_of k) (floats_from n z).
Proof.
  induction n as [|n IH]; intros z k Hk; [lia|]. simpl.
  destruct (Z.eq_dec k z) as [->|Hne]; [by left|]. right. apply IH. lia.
Qed.

Lemma deltas_table : deltas_ok (-65535) 65535 100 = true.
Proof. by vm_compute. Qed.

Lemma widths_table : widths_ok 100 = true.
Proof. by vm_compute. Qed.

Lemma deltas_ok_spec lo hi width :
  deltas_ok lo hi width = true →
  ∀ dy dx, lo ≤ dy ≤ hi → 1 ≤ dx ≤ width →
  delta_class_ok (float_of 1) (float_of dy / float_of dx) = true.
Proof.
  unfold deltas_ok. cbv zeta. intros H dy dx Hdy Hdx.
  pose proof (all_from_spec _ _ _ H dy ltac:(lia)) as Hy. cbv beta in Hy.
  apply (proj1 (forallb_forall _ _) Hy (float_of dx)).
  apply floats_from_elem. lia.
Qed.

Lemma widths_ok_spec width :
  widths_ok width = true → ∀ h, 1 ≤ h ≤ width → (float_of h =? 0)%float = false.
Proof.
  unfold widths_ok. intros H h Hh.
  pose proof (all_from_spec _ _ _ H h ltac:(lia)) as Hy. cbv beta in Hy.
  by apply negb_true_iff in Hy.
Qed.

Lemma delta_ok dy dx :
  -65535 ≤ dy ≤ 65535 → 1 ≤ dx ≤ 100 →
  delta_class_ok (float_of 1) (float_of dy / float_of dx) = true.
Proof. exact (deltas_ok_spec _ _ _ deltas_table dy dx). Qed.

Lemma width_nonzero h : 1 ≤ h ≤ 100 → (float_of h =? 0)%float = false.
Proof. exact (widths_ok_spec _ widths_table h). Qed.

(** ** The tangents never divide by zero *)

Lemma good_delta_cases f :
  delta_class_ok (float_of 1) f = true →
  (∃ s, Prim2SF f = S754_zero s)
  ∨ ∃ s, (∃ m e, Prim2SF f = S754_finite s m e)
         ∧ (∃ m e, Prim2SF (float_of 1 / f) = S754_finite s m e).
Proof.
  unfold delta_class_ok. intros H.
  assert (Hpos : classify f = PNormal ∨ classify f = PSubn →
    ∃ s, (∃ m e, Prim2SF f = S754_finite s m e)
         ∧ (∃ m e, Prim2SF (float_of 1 / f) = S754_finite s m e)).
  { intros Hc. exists false. split; [by apply classify_positive|].
    apply classify_positive.
    destruct Hc as [Hc|Hc]; rewrite Hc in H;
      destruct (classify (float_of 1 / f)); auto; done. }
  assert (Hneg : classify f = NNormal ∨ classify f = NSubn →
    ∃ s, (∃ m e, Prim2SF f = S754_finite s m e)
         ∧ (∃ m e, Prim2SF (float_of 1 / f) = S754_finite s m e)).
  { intros Hc. exists true. split; [by apply classify_negative|].
    apply classify_negative.
    destruct Hc as [Hc|Hc]; rewrite Hc in H;
      destruct (classify (float_of 1 / f)); auto; done. }
  destruct (classify f) eqn:Hc; try done;
    try (right; apply Hpos; auto; fail);
    try (right; apply Hneg; auto; fail);
    left; apply classify_zero; rewrite Hc; auto.
Qed.

Lemma nle_zero_of_signed x :
  SF_signed true x → SF_cmp_Z x 0 = Some Lt ∨ SF_cmp_Z x 0 = Some Eq.
Proof.
  destruct x as [s|s| |s m e]; simpl; intros H; try done; subst; auto.
  left. f_equal. destruct (Z.leb_spec 0 e).
  - apply Z.compare_lt_iff. simpl cond_Zopp.
    apply Z.mul_neg_pos; [lia|]. apply Z.pow_pos_nonneg; lia.
  - reflexivity.
Qed.

Lemma SF_nonzero_not_zero s x : SF_nonzero s x → ∀ s', x ≠ S754_zero s'.
Proof. by destruct x. Qed.

(** When the product of two secants is not [<= 0], neither is zero and the
    sum of their reciprocals is not zero. *)
Lemma harmonic_divisors f1 f2 :
  delta_class_ok (float_of 1) f1 = true →
  delta_class_ok (float_of 1) f2 = true →
  nle (Flt (f1 * f2)) (Int 0) = false →
  (f1 =? 0)%float = false ∧ (f2 =? 0)%float = false
  ∧ (float_of 1 / f1 + float_of 1 / f2 =? 0)%float = false.
Proof.
  intros H1 H2 Hp.
  assert (Hcmp : ∀ c, SF_cmp_Z (Prim2SF (f1 * f2)) 0 = Some c → c = Gt).
  { intros c Hc. unfold nle, ncompare in Hp. rewrite Hc in Hp. by destruct c. }
  rewrite mul_spec in Hcmp. unfold SF64mul in Hcmp.
  apply good_delta_cases in H1 as [[s1 Hz1]|(s1 & (m1 & e1 & Hf1) & m1' & e1' & Hr1)].
  { exfalso. rewrite Hz1 in Hcmp.
    apply good_delta_cases in H2 as [[s2 Hz2]|(s2 & (m2 & e2 & Hf2) & _)].
    - rewrite Hz2 in Hcmp. by specialize (Hcmp Eq eq_refl).
    - rewrite Hf2 in Hcmp. by specialize (Hcmp Eq eq_refl). }
  apply good_delta_cases in H2 as [[s2 Hz2]|(s2 & (m2 & e2 & Hf2) & m2' & e2' & Hr2)].
  { exfalso. rewrite Hz2, Hf1 in Hcmp. by specialize (Hcmp Eq eq_refl). }
  assert (s1 = s2) as <-.
  { pose proof (SFmul_signed (Prim2SF f1) (Prim2SF f2) s1 s2) as Hs.
    rewrite Hf1, Hf2 in Hs, Hcmp. specialize (Hs eq_refl eq_refl).
    destruct s1, s2; try done; simpl xorb in Hs;
      apply nle_zero_of_signed in Hs as [Hs|Hs]; by apply Hcmp in Hs. }
  split; [apply eqb_zero_false; by rewrite Hf1|].
  split; [apply eqb_zero_false; by rewrite Hf2|].
  apply eqb_zero_false. apply (SF_nonzero_not_zero s1).
  rewrite add_spec. apply SFadd_nonzero; try apply Prim2SF_valid.
  - by rewrite Hr1.
  - by rewrite Hr2.
Qed.

Lemma interior_tangent_ok deltas tangents i dp di :
  deltas !! (i - 1)%nat = Some dp → deltas !! i = Some di →
  good_delta dp → good_delta di →
  ∃ t, interior_tangent deltas tangents i = Ok (<[i := t]> tangents) ∧ tangent_ok t.
Proof.
  intros Hdp Hdi (f1 & -> & H1) (f2 & -> & H2).
  unfold interior_tangent, item. rewrite Hdp, Hdi. simpl.
  destruct (nle (Flt (f1 * f2)) (Int 0)) eqn:Hp.
  { by exists (Int 0). }
  destruct (harmonic_divisors f1 f2 H1 H2 Hp) as (Hz1 & Hz2 & Hs).
  rewrite Hz1. simpl. rewrite Hz2. simpl. rewrite Hs. simpl.
  eexists. split; [reflexivity|done].
Qed.

Lemma neqb_zero_false f : neqb (Flt f) (Int 0) = false → (f =? 0)%float = false.
Proof.
  intros H. apply eqb_zero_false. intros s Hs.
  unfold neqb, ncompare in H. by rewrite Hs in H.
Qed.

Lemma tangent_ok_to_float t : tangent_ok t → ∃ g, to_float t = Ok g.
Proof. destruct t as [z|g]; simpl; [intros ->|]; eauto. Qed.

Lemma ndiv_by_nonzero t f :
  tangent_ok t → (f =? 0)%float = false → ∃ g, ndiv t (Flt f) = Ok (Flt g).
Proof.
  intros Ht Hf. destruct (tangent_ok_to_float t Ht) as [g Hg].
  exists (g / f)%float. unfold ndiv.
  destruct t as [z|g']; rewrite Hg; simpl; by rewrite Hf.
Qed.

Lemma above_nine_positive x :
  SF_cmp_Z x 9 = Some Gt → SF_nonzero false x.
Proof.
  destruct x as [s|s| |s m e]; unfold SF_cmp_Z, SF_nonzero; try done.
  - by destruct s.
  - destruct s; [|done]. unfold cond_Zopp. intros H. exfalso.
    injection H as H. revert H. destruct (Z.leb_spec 0 e) as [He|He]; intros H.
    + apply (proj1 (Z.compare_gt_iff _ _)) in H.
      assert (Z.neg m * 2 ^ e < 0); [|lia].
      apply Z.mul_neg_pos; [lia|]. apply Z.pow_pos_nonneg; lia.
    + assert (0 < 2 ^ (- e)) by (apply Z.pow_pos_nonneg; lia).
      destruct (9 * 2 ^ (- e)) as [|q|q] eqn:E; try done. lia.
Qed.

Lemma sqrt_above_nine x :
  ngt (Flt x) (Int 9) = true →
  ∃ g, py_sqrt (Flt x) = Ok (Flt g) ∧ (g =? 0)%float = false.
Proof.
  intros H. unfold ngt, ncompare in H.
  assert (Hpos : SF_nonzero false (Prim2SF x)).
  { apply above_nine_positive. by destruct (SF_cmp_Z (Prim2SF x) 9) as [[]|]. }
  exists (sqrt x). unfold py_sqrt. simpl.
  assert (Hlt : (x <? 0)%float = false).
  { rewrite ltb_spec, Prim2SF_zero. unfold SFltb, SFcompare.
    destruct (Prim2SF x) as [| [] | |[] m e]; done. }
  rewrite Hlt. split; [done|].
  apply eqb_zero_false. apply (SF_nonzero_not_zero false).
  rewrite sqrt_spec. apply SFsqrt_nonzero; [done|apply Prim2SF_valid].
Qed.

Lemma limit_tangents_ok deltas tangents i f ti ti1 :
  deltas !! i = Some (Flt f) →
  tangents !! i = Some ti → tangents !! S i = Some ti1 →
  Forall tangent_ok tangents →
  ∃ ts, limit_tangents deltas tangents i = Ok ts
        ∧ length ts = length tangents ∧ Forall tangent_ok ts.
Proof.
  intros Hd Hti Hti1 Hall.
  assert (Ht : tangent_ok ti) by (by eapply Forall_lookup_1).
  assert (Ht1 : tangent_ok ti1) by (by eapply Forall_lookup_1).
  unfold limit_tangents, item. rewrite Hd. simpl.
  destruct (neqb (Flt f) (Int 0)) eqn:Hz.
  { eexists. split; [done|]. rewrite !length_insert. split; [done|].
    by repeat apply Forall_insert. }
  apply neqb_zero_false in Hz.
  rewrite Hti. simpl.
  destruct (ndiv_by_nonzero ti f Ht Hz) as [alpha ->]. simpl.
  rewrite Hti1. simpl.
  destruct (ndiv_by_nonzero ti1 f Ht1 Hz) as [beta ->]. simpl.
  destruct (ngt (Flt (alpha * alpha + beta * beta)) (Int 9)) eqn:Hgt.
  - destruct (sqrt_above_nine _ Hgt) as (r & -> & Hr). simpl. rewrite Hr. simpl.
    eexists. split; [done|]. rewrite !length_insert. split; [done|].
    by repeat apply Forall_insert.
  - eauto.
Qed.

(** ** All tangents of a curve of the documented domain *)

Lemma good_delta_tangent_ok d : good_delta d → tangent_ok d.
Proof. by intros (f & -> & _). Qed.

Lemma secants_cons x0 x1 xs y0 y1 ys :
  secants (x0 :: x1 :: xs) (y0 :: y1 :: ys)
  = d ← (if negb (x1 - x0 =? 0) then ndiv (Int (y1 - y0)) (Int (x1 - x0)) else Ok (Int 0));
    ds ← secants (x1 :: xs) (y1 :: ys);
    Ok (d :: ds).
Proof. reflexivity. Qed.

Lemma secants_ok xs : ∀ ys,
  length ys = length xs →
  StronglySorted Z.lt xs →
  Forall (λ x, 0 ≤ x ≤ 100) xs →
  Forall (λ y, 0 ≤ y ≤ 65535) ys →
  ∃ ds, secants xs ys = Ok ds
        ∧ length ds = (length xs - 1)%nat ∧ Forall good_delta ds.
Proof.
  induction xs as [|x0 xs IH]; intros ys Hlen Hs Hx Hy.
  { destruct ys; [|done]. by exists []. }
  destruct ys as [|y0 ys]; [done|].
  destruct xs as [|x1 xs].
  { destruct ys; [|done]. by exists []. }
  destruct ys as [|y1 ys]; [done|].
  apply StronglySorted_inv in Hs as [Hs Hlt].
  apply Forall_cons in Hx as [Hx0 Hx], Hy as [Hy0 Hy].
  destruct (IH (y1 :: ys)) as (ds & Hds & Hlen' & Hgood); [simpl in *; lia|done..|].
  apply Forall_cons in Hlt as [Hlt _].
  pose proof (proj1 (Forall_cons _ _ _) Hx) as [Hx1 _].
  pose proof (proj1 (Forall_cons _ _ _) Hy) as [Hy1 _].
  assert (Hb : 65535 < float_overflow) by (by vm_compute).
  rewrite secants_cons, Hds.
  rewrite (proj2 (Z.eqb_neq (x1 - x0) 0)) by lia. cbn [negb].
  rewrite ndiv_Int_small by below_53. simpl.
  eexists. split; [done|]. split; [simpl in *; lia|].
  constructor; [|done]. eexists. split; [done|]. apply delta_ok; lia.
Qed.

Lemma for_each_invariant {A S : Type} (I : S → Prop) (P : A → Prop)
    (body : S → A → res S) (l : list A) :
  (∀ s a, I s → P a → ∃ s', body s a = Ok s' ∧ I s') →
  Forall P l → ∀ s, I s → ∃ s', for_each body l s = Ok s' ∧ I s'.
Proof.
  intros Hbody. induction 1 as [|a l Ha _ IH]; intros s Hs; simpl; [eauto|].
  destruct (Hbody s a Hs Ha) as (s' & -> & Hs'). simpl. by apply IH.
Qed.

Lemma tangents_of_ok xs ys :
  (2 ≤ length xs)%nat →
  length ys = length xs →
  StronglySorted Z.lt xs →
  Forall (λ x, 0 ≤ x ≤ 100) xs →
  Forall (λ y, 0 ≤ y ≤ 65535) ys →
  ∃ ts, tangents_of xs ys = Ok ts
        ∧ length ts = length xs ∧ Forall tangent_ok ts.
Proof.
  intros Hn Hlen Hs Hx Hy.
  destruct (secants_ok xs ys Hlen Hs Hx Hy) as (ds & Hds & Hdl & Hgood).
  unfold tangents_of. rewrite Hds. simpl.
  set (n := length xs) in *.
  assert (Hlookup : ∀ i, (i < n - 1)%nat → ∃ d, ds !! i = Some d ∧ good_delta d).
  { intros i Hi. destruct (lookup_lt_is_Some_2 ds i) as [d Hd]; [lia|].
    exists d. split; [done|]. by eapply Forall_lookup_1. }
  destruct (Hlookup 0%nat) as (d0 & Hd0 & Hg0); [lia|].
  unfold item at 1. rewrite Hd0. simpl.
  set (I := λ ts : list num, length ts = n ∧ Forall tangent_ok ts).
  assert (I0 : I (<[0%nat := d0]> (replicate n (Flt 0)))).
  { split; [by rewrite length_insert, length_replicate|].
    apply Forall_insert; [|by apply good_delta_tangent_ok].
    by apply Forall_replicate. }
  destruct (for_each_invariant I (λ i, 1 ≤ i ≤ n - 2)%nat (interior_tangent ds)
              (seq 1 (n - 2)) ) with (s := <[0%nat := d0]> (replicate n (Flt 0)))
    as (ts1 & -> & I1); [| |done|].
  { intros ts i [Hl Hall] Hi.
    destruct (Hlookup (i - 1)%nat) as (dp & Hdp & Hgp); [lia|].
    destruct (Hlookup i) as (di & Hdi & Hgi); [lia|].
    destruct (interior_tangent_ok ds ts i dp di Hdp Hdi Hgp Hgi) as (t & -> & Ht).
    eexists. split; [done|]. split; [by rewrite length_insert|by apply Forall_insert]. }
  { apply Forall_seq. intros j Hj. lia. }
  simpl.
  assert (Hlast : ∃ dl, last ds = Some dl ∧ good_delta dl).
  { destruct (last ds) as [dl|] eqn:Hl.
    - exists dl. split; [done|]. apply last_Some in Hl as [? ->].
      apply Forall_app in Hgood as [_ Hg]. by rewrite Forall_singleton in Hg.
    - apply last_None in Hl. subst ds. simpl in Hdl. lia. }
  destruct Hlast as (dl & Hdl' & Hgl).
  unfold item_last. rewrite Hdl'. simpl.
  assert (I2 : I (<[(n - 1)%nat := dl]> ts1)).
  { destruct I1 as [Hl Hall]. split; [by rewrite length_insert|].
    apply Forall_insert; [done|by apply good_delta_tangent_ok]. }
  destruct (for_each_invariant I (λ i, i < n - 1)%nat (limit_tangents ds)
              (range (n - 1))) with (s := <[(n - 1)%nat := dl]> ts1)
    as (ts2 & -> & I3); [| |done|].
  { intros ts i [Hl Hall] Hi.
    destruct (Hlookup i) as (di & Hdi & (f & -> & _)); [lia|].
    destruct (lookup_lt_is_Some_2 ts i) as [ti Hti]; [lia|].
    destruct (lookup_lt_is_Some_2 ts (S i)) as [ti1 Hti1]; [lia|].
    destruct (limit_tangents_ok ds ts i f ti ti1 Hdi Hti Hti1 Hall)
      as (ts' & -> & Hl' & Hall').
    eexists. split; [done|]. split; [lia|done]. }
  { apply Forall_seq. intros j Hj. lia. }
  destruct I3. eauto.
Qed.

(** ** The clamps and [int] *)

Lemma py_clamp_cases lo hi a :
  lo ≤ hi →
  let x := py_max (Int lo) (py_min (Int hi) a) in
  (∃ z, x = Int z ∧ lo ≤ z ≤ hi) ∨ (x = a ∧ above a lo ∧ below a hi).
Proof.
  intros Hle. unfold py_max, py_min. cbv zeta.
  destruct (nlt a (Int hi)) eqn:Hlt.
  - apply nlt_Int_r in Hlt. destruct (ngt a (Int lo)) eqn:Hgt.
    + right. split; [done|]. split; [|done].
      unfold ngt in Hgt. unfold above. by destruct (ncompare a (Int lo)) as [[]|].
    + left. exists lo. split; [done|lia].
  - left. unfold ngt, ncompare.
    destruct (Z.compare_spec hi lo); eexists; (split; [done|lia]).
Qed.

Lemma py_clamp_within lo hi a :
  above a lo → below a hi → py_max (Int lo) (py_min (Int hi) a) = a.
Proof.
  intros Ha Hb. unfold py_max, py_min.
  rewrite (proj2 (nlt_Int_r a hi) Hb).
  unfold ngt. unfold above in Ha. by rewrite Ha.
Qed.

Lemma py_clamp_Int lo hi z :
  py_max (Int lo) (py_min (Int hi) (Int z)) = Int (Z.max lo (Z.min hi z)).
Proof.
  unfold py_max, py_min, nlt, ngt, ncompare.
  destruct (Z.compare_spec z hi); destruct (Z.compare_spec z lo);
    destruct (Z.compare_spec hi lo); f_equal; lia.
Qed.

Lemma SF_trunc_within x lo hi :
  SF_cmp_Z x lo = Some Gt → SF_cmp_Z x hi = Some Lt →
  ∃ r, SF_trunc x = Ok r ∧ lo ≤ r ≤ hi.
Proof.
  destruct x as [s|s| |s m e]; unfold SF_cmp_Z, SF_trunc; try done.
  - intros Hlo Hhi. exists 0. split; [done|].
    destruct lo, hi; simpl in *; try done; lia.
  - by destruct s.
  - intros Hlo Hhi. eexists. split; [done|].
    injection Hlo as Hlo. injection Hhi as Hhi. revert Hlo Hhi.
    destruct (Z.leb_spec 0 e) as [He|He]; intros Hlo Hhi.
    + apply (proj1 (Z.compare_gt_iff _ _)) in Hlo.
      apply (proj1 (Z.compare_lt_iff _ _)) in Hhi.
      destruct s; unfold cond_Zopp in *; lia.
    + apply (proj1 (Z.compare_gt_iff _ _)) in Hlo.
      apply (proj1 (Z.compare_lt_iff _ _)) in Hhi.
      assert (HP : 0 < 2 ^ (- e)) by (apply Z.pow_pos_nonneg; lia).
      set (P := 2 ^ (- e)) in *.
      pose proof (Z.div_mod (Z.pos m) P ltac:(lia)) as Hdm.
      pose proof (Z.mod_pos_bound (Z.pos m) P HP) as Hmod.
      destruct s; unfold cond_Zopp in *; nia.
Qed.

Lemma py_int_within a lo hi :
  above a lo → below a hi → ∃ r, py_int a = Ok r ∧ lo ≤ r ≤ hi.
Proof.
  unfold above, below. destruct a as [z|f]; simpl.
  - intros Hlo Hhi. exists z. split; [done|].
    injection Hlo as Hlo. injection Hhi as Hhi.
    apply (proj1 (Z.compare_gt_iff _ _)) in Hlo.
    apply (proj1 (Z.compare_lt_iff _ _)) in Hhi. lia.
  - apply SF_trunc_within.
Qed.

Lemma clamp_result_range y0 y1 result :
  ∃ r, clamp_result y0 y1 result = Ok r
       ∧ 0 ≤ r ≤ 65535
       ∧ (0 ≤ Z.min y0 y1 → Z.max y0 y1 ≤ 65535 → Z.min y0 y1 ≤ r ≤ Z.max y0 y1).
Proof.
  unfold clamp_result, PWM_MAX.
  destruct (py_clamp_cases (Z.min y0 y1) (Z.max y0 y1) result ltac:(lia))
    as [(z & -> & Hz)|(-> & Ha & Hb)].
  - rewrite py_clamp_Int. eexists. split; [done|]. lia.
  - destruct (decide (0 ≤ Z.min y0 y1 ∧ Z.max y0 y1 ≤ 65535)) as [[H0 H1]|Hout].
    + rewrite py_clamp_within;
        [|by apply (above_mono _ (Z.min y0 y1))|by apply (below_mono _ (Z.max y0 y1))].
      destruct (py_int_within _ _ _ Ha Hb) as (r & -> & Hr).
      exists r. split; [done|]. lia.
    + destruct (py_clamp_cases 0 65535 result ltac:(lia))
        as [(z & -> & Hz)|(-> & Ha' & Hb')].
      * eexists. split; [done|]. split; [lia|]. intros; lia.
      * destruct (py_int_within _ _ _ Ha' Hb') as (r & -> & Hr).
        exists r. split; [done|]. split; [lia|]. intros; lia.
Qed.

(** ** The Hermite polynomial never raises *)

Lemma small_to_float a : small a → ∃ g, to_float a = Ok g.
Proof.
  destruct a as [z|g]; simpl; [|eauto]. intros H. rewrite of_int_small by done. eauto.
Qed.

Lemma tangent_ok_small t : tangent_ok t → small t.
Proof. destruct t as [z|g]; simpl; [|done]. intros ->. by vm_compute. Qed.

Lemma small_bounded z : Z.abs z ≤ 65535 → small (Int z).
Proof. intros H. simpl. assert (65535 < float_overflow) by (by vm_compute). lia. Qed.

Lemma nmul_Flt_l f b : small b → ∃ g, nmul (Flt f) b = Ok (Flt g).
Proof.
  intros Hb. destruct (small_to_float b Hb) as [g Hg]. unfold nmul.
  simpl to_float at 1. destruct b; rewrite Hg; simpl; eauto.
Qed.

Lemma nmul_Flt_r a f : small a → ∃ g, nmul a (Flt f) = Ok (Flt g).
Proof.
  intros Ha. destruct (small_to_float a Ha) as [g Hg]. unfold nmul.
  destruct a; rewrite Hg; simpl; eauto.
Qed.

Lemma nadd_Flt_l f b : small b → ∃ g, nadd (Flt f) b = Ok (Flt g).
Proof.
  intros Hb. destruct (small_to_float b Hb) as [g Hg]. unfold nadd.
  simpl to_float at 1. destruct b; rewrite Hg; simpl; eauto.
Qed.

Lemma nsub_Flt_l f b : small b → ∃ g, nsub (Flt f) b = Ok (Flt g).
Proof.
  intros Hb. destruct (small_to_float b Hb) as [g Hg]. unfold nsub.
  simpl to_float at 1. destruct b; rewrite Hg; simpl; eauto.
Qed.

Lemma above_nle_lt p a b : above p a → nle p (Int b) = true → a < b.
Proof.
  intros Ha Hb. destruct (Z.lt_ge_cases a b) as [|Hge]; [done|].
  by rewrite (nle_above p a b Ha) in Hb by lia.
Qed.

(** Once [t] is a [float], every later step multiplies, adds or subtracts
    a [float] and a number that converts. *)
Lemma hermite_after_t percent x0 x1 y0 y1 m0 m1 t :
  0 ≤ x0 ≤ 100 → 0 ≤ x1 ≤ 100 → x0 < x1 →
  0 ≤ y0 ≤ 65535 → 0 ≤ y1 ≤ 65535 →
  tangent_ok m0 → tangent_ok m1 →
  (d ← nsub percent (Int x0); ndiv d (Int (x1 - x0))) = Ok (Flt t) →
  ∃ r, hermite percent x0 x1 y0 y1 m0 m1 = Ok r.
Proof.
  intros Hx0 Hx1 Hlt Hy0 Hy1 Hm0 Hm1 Ht.
  unfold hermite. rewrite (proj2 (Z.eqb_neq (x1 - x0) 0)) by lia. cbn [negb].
  rewrite Ht. cbn [mbind res_bind].
  assert (Hs : ∀ z, Z.abs z ≤ 65535 → small (Int z)) by apply small_bounded.
  repeat match goal with
    | |- context [nmul (Flt ?f) ?b] =>
        let g := fresh "g" in
        destruct (nmul_Flt_l f b) as [g ->];
          [first [by apply tangent_ok_small | apply Hs; lia | done]|];
          cbn [mbind res_bind]
    | |- context [nmul (Int ?z) (Flt ?f)] =>
        let g := fresh "g" in
        destruct (nmul_Flt_r (Int z) f) as [g ->]; [apply Hs; lia|];
          cbn [mbind res_bind]
    | |- context [nadd (Flt ?f) ?b] =>
        let g := fresh "g" in
        destruct (nadd_Flt_l f b) as [g ->]; [first [apply Hs; lia | done]|];
          cbn [mbind res_bind]
    | |- context [nsub (Flt ?f) ?b] =>
        let g := fresh "g" in
        destruct (nsub_Flt_l f b) as [g ->]; [first [apply Hs; lia | done]|];
          cbn [mbind res_bind]
    end.
  eauto.
Qed.

Lemma hermite_t_float f x0 x1 :
  0 ≤ x0 ≤ 100 → 0 ≤ x1 ≤ 100 → x0 < x1 →
  ∃ t, (d ← nsub (Flt f) (Int x0); ndiv d (Int (x1 - x0))) = Ok (Flt t).
Proof.
  intros Hx0 Hx1 Hlt.
  assert (Hov : 200 < float_overflow) by (by vm_compute).
  unfold nsub. simpl to_float. rewrite of_int_small by lia. simpl.
  rewrite of_int_small by lia. simpl. rewrite width_nonzero by lia. eauto.
Qed.

Lemma hermite_t_int p x0 x1 :
  0 ≤ x0 ≤ 100 → 0 ≤ x1 ≤ 100 → x0 < p ≤ x1 →
  ∃ t, (d ← nsub (Int p) (Int x0); ndiv d (Int (x1 - x0))) = Ok (Flt t).
Proof.
  intros Hx0 Hx1 Hp. cbn [nsub mbind res_bind].
  rewrite ndiv_Int_small by below_53. eauto.
Qed.

Lemma hermite_float_ok f x0 x1 y0 y1 m0 m1 :
  0 ≤ x0 ≤ 100 → 0 ≤ x1 ≤ 100 → x0 < x1 →
  0 ≤ y0 ≤ 65535 → 0 ≤ y1 ≤ 65535 →
  tangent_ok m0 → tangent_ok m1 →
  ∃ r, hermite (Flt f) x0 x1 y0 y1 m0 m1 = Ok r.
Proof.
  intros Hx0 Hx1 Hlt Hy0 Hy1 Hm0 Hm1.
  destruct (hermite_t_float f x0 x1 Hx0 Hx1 Hlt) as [t Ht].
  by apply (hermite_after_t _ _ _ _ _ _ _ t).
Qed.

Lemma hermite_ok percent x0 x1 y0 y1 m0 m1 :
  0 ≤ x0 ≤ 100 → 0 ≤ x1 ≤ 100 →
  0 ≤ y0 ≤ 65535 → 0 ≤ y1 ≤ 65535 →
  tangent_ok m0 → tangent_ok m1 →
  above percent x0 → nle percent (Int x1) = true →
  ∃ r, hermite percent x0 x1 y0 y1 m0 m1 = Ok r.
Proof.
  intros Hx0 Hx1 Hy0 Hy1 Hm0 Hm1 Ha Hb.
  pose proof (above_nle_lt _ _ _ Ha Hb) as Hlt.
  destruct percent as [p|f]; [|by apply hermite_float_ok].
  assert (x0 < p ≤ x1) as Hp.
  { unfold above, nle, ncompare in *. split.
    - injection Ha as Ha. by apply (proj1 (Z.compare_gt_iff _ _)) in Ha.
    - destruct (Z.compare_spec p x1); try done; lia. }
  destruct (hermite_t_int p x0 x1 Hx0 Hx1 Hp) as [t Ht].
  by apply (hermite_after_t _ _ _ _ _ _ _ t).
Qed.

(** ** The segment the code evaluates *)

Lemma find_segment_cons percent a b l i :
  find_segment percent (a :: b :: l) i
  = if nle (Int a) percent && nle percent (Int b) then i
    else find_segment percent (b :: l) (S i).
Proof. reflexivity. Qed.

Lemma find_segment_spec percent x0 x1 :
  above percent x0 → nle percent (Int x1) = true →
  ∀ l i,
    StronglySorted Z.lt l →
    (∀ k, k ∈ l → k ≤ x0 ∨ x1 ≤ k) →
    x0 ∈ l → x1 ∈ l →
    ∃ j, find_segment percent l i = (i + j)%nat
         ∧ l !! j = Some x0 ∧ l !! S j = Some x1.
Proof.
  intros Ha Hb. pose proof (above_nle_lt _ _ _ Ha Hb) as Hlt.
  induction l as [|a l IH]; intros i Hs Hdich H0 H1.
  { by apply elem_of_nil in H0. }
  apply StronglySorted_inv in Hs as [Hs Hall]. rewrite Forall_forall in Hall.
  destruct l as [|b l].
  { apply list_elem_of_singleton in H0, H1. lia. }
  rewrite find_segment_cons.
  pose proof (Hall b ltac:(apply list_elem_of_here)) as Hab.
  destruct (decide (a = x0)) as [->|Hne].
  - assert (b = x1) as ->.
    { apply elem_of_cons in H1 as [H1|H1]; [lia|].
      apply elem_of_cons in H1 as [H1|H1]; [done|].
      apply StronglySorted_inv in Hs as [_ Hall']. rewrite Forall_forall in Hall'.
      specialize (Hall' _ H1).
      destruct (Hdich b) as [?|?]; [by apply list_elem_of_further, list_elem_of_here|lia..]. }
    rewrite (proj2 (nle_Int_l percent x0)) by (by left). rewrite Hb. simpl.
    exists 0%nat. split; [lia|done].
  - apply elem_of_cons in H0 as [H0|H0]; [done|].
    assert (b ≤ x0).
    { apply elem_of_cons in H0 as [H0|H0]; [lia|].
      apply StronglySorted_inv in Hs as [_ Hall']. rewrite Forall_forall in Hall'.
      specialize (Hall' _ H0). lia. }
    rewrite (nle_above percent x0 b Ha) by done. rewrite andb_false_r.
    destruct (IH (S i)) as (j & Hj & Hj0 & Hj1); [done| |done| |].
    + intros k Hk. apply Hdich. by apply list_elem_of_further.
    + apply elem_of_cons in H1 as [H1|H1]; [|done].
      specialize (Hall _ H0). lia.
    + exists (S j). split; [lia|done].
Qed.

Lemma mapM_getitem (m : gmap Z Z) (keys : list Z) :
  (∀ k, k ∈ keys → is_Some (m !! k)) →
  ∃ ys, mapM (getitem m) keys = Ok ys
        ∧ length ys = length keys
        ∧ ∀ j k, keys !! j = Some k → ys !! j = m !! k.
Proof.
  induction keys as [|k keys IH]; intros Hk.
  { exists []. by repeat split. }
  destruct (Hk k ltac:(apply list_elem_of_here)) as [v Hv].
  destruct IH as (ys & Hys & Hlen & Hlook).
  { intros k' Hk'. apply Hk. by apply list_elem_of_further. }
  assert (Hg : getitem m k = Ok v) by (unfold getitem; by rewrite Hv).
  exists (v :: ys).
  change (mapM (getitem m) (k :: keys))
    with (y ← getitem m k; ks ← mapM (getitem m) keys; Ok (y :: ks)).
  rewrite Hg, Hys.
  split; [done|]. split; [simpl; by rewrite Hlen|].
  intros [|j] k' Hj; simpl in *; [by simplify_eq|by apply Hlook].
Qed.

(** ** Monotone cubic interpolation *)

Lemma length_two_distinct (l : list Z) a b : a ∈ l → b ∈ l → a ≠ b → (2 ≤ length l)%nat.
Proof.
  intros Ha Hb Hne. destruct l as [|x [|y l]]; simpl; [|exfalso|lia].
  - by apply elem_of_nil in Ha.
  - apply list_elem_of_singleton in Ha, Hb. congruence.
Qed.

Lemma default_points_lookup k v :
  default_points !! k = Some v →
  (k = 0 ∧ v = 0) ∨ (k = 1 ∧ v = 0) ∨ (k = 50 ∧ v = 32767) ∨ (k = 100 ∧ v = 65535).
Proof.
  unfold default_points. intros H.
  repeat (apply lookup_insert_Some in H as [[<- <-]|[? H]]; [by auto 6|]).
  by rewrite lookup_empty in H.
Qed.

Lemma init_keys_in_range nm : keys_in_range (init nm).
Proof. intros k [v Hv]. apply default_points_lookup in Hv. lia. Qed.

Lemma init_values_in_range nm : values_in_range (init nm).
Proof. intros k v Hv. apply default_points_lookup in Hv. lia. Qed.

(** ** Tables of smooth curves without threshold *)

Lemma find_segment_bound percent l : ∀ i,
  (2 ≤ length l)%nat →
  find_segment percent l i = 0%nat
  ∨ (i ≤ find_segment percent l i < i + length l - 1)%nat.
Proof.
  induction l as [|a l IH]; intros i Hl; [simpl in Hl; lia|].
  destruct l as [|b l]; [simpl in Hl; lia|].
  rewrite find_segment_cons.
  destruct (nle (Int a) percent && nle percent (Int b)).
  { right. simpl. lia. }
  destruct l as [|b' l]; [by left|].
  destruct (IH (S i)) as [->|H]; [simpl; lia|by left|].
  right. simpl in *. lia.
Qed.

Lemma sorted_consecutive (l : list Z) j x0 x1 :
  StronglySorted Z.lt l → l !! j = Some x0 → l !! S j = Some x1 → x0 < x1.
Proof.
  revert j. induction l as [|a l IH]; intros j Hs H0 H1; [done|].
  apply StronglySorted_inv in Hs as [Hs Hall].
  destruct j as [|j]; simpl in *.
  - simplify_eq. rewrite Forall_forall in Hall. apply Hall.
    by eapply list_elem_of_lookup_2.
  - by eapply IH.
Qed.

(** On a curve of the documented domain with two points or more,
    [interpolate_smooth] returns for every [float] percent, a NaN
    included. *)
Lemma interpolate_smooth_float_total c f :
  keys_in_range c → values_in_range c →
  (2 ≤ length (get_sorted_percents c))%nat →
  ∃ r, interpolate_smooth c (Flt f) = Ok r.
Proof.
  intros Hkeys Hvals Hn.
  pose proof (sorted_percents_strict c) as Hs.
  assert (Hxs : Forall (λ x, 0 ≤ x ≤ 100) (get_sorted_percents c)).
  { apply Forall_forall. intros k Hk. apply Hkeys. by apply sorted_percents_elem. }
  destruct (lookup_lt_is_Some_2 (get_sorted_percents c) 0) as [first Hfirst]; [lia|].
  destruct (last (get_sorted_percents c)) as [final|] eqn:Hfinal; cycle 1.
  { apply last_None in Hfinal. rewrite Hfinal in Hn. simpl in Hn. lia. }
  assert (Hget : ∀ k, k ∈ get_sorted_percents c → ∃ v, getitem (points c) k = Ok v).
  { intros k [v Hv]%sorted_percents_elem. exists v. unfold getitem. by rewrite Hv. }
  destruct (mapM_getitem (points c) (get_sorted_percents c))
    as (ys & Hmap & Hlen & Hlook).
  { intros k Hk. by apply sorted_percents_elem. }
  assert (Hys : Forall (λ y, 0 ≤ y ≤ 65535) ys).
  { apply Forall_lookup. intros i y Hi.
    destruct (lookup_lt_is_Some_2 (get_sorted_percents c) i) as [k Hk].
    { rewrite <- Hlen. by eapply lookup_lt_Some. }
    rewrite (Hlook _ _ Hk) in Hi. by apply (Hvals k). }
  destruct (tangents_of_ok _ ys Hn Hlen Hs Hxs Hys) as (ts & Htan & Hlts & Hts).
  set (j := find_segment (Flt f) (get_sorted_percents c) 0).
  assert (Hj : (S j < length (get_sorted_percents c))%nat).
  { destruct (find_segment_bound (Flt f) (get_sorted_percents c) 0 Hn) as [H|H];
      unfold j; [rewrite H|]; lia. }
  destruct (lookup_lt_is_Some_2 (get_sorted_percents c) j) as [x0 Hx0]; [lia|].
  destruct (lookup_lt_is_Some_2 (get_sorted_percents c) (S j)) as [x1 Hx1]; [lia|].
  destruct (lookup_lt_is_Some_2 ys j) as [y0 Hy0]; [lia|].
  destruct (lookup_lt_is_Some_2 ys (S j)) as [y1 Hy1]; [lia|].
  destruct (lookup_lt_is_Some_2 ts j) as [m0 Hm0]; [lia|].
  destruct (lookup_lt_is_Some_2 ts (S j)) as [m1 Hm1]; [lia|].
  destruct (hermite_float_ok f x0 x1 y0 y1 m0 m1) as [result Hherm].
  { exact (Forall_lookup_1 _ _ _ _ Hxs Hx0). }
  { exact (Forall_lookup_1 _ _ _ _ Hxs Hx1). }
  { by eapply sorted_consecutive. }
  { exact (Forall_lookup_1 _ _ _ _ Hys Hy0). }
  { exact (Forall_lookup_1 _ _ _ _ Hys Hy1). }
  { exact (Forall_lookup_1 _ _ _ _ Hts Hm0). }
  { exact (Forall_lookup_1 _ _ _ _ Hts Hm1). }
  destruct (clamp_result_range y0 y1 result) as (r & Hr & _).
  unfold interpolate_smooth. cbv zeta.
  rewrite (proj2 (Nat.ltb_ge _ _) Hn).
  unfold item, item_last. rewrite Hfirst. cbn [of_option mbind res_bind].
  destruct (nle (Flt f) (Int first)).
  { apply Hget. by eapply list_elem_of_lookup_2. }
  rewrite Hfinal. cbn [of_option mbind res_bind].
  destruct (nge (Flt f) (Int final)).
  { apply Hget. apply last_Some in Hfinal as [l' Hl']. rewrite Hl'.
    apply elem_of_app. right. apply list_elem_of_here. }
  rewrite Hmap. cbn [mbind res_bind]. rewrite Htan. cbn [mbind res_bind].
  fold j. rewrite Hx0, Hx1, Hy0, Hy1, Hm0, Hm1. cbn [of_option mbind res_bind].
  rewrite Hherm. cbn [mbind res_bind]. eauto.
Qed.

Lemma lut_percent_float size i :
  size ≠ 1 → Z.abs i < 2 ^ 53 → Z.abs (size - 1) < 2 ^ 53 →
  ∃ f, lut_percent size i = Ok (Flt f).
Proof.
  intros Hs Hi Hsz. unfold lut_percent.
  rewrite ndiv_Int_small by (done || lia). cbn [mbind res_bind].
  destruct (nmul_Flt_l (float_of i / float_of (size - 1)) (Int 100)) as [g ->]; [|eauto].
  by vm_compute.
Qed.

Lemma mapM_total {A B : Type} (f : A → res B) (l : list A) :
  (∀ a, a ∈ l → ∃ b, f a = Ok b) → ∃ ks, mapM f l = Ok ks.
Proof.
  induction l as [|a l IH]; intros H; [by exists []|].
  destruct (H a ltac:(apply list_elem_of_here)) as [b Hb].
  destruct IH as [ks Hks]; [intros a' Ha'; apply H; by apply list_elem_of_further|].
  exists (b :: ks).
  change (mapM f (a :: l)) with (y ← f a; k ← mapM f l; Ok (y :: k)).
  by rewrite Hb, Hks.
Qed.

Lemma size_sorted_percents c : length (get_sorted_percents c) = size (points c).
Proof.
  unfold get_sorted_percents. rewrite merge_sort_Permutation.
  change (size (dom (points c)) = size (points c)). apply size_dom.
Qed.

(** A smooth curve of the documented domain with three points or more and
    no threshold has a table of every size from 2 on. *)
Lemma generate_lut_smooth_total c size :
  keys_in_range c → values_in_range c →
  use_smooth c = true → (3 ≤ base.size (points c))%nat → threshold c ≤ 0 →
  2 ≤ size ≤ 2 ^ 53 →
  ∃ l, generate_lut c size = Ok l ∧ length l = Z.to_nat size.
Proof.
  intros Hkeys Hvals Hsm Hn Hth Hsize.
  destruct (mapM_total (λ i, percent ← lut_percent size i; interpolate c percent)
              (seqZ 0 size)) as [l Hl].
  - intros i Hi. apply elem_of_seqZ in Hi.
    destruct (lut_percent_float size i) as [f ->]; [lia..|]. cbn [mbind res_bind].
    unfold interpolate, raw_interpolate.
    rewrite Hsm, (proj2 (Nat.leb_le _ _) Hn). cbn [andb].
    destruct (interpolate_smooth_float_total c f Hkeys Hvals) as [r ->].
    { rewrite size_sorted_percents. lia. }
    cbn [mbind res_bind]. rewrite (proj2 (Z.ltb_ge _ _) Hth). eauto.
  - exists l. split; [done|].
    apply mapM_Ok_length in Hl. by rewrite Hl, length_seqZ.
Qed.

Lemma flat_top_lookup k v :
  points flat_top !! k = Some v →
  (k = 0 ∧ v = 0) ∨ (k = 1 ∧ v = 65534) ∨ (k = 99 ∧ v = 65535) ∨ (k = 100 ∧ v = 65535).
Proof.
  unfold flat_top; simpl. intros H.
  repeat (apply lookup_insert_Some in H as [[<- <-]|[? H]]; [by auto 6|]).
  by rewrite lookup_empty in H.
Qed.

(** C2: the values of [flat_top] never decrease, and in smooth mode its
    table of 1000001 entries is produced, yet entry 989998 is 65535 and
    entry 989999 is 65534: the table is not non-decreasing. *)
Theorem generate_lut_smooth_not_monotone :
  values_non_decreasing flat_top
  ∧ use_smooth flat_top = true
  ∧ ∃ l, generate_lut flat_top 1000001 = Ok l
         ∧ l !! Z.to_nat 989998 = Some 65535
         ∧ l !! Z.to_nat 989999 = Some 65534
         ∧ ¬ non_decreasing l.
Proof.
  split; [apply flat_top_values|]. split; [done|].
  destruct (generate_lut_smooth_total flat_top 1000001) as (l & Hl & _).
  - intros k [v Hv]. apply flat_top_lookup in Hv. lia.
  - intros k v Hv. apply flat_top_lookup in Hv. lia.
  - done.
  - replace (size (points flat_top)) with 4%nat by (by vm_compute). lia.
  - done.
  - split; [done|by vm_compute].
  - exists l. split; [done|].
    assert (H1 : (percent ← lut_percent 1000001 989998; interpolate flat_top percent) = Ok 65535)
      by (by vm_compute).
    assert (H2 : (percent ← lut_percent 1000001 989999; interpolate flat_top percent) = Ok 65534)
      by (by vm_compute).
    destruct (generate_lut_lookup _ _ _ 989998 Hl) as (v1 & Hv1 & Hl1); [lia|].
    destruct (generate_lut_lookup _ _ _ 989999 Hl) as (v2 & Hv2 & Hl2); [lia|].
    rewrite H1 in Hv1. rewrite H2 in Hv2.
    injection Hv1 as <-. injection Hv2 as <-.
    split; [done|]. split; [done|]. intros Hmono.
    assert (Hle : (Z.to_nat 989998 ≤ Z.to_nat 989999)%nat) by lia.
    specialize (Hmono _ _ _ _ Hle Hl1 Hl2). lia.
Qed.

(** ** The serial link *)

Lemma pack_H_unpack v :
  0 ≤ v ≤ 65535 →
  pack_H v = Fine [Z.land v 255; Z.shiftr v 8]
  ∧ 0 ≤ Z.land v 255 ≤ 255 ∧ 0 ≤ Z.shiftr v 8 ≤ 255
  ∧ Z.land v 255 + 256 * Z.shiftr v 8 = v.
Proof.
  intros Hv. unfold pack_H.
  replace ((0 <=? v) && (v <=? 65535)) with true
    by (symmetry; apply andb_true_iff; split; apply Z.leb_le; lia).
  assert (Hl : Z.land v 255 = v `mod` 256) by (apply (Z.land_ones v 8); lia).
  assert (Hs : Z.shiftr v 8 = v `div` 256) by (apply (Z.shiftr_div_pow2 v 8); lia).
  rewrite Hl, Hs.
  pose proof (Z.mod_pos_bound v 256). pose proof (Z.div_mod v 256).
  assert (0 ≤ v `div` 256) by (apply Z.div_pos; lia).
  assert (v `div` 256 < 256) by (apply Z.div_lt_upper_bound; lia).
  repeat split; lia.
Qed.

Lemma send_rgb_working l r g b vr vg vb :
  working l →
  py_int r = Ok vr → py_int g = Ok vg → py_int b = Ok vb →
  send_rgb l r g b
  = Fine (sent l [Z.land (clamp_pwm vr) 255; Z.shiftr (clamp_pwm vr) 8;
                  Z.land (clamp_pwm vg) 255; Z.shiftr (clamp_pwm vg) 8;
                  Z.land (clamp_pwm vb) 255; Z.shiftr (clamp_pwm vb) 8]).
Proof.
  intros (s & Hs & Ho & Ha) Hr Hg Hb.
  assert (Hc : ∀ v, 0 ≤ clamp_pwm v ≤ 65535) by (intros; unfold clamp_pwm, PWM_MAX; lia).
  unfold send_rgb, is_connected. rewrite Hs, Ho, Hr, Hg, Hb.
  cbn [negb lift mbind result_bind].
  fold (clamp_pwm vr) (clamp_pwm vg) (clamp_pwm vb).
  unfold pack_HHH.
  rewrite (proj1 (pack_H_unpack _ (Hc vr))), (proj1 (pack_H_unpack _ (Hc vg))),
    (proj1 (pack_H_unpack _ (Hc vb))).
  cbn [mbind result_bind app].
  unfold write, sent. by rewrite Hs, Ha.
Qed.

Lemma clamp_pwm_idem v : clamp_pwm (clamp_pwm v) = clamp_pwm v.
Proof. unfold clamp_pwm, PWM_MAX. lia. Qed.

Lemma clamp_pwm_zero : clamp_pwm 0 = 0.
Proof. reflexivity. Qed.

(** X1: on an open port that takes its bytes, [send_channel] sends one
    frame of six bytes, which holds the value, truncated by [int] and
    clamped to [0, 65535], at the place of its channel and 0 at the two
    others; for another channel name it sends nothing. *)
Theorem send_channel_frame l channel value v :
  working l → py_int value = Ok v →
  match channel_slot channel with
  | Some k =>
      ∃ frame,
        send_channel l channel value = Fine (sent l frame)
        ∧ length frame = 6%nat
        ∧ Forall (λ byte, 0 ≤ byte ≤ 255) frame
        ∧ ∀ j, (j < 3)%nat →
            unpack_H frame (2 * j) = Some (if decide (j = k) then clamp_pwm v else 0)
  | None => send_channel l channel value = Fine l
  end.
Proof.
  intros Hw Hv.
  pose proof (pack_H_unpack (clamp_pwm v)) as Hp.
  assert (Hc : 0 ≤ clamp_pwm v ≤ 65535) by (unfold clamp_pwm, PWM_MAX; lia).
  destruct (Hp Hc) as (_ & Hlo & Hhi & Hsum).
  unfold channel_slot, send_channel. rewrite Hv. simpl.
  fold (clamp_pwm v).
  destruct (String.eqb channel "red");
    [|destruct (String.eqb channel "green"); [|destruct (String.eqb channel "blue")]];
    try done;
    (eexists; split;
     [apply send_rgb_working; [done|reflexivity..]|];
     rewrite clamp_pwm_idem, clamp_pwm_zero;
     split; [done|]; split;
     [repeat constructor; try lia; done|];
     intros [|[|[|j]]] Hj; try lia; simpl; unfold unpack_H; simpl; f_equal; try lia; done).
Qed.

Lemma send_channel_frame_witness :
  ∃ frame,
    send_channel (mkLaser (Some (mkSerial true true)) (Some "usbmodem1") []) "green" (Int 70000)
    = Fine (sent (mkLaser (Some (mkSerial true true)) (Some "usbmodem1") []) frame)
    ∧ length frame = 6%nat
    ∧ Forall (λ byte, 0 ≤ byte ≤ 255) frame
    ∧ ∀ j, (j < 3)%nat →
        unpack_H frame (2 * j) = Some (if decide (j = 1%nat) then clamp_pwm 70000 else 0).
Proof.
  apply (send_channel_frame (mkLaser (Some (mkSerial true true)) (Some "usbmodem1") [])
           "green" (Int 70000) 70000).
  - exists (mkSerial true true). done.
  - reflexivity.
Defined.

Lemma send_rgb_not_connected l r g b : is_connected l = false → send_rgb l r g b = Fine l.
Proof. intros H. unfold send_rgb. by rewrite H. Qed.

(** X2: [disconnect] never raises and leaves the link without a port; on
    an open port that takes its bytes it first sends the frame of three
    zeros, and on any other link it sends nothing. After it [send_rgb]
    sends nothing, whatever its arguments, and a second [disconnect]
    changes nothing. *)
Theorem disconnect_switches_off :
  (∀ l, ∃ l', disconnect l = Fine l'
              ∧ ser l' = None ∧ port l' = None ∧ is_connected l' = false
              ∧ (working l → wire l' = wire l ++ [0; 0; 0; 0; 0; 0])
              ∧ (is_connected l = false → wire l' = wire l)
              ∧ disconnect l' = Fine l'
              ∧ ∀ r g b, send_rgb l' r g b = Fine l').
Proof.
  intros l. unfold disconnect.
  destruct (is_connected l) eqn:Hc.
  - unfold send_rgb at 1. rewrite Hc. simpl.
    eexists. split; [reflexivity|]. simpl.
    split; [done|]. split; [done|]. split; [done|]. split.
    { intros (s & Hs & Ho & Ha). unfold write. by rewrite Hs, Ha. }
    split; [done|]. split; [done|]. done.
  - simpl. eexists. split; [reflexivity|]. simpl.
    split; [done|]. split; [done|]. split; [done|]. split.
    { intros (s & Hs & Ho & Ha). unfold is_connected in Hc. by rewrite Hs, Ho in Hc. }
    done.
Qed.

(** ** The point list *)

Lemma rebuild_from c sorted_percents : ∀ l pre acc,
  sorted_percents = pre ++ l →
  (∀ k, k ∈ l → is_Some (points c !! k)) →
  for_each (rebuild_body c sorted_percents) (imap (λ i, pair (length pre + i)%nat) l) acc
  = Ok (acc ++ widgets_of c l).
Proof.
  induction l as [|p rest IH]; intros pre acc Hs Hk.
  { simpl. by rewrite app_nil_r. }
  destruct (Hk p) as [v Hv]; [left|].
  cbn [imap for_each].
  assert (Hlen : length sorted_percents = (length pre + S (length rest))%nat)
    by (rewrite Hs, length_app; reflexivity).
  assert (Hnext : ∀ acc',
    for_each (rebuild_body c sorted_percents)
      (imap ((λ i, pair (length pre + i)%nat) ∘ S) rest) acc'
    = Ok (acc' ++ widgets_of c rest)).
  { intros acc'.
    rewrite <- (IH (pre ++ [p]) acc').
    - f_equal. apply imap_ext. intros i x _. simpl. rewrite length_app. simpl.
      f_equal. lia.
    - by rewrite <- app_assoc.
    - intros k Hin. apply Hk. by right. }
  assert (Hbody : rebuild_body c sorted_percents acc ((length pre + 0)%nat, p)
                  = Ok (acc ++ [PointEntryWidget p v (negb (bool_decide (p = 0 ∨ p = 100)))]
                        ++ match rest with
                           | q :: _ => if 1 <? q - p then [AddPointButton p q] else []
                           | [] => []
                           end)).
  { unfold rebuild_body, getitem. rewrite Hv. cbn [of_option mbind res_bind].
    destruct rest as [|q rest'].
    - replace (Z.of_nat (length pre + 0) <? Z.of_nat (length sorted_percents) - 1) with false
        by (symmetry; apply Z.ltb_ge; simpl in Hlen; lia).
      done.
    - replace (Z.of_nat (length pre + 0) <? Z.of_nat (length sorted_percents) - 1) with true
        by (symmetry; apply Z.ltb_lt; simpl in Hlen; lia).
      assert (Hq : sorted_percents !! S (length pre + 0) = Some q).
      { rewrite Hs, Nat.add_0_r. rewrite lookup_app_r by lia.
        replace (S (length pre) - length pre)%nat with 1%nat by lia. done. }
      unfold item. rewrite Hq. cbn [of_option mbind res_bind].
      destruct (1 <? q - p); [by rewrite <- app_assoc|by rewrite app_nil_r]. }
  rewrite Hbody. cbn [mbind res_bind]. rewrite Hnext.
  cbn [widgets_of]. rewrite Hv. cbn [default].
  f_equal. rewrite <- !app_assoc. f_equal. simpl. f_equal.
  destruct rest as [|q rest']; [done|]. by destruct (1 <? q - p).
Qed.

Lemma rebuild_points_ui_widgets c :
  rebuild_points_ui c = Ok (widgets_of c (get_sorted_percents c)).
Proof.
  unfold rebuild_points_ui, enumerate.
  exact (rebuild_from c (get_sorted_percents c) (get_sorted_percents c) [] [] eq_refl
           (λ k Hk, proj1 (sorted_percents_elem c k) Hk)).
Qed.

Lemma widgets_percents c l : omap widget_percent (widgets_of c l) = l.
Proof.
  induction l as [|p rest IH]; [done|].
  destruct rest as [|q rest']; [done|].
  simpl in *. destruct (1 <? q - p); simpl; f_equal; exact IH.
Qed.

Lemma widgets_points c l p v r :
  PointEntryWidget p v r ∈ widgets_of c l
  ↔ p ∈ l ∧ v = default 0 (points c !! p) ∧ r = negb (bool_decide (p = 0 ∨ p = 100)).
Proof.
  induction l as [|a rest IH].
  { simpl. split; [intros H; inversion H|intros [H _]; inversion H]. }
  cbn [widgets_of]. rewrite elem_of_cons.
  assert (Hrest : PointEntryWidget p v r
                    ∈ match rest with
                      | [] => []
                      | q :: _ => if 1 <? q - a then AddPointButton a q :: widgets_of c rest
                                  else widgets_of c rest
                      end
                  ↔ PointEntryWidget p v r ∈ widgets_of c rest).
  { destruct rest as [|q rest']; [done|].
    destruct (1 <? q - a); [|done].
    rewrite elem_of_cons. split; [intros [?|?]; [done|done]|by right]. }
  rewrite Hrest, IH, elem_of_cons. split.
  - intros [Heq|(? & ? & ?)]; [inversion Heq; subst; by split; [left|]|by split; [right|]].
  - intros ([->|?] & -> & ->); [by left|by right].
Qed.

Lemma widgets_buttons c l lo up :
  StronglySorted Z.lt l →
  (AddPointButton lo up ∈ widgets_of c l
   ↔ ∃ j, l !! j = Some lo ∧ l !! S j = Some up ∧ 1 < up - lo).
Proof.
  induction l as [|a rest IH]; intros Hs.
  { simpl. split; [intros H; inversion H|intros (j & H & _); done]. }
  apply StronglySorted_inv in Hs as [Hs Ha].
  cbn [widgets_of]. rewrite elem_of_cons.
  destruct rest as [|q rest'].
  { split; [intros [H|H]; [done|inversion H]|]. intros (j & H1 & H2 & _).
    destruct j; done. }
  specialize (IH Hs).
  split.
  - intros [H|H]; [done|].
    destruct (1 <? q - a) eqn:Hq.
    + apply elem_of_cons in H as [H|H].
      * inversion H; subst. exists 0%nat. repeat split; try done. by apply Z.ltb_lt.
      * apply IH in H as (j & ? & ? & ?). exists (S j). done.
    + apply IH in H as (j & ? & ? & ?). exists (S j). done.
  - intros (j & H1 & H2 & H3). right. destruct j as [|j].
    + simpl in H1, H2. inversion H1; inversion H2; subst.
      replace (1 <? up - lo) with true by (symmetry; by apply Z.ltb_lt). by left.
    + assert (AddPointButton lo up ∈ widgets_of c (q :: rest'))
        by (apply IH; exists j; done).
      destruct (1 <? q - a); [by right|done].
Qed.

Lemma sorted_between (l : list Z) j lo up :
  StronglySorted Z.lt l → l !! j = Some lo → l !! S j = Some up →
  ∀ k, k ∈ l → k ≤ lo ∨ up ≤ k.
Proof.
  revert j. induction l as [|a rest IH]; intros j Hs H1 H2 k Hk; [done|].
  apply StronglySorted_inv in Hs as [Hs Ha].
  destruct j as [|j].
  - simpl in H1, H2. inversion H1; subst.
    apply elem_of_cons in Hk as [->|Hk]; [lia|].
    destruct rest as [|b rest']; [done|]. simpl in H2. inversion H2; subst.
    apply StronglySorted_inv in Hs as [_ Hb].
    apply elem_of_cons in Hk as [->|Hk]; [lia|].
    rewrite Forall_forall in Hb. specialize (Hb _ Hk). lia.
  - simpl in H1, H2.
    apply elem_of_cons in Hk as [->|Hk].
    + rewrite Forall_forall in Ha.
      specialize (Ha lo (list_elem_of_lookup_2 _ _ _ H1)). lia.
    + by apply (IH j).
Qed.

Lemma sorted_lookup_lt (l : list Z) : ∀ i j a b,
  StronglySorted Z.lt l → l !! i = Some a → l !! j = Some b → (i < j)%nat → a < b.
Proof.
  induction l as [|x rest IH]; intros i j a b Hs Hi Hj Hij; [done|].
  apply StronglySorted_inv in Hs as [Hs Hx].
  destruct j as [|j]; [lia|]. simpl in Hj.
  destruct i as [|i].
  - simpl in Hi. inversion Hi; subst. rewrite Forall_forall in Hx.
    apply Hx. by eapply list_elem_of_lookup_2.
  - simpl in Hi. apply (IH i j); [done..|lia].
Qed.

Lemma consecutive_lookup c lo up :
  consecutive c lo up
  ↔ ∃ j, get_sorted_percents c !! j = Some lo ∧ get_sorted_percents c !! S j = Some up.
Proof.
  pose proof (sorted_percents_strict c) as Hs.
  split.
  - intros (Hlo & Hup & Hlt & Hnone).
    apply sorted_percents_elem in Hlo, Hup.
    apply list_elem_of_lookup in Hlo as [j Hj].
    exists j. split; [done|].
    destruct (get_sorted_percents c !! S j) as [x|] eqn:Hx.
    + pose proof (sorted_consecutive _ _ _ _ Hs Hj Hx) as Hlx.
      pose proof (sorted_between _ _ _ _ Hs Hj Hx up Hup) as [?|Hux]; [lia|].
      destruct (decide (x = up)) as [->|Hne]; [done|].
      assert (Hxk : is_Some (points c !! x))
        by (apply sorted_percents_elem; by eapply list_elem_of_lookup_2).
      rewrite Hnone in Hxk by lia. by destruct Hxk.
    + exfalso. apply list_elem_of_lookup in Hup as [i Hi].
      apply lookup_ge_None in Hx.
      assert (Hij : (i ≤ j)%nat) by (apply lookup_lt_Some in Hi; lia).
      destruct (decide (i = j)) as [->|Hne]; [rewrite Hj in Hi; inversion Hi; lia|].
      assert (Hlt' : (i < j)%nat) by lia.
      pose proof (sorted_lookup_lt _ _ _ _ _ Hs Hi Hj Hlt') as Hc.
      lia.
  - intros (j & Hj & Hx).
    split; [apply sorted_percents_elem; by eapply list_elem_of_lookup_2|].
    split; [apply sorted_percents_elem; by eapply list_elem_of_lookup_2|].
    split; [by eapply sorted_consecutive|].
    intros k Hk. destruct (points c !! k) eqn:Hpk; [|done]. exfalso.
    assert (Hin : k ∈ get_sorted_percents c) by (apply sorted_percents_elem; by eexists).
    pose proof (sorted_between _ _ _ _ Hs Hj Hx k Hin). lia.
Qed.

(** X3: [_rebuild_points_ui] never raises. The list it builds shows the
    points in increasing order of percent, each with its value and with a
    remove button unless its percent is 0 or 100, and an add button exactly
    between two neighbouring points whose percents differ by more than 1. *)
Theorem rebuild_points_ui_spec c :
  ∃ layout,
    rebuild_points_ui c = Ok layout
    ∧ omap widget_percent layout = get_sorted_percents c
    ∧ (∀ p v r, PointEntryWidget p v r ∈ layout
                ↔ points c !! p = Some v ∧ r = negb (bool_decide (p = 0 ∨ p = 100)))
    ∧ (∀ lo up, AddPointButton lo up ∈ layout ↔ consecutive c lo up ∧ 1 < up - lo).
Proof.
  exists (widgets_of c (get_sorted_percents c)).
  split; [apply rebuild_points_ui_widgets|].
  split; [apply widgets_percents|]. split.
  - intros p v r. rewrite widgets_points, sorted_percents_elem. split.
    + intros ([w Hw] & -> & ->). by rewrite Hw.
    + intros [Hv ->]. rewrite Hv. by split; [eexists|].
  - intros lo up. rewrite (widgets_buttons _ _ _ _ (sorted_percents_strict c)).
    rewrite consecutive_lookup. split.
    + intros (j & ? & ? & ?). split; [by exists j|done].
    + intros [(j & ? & ?) ?]. by exists j.
Qed.

Lemma midpoint_between lo up : 1 < up - lo → lo < (lo + up) `div` 2 < up.
Proof.
  intros H. split.
  - assert (lo + 1 ≤ (lo + up) `div` 2) by (apply Z.div_le_lower_bound; lia). lia.
  - apply Z.div_lt_upper_bound; lia.
Qed.

Lemma add_point_between_fresh c lo up :
  let mid := (lo + up) `div` 2 in
  points c !! mid = None → mid ≠ lo → mid ≠ up →
  add_point_between c lo up
  = (with_points c (<[mid := (default 0 (points c !! lo)
                              + default PWM_MAX (points c !! up)) `div` 2]> (points c)),
     Some mid).
Proof.
  intros mid Hm Hl Hu. unfold add_point_between. fold mid.
  rewrite bool_decide_eq_true_2 by done.
  replace (mid =? lo) with false by (symmetry; by apply Z.eqb_neq).
  replace (mid =? up) with false by (symmetry; by apply Z.eqb_neq).
  done.
Qed.

(** X4: when the list shows the curve, every add button in it works: the
    percent its text names lies strictly between its two points and is
    free, and [_on_add_point] stores there the floor average of the values
    of the two points. The list is then rebuilt with the new point and the
    change is signalled, unless the new percent is 0: then the point is
    stored, but the list is not rebuilt and nothing is signalled. *)
Theorem add_button_creates_its_point t lo up :
  rebuild_points_ui (calibration t) = Ok (points_layout t) →
  AddPointButton lo up ∈ points_layout t →
  let c := calibration t in
  let mid := button_mid lo up in
  ∃ vl vu,
    points c !! lo = Some vl ∧ points c !! up = Some vu
    ∧ lo < mid < up ∧ points c !! mid = None
    ∧ let c' := with_points c (<[mid := (vl + vu) `div` 2]> (points c)) in
      add_point_between c lo up = (c', Some mid)
      ∧ (mid ≠ 0 →
         ∃ layout,
           on_add_point t lo up = Ok (set_points_layout (set_calibration t c') layout, true)
           ∧ rebuild_points_ui c' = Ok layout
           ∧ PointEntryWidget mid ((vl + vu) `div` 2)
               (negb (bool_decide (mid = 0 ∨ mid = 100))) ∈ layout)
      ∧ (mid = 0 → on_add_point t lo up = Ok (set_calibration t c', false)).
Proof.
  intros Hlayout Hbtn c mid.
  rewrite rebuild_points_ui_widgets in Hlayout. inversion Hlayout as [Hl].
  rewrite <- Hl in Hbtn.
  apply (widgets_buttons _ _ _ _ (sorted_percents_strict _)) in Hbtn as (j & Hj & Hj' & Hgap).
  assert (Hcons : consecutive c lo up) by (apply consecutive_lookup; by exists j).
  destruct Hcons as ([vl Hvl] & [vu Hvu] & Hlt & Hnone).
  pose proof (midpoint_between lo up Hgap) as Hmid. fold (button_mid lo up) in Hmid.
  fold mid in Hmid.
  exists vl, vu. split; [done|]. split; [done|]. split; [done|].
  assert (Hfree : points c !! mid = None) by (apply Hnone; lia).
  split; [done|]. intros c'.
  assert (Hadd : add_point_between c lo up = (c', Some mid)).
  { unfold mid, button_mid. rewrite add_point_between_fresh; [|done|fold (button_mid lo up); fold mid; lia..].
    fold c. by rewrite Hvl, Hvu. }
  split; [done|]. split.
  - intros Hnz. exists (widgets_of c' (get_sorted_percents c')).
    unfold on_add_point. fold c. rewrite Hadd.
    cbn [truthy]. replace (mid =? 0) with false by (symmetry; by apply Z.eqb_neq).
    cbn [negb]. rewrite !rebuild_points_ui_widgets. cbn [mbind res_bind].
    split; [done|]. split; [done|].
    apply widgets_points.
    assert (Hc' : points c' !! mid = Some ((vl + vu) `div` 2)) by (apply lookup_insert_eq).
    split; [apply sorted_percents_elem; by eexists|]. by rewrite Hc'.
  - intros Hz. unfold on_add_point. fold c. rewrite Hadd.
    cbn [truthy]. replace (mid =? 0) with true by (symmetry; by apply Z.eqb_eq).
    done.
Qed.

Lemma add_button_creates_its_point_witness :
  ∃ vl vu,
    default_points !! 1 = Some vl ∧ default_points !! 50 = Some vu
    ∧ 1 < button_mid 1 50 < 50 ∧ default_points !! button_mid 1 50 = None
    ∧ ∃ t layout,
        tab_init "Red" = Ok t
        ∧ on_add_point t 1 50
          = Ok (set_points_layout
                  (set_calibration t
                     (with_points (init "Red")
                        (<[button_mid 1 50 := (vl + vu) `div` 2]> default_points)))
                  layout, true).
Proof.
  assert (Ht : ∃ t, tab_init "Red" = Ok t ∧ calibration t = init "Red"
                    ∧ rebuild_points_ui (calibration t) = Ok (points_layout t)
                    ∧ AddPointButton 1 50 ∈ points_layout t).
  { unfold tab_init. rewrite rebuild_points_ui_widgets. cbn [mbind res_bind].
    eexists. split; [reflexivity|]. cbn [calibration points_layout].
    split; [done|]. split; [apply rebuild_points_ui_widgets|].
    apply (widgets_buttons _ _ _ _ (sorted_percents_strict _)).
    exists 1%nat. by vm_compute. }
  destruct Ht as (t & Hinit & Hcal & Hlayout & Hbtn).
  destruct (add_button_creates_its_point t 1 50 Hlayout Hbtn)
    as (vl & vu & Hvl & Hvu & Hmid & Hfree & Hadd & Hshow & _).
  rewrite Hcal in *. cbn [points init] in *.
  exists vl, vu. split; [done|]. split; [done|]. split; [done|]. split; [done|].
  destruct Hshow as (layout & Hon & _); [by vm_compute|].
  by exists t, layout.
Defined.

(** X5: when the list shows the curve, [_on_remove_point] on a point widget
    never raises and signals the change; for a widget with a remove button
    it deletes the point and the rebuilt list no longer shows it, and for
    the two widgets without one, at 0 and 100, it leaves the curve and the
    list as they are. *)
Theorem remove_button_deletes_its_point t p v r :
  rebuild_points_ui (calibration t) = Ok (points_layout t) →
  PointEntryWidget p v r ∈ points_layout t →
  let c := calibration t in
  ∃ layout,
    on_remove_point t p = Ok (set_points_layout (set_calibration t (remove_point c p)) layout, true)
    ∧ rebuild_points_ui (remove_point c p) = Ok layout
    ∧ (r = true →
       points (remove_point c p) = delete p (points c)
       ∧ points c !! p = Some v
       ∧ ∀ v' r', PointEntryWidget p v' r' ∉ layout)
    ∧ (r = false → (p = 0 ∨ p = 100) ∧ remove_point c p = c ∧ layout = points_layout t).
Proof.
  intros Hlayout Hw c.
  rewrite rebuild_points_ui_widgets in Hlayout. inversion Hlayout as [Hl].
  rewrite <- Hl in Hw. apply widgets_points in Hw as (Hin & Hv & Hr).
  apply sorted_percents_elem in Hin as [w Hpw]. fold c in Hpw, Hv.
  rewrite Hpw in Hv. simpl in Hv. subst v.
  exists (widgets_of (remove_point c p) (get_sorted_percents (remove_point c p))).
  split; [unfold on_remove_point; cbn [calibration set_calibration];
          by rewrite rebuild_points_ui_widgets|].
  split; [apply rebuild_points_ui_widgets|]. split.
  - intros ->. symmetry in Hr. apply negb_true_iff, bool_decide_eq_false in Hr.
    unfold remove_point. rewrite bool_decide_eq_false_2 by done.
    split; [done|]. split; [done|].
    intros v' r' Hin. apply widgets_points in Hin as [Hin _].
    apply sorted_percents_elem in Hin as [x Hx]. simpl in Hx.
    by rewrite lookup_delete_eq in Hx.
  - intros ->. symmetry in Hr. apply negb_false_iff, bool_decide_eq_true in Hr.
    split; [done|].
    assert (Hc : remove_point c p = c)
      by (unfold remove_point; by rewrite bool_decide_eq_true_2).
    split; [done|]. by rewrite Hc.
Qed.

Lemma remove_button_deletes_its_point_witness :
  ∃ t layout,
    tab_init "Red" = Ok t
    ∧ on_remove_point t 50
      = Ok (set_points_layout (set_calibration t (remove_point (calibration t) 50)) layout, true)
    ∧ points (remove_point (calibration t) 50) = delete 50 (points (calibration t)).
Proof.
  assert (Ht : ∃ t, tab_init "Red" = Ok t
                    ∧ rebuild_points_ui (calibration t) = Ok (points_layout t)
                    ∧ PointEntryWidget 50 32767 true ∈ points_layout t).
  { unfold tab_init. rewrite rebuild_points_ui_widgets. cbn [mbind res_bind].
    eexists. split; [reflexivity|]. cbn [calibration points_layout].
    split; [apply rebuild_points_ui_widgets|].
    apply widgets_points. split; [|split; vm_compute; reflexivity].
    apply sorted_percents_elem. vm_compute. by eexists. }
  destruct Ht as (t & Hinit & Hlayout & Hw).
  destruct (remove_button_deletes_its_point t 50 32767 true Hlayout Hw)
    as (layout & Hon & _ & Hdel & _).
  exists t, layout. split; [done|]. split; [done|]. by apply Hdel.
Defined.

(** ** Jumping between the points *)

Lemma jump_to_next_tab t l :
  (jump_to_next t l).1
  = match get_sorted_percents (calibration t) with
    | [] => t
    | _ => set_current_test_index t
             ((current_test_index t + 1)
                `mod` Z.of_nat (length (get_sorted_percents (calibration t))))
    end.
Proof. unfold jump_to_next. by destruct (get_sorted_percents (calibration t)). Qed.

(** X6: [_jump_to_next] does nothing on a curve without points; on any
    other curve, whatever the current index is, it moves the index to the
    next place of the sorted percents, after the last to the first, and
    tests the point there: the index it reads is within the list, so no
    [IndexError] is raised, and the percent tested is a stored key. After
    [k] presses on an unchanged curve of [n] points the index is the
    initial index plus [k], modulo [n]. *)
Theorem jump_to_next_cycles t l :
  let sorted_percents := get_sorted_percents (calibration t) in
  let n := Z.of_nat (length sorted_percents) in
  (sorted_percents = [] → jump_to_next t l = (t, Fine (l, None)))
  ∧ (sorted_percents ≠ [] →
     let i := (current_test_index t + 1) `mod` n in
     0 ≤ i < n
     ∧ (∃ percent,
          sorted_percents !! Z.to_nat i = Some percent
          ∧ is_Some (points (calibration t) !! percent)
          ∧ jump_to_next t l
            = (set_current_test_index t i,
               lv ← on_test_point (set_current_test_index t i) l percent;
               Fine (lv.1, Some (percent, lv.2))))
     ∧ ∀ k, (0 < k)%nat →
         calibration (jumps k t l) = calibration t
         ∧ current_test_index (jumps k t l) = (current_test_index t + Z.of_nat k) `mod` n).
Proof.
  intros sorted_percents n. split.
  { intros Hnil. unfold jump_to_next. fold sorted_percents. by rewrite Hnil. }
  intros Hne i.
  assert (Hn : 0 < n) by (unfold n; destruct sorted_percents; [done|simpl; lia]).
  assert (Hi : 0 ≤ i < n) by (apply Z.mod_pos_bound; lia).
  split; [done|]. split.
  - destruct (lookup_lt_is_Some_2 sorted_percents (Z.to_nat i)) as [percent Hp];
      [unfold n in Hi; lia|].
    exists percent. split; [done|].
    split; [apply sorted_percents_elem; by eapply list_elem_of_lookup_2|].
    unfold jump_to_next. fold sorted_percents. fold n. fold i.
    destruct sorted_percents as [|a rest] eqn:Hs; [done|].
    f_equal. cbn [current_test_index set_current_test_index].
    unfold item. rewrite Hp. done.
  - intros k Hk. induction k as [|k IH]; [lia|].
    cbn [jumps]. rewrite jump_to_next_tab.
    destruct (decide (k = 0%nat)) as [->|Hk0].
    + cbn [jumps]. fold sorted_percents. fold n.
      destruct sorted_percents; [done|]. split; [done|]. done.
    + destruct IH as [Hc Hidx]; [lia|]. rewrite Hc. fold sorted_percents. fold n.
      destruct sorted_percents eqn:Hs; [done|]. rewrite <- Hs in *.
      cbn [calibration set_current_test_index current_test_index].
      split; [done|]. rewrite Hidx.
      rewrite Z.add_mod_idemp_l by lia. f_equal. lia.
Qed.

(** ** The threshold finder *)

Lemma send_channel_working l channel v :
  working l →
  ∃ l', send_channel l channel (Int v) = Fine l'
        ∧ ser l' = ser l ∧ port l' = port l
        ∧ wire l' = wire l ++ channel_frame channel (clamp_pwm v).
Proof.
  intros Hw. unfold send_channel, channel_frame. cbn [py_int lift mbind result_bind].
  fold (clamp_pwm v).
  destruct (String.eqb channel "red");
    [|destruct (String.eqb channel "green"); [|destruct (String.eqb channel "blue")]].
  1-3: eexists; split;
    [apply send_rgb_working; [done|reflexivity..]|];
    rewrite clamp_pwm_idem, clamp_pwm_zero; done.
  exists l. by rewrite app_nil_r.
Qed.

Lemma working_sent l l' : working l → ser l' = ser l → working l'.
Proof. intros (s & Hs & ?) Heq. exists s. by rewrite Heq. Qed.

Lemma threshold_tick_spec t l :
  working l → 0 ≤ threshold_value t + 10 ≤ 5000 →
  let v := threshold_value t + 10 in
  ∃ t' l',
    threshold_tick t l = (t', Fine l')
    ∧ threshold_value t' = v
    ∧ threshold_input t' = v
    ∧ threshold (calibration t')
      = (if v =? threshold_input t then threshold (calibration t) else v)
    ∧ threshold_timer t' = (if 2000 <=? v then Some false else threshold_timer t)
    ∧ channel_name t' = channel_name t
    ∧ points (calibration t') = points (calibration t)
    ∧ ser l' = ser l ∧ port l' = port l
    ∧ wire l'
      = wire l ++ channel_frame (channel_name t) v
        ++ (if 2000 <=? v then channel_frame (channel_name t) 0 else []).
Proof.
  intros Hw Hv v.
  destruct (send_channel_working l (channel_name t) v Hw) as (l1 & Hs & Hser & Hport & Hwire).
  assert (Hw1 : working l1) by (by eapply working_sent).
  destruct (send_channel_working l1 (channel_name t) 0 Hw1)
    as (l2 & Hs2 & Hser2 & Hport2 & Hwire2).
  assert (Hpwm : clamp_pwm v = v) by (unfold clamp_pwm, PWM_MAX; lia).
  assert (Hclamp : Z.max 0 (Z.min 5000 v) = v) by lia.
  rewrite Hpwm in Hwire. change (clamp_pwm 0) with 0 in Hwire2.
  unfold threshold_tick, threshold_input_setValue.
  destruct t as [nm c lay idx inp val tim run pos dir stim csp].
  cbn -[send_channel Z.add Z.leb Z.eqb Z.max Z.min] in *.
  fold v. rewrite Hs, Hclamp.
  destruct (Z.eqb_spec v inp) as [Hin|Hin]; cbn -[send_channel Z.add Z.leb Z.eqb Z.max Z.min];
    destruct (2000 <=? v).
  - rewrite Hs2. eexists _, l2. split; [reflexivity|]. cbn.
    repeat split; try done; try congruence.
    rewrite Hwire2, Hwire. by rewrite <- app_assoc.
  - eexists _, l1. split; [reflexivity|]. cbn.
    repeat split; try done. rewrite Hwire. by rewrite app_nil_r.
  - rewrite Hs2. eexists _, l2. split; [reflexivity|]. cbn.
    repeat split; try done; try congruence.
    rewrite Hwire2, Hwire. by rewrite <- app_assoc.
  - eexists _, l1. split; [reflexivity|]. cbn.
    repeat split; try done. rewrite Hwire. by rewrite app_nil_r.
Qed.

Lemma threshold_ticks_spec t l (k : nat) :
  working l → (1 ≤ k ≤ 200)%nat →
  ∃ t' l',
    threshold_ticks k (find_threshold t) l = (t', Fine l')
    ∧ threshold_value t' = 10 * Z.of_nat k
    ∧ threshold_input t' = 10 * Z.of_nat k
    ∧ (threshold_input t ≠ 10 ∨ (2 ≤ k)%nat → threshold (calibration t') = 10 * Z.of_nat k)
    ∧ threshold_timer t' = Some (bool_decide (k < 200)%nat)
    ∧ channel_name t' = channel_name t
    ∧ points (calibration t') = points (calibration t)
    ∧ ser l' = ser l ∧ port l' = port l
    ∧ wire l'
      = wire l
        ++ concat ((λ j, channel_frame (channel_name t) (10 * j)) <$> seqZ 1 (Z.of_nat k))
        ++ (if bool_decide (k < 200)%nat then [] else channel_frame (channel_name t) 0).
Proof.
  intros Hw Hk. induction k as [|k IH]; [lia|].
  assert (Hstep : ∀ t1 l1,
    working l1 → threshold_value t1 = 10 * Z.of_nat k →
    channel_name t1 = channel_name t →
    let v := 10 * Z.of_nat (S k) in
    ∃ t' l',
      threshold_tick t1 l1 = (t', Fine l')
      ∧ threshold_value t' = v ∧ threshold_input t' = v
      ∧ threshold (calibration t')
        = (if v =? threshold_input t1 then threshold (calibration t1) else v)
      ∧ threshold_timer t' = (if bool_decide (S k < 200)%nat then threshold_timer t1 else Some false)
      ∧ channel_name t' = channel_name t
      ∧ points (calibration t') = points (calibration t1)
      ∧ ser l' = ser l1 ∧ port l' = port l1
      ∧ wire l'
        = wire l1 ++ channel_frame (channel_name t) v
          ++ (if bool_decide (S k < 200)%nat then [] else channel_frame (channel_name t) 0)).
  { intros t1 l1 Hw1 Hval Hname v.
    destruct (threshold_tick_spec t1 l1 Hw1) as (t' & l' & H); [lia|].
    rewrite Hval, Hname in H.
    replace (10 * Z.of_nat k + 10) with v in H by (unfold v; lia).
    exists t', l'.
    destruct (decide (S k < 200)%nat) as [Hlt|Hge].
    - rewrite bool_decide_eq_true_2 by done.
      replace (2000 <=? v) with false in H by (symmetry; apply Z.leb_gt; unfold v; lia).
      exact H.
    - rewrite bool_decide_eq_false_2 by done.
      replace (2000 <=? v) with true in H by (symmetry; apply Z.leb_le; unfold v; lia).
      exact H. }
  assert (Hseq : seqZ 1 (Z.of_nat (S k)) = seqZ 1 (Z.of_nat k) ++ [Z.of_nat (S k)]).
  { replace (Z.of_nat (S k)) with (Z.of_nat k + 1) by lia.
    rewrite seqZ_app by lia. f_equal. rewrite Z.add_comm. done. }
  destruct (decide (k = 0%nat)) as [->|Hk0].
  - cbn [threshold_ticks].
    destruct (Hstep (find_threshold t) l Hw eq_refl eq_refl)
      as (t' & l' & Ht & Hval & Hin & Hth & Htim & Hname & Hpts & Hser & Hport & Hwire).
    exists t', l'. split; [done|]. split; [done|]. split; [done|].
    split. { intros [Hne|?]; [|lia]. rewrite Hth.
             replace (10 * Z.of_nat 1 =? threshold_input (find_threshold t)) with false; [done|].
             symmetry. apply Z.eqb_neq. cbn. lia. }
    split; [by rewrite Htim|].
    repeat split; try done.
    rewrite Hwire. rewrite bool_decide_eq_true_2 by lia.
    change (seqZ 1 (Z.of_nat 1)) with [1]. cbn [fmap list_fmap concat].
    change (10 * Z.of_nat 1) with (10 * 1). by rewrite !app_nil_r.
  - destruct IH as (t1 & l1 & Hticks & Hval & Hin & Hth & Htimer & Hname & Hpts & Hser & Hport & Hwire);
      [lia|].
    cbn [threshold_ticks]. rewrite Hticks.
    assert (Hw1 : working l1) by (by eapply working_sent).
    destruct (Hstep t1 l1 Hw1 Hval Hname)
      as (t' & l' & Ht & Hval' & Hin' & Hth' & Htim' & Hname' & Hpts' & Hser' & Hport' & Hwire').
    exists t', l'. split; [done|]. split; [done|]. split; [done|].
    split. { intros _. rewrite Hth', Hin.
             replace (10 * Z.of_nat (S k) =? 10 * Z.of_nat k) with false; [done|].
             symmetry. apply Z.eqb_neq. lia. }
    split. { rewrite Htim', Htimer. case_bool_decide; [|done].
             by rewrite bool_decide_eq_true_2 by lia. }
    split; [done|]. split; [congruence|]. split; [congruence|]. split; [congruence|].
    rewrite Hwire', Hwire, Hseq, fmap_app, concat_app.
    rewrite (bool_decide_eq_true_2 (k < 200)%nat) by lia. simpl.
    rewrite !app_nil_r, <- !app_assoc. done.
Qed.

(** X7: on an open port that takes its bytes, the threshold finder runs
    for 200 ticks: tick [k] sends the value [10 * k] on the tab's channel
    and puts it into the threshold box, which makes it the threshold of the
    curve; the 200th tick sends 2000, then 0, and stops the timer. So the
    finder never sends more than 2000, ends with the laser off, and leaves
    the threshold of the curve at 2000, its points untouched. *)
Theorem threshold_finder_run t l :
  working l →
  (∀ k, (1 ≤ k < 200)%nat →
     ∃ t' l',
       threshold_ticks k (find_threshold t) l = (t', Fine l')
       ∧ threshold_timer t' = Some true
       ∧ threshold_input t' = 10 * Z.of_nat k
       ∧ wire l'
         = wire l
           ++ concat ((λ j, channel_frame (channel_name t) (10 * j)) <$> seqZ 1 (Z.of_nat k)))
  ∧ ∃ t' l',
      threshold_ticks 200 (find_threshold t) l = (t', Fine l')
      ∧ threshold_timer t' = Some false
      ∧ threshold_input t' = 2000
      ∧ threshold (calibration t') = 2000
      ∧ points (calibration t') = points (calibration t)
      ∧ wire l'
        = wire l
          ++ concat ((λ j, channel_frame (channel_name t) (10 * j)) <$> seqZ 1 200)
          ++ channel_frame (channel_name t) 0.
Proof.
  intros Hw. split.
  - intros k Hk.
    destruct (threshold_ticks_spec t l k Hw) as (t' & l' & Ht & _ & Hin & _ & Htim & _ & _ & _ & _ & Hwire);
      [lia|].
    exists t', l'. rewrite bool_decide_eq_true_2 in Htim, Hwire by lia.
    rewrite app_nil_r in Hwire. done.
  - destruct (threshold_ticks_spec t l 200 Hw) as (t' & l' & Ht & _ & Hin & Hth & Htim & _ & Hpts & _ & _ & Hwire);
      [lia|].
    exists t', l'. split; [done|]. split; [done|]. split; [done|].
    split; [apply Hth; right; lia|]. split; [done|]. exact Hwire.
Qed.


Lemma threshold_finder_run_witness :
  ∃ t' l',
    threshold_ticks 200 (find_threshold (mkTab "red" (init "Red") [] 0 0 0 None false (Flt 0) 1 false (-1)))
      (mkLaser (Some (mkSerial true true)) (Some "usbmodem1") [])
    = (t', Fine l')
    ∧ threshold_timer t' = Some false
    ∧ threshold (calibration t') = 2000.
Proof.
  assert (Hw : working (mkLaser (Some (mkSerial true true)) (Some "usbmodem1") []))
    by (exists (mkSerial true true); repeat split).
  destruct (threshold_finder_run (mkTab "red" (init "Red") [] 0 0 0 None false (Flt 0) 1 false (-1))
              (mkLaser (Some (mkSerial true true)) (Some "usbmodem1") []) Hw)
    as [_ (t' & l' & Ht & Htim & _ & Hth & _)].
  exists t', l'. split; [exact Ht|]. split; [exact Htim|exact Hth].
Defined.

(** ** The sweep *)

Lemma sweep_steps_table : sweep_steps_ok = true.
Proof. by vm_compute. Qed.

Lemma sweep_step_finite speed d :
  1 ≤ speed ≤ 100 → d = 1 ∨ d = -1 →
  finite_float (float_of speed * 0x1.47ae147ae147bp-6 * float_of d) = true.
Proof.
  intros Hs Hd. pose proof sweep_steps_table as H. unfold sweep_steps_ok in H.
  apply andb_true_iff in H as [H _].
  pose proof (all_from_spec _ _ _ H speed) as Hk. cbv beta in Hk.
  apply andb_true_iff in Hk as [H1 H2]; [|lia].
  by destruct Hd as [->| ->].
Qed.

Lemma percent_finite z : 0 ≤ z ≤ 100 → finite_float (float_of z) = true.
Proof.
  intros Hz. pose proof sweep_steps_table as H. unfold sweep_steps_ok in H.
  apply andb_true_iff in H as [_ H].
  apply (all_from_spec _ _ _ H z). lia.
Qed.

Lemma binary_round_not_nan sx m e : binary_round prec emax sx m e ≠ S754_nan.
Proof.
  unfold binary_round. destruct (shl_align _ _ _) as [mz ez].
  pose proof (binary_round_aux_signed sx (Z.pos mz) ez loc_Exact) as H.
  intros Heq. rewrite Heq in H. apply H. lia.
Qed.

Lemma SFadd_finite_not_nan x y :
  match x with S754_zero _ | S754_finite _ _ _ => True | _ => False end →
  match y with S754_zero _ | S754_finite _ _ _ => True | _ => False end →
  SFadd prec emax x y ≠ S754_nan.
Proof.
  destruct x as [sx|sx| |sx mx ex], y as [sy|sy| |sy my ey]; try done.
  - intros _ _. simpl. by destruct sx, sy.
  - intros _ _. unfold SFadd.
    destruct (_ + _) as [|p|p]; [done|apply binary_round_not_nan..].
Qed.

Lemma finite_float_SF f :
  finite_float f = true →
  match Prim2SF f with S754_zero _ | S754_finite _ _ _ => True | _ => False end.
Proof. unfold finite_float. by destruct (Prim2SF f). Qed.

Lemma in_range_finite f :
  nle (Int 0) (Flt f) = true → nle (Flt f) (Int 100) = true → finite_float f = true.
Proof.
  unfold nle, ncompare, finite_float, SF_cmp_Z.
  destruct (Prim2SF f) as [s|s| |s m e]; try done.
  destruct s; simpl; done.
Qed.

Lemma sweep_step_total position direction speed :
  nle (Int 0) position = true → nle position (Int 100) = true →
  direction = 1 ∨ direction = -1 → 1 ≤ speed ≤ 100 →
  ∃ f, sweep_step position direction speed = Ok (Flt f) ∧ Prim2SF f ≠ S754_nan.
Proof.
  intros H0 H100 Hd Hs. unfold sweep_step.
  assert (Hsp : of_int speed = Ok (float_of speed))
    by (apply of_int_small; unfold float_overflow; lia).
  assert (Hdi : of_int direction = Ok (float_of direction))
    by (apply of_int_small; unfold float_overflow; lia).
  assert (H1 : ∀ c, nmul (Int speed) (Flt c) = Ok (Flt (float_of speed * c)))
    by (intros; cbn [nmul to_float]; by rewrite Hsp).
  assert (H2 : ∀ s, nmul (Flt s) (Int direction) = Ok (Flt (s * float_of direction)))
    by (intros; cbn [nmul to_float mbind res_bind]; by rewrite Hdi).
  rewrite H1. cbn [mbind res_bind]. rewrite H2. cbn [mbind res_bind].
  pose proof (finite_float_SF _ (sweep_step_finite speed direction Hs Hd)) as Hfin.
  destruct position as [z|p].
  - assert (Hz : 0 ≤ z ≤ 100).
    { unfold nle, ncompare in H0, H100.
      destruct (0 ?= z) eqn:E0; try done; destruct (z ?= 100) eqn:E1; try done;
        try apply Z.compare_eq in E0; try apply Z.compare_eq in E1;
        rewrite ?Z.compare_lt_iff in *; lia. }
    cbn [nadd to_float]. rewrite (of_int_small z) by (unfold float_overflow; lia).
    cbn [mbind res_bind]. eexists. split; [reflexivity|].
    rewrite add_spec. apply SFadd_finite_not_nan; [|done].
    apply finite_float_SF, percent_finite, Hz.
  - cbn [nadd to_float mbind res_bind]. eexists. split; [reflexivity|].
    rewrite add_spec. apply SFadd_finite_not_nan; [|done].
    by apply finite_float_SF, in_range_finite.
Qed.

Lemma sweep_bounds_cases position direction direction_text mode_text :
  not_nan position → direction = 1 ∨ direction = -1 →
  match sweep_bounds position direction direction_text mode_text with
  | None => True
  | Some (position', direction') =>
      (direction' = 1 ∨ direction' = -1)
      ∧ nle (Int 0) position' = true ∧ nle position' (Int 100) = true
      ∧ ∃ percent, py_int position' = Ok percent ∧ 0 ≤ percent ≤ 100
  end.
Proof.
  intros Hnan Hd. unfold sweep_bounds.
  assert (H0 : nle (Int 0) (Int 0) = true ∧ nle (Int 0) (Int 100) = true
               ∧ nle (Int 100) (Int 100) = true) by done.
  destruct H0 as (H00 & H0100 & H100).
  destruct (nge position (Int 100)) eqn:Hge.
  { destruct (contains "Loop" direction_text).
    - split; [by right|]. split; [done|]. split; [done|]. exists 100. split; [done|lia].
    - destruct (contains "Single" mode_text); [done|].
      split; [done|]. split; [done|]. split; [done|]. exists 0. split; [done|lia]. }
  destruct (nle position (Int 0)) eqn:Hle.
  { destruct (contains "Loop" direction_text).
    - split; [by left|]. split; [done|]. split; [done|]. exists 0. split; [done|lia].
    - destruct (contains "Single" mode_text); [done|].
      split; [done|]. split; [done|]. split; [done|]. exists 100. split; [done|lia]. }
  split; [done|].
  assert (Hcmp : ∃ c0 c100, ncompare position (Int 0) = Some c0
                            ∧ ncompare position (Int 100) = Some c100).
  { destruct position as [z|f]; [by eexists _, _|].
    unfold ncompare, SF_cmp_Z. simpl in Hnan.
    destruct (Prim2SF f); try done; by eexists _, _. }
  destruct Hcmp as (c0 & c100 & Hc0 & Hc100).
  unfold nge in Hge. unfold nle in Hle. rewrite Hc100 in Hge. rewrite Hc0 in Hle.
  assert (Ha : above position 0) by (unfold above; rewrite Hc0; by destruct c0).
  assert (Hb : below position 100) by (unfold below; rewrite Hc100; by destruct c100).
  split; [apply nle_Int_l; by left|].
  split; [unfold nle; by rewrite Hb|].
  exact (py_int_within position 0 100 Ha Hb).
Qed.

Lemma sweep_stop_position_ok position :
  nle (Int 0) (sweep_stop_position position) = true
  ∧ nle (sweep_stop_position position) (Int 100) = true.
Proof. unfold sweep_stop_position. by destruct (nge position (Int 100)). Qed.

(** X8: a running sweep whose position is between 0 and 100 and whose
    direction is 1 or -1 takes a tick, at any speed of the slider (1 to
    100), without an exception in its own arithmetic: the new position is no
    NaN. Then either the sweep stops (single shot, no loop, at a boundary),
    or the curve is evaluated at [int(position)], a whole percent from 0 to
    100, and that value is sent; only this evaluation and sending can make
    the tick fail. In each case the tab is left with a position between 0
    and 100 and a direction of 1 or -1, as [_toggle_sweep] sets them. *)
Theorem sweep_tick_in_range t l speed direction_text mode_text :
  sweep_running t = true → sweep_ok t → 1 ≤ speed ≤ 100 →
  ∃ position,
    sweep_step (sweep_position t) (sweep_direction t) speed = Ok position
    ∧ not_nan position
    ∧ match sweep_bounds position (sweep_direction t) direction_text mode_text with
      | None =>
          sweep_tick t l speed direction_text mode_text
          = stop_sweep (set_sweep t true (sweep_stop_position position)
                                  (sweep_direction t) (sweep_timer t)) l
          ∧ sweep_running (sweep_tick t l speed direction_text mode_text).1 = false
      | Some (position', direction') =>
          ∃ percent,
            py_int position' = Ok percent ∧ 0 ≤ percent ≤ 100
            ∧ let t' := set_sweep t true position' direction' (sweep_timer t) in
              sweep_tick t l speed direction_text mode_text
              = match send_interpolated t l percent with
                | Fine lv => (set_curve_sweep_position t' percent, Fine lv.1)
                | Failed e => (t', Failed e)
                end
      end
    ∧ sweep_ok (sweep_tick t l speed direction_text mode_text).1
    ∧ ∀ checked text, checked = true → sweep_ok (toggle_sweep t l checked text).1.
Proof.
  intros Hrun (H0 & H100 & Hd) Hs.
  destruct (sweep_step_total _ _ _ H0 H100 Hd Hs) as (f & Hstep & Hnan).
  exists (Flt f). split; [done|]. split; [done|].
  pose proof (sweep_bounds_cases (Flt f) (sweep_direction t) direction_text mode_text Hnan Hd)
    as Hb.
  unfold sweep_tick. rewrite Hrun, Hstep. cbn [negb].
  destruct (sweep_bounds (Flt f) (sweep_direction t) direction_text mode_text)
    as [[position' direction']|].
  - destruct Hb as (Hd' & Hp0 & Hp100 & percent & Hint & Hpercent).
    cbn [sweep_position set_sweep]. rewrite Hint.
    assert (Hsend : send_interpolated
                      (set_sweep t true position' direction' (sweep_timer t)) l percent
                    = send_interpolated t l percent) by reflexivity.
    rewrite Hsend. split; [|split].
    + exists percent. done.
    + by destruct (send_interpolated t l percent).
    + intros checked text ->. unfold toggle_sweep.
      destruct (contains "Reverse" text);
        (split; [by vm_compute|split; [by vm_compute|cbn; auto]]).
  - pose proof (sweep_stop_position_ok (Flt f)) as [Hs0 Hs100].
    assert (Hstop : ∀ t0, sweep_running (stop_sweep t0 l).1 = false
                          ∧ sweep_position (stop_sweep t0 l).1 = sweep_position t0
                          ∧ sweep_direction (stop_sweep t0 l).1 = sweep_direction t0).
    { intros t0. unfold stop_sweep.
      by destruct (send_channel l _ (Int 0)). }
    split; [|split].
    + split; [done|]. apply Hstop.
    + destruct (Hstop (set_sweep t true (sweep_stop_position (Flt f))
                         (sweep_direction t) (sweep_timer t))) as (_ & Hp & Hdir).
      unfold sweep_ok. rewrite Hp, Hdir. done.
    + intros checked text ->. unfold toggle_sweep.
      destruct (contains "Reverse" text);
        (split; [by vm_compute|split; [by vm_compute|cbn; auto]]).
Qed.

Lemma sweep_tick_in_range_witness :
  ∃ t position,
    (toggle_sweep (mkTab "red" (init "Red") [] 0 0 0 None false (Flt 0) 1 false (-1))
       laser_init true "Forward").1 = t
    ∧ sweep_step (sweep_position t) (sweep_direction t) 30 = Ok position
    ∧ not_nan position
    ∧ sweep_ok (sweep_tick t laser_init 30 "Forward" "Continuous").1.
Proof.
  eexists. 
  destruct (sweep_tick_in_range
              (toggle_sweep (mkTab "red" (init "Red") [] 0 0 0 None false (Flt 0) 1 false (-1))
                 laser_init true "Forward").1 laser_init 30 "Forward" "Continuous")
    as (position & Hstep & Hnan & _ & Hok & _).
  - reflexivity.
  - by vm_compute; auto.
  - lia.
  - exists position. split; [reflexivity|]. split; [exact Hstep|]. split; [exact Hnan|exact Hok].
Defined.

(** ** The export tab *)

Lemma string_app_assoc (a b c : string) : (a +:+ b) +:+ c = a +:+ b +:+ c.
Proof.
  induction a as [|x a IH]; [done|].
  change (String x ((a +:+ b) +:+ c) = String x (a +:+ b +:+ c)). by rewrite IH.
Qed.

Lemma string_app_cons x (a b : string) : String x a +:+ b = String x (a +:+ b).
Proof. reflexivity. Qed.

Lemma string_app_nil_r (a : string) : a +:+ "" = a.
Proof.
  induction a as [|x a IH]; [done|].
  change (String x (a +:+ "") = String x a). by rewrite IH.
Qed.

Lemma all_chars_app P a b : all_chars P (a +:+ b) = all_chars P a && all_chars P b.
Proof.
  induction a as [|x a IH]; [done|].
  change (all_chars P (String x (a +:+ b)) = P x && all_chars P a && all_chars P b).
  cbn [all_chars]. rewrite IH. by rewrite andb_assoc.
Qed.

Lemma plain_pretty d : (d < 10)%N → plain (pretty_N_char d) = true.
Proof. intros H. apply digit_cases in H. destruct_or!; subst; reflexivity. Qed.

Lemma pretty_N_go_plain x : ∀ s, all_chars plain s = true → all_chars plain (pretty_N_go x s) = true.
Proof.
  induction (N.lt_wf_0 x) as [x _ IH]. intros s Hs.
  destruct (decide (x = 0)%N) as [->|Hx]; [by rewrite pretty_N_go_0|].
  rewrite pretty_N_go_step by lia. apply IH.
  - apply N.div_lt; lia.
  - simpl. rewrite plain_pretty by (apply N.mod_lt; lia). done.
Qed.

Lemma py_str_plain z : all_chars plain (py_str z) = true ∧ py_str z ≠ "".
Proof.
  destruct z as [|p|p].
  - done.
  - change (py_str (Z.pos p)) with (pretty_N_go (N.pos p) "").
    split; [by apply pretty_N_go_plain|].
    destruct (pretty_N_go_head (N.pos p) "") as (d & rest & _ & ->); [lia|]. done.
  - change (py_str (Z.neg p)) with (String "-" (pretty_N_go (N.pos p) "")).
    split; [|done]. simpl. by apply pretty_N_go_plain.
Qed.

Lemma plain_no_space s : all_chars plain s = true → no_space s = true.
Proof.
  induction s as [|a s IH]; [done|]. simpl. intros [Ha Hs]%andb_prop.
  rewrite (IH Hs). unfold plain in Ha. apply andb_prop in Ha as [-> _]. done.
Qed.

Lemma split_plain_word w rest :
  all_chars plain w = true → w ≠ "" →
  split (w +:+ String " " rest) = w :: split rest.
Proof.
  induction w as [|a w IH]; [done|]. intros [Ha Hw]%andb_prop _.
  assert (Hsp : is_space a = false)
    by (unfold plain in Ha; apply andb_prop in Ha as [Ha _]; by apply negb_true_iff).
  rewrite string_app_cons. cbn [split]. rewrite Hsp.
  destruct w as [|b w].
  - done.
  - assert (Hb : is_space b = false).
    { cbn [all_chars] in Hw. apply andb_prop in Hw as [Hb _]. unfold plain in Hb.
      apply andb_prop in Hb as [Hb _]. by apply negb_true_iff. }
    rewrite IH by done. rewrite string_app_cons. cbn [starts_with_space]. by rewrite Hb.
Qed.

Lemma split_plain w : all_chars plain w = true → w ≠ "" → split w = [w].
Proof.
  induction w as [|a w IH]; [done|]. intros [Ha Hw]%andb_prop _.
  assert (Hsp : is_space a = false)
    by (unfold plain in Ha; apply andb_prop in Ha as [Ha _]; by apply negb_true_iff).
  cbn [split]. rewrite Hsp.
  destruct w as [|b w]; [done|].
  assert (Hb : is_space b = false).
  { cbn [all_chars] in Hw. apply andb_prop in Hw as [Hb _]. unfold plain in Hb.
    apply andb_prop in Hb as [Hb _]. by apply negb_true_iff. }
  cbn [starts_with_space]. rewrite Hb. by rewrite IH.
Qed.

Lemma split_spaces k : split (spaces k) = [].
Proof. induction k as [|k IH]; [done|]. simpl. exact IH. Qed.

(** X9: [_get_size] returns the number at the head of the text of the size
    box: the decimal digits of [n], alone or followed by a blank and
    anything else, give [n]; so the four entries of the box give 256, 1024,
    4096 and 65536. A text of blanks only raises [IndexError]. *)
Theorem get_size_reads_first_word :
  (∀ n, get_size (py_str n) = Ok n)
  ∧ (∀ n rest, get_size (py_str n +:+ String " " rest) = Ok n)
  ∧ (∀ k, get_size (spaces k) = Raise IndexError)
  ∧ get_size "256" = Ok 256
  ∧ get_size "1024" = Ok 1024
  ∧ get_size "4096" = Ok 4096
  ∧ get_size "65536 (full 16-bit)" = Ok 65536.
Proof.
  assert (H1 : ∀ n, get_size (py_str n) = Ok n).
  { intros n. destruct (py_str_plain n) as [Hp Hne]. unfold get_size.
    rewrite split_plain by done. cbn [item lookup list_lookup of_option mbind res_bind].
    apply int_of_str_py_str. }
  assert (H2 : ∀ n rest, get_size (py_str n +:+ String " " rest) = Ok n).
  { intros n rest. destruct (py_str_plain n) as [Hp Hne]. unfold get_size.
    rewrite split_plain_word by done. cbn [item lookup list_lookup of_option mbind res_bind].
    apply int_of_str_py_str. }
  split; [done|]. split; [done|]. split.
  { intros k. unfold get_size. by rewrite split_spaces. }
  split; [exact (H1 256)|]. split; [exact (H1 1024)|]. split; [exact (H1 4096)|].
  exact (H2 65536 "(full 16-bit)").
Qed.

Lemma mapM_cons_Ok {A B : Type} (f : A → res B) x l y ks :
  f x = Ok y → mapM f l = Ok ks → mapM f (x :: l) = Ok (y :: ks).
Proof. intros Hx Hl. cbn [mapM]. rewrite Hx. cbn [mbind res_bind]. rewrite Hl. done. Qed.

Lemma cut_commas_none s : all_chars not_comma s = true → cut_commas s = [s].
Proof.
  induction s as [|a s IH]; [done|]. intros [Ha Hs]%andb_prop.
  cbn [cut_commas]. unfold not_comma in Ha. apply negb_true_iff in Ha. rewrite Ha.
  by rewrite IH.
Qed.

Lemma cut_commas_app s1 s2 :
  all_chars not_comma s1 = true →
  cut_commas (s1 +:+ String "," s2) = s1 :: cut_commas s2.
Proof.
  induction s1 as [|a s1 IH]; [done|]. intros [Ha Hs]%andb_prop.
  rewrite string_app_cons. cbn [cut_commas].
  unfold not_comma in Ha. apply negb_true_iff in Ha. rewrite Ha.
  by rewrite IH.
Qed.

Lemma lstrip_spaces k s : lstrip (spaces k +:+ s) = lstrip s.
Proof. induction k as [|k IH]; [done|]. exact IH. Qed.

Lemma int_of_str_spaces k s : int_of_str (spaces k +:+ s) = int_of_str s.
Proof. unfold int_of_str. by rewrite lstrip_spaces. Qed.

Lemma spaces_not_comma k : all_chars not_comma (spaces k) = true.
Proof. induction k as [|k IH]; [done|]. exact IH. Qed.

Lemma plain_not_comma s : all_chars plain s = true → all_chars not_comma s = true.
Proof.
  induction s as [|a s IH]; [done|]. simpl. intros [Ha Hs]%andb_prop.
  rewrite (IH Hs). unfold plain in Ha. apply andb_prop in Ha as [_ Ha].
  unfold not_comma. by rewrite Ha.
Qed.

Lemma format_5d_piece k v :
  all_chars not_comma (spaces k +:+ format_5d v) = true
  ∧ is_blank (spaces k +:+ format_5d v) = false
  ∧ int_of_str (spaces k +:+ format_5d v) = Ok v.
Proof.
  destruct (py_str_plain v) as [Hp Hne]. unfold format_5d.
  split; [|split].
  - rewrite !all_chars_app, !spaces_not_comma. by rewrite plain_not_comma.
  - unfold is_blank. rewrite !lstrip_spaces.
    rewrite lstrip_no_space by (by apply plain_no_space).
    by destruct (py_str v).
  - rewrite !int_of_str_spaces. apply int_of_str_py_str.
Qed.

Lemma read_row_line vs : ∀ k comma,
  vs ≠ [] → comma = "" ∨ comma = "," →
  read_row (spaces k +:+ String.concat ", " (format_5d <$> vs) +:+ comma) = Ok vs.
Proof.
  induction vs as [|v vs IH]; [done|]. intros k comma _ Hc.
  destruct (format_5d_piece k v) as (Hnc & Hnb & Hint).
  destruct vs as [|v' vs'].
  - cbn [fmap list_fmap String.concat]. unfold read_row.
    destruct Hc as [-> | ->].
    + rewrite string_app_nil_r. rewrite cut_commas_none by done.
      cbn [filter list_filter]. rewrite decide_True by done.
      by apply mapM_cons_Ok.
    + rewrite <- string_app_assoc. rewrite cut_commas_app by done.
      cbn [cut_commas filter list_filter].
      rewrite decide_True by done. rewrite decide_False by done.
      by apply mapM_cons_Ok.
  - assert (Hrest : read_row (spaces 1 +:+ String.concat ", " (format_5d <$> v' :: vs') +:+ comma)
                    = Ok (v' :: vs')) by (by apply IH).
    change (String.concat ", " (format_5d <$> v :: v' :: vs'))
      with (format_5d v +:+ ", " +:+ String.concat ", " (format_5d <$> v' :: vs')).
    replace (spaces k +:+ (format_5d v +:+ ", " +:+ String.concat ", " (format_5d <$> v' :: vs'))
             +:+ comma)
      with ((spaces k +:+ format_5d v)
            +:+ String "," (spaces 1 +:+ String.concat ", " (format_5d <$> v' :: vs') +:+ comma)).
    2:{ rewrite !string_app_assoc. done. }
    unfold read_row in *. rewrite cut_commas_app by done.
    cbn [filter list_filter]. rewrite decide_True by done.
    by apply mapM_cons_Ok.
Qed.

Lemma ends_with_comma_app s t : t ≠ "" → ends_with_comma (s +:+ t) = ends_with_comma t.
Proof.
  intros Ht. induction s as [|a s IH]; [done|].
  rewrite string_app_cons. cbn [ends_with_comma].
  destruct (s +:+ t) eqn:E; [|done].
  destruct s; [by simpl in E|done].
Qed.

Lemma ends_with_comma_none s : all_chars not_comma s = true → ends_with_comma s = false.
Proof.
  induction s as [|a s IH]; [done|]. intros [Ha Hs]%andb_prop.
  cbn [ends_with_comma]. destruct s; [|by apply IH].
  unfold not_comma in Ha. by apply negb_true_iff.
Qed.

Lemma concat_format_end vs :
  vs ≠ [] →
  ∃ x v, String.concat ", " (format_5d <$> vs) = x +:+ py_str v.
Proof.
  induction vs as [|v vs IH]; [done|]. intros _.
  destruct vs as [|v' vs'].
  - exists (spaces (5 - String.length (py_str v))), v. done.
  - destruct IH as (x & w & Hx); [done|].
    exists (format_5d v +:+ ", " +:+ x), w.
    change (String.concat ", " (format_5d <$> v :: v' :: vs'))
      with (format_5d v +:+ ", " +:+ String.concat ", " (format_5d <$> v' :: vs')).
    rewrite Hx. by rewrite !string_app_assoc.
Qed.

Lemma row_line_comma vs comma :
  vs ≠ [] → comma = "" ∨ comma = "," →
  ends_with_comma ("    " +:+ String.concat ", " (format_5d <$> vs) +:+ comma)
  = bool_decide (comma = ",").
Proof.
  intros Hvs [-> | ->].
  - rewrite string_app_nil_r.
    destruct (concat_format_end vs Hvs) as (x & v & ->).
    destruct (py_str_plain v) as [Hp Hne].
    rewrite <- string_app_assoc, ends_with_comma_app by done.
    by rewrite ends_with_comma_none by (by apply plain_not_comma).
  - rewrite <- string_app_assoc. by rewrite ends_with_comma_app.
Qed.

Lemma code_rows_from n : ∀ rest pending lines i,
  (length pending < 8)%nat → (rest = [] → pending = []) → (i + length rest = n)%nat →
  ∃ rows chunks,
    (foldl (row_body (Z.of_nat n)) (format_5d <$> pending, lines)
       (imap (λ j, pair (i + j)%nat) rest)).2 = lines ++ rows
    ∧ mapM read_row rows = Ok chunks
    ∧ concat chunks = pending ++ rest
    ∧ length chunks = length rows
    ∧ Forall (λ c, (1 ≤ length c ≤ 8)%nat) chunks
    ∧ (∀ j c, chunks !! j = Some c → (S j < length chunks)%nat → length c = 8%nat)
    ∧ (∀ j row, rows !! j = Some row → ends_with_comma row = bool_decide (S j < length rows)%nat).
Proof.
  induction rest as [|val rest IH]; intros pending lines i Hlen Hnil Hn.
  { rewrite (Hnil eq_refl). exists [], []. cbn. rewrite app_nil_r.
    repeat split; try done. }
  cbn [imap foldl]. unfold row_body at 2.
  rewrite <- fmap_snoc. rewrite length_fmap, length_app.
  cbn [length]. simpl in Hn.
  assert (Hnext : ∀ pending' lines',
    (length pending' < 8)%nat → (rest = [] → pending' = []) →
    ∃ rows chunks,
      (foldl (row_body (Z.of_nat n)) (format_5d <$> pending', lines')
         (imap ((λ j, pair (i + j)%nat) ∘ S) rest)).2 = lines' ++ rows
      ∧ mapM read_row rows = Ok chunks
      ∧ concat chunks = pending' ++ rest
      ∧ length chunks = length rows
      ∧ Forall (λ c, (1 ≤ length c ≤ 8)%nat) chunks
      ∧ (∀ j c, chunks !! j = Some c → (S j < length chunks)%nat → length c = 8%nat)
      ∧ (∀ j row, rows !! j = Some row → ends_with_comma row = bool_decide (S j < length rows)%nat)).
  { intros pending' lines' H1 H2.
    destruct (IH pending' lines' (S i) H1 H2) as (rows & chunks & Hf & H); [lia|].
    exists rows, chunks. split; [|exact H].
    rewrite <- Hf. do 2 f_equal. apply imap_ext. intros j x _. simpl. f_equal. lia. }
  destruct ((length pending + 1 =? 8)%nat || (Z.of_nat (i + 0) =? Z.of_nat n - 1)) eqn:Hflush.
  - (* the row is complete *)
    assert (Hcomma : (if Z.of_nat (i + 0) <? Z.of_nat n - 1 then "," else "")
                     = if bool_decide (rest = []) then "" else ",").
    { destruct rest; [rewrite bool_decide_eq_true_2 by done|rewrite bool_decide_eq_false_2 by done].
      - replace (Z.of_nat (i + 0) <? Z.of_nat n - 1) with false; [done|].
        symmetry. apply Z.ltb_ge. simpl in Hn. lia.
      - replace (Z.of_nat (i + 0) <? Z.of_nat n - 1) with true; [done|].
        symmetry. apply Z.ltb_lt. simpl in Hn. lia. }
    rewrite Hcomma.
    set (comma := if bool_decide (rest = []) then "" else ",").
    set (line := "    " +:+ String.concat ", " (format_5d <$> pending ++ [val]) +:+ comma).
    assert (Hc : comma = "" ∨ comma = ",") by (unfold comma; case_bool_decide; auto).
    assert (Hread : read_row line = Ok (pending ++ [val])).
    { apply (read_row_line (pending ++ [val]) 4 comma); [by destruct pending|done]. }
    destruct (Hnext [] (lines ++ [line])) as (rows & chunks & Hf & Hm & Hcat & Hlr & Hsz & H8 & Hcm);
      [simpl; lia|done|].
    exists (line :: rows), ((pending ++ [val]) :: chunks).
    split; [transitivity ((lines ++ [line]) ++ rows); [exact Hf|by rewrite <- app_assoc]|].
    split; [by apply mapM_cons_Ok|].
    split; [cbn [concat]; rewrite Hcat; by rewrite <- app_assoc|].
    split; [simpl; by rewrite Hlr|].
    assert (Hrest : rest = [] ↔ chunks = []).
    { split.
      - intros ->. destruct chunks as [|c chunks]; [done|]. exfalso.
        apply Forall_cons in Hsz as [Hc1 _]. simpl in Hcat.
        destruct c; [simpl in Hc1; lia|done].
      - intros ->. by simpl in Hcat. }
    split; [apply Forall_cons; split; [rewrite length_app; simpl; lia|done]|].
    split.
    + intros [|j] c Hj Hlt.
      * inversion Hj; subst c. rewrite length_app. simpl.
        apply orb_true_iff in Hflush as [H|H]; [apply Nat.eqb_eq in H; lia|].
        apply Z.eqb_eq in H. simpl in Hlt.
        assert (rest = []) by (destruct rest; [done|simpl in Hn; lia]).
        assert (chunks = []) by (by apply Hrest). subst chunks. simpl in Hlt. lia.
      * simpl in Hj, Hlt. apply (H8 j); [done|lia].
    + intros [|j] row Hj.
      * inversion Hj; subst row. unfold line.
        rewrite row_line_comma by (done || by destruct pending).
        unfold comma. simpl length.
        destruct (decide (rest = [])) as [Hr|Hr].
        -- rewrite (bool_decide_eq_true_2 (rest = [])) by done.
           rewrite bool_decide_eq_false_2 by done.
           assert (chunks = []) by (by apply Hrest).
           rewrite bool_decide_eq_false_2; [done|]. rewrite <- Hlr. subst chunks. simpl. lia.
        -- rewrite (bool_decide_eq_false_2 (rest = [])) by done.
           rewrite bool_decide_eq_true_2 by done.
           rewrite bool_decide_eq_true_2; [done|]. rewrite <- Hlr.
           destruct chunks; [by destruct Hr; apply Hrest|simpl; lia].
      * simpl in Hj. rewrite (Hcm j row Hj). simpl length.
        apply bool_decide_ext. lia.
  - (* the row goes on *)
    apply orb_false_iff in Hflush as [H8 Hlast].
    apply Nat.eqb_neq in H8. apply Z.eqb_neq in Hlast.
    destruct (Hnext (pending ++ [val]) lines) as (rows & chunks & Hf & Hm & Hcat & H);
      [rewrite length_app; simpl; lia|intros ->; simpl in Hn; lia|].
    exists rows, chunks. split; [done|]. split; [done|].
    split; [by rewrite Hcat, <- app_assoc|done].
Qed.

Lemma format_5d_width_table :
  all_from (Z.to_nat 65536) 0 (λ v, (String.length (format_5d v) =? 5)%nat) = true.
Proof. by vm_compute. Qed.

(** X10: the rows [_generate_code] writes for a table hold the table: read
    back, row after row, they give the entries in order, eight in every
    row but the last, which holds the one to eight that are left; every row
    but the last ends with a comma. An entry from 0 to 65535 is written on
    five characters. *)
Theorem code_rows_hold_the_table lut lines :
  ∃ rows chunks,
    code_rows lut lines = lines ++ rows
    ∧ mapM read_row rows = Ok chunks
    ∧ concat chunks = lut
    ∧ (∀ j c, chunks !! j = Some c →
         (1 ≤ length c ≤ 8)%nat ∧ ((S j < length chunks)%nat → length c = 8%nat))
    ∧ (∀ j row, rows !! j = Some row →
         ends_with_comma row = bool_decide (S j < length rows)%nat)
    ∧ ∀ v, 0 ≤ v ≤ 65535 → String.length (format_5d v) = 5%nat.
Proof.
  destruct (code_rows_from (length lut) lut [] lines 0)
    as (rows & chunks & Hf & Hm & Hcat & Hlr & Hsz & H8 & Hcm); [simpl; lia|done|done|].
  exists rows, chunks. split; [exact Hf|]. split; [done|]. split; [done|].
  split; [|split; [done|]].
  - intros j c Hj. split; [|by apply H8].
    rewrite Forall_forall in Hsz. apply Hsz. by eapply list_elem_of_lookup_2.
  - intros v Hv. apply Nat.eqb_eq.
    apply (all_from_spec _ _ _ format_5d_width_table v). lia.
Qed.

(** ** Curves without points *)

Lemma sorted_percents_empty c : points c = ∅ → get_sorted_percents c = [].
Proof.
  intros He. destruct (get_sorted_percents c) as [|k l] eqn:E; [done|]. exfalso.
  assert (Hk : k ∈ get_sorted_percents c) by (rewrite E; left).
  apply sorted_percents_elem in Hk as [v Hv]. by rewrite He in Hv.
Qed.

Lemma interpolate_empty c percent : points c = ∅ → interpolate c percent = Raise IndexError.
Proof.
  intros He. unfold interpolate, raw_interpolate.
  rewrite He. rewrite map_size_empty. rewrite andb_false_r.
  unfold interpolate_linear. rewrite sorted_percents_empty by done. done.
Qed.

Lemma mapM_head_raise {A B : Type} (f : A → res B) x l e :
  f x = Raise e → mapM f (x :: l) = Raise e.
Proof. intros H. cbn [mapM]. by rewrite H. Qed.

Lemma lut_percent_zero size :
  2 ≤ size < 2 ^ 53 → ∃ f, lut_percent size 0 = Ok (Flt f).
Proof.
  intros Hs. unfold lut_percent.
  assert (H53 : 2 ^ 53 < float_overflow) by done.
  rewrite ndiv_Int_small by (done || lia).
  cbn [mbind res_bind nmul to_float]. rewrite (of_int_small 100) by done.
  by eexists.
Qed.

Lemma generate_lut_empty c size :
  points c = ∅ → 2 ≤ size < 2 ^ 53 → generate_lut c size = Raise IndexError.
Proof.
  intros He Hs. unfold generate_lut.
  assert (Hseq : seqZ 0 size = 0 :: seqZ 1 (size - 1)).
  { replace size with (1 + (size - 1)) at 1 by lia.
    rewrite seqZ_app by lia. done. }
  rewrite Hseq. apply mapM_head_raise.
  destruct (lut_percent_zero size Hs) as [f ->]. cbn [mbind res_bind].
  by apply interpolate_empty.
Qed.

(** X11: a curve without points cannot be evaluated: [interpolate] raises
    [IndexError] at every percent, in either mode and with any threshold,
    and so does [generate_lut] for every size from 2 on (below [2^53]);
    for a size of 0 or less it returns the empty table. *)
Theorem empty_curve_raises c :
  points c = ∅ →
  (∀ percent, interpolate c percent = Raise IndexError)
  ∧ (∀ size, 2 ≤ size < 2 ^ 53 → generate_lut c size = Raise IndexError)
  ∧ (∀ size, size ≤ 0 → generate_lut c size = Ok []).
Proof.
  intros He. split; [intros; by apply interpolate_empty|].
  split; [intros; by apply generate_lut_empty|].
  intros size Hs. unfold generate_lut. by rewrite seqZ_nil by lia.
Qed.

Lemma empty_curve_raises_witness :
  (∀ percent, interpolate (mkCal "red" 0 true ∅) percent = Raise IndexError)
  ∧ (∀ size, 2 ≤ size < 2 ^ 53 → generate_lut (mkCal "red" 0 true ∅) size = Raise IndexError)
  ∧ (∀ size, size ≤ 0 → generate_lut (mkCal "red" 0 true ∅) size = Ok []).
Proof. apply (empty_curve_raises (mkCal "red" 0 true ∅)). reflexivity. Defined.

(** ** Calibration files *)

Lemma from_dict_to_dict c c0 : from_dict c0 (to_dict c) = (c, None).
Proof.
  destruct c as [nm th sm m]. unfold from_dict, to_dict; simpl.
  change (λ kv : Z * Z, (KStr (py_str kv.1), kv.2)) with str_item.
  by rewrite coerce_items_to_dict.
Qed.

Lemma refresh_curves e :
  red_cal (refresh e).1 = red_cal e ∧ green_cal (refresh e).1 = green_cal e
  ∧ blue_cal (refresh e).1 = blue_cal e ∧ size_text (refresh e).1 = size_text e.
Proof. unfold refresh. by destruct (generate_code _ _ _ _). Qed.

(** X12: loading the file [_save_json] writes gives the three curves back,
    name, threshold, mode and points, whatever curves the tab held, and
    then regenerates the code; a channel that the file lacks keeps its
    curve. *)
Theorem load_json_after_save_json :
  (∀ e e0,
     load_json e0 (save_json e)
     = refresh (mkExport (red_cal e) (green_cal e) (blue_cal e) (size_text e0) (code_text e0))
     ∧ red_cal (load_json e0 (save_json e)).1 = red_cal e
     ∧ green_cal (load_json e0 (save_json e)).1 = green_cal e
     ∧ blue_cal (load_json e0 (save_json e)).1 = blue_cal e)
  ∧ (∀ e g,
       load_json e (mkFile None (Some (to_dict g)) None)
       = refresh (mkExport (red_cal e) g (blue_cal e) (size_text e) (code_text e))).
Proof.
  split.
  - intros e e0.
    assert (H : load_json e0 (save_json e)
                = refresh (mkExport (red_cal e) (green_cal e) (blue_cal e)
                                    (size_text e0) (code_text e0))).
    { unfold load_json, save_json, load_channel. cbn [file_red file_green file_blue].
      by rewrite !from_dict_to_dict. }
    split; [done|]. rewrite H.
    destruct (refresh_curves (mkExport (red_cal e) (green_cal e) (blue_cal e)
                                       (size_text e0) (code_text e0))) as (? & ? & ? & ?).
    done.
  - intros e g. unfold load_json, load_channel. cbn [file_red file_green file_blue].
    by rewrite from_dict_to_dict.
Qed.

(** X13: [_load_json] is not atomic. When a key of the green channel's
    points is no integer, the call ends with the exception [int] raises:
    the red curve is already loaded, the green curve has the name, the
    threshold and the mode of the file but still its old points, and the
    blue curve and the code view are as before. When the red channel of the
    file has no points, the three curves are loaded, the red one without
    points, and regenerating the code raises [IndexError], for a size box
    that reads 2 or more: the code view keeps its old text. *)
Theorem load_json_stops_where_it_raises :
  (∀ e r b nm th sm items x,
     coerce_items items ∅ = Raise x →
     load_json e (mkFile (Some (to_dict r)) (Some (mkSnap nm th sm (Some items))) b)
     = (mkExport r
          (mkCal (default (name (green_cal e)) nm) (default 0 th) (default true sm)
                 (points (green_cal e)))
          (blue_cal e) (size_text e) (code_text e),
        Some x))
  ∧ (∀ e nm th sm g b size,
       get_size (size_text e) = Ok size → 2 ≤ size < 2 ^ 53 →
       load_json e (mkFile (Some (mkSnap nm th sm None)) (Some (to_dict g)) (Some (to_dict b)))
       = (mkExport (mkCal (default (name (red_cal e)) nm) (default 0 th) (default true sm) ∅)
                   g b (size_text e) (code_text e),
          Some IndexError)).
Proof.
  split.
  - intros e r b nm th sm items x Hx.
    unfold load_json, load_channel. cbn [file_red file_green file_blue].
    rewrite from_dict_to_dict.
    assert (Hg : from_dict (green_cal e) (mkSnap nm th sm (Some items))
                 = (mkCal (default (name (green_cal e)) nm) (default 0 th) (default true sm)
                          (points (green_cal e)), Some x)).
    { unfold from_dict. simpl. by rewrite Hx. }
    by rewrite Hg.
  - intros e nm th sm g b size Hsize Hs.
    unfold load_json, load_channel. cbn [file_red file_green file_blue].
    rewrite !from_dict_to_dict.
    change (from_dict (red_cal e) (mkSnap nm th sm None))
      with (mkCal (default (name (red_cal e)) nm) (default 0 th) (default true sm) ∅, @None exn).
    cbv iota. unfold refresh, generate_code.
    cbn [size_text red_cal green_cal blue_cal]. rewrite Hsize. cbn [mbind res_bind].
    unfold code_channel at 3. rewrite generate_lut_empty by done. done.
Qed.

Lemma load_json_stops_where_it_raises_witness :
  load_json (mkExport (init "Red") (init "Green") (init "Blue") "256" "")
    (mkFile (Some (to_dict (init "Red")))
            (Some (mkSnap None None None (Some [(KStr "ten", 5)]))) None)
  = (mkExport (init "Red") (mkCal "Green" 0 true default_points) (init "Blue") "256" "",
     Some ValueError).
Proof.
  apply (proj1 load_json_stops_where_it_raises
           (mkExport (init "Red") (init "Green") (init "Blue") "256" "")
           (init "Red") None None None None [(KStr "ten", 5)] ValueError).
  reflexivity.
Defined.

(** ** Outside the keys *)

Lemma sorted_ends c lo hi :
  is_Some (points c !! lo) → is_Some (points c !! hi) →
  (∀ k, is_Some (points c !! k) → lo ≤ k ≤ hi) →
  get_sorted_percents c !! 0%nat = Some lo ∧ last (get_sorted_percents c) = Some hi.
Proof.
  intros Hlo Hhi Hall.
  pose proof (sorted_percents_strict c) as Hs.
  apply sorted_percents_elem in Hlo, Hhi.
  assert (Hin : ∀ k, k ∈ get_sorted_percents c → lo ≤ k ≤ hi)
    by (intros k Hk; apply Hall; by apply sorted_percents_elem).
  destruct (get_sorted_percents c) as [|a l] eqn:E; [by apply elem_of_nil in Hlo|].
  split.
  - pose proof (sorted_head_least (a :: l) a Hs eq_refl lo Hlo).
    pose proof (Hin a ltac:(left)). simpl. f_equal. lia.
  - destruct (last (a :: l)) as [b|] eqn:Hl; [|by apply last_None in Hl].
    pose proof (sorted_last_greatest (a :: l) b Hs Hl hi Hhi).
    assert (b ∈ a :: l).
    { apply last_Some in Hl as [l' Hl']. rewrite Hl'. apply elem_of_app. right. left. }
    pose proof (Hin b ltac:(done)). f_equal. lia.
Qed.

Lemma nle_nge_Int p a b : nle p (Int a) = true → nge p (Int b) = true → b ≤ a.
Proof.
  unfold nle, nge. intros Ha Hb.
  destruct (Z.le_gt_cases b a) as [?|Hlt]; [done|]. exfalso.
  pose proof (Z.lt_le_incl _ _ Hlt) as Hle.
  destruct (ncompare p (Int a)) as [[]|] eqn:Ea; try done;
    destruct (ncompare p (Int b)) as [[]|] eqn:Eb; try done.
  - pose proof (ncompare_Int_r_Eq _ _ _ Ea Eb). lia.
  - pose proof (ncompare_Int_r_Gt _ _ _ Eb Hle). congruence.
  - pose proof (ncompare_Int_r_Lt _ _ _ Ea Hle). congruence.
  - pose proof (ncompare_Int_r_Lt _ _ _ Ea Hle). congruence.
Qed.

Lemma sorted_single c lo :
  is_Some (points c !! lo) → (∀ k, is_Some (points c !! k) → lo ≤ k ≤ lo) →
  get_sorted_percents c = [lo].
Proof.
  intros Hlo Hall.
  pose proof (sorted_percents_NoDup c) as Hnd.
  assert (Hin : ∀ k, k ∈ get_sorted_percents c → k = lo).
  { intros k Hk. apply sorted_percents_elem in Hk. specialize (Hall k Hk). lia. }
  apply sorted_percents_elem in Hlo.
  destruct (get_sorted_percents c) as [|a [|b l]]; [by apply elem_of_nil in Hlo|..].
  - f_equal. apply Hin. left.
  - exfalso. apply NoDup_cons in Hnd as [Hna _]. apply Hna.
    rewrite (Hin a) by left. rewrite <- (Hin b) at 1 by (right; left). left.
Qed.

Lemma interpolate_linear_low c lo vlo percent :
  get_sorted_percents c !! 0%nat = Some lo → points c !! lo = Some vlo →
  nle percent (Int lo) = true → interpolate_linear c percent = Ok vlo.
Proof.
  intros H0 Hv Hle. unfold interpolate_linear, item. rewrite H0.
  cbn [of_option mbind res_bind]. rewrite Hle. unfold getitem. by rewrite Hv.
Qed.

Lemma interpolate_linear_high c lo hi vhi percent :
  get_sorted_percents c !! 0%nat = Some lo → last (get_sorted_percents c) = Some hi →
  points c !! hi = Some vhi →
  nle percent (Int lo) = false → nge percent (Int hi) = true →
  interpolate_linear c percent = Ok vhi.
Proof.
  intros H0 Hl Hv Hle Hge. unfold interpolate_linear, item, item_last. rewrite H0, Hl.
  cbn [of_option mbind res_bind]. rewrite Hle, Hge. unfold getitem. by rewrite Hv.
Qed.

Lemma interpolate_smooth_low c lo vlo percent :
  (2 ≤ length (get_sorted_percents c))%nat →
  get_sorted_percents c !! 0%nat = Some lo → points c !! lo = Some vlo →
  nle percent (Int lo) = true → interpolate_smooth c percent = Ok vlo.
Proof.
  intros Hn H0 Hv Hle. unfold interpolate_smooth. cbv zeta.
  replace (length (get_sorted_percents c) <? 2)%nat with false
    by (symmetry; apply Nat.ltb_ge; lia).
  unfold item. rewrite H0. cbn [of_option mbind res_bind]. rewrite Hle.
  unfold getitem. by rewrite Hv.
Qed.

Lemma interpolate_smooth_high c lo hi vhi percent :
  (2 ≤ length (get_sorted_percents c))%nat →
  get_sorted_percents c !! 0%nat = Some lo → last (get_sorted_percents c) = Some hi →
  points c !! hi = Some vhi →
  nle percent (Int lo) = false → nge percent (Int hi) = true →
  interpolate_smooth c percent = Ok vhi.
Proof.
  intros Hn H0 Hl Hv Hle Hge. unfold interpolate_smooth. cbv zeta.
  replace (length (get_sorted_percents c) <? 2)%nat with false
    by (symmetry; apply Nat.ltb_ge; lia).
  unfold item, item_last. rewrite H0, Hl. cbn [of_option mbind res_bind].
  rewrite Hle, Hge. unfold getitem. by rewrite Hv.
Qed.

Lemma interpolate_linear_single c lo vlo percent :
  get_sorted_percents c = [lo] → points c !! lo = Some vlo →
  interpolate_linear c percent = Ok vlo.
Proof.
  intros Hs Hv. unfold interpolate_linear. rewrite Hs.
  cbn [item item_last lookup list_lookup last of_option mbind res_bind].
  unfold getitem. rewrite Hv. cbn [of_option].
  destruct (nle percent (Int lo)); [done|].
  destruct (nge percent (Int lo)); [done|].
  destruct (num_key percent ≫= λ k, points c !! k) as [v|] eqn:Hk.
  - destruct (num_key percent) as [k|] eqn:Hnk; [|by simpl in Hk]. simpl in Hk.
    assert (Hin : k ∈ get_sorted_percents c) by (apply sorted_percents_elem; by eexists).
    rewrite Hs in Hin. apply list_elem_of_singleton in Hin. subst k. congruence.
  - cbn [bracket].
    destruct (nlt (Int lo) percent); [|destruct (ngt (Int lo) percent)];
      rewrite Z.eqb_refl, Hv; done.
Qed.

(** X14: outside its keys a curve is flat. With [lo] the least key and
    [hi] the greatest, a percent that is not above [lo] evaluates to the
    value at [lo], and one that is not below [hi] to the value at [hi], in
    either mode; a curve with one point evaluates to that point's value at
    every percent, a NaN included. These are the raw values: the threshold
    does not change them when it is 0 or less, or when the percent is not
    above 0. *)
Theorem interpolate_flat_outside_keys c lo hi vlo vhi percent :
  points c !! lo = Some vlo → points c !! hi = Some vhi →
  (∀ k, is_Some (points c !! k) → lo ≤ k ≤ hi) →
  (nle percent (Int lo) = true → raw_interpolate c percent = Ok vlo)
  ∧ (nge percent (Int hi) = true → raw_interpolate c percent = Ok vhi)
  ∧ (lo = hi → raw_interpolate c percent = Ok vlo)
  ∧ (threshold c ≤ 0 ∨ nle percent (Int 0) = true →
     interpolate c percent = raw_interpolate c percent).
Proof.
  intros Hlo Hhi Hall.
  destruct (sorted_ends c lo hi) as [H0 Hl]; [by eexists..|done|].
  assert (Hsize : use_smooth c && (3 <=? size (points c))%nat = true →
                  (2 ≤ length (get_sorted_percents c))%nat).
  { intros [_ H]%andb_prop. apply Nat.leb_le in H. rewrite size_sorted_percents. lia. }
  split; [|split; [|split]].
  - intros Hle. unfold raw_interpolate.
    destruct (use_smooth c && (3 <=? size (points c))%nat) eqn:Hm.
    + apply (interpolate_smooth_low c lo); [by apply Hsize|done..].
    + by apply (interpolate_linear_low c lo).
  - intros Hge.
    destruct (nle percent (Int lo)) eqn:Hle.
    + assert (lo = hi).
      { pose proof (nle_nge_Int _ _ _ Hle Hge). specialize (Hall lo ltac:(by eexists)). lia. }
      subst hi. assert (vlo = vhi) by congruence. subst vhi.
      unfold raw_interpolate.
      destruct (use_smooth c && (3 <=? size (points c))%nat) eqn:Hm.
      * apply (interpolate_smooth_low c lo); [by apply Hsize|done..].
      * by apply (interpolate_linear_low c lo).
    + unfold raw_interpolate.
      destruct (use_smooth c && (3 <=? size (points c))%nat) eqn:Hm.
      * apply (interpolate_smooth_high c lo hi); [by apply Hsize|done..].
      * by apply (interpolate_linear_high c lo hi).
  - intros <-.
    assert (Hs : get_sorted_percents c = [lo]) by (apply sorted_single; [by eexists|done]).
    unfold raw_interpolate.
    replace (3 <=? size (points c))%nat with false.
    2:{ symmetry. apply Nat.leb_gt. rewrite <- size_sorted_percents, Hs. simpl. lia. }
    rewrite andb_false_r. by apply (interpolate_linear_single c lo).
  - intros Hb. unfold interpolate.
    destruct (raw_interpolate c percent) as [v|e]; [|done]. cbn [mbind res_bind].
    destruct Hb as [Hth|Hp].
    + replace (0 <? threshold c) with false by (symmetry; apply Z.ltb_ge; lia). done.
    + replace (ngt percent (Int 0)) with false; [by rewrite andb_false_r|].
      unfold nle in Hp. unfold ngt. by destruct (ncompare percent (Int 0)) as [[]|].
Qed.

Lemma interpolate_flat_outside_keys_witness :
  (nle (Flt (-3)) (Int 0) = true → raw_interpolate (init "Red") (Flt (-3)) = Ok 0)
  ∧ (nge (Flt (-3)) (Int 100) = true → raw_interpolate (init "Red") (Flt (-3)) = Ok 65535)
  ∧ (0 = 100 → raw_interpolate (init "Red") (Flt (-3)) = Ok 0)
  ∧ (threshold (init "Red") ≤ 0 ∨ nle (Flt (-3)) (Int 0) = true →
     interpolate (init "Red") (Flt (-3)) = raw_interpolate (init "Red") (Flt (-3))).
Proof.
  apply (interpolate_flat_outside_keys (init "Red") 0 100 0 65535 (Flt (-3))).
  - reflexivity.
  - reflexivity.
  - exact (init_keys_in_range "Red").
Defined.

(** X15: [get_sorted_percents] lists the keys of the curve, each once, in
    increasing order. *)
Theorem get_sorted_percents_spec c :
  StronglySorted Z.lt (get_sorted_percents c)
  ∧ NoDup (get_sorted_percents c)
  ∧ (∀ k, k ∈ get_sorted_percents c ↔ is_Some (points c !! k))
  ∧ length (get_sorted_percents c) = size (points c).
Proof.
  split; [apply sorted_percents_strict|]. split; [apply sorted_percents_NoDup|].
  split; [apply sorted_percents_elem|apply size_sorted_percents].
Qed.

(** ** The arithmetic of the code on numbers between two integers *)

Lemma between_mono f lo hi lo' hi' :
  lo' ≤ lo → hi ≤ hi' → between lo hi f → between lo' hi' f.
Proof. apply SF_between_mono. Qed.

Lemma between_mul x y l1 h1 l2 h2 :
  0 ≤ l1 → 0 ≤ l2 → h1 < 2 ^ 53 → h2 < 2 ^ 53 → h1 * h2 < 2 ^ 53 →
  between l1 h1 x → between l2 h2 y → between (l1 * l2) (h1 * h2) (x * y)%float.
Proof.
  intros. unfold between. rewrite mul_spec.
  apply SFmul_between; try done; apply Prim2SF_valid.
Qed.

Lemma between_mul_neg x y h1 h2 :
  0 ≤ h1 < 2 ^ 53 → 0 ≤ h2 < 2 ^ 53 → h1 * h2 < 2 ^ 53 →
  between 0 h1 x → between (- h2) 0 y → between (- (h1 * h2)) 0 (x * y)%float.
Proof.
  intros H1 H2 H12 Hx Hy. unfold between in *. rewrite mul_spec.
  rewrite <- (SFopp_involutive (Prim2SF y)). unfold SF64mul. rewrite SFmul_opp_r.
  apply (proj2 (SF_between_opp _ _ _)). rewrite Z.opp_involutive. change (- 0) with (0 * 0).
  apply SFmul_between; try done; try lia.
  - apply Prim2SF_valid.
  - rewrite valid_opp. apply Prim2SF_valid.
  - apply (proj2 (SF_between_opp _ _ _)). exact Hy.
Qed.

Lemma between_add x y lo1 hi1 lo2 hi2 :
  - 2 ^ 53 < lo1 → hi1 < 2 ^ 53 → - 2 ^ 53 < lo2 → hi2 < 2 ^ 53 →
  0 ≤ lo1 + lo2 → hi1 + hi2 < 2 ^ 53 →
  between lo1 hi1 x → between lo2 hi2 y → between (lo1 + lo2) (hi1 + hi2) (x + y)%float.
Proof.
  intros. unfold between. rewrite add_spec.
  apply SFadd_between; try done; apply Prim2SF_valid.
Qed.

Lemma between_sub x y lo1 hi1 lo2 hi2 :
  - 2 ^ 53 < lo1 → hi1 < 2 ^ 53 → - 2 ^ 53 < lo2 → hi2 < 2 ^ 53 →
  0 ≤ lo1 - hi2 → hi1 - lo2 < 2 ^ 53 →
  between lo1 hi1 x → between lo2 hi2 y → between (lo1 - hi2) (hi1 - lo2) (x - y)%float.
Proof.
  intros. unfold between. rewrite sub_spec.
  apply SFsub_between; try done; apply Prim2SF_valid.
Qed.

Lemma between_div x y a b w lo hi :
  1 ≤ w < 2 ^ 53 → 0 ≤ lo → hi < 2 ^ 53 → b < 2 ^ 53 →
  lo * w ≤ a → b ≤ hi * w →
  between a b x → between w w y → between lo hi (x / y)%float.
Proof.
  intros. unfold between. rewrite div_spec.
  apply (SFdiv_between _ _ a b w); try done; apply Prim2SF_valid.
Qed.

Lemma between_nonzero f w : 1 ≤ w → between w w f → (f =? 0)%float = false.
Proof.
  intros Hw Hf. apply eqb_zero_false. intros s Hs. unfold between in Hf.
  rewrite Hs in Hf. apply SF_between_zero in Hf. lia.
Qed.

Lemma between_int f lo hi :
  between lo hi f → ∃ r, py_int (Flt f) = Ok r ∧ lo ≤ r ≤ hi.
Proof. apply SF_trunc_between. Qed.

Lemma above_below_between f lo hi :
  above (Flt f) lo → below (Flt f) hi → between lo hi f.
Proof.
  unfold above, below, between, SF_between, SF_geZ, SF_leZ. simpl. auto.
Qed.

Lemma float_overflow_large : 2 ^ 53 < float_overflow.
Proof. by vm_compute. Qed.

Lemma of_int_between z :
  Z.abs z < 2 ^ 53 → of_int z = Ok (float_of z) ∧ between z z (float_of z).
Proof.
  intros Hz. split; [|by apply float_of_between].
  apply of_int_small. pose proof float_overflow_large. lia.
Qed.

(** The quotient of two whole numbers, [0 ≤ a ≤ b]. *)
Lemma ndiv_Int_between a b :
  0 ≤ a ≤ b → 1 ≤ b < 2 ^ 53 →
  ∃ q, ndiv (Int a) (Int b) = Ok (Flt q) ∧ between 0 1 q
       ∧ (a = 0 → between 0 0 q) ∧ (a = b → between 1 1 q).
Proof.
  intros Ha Hb. rewrite ndiv_Int_small by lia.
  destruct (of_int_between a ltac:(lia)) as [_ Hfa].
  destruct (of_int_between b ltac:(lia)) as [_ Hfb].
  eexists. split; [done|].
  split; [|split].
  - apply (between_div _ _ a a b); try done; lia.
  - intros ->. apply (between_div _ _ 0 0 b); try done; lia.
  - intros ->. apply (between_div _ _ b b b); try done; lia.
Qed.

(** Lines 168-169: the fraction [t] of the segment, from 0 to 1. *)
Lemma linear_fraction percent lower upper :
  - 2 ^ 52 < lower → upper < 2 ^ 52 →
  above percent lower → below percent upper →
  ∃ t, (d ← nsub percent (Int lower); ndiv d (Int (upper - lower))) = Ok (Flt t)
       ∧ between 0 1 t.
Proof.
  intros Hl Hu Ha Hb.
  pose proof (above_below_lt _ _ _ Ha Hb) as Hlt.
  change (2 ^ 52) with 4503599627370496 in *.
  assert (H53 : 2 ^ 53 = 9007199254740992) by done.
  destruct percent as [p|f].
  - assert (lower < p).
    { unfold above, ncompare in Ha. injection Ha as Ha. by apply Z.compare_gt_iff in Ha. }
    assert (p < upper).
    { unfold below, ncompare in Hb. injection Hb as Hb. by apply Z.compare_lt_iff in Hb. }
    cbn [nsub mbind res_bind].
    destruct (ndiv_Int_between (p - lower) (upper - lower)) as (q & -> & Hq & _); [lia|lia|].
    by exists q.
  - unfold nsub, to_float.
    destruct (of_int_between lower ltac:(lia)) as [-> Hfl].
    cbn [mbind res_bind]. unfold ndiv, to_float. cbn [mbind res_bind].
    destruct (of_int_between (upper - lower) ltac:(lia)) as [-> Hfw].
    cbn [mbind res_bind].
    rewrite (between_nonzero _ (upper - lower)) by (done || lia).
    eexists. split; [done|].
    apply (between_div _ _ 0 (upper - lower) (upper - lower)); try done; try lia.
    replace 0 with (lower - lower) at 1 by lia.
    apply between_sub; try done; try lia.
    by apply above_below_between.
Qed.

(** Lines 168-169: the value on the line lies between the values at the
    two ends. *)
Lemma linear_value_range percent lower upper vl vu :
  - 2 ^ 52 < lower → upper < 2 ^ 52 →
  0 ≤ vl < 2 ^ 52 → 0 ≤ vu < 2 ^ 52 →
  above percent lower → below percent upper →
  ∃ r, linear_value py_int percent lower upper vl vu = Ok r
       ∧ Z.min vl vu ≤ r ≤ Z.max vl vu.
Proof.
  intros Hl Hu Hvl Hvu Ha Hb.
  destruct (linear_fraction percent lower upper Hl Hu Ha Hb) as (t & Ht & Ht01).
  unfold linear_value.
  destruct (nsub percent (Int lower)) as [d|]; [|done]. cbn [mbind res_bind] in *.
  rewrite Ht. cbn [mbind res_bind].
  change (2 ^ 52) with 4503599627370496 in *.
  assert (H53 : 2 ^ 53 = 9007199254740992) by done.
  unfold nmul, to_float. cbn [mbind res_bind].
  destruct (of_int_between (vu - vl) ltac:(lia)) as [-> Hfv]. cbn [mbind res_bind].
  unfold nadd, to_float.
  destruct (of_int_between vl ltac:(lia)) as [-> Hfl]. cbn [mbind res_bind].
  apply between_int.
  destruct (Z.le_gt_cases vl vu) as [Hle|Hgt].
  - rewrite Z.min_l, Z.max_r by lia.
    apply (between_mono _ (vl + 0 * 0) (vl + 1 * (vu - vl))); [lia|lia|].
    apply (between_add _ _ vl vl (0 * 0) (1 * (vu - vl))); try done; try lia.
    apply (between_mul _ _ 0 1 0 (vu - vl)); try done; try lia.
    apply (between_mono _ (vu - vl) (vu - vl)); [lia|lia|done].
  - rewrite Z.min_r, Z.max_l by lia.
    apply (between_mono _ (vl + - (1 * (vl - vu))) (vl + 0)); [lia|lia|].
    apply (between_add _ _ vl vl (- (1 * (vl - vu))) 0); try done; try lia.
    apply (between_mul_neg _ _ 1 (vl - vu)); try done; try lia.
    apply (between_mono _ (vu - vl) (vu - vl)); [lia|lia|done].
Qed.

(** ** Comparisons of a number between two integers *)

Lemma SF_cmp_Z_not_nan x z : x ≠ S754_nan → ∃ c, SF_cmp_Z x z = Some c.
Proof. destruct x; simpl; eauto. done. Qed.

Lemma ncompare_not_nan p z : not_nan p → ∃ c, ncompare p (Int z) = Some c.
Proof. destruct p as [x|f]; simpl; [eauto|]. apply SF_cmp_Z_not_nan. Qed.

Lemma between_not_nan f lo hi : between lo hi f → not_nan (Flt f).
Proof. intros H Hn. unfold between in H. rewrite Hn in H. by apply SF_between_not_nan in H. Qed.

Lemma between_nle f lo hi k : between lo hi f → hi ≤ k → nle (Flt f) (Int k) = true.
Proof.
  intros H Hk. apply (between_mono _ _ _ lo k) in H as [_ H]; [|lia|done].
  unfold nle, ncompare. by destruct H as [-> | ->].
Qed.

Lemma between_nge f lo hi k : between lo hi f → k ≤ lo → nge (Flt f) (Int k) = true.
Proof.
  intros H Hk. apply (between_mono _ _ _ k hi) in H as [H _]; [|done|lia].
  unfold nge, ncompare. by destruct H as [-> | ->].
Qed.

Lemma between_ngt f lo hi k : between lo hi f → k < lo → ngt (Flt f) (Int k) = true.
Proof.
  intros H Hk. apply (between_mono _ _ _ (k + 1) hi) in H as [H _]; [|lia|lia].
  unfold ngt, ncompare. destruct H as [H|H].
  - by rewrite (SF_cmp_Z_Gt_mono _ _ k H) by lia.
  - assert (SF_cmp_Z (Prim2SF f) k = Some Gt) as ->; [|done].
    destruct (SF_cmp_Z_not_nan (Prim2SF f) k) as [[] Hc]; [by intros E; rewrite E in H| | |done].
    + apply (SF_cmp_Z_Eq_inj _ _ _ Hc) in H. lia.
    + rewrite (SF_cmp_Z_Lt_mono _ _ (k + 1) Hc) in H by lia. done.
Qed.

Lemma between_not_ngt f lo hi k : between lo hi f → hi ≤ k → ngt (Flt f) (Int k) = false.
Proof.
  intros H Hk. apply (between_mono _ _ _ lo k) in H as [_ H]; [|lia|done].
  unfold ngt, ncompare. by destruct H as [-> | ->].
Qed.

Lemma ncompare_Eq_num_key p k : ncompare p (Int k) = Some Eq → num_key p = Some k.
Proof.
  destruct p as [z|f]; intros H.
  { simpl in *. injection H as H. apply Z.compare_eq in H. by subst. }
  unfold num_key.
  destruct (SF_trunc_between (Prim2SF f) k k) as (r & -> & Hr).
  { split; by right. }
  assert (r = k) as -> by lia. unfold neqb. by rewrite H.
Qed.

(** ** The segment of a percent between the least and the greatest key *)

Lemma bracket_exists p (l : list Z) : ∀ first final,
  not_nan p → l !! 0%nat = Some first → last l = Some final →
  above p first → below p final →
  (∃ k, k ∈ l ∧ ncompare p (Int k) = Some Eq)
  ∨ (∃ j x0 x1, l !! j = Some x0 ∧ l !! S j = Some x1 ∧ above p x0 ∧ below p x1).
Proof.
  induction l as [|a l IH]; intros first final Hn H0 Hl Ha Hb; [done|].
  simpl in H0. injection H0 as ->.
  destruct l as [|b l].
  - simpl in Hl. injection Hl as ->. pose proof (above_below_lt _ _ _ Ha Hb). lia.
  - destruct (ncompare_not_nan p b Hn) as [[] Hc].
    + left. exists b. split; [|done]. apply list_elem_of_further, list_elem_of_here.
    + right. by exists 0%nat, first, b.
    + destruct (IH b final Hn eq_refl Hl Hc Hb) as [(k & Hk & He)|(j & x0 & x1 & H1 & H2 & H3 & H4)].
      * left. exists k. split; [by apply list_elem_of_further|done].
      * right. by exists (S j), x0, x1.
Qed.

Lemma segment_exists p (l : list Z) : ∀ first final,
  not_nan p → l !! 0%nat = Some first → last l = Some final →
  above p first → below p final →
  ∃ j x0 x1, l !! j = Some x0 ∧ l !! S j = Some x1 ∧ above p x0 ∧ nle p (Int x1) = true.
Proof.
  induction l as [|a l IH]; intros first final Hn H0 Hl Ha Hb; [done|].
  simpl in H0. injection H0 as ->.
  destruct l as [|b l].
  - simpl in Hl. injection Hl as ->. pose proof (above_below_lt _ _ _ Ha Hb). lia.
  - destruct (ncompare_not_nan p b Hn) as [[] Hc].
    + exists 0%nat, first, b. unfold nle. by rewrite Hc.
    + exists 0%nat, first, b. unfold nle. by rewrite Hc.
    + destruct (IH b final Hn eq_refl Hl Hc Hb) as (j & x0 & x1 & H1 & H2 & H3 & H4).
      by exists (S j), x0, x1.
Qed.

Lemma sorted_percents_nonempty c :
  points c ≠ ∅ →
  ∃ first final, get_sorted_percents c !! 0%nat = Some first
                 ∧ last (get_sorted_percents c) = Some final.
Proof.
  intros Hne.
  assert (Hlen : (0 < length (get_sorted_percents c))%nat).
  { rewrite size_sorted_percents.
    destruct (decide (size (points c) = 0%nat)) as [H0|]; [|lia].
    by apply map_size_empty_iff in H0. }
  destruct (get_sorted_percents c) as [|a l] eqn:E; [simpl in Hlen; lia|].
  exists a. destruct (last (a :: l)) as [z|] eqn:Hz; [by exists z|].
  by apply last_None in Hz.
Qed.

(** ** The raw value of a curve of the documented domain *)

Lemma interpolate_linear_range c percent :
  keys_in_range c → values_in_range c → points c ≠ ∅ → not_nan percent →
  ∃ r, interpolate_linear c percent = Ok r ∧ 0 ≤ r ≤ 65535.
Proof.
  intros Hkeys Hvals Hne Hn.
  pose proof (sorted_percents_strict c) as Hs.
  destruct (sorted_percents_nonempty c Hne) as (first & final & H0 & Hl).
  assert (Hfirst : first ∈ get_sorted_percents c) by (by eapply list_elem_of_lookup_2).
  assert (Hfinal : final ∈ get_sorted_percents c).
  { apply last_Some in Hl as [l' Hl']. rewrite Hl'. apply elem_of_app. right.
    apply list_elem_of_here. }
  pose proof Hfirst as [v0 Hv0]%sorted_percents_elem.
  pose proof Hfinal as [v1 Hv1]%sorted_percents_elem.
  destruct (nle percent (Int first)) eqn:Hle.
  { exists v0. split; [by apply (interpolate_linear_low c first)|by apply (Hvals first)]. }
  destruct (nge percent (Int final)) eqn:Hge.
  { exists v1. split; [by apply (interpolate_linear_high c first final)|by apply (Hvals final)]. }
  assert (Ha : above percent first).
  { destruct (ncompare_not_nan percent first Hn) as [cmp Hc]. unfold nle in Hle.
    unfold above. rewrite Hc in *. by destruct cmp. }
  assert (Hb : below percent final).
  { destruct (ncompare_not_nan percent final Hn) as [cmp Hc]. unfold nge in Hge.
    unfold below. rewrite Hc in *. by destruct cmp. }
  destruct (bracket_exists percent _ first final Hn H0 Hl Ha Hb)
    as [(k & Hk & He)|(j & x0 & x1 & H1 & H2 & H3 & H4)].
  - apply sorted_percents_elem in Hk as [v Hv]. exists v.
    split; [|by apply (Hvals k)].
    apply (interpolate_linear_key c _ k); [by apply ncompare_Eq_num_key|done].
  - assert (Hx0 : x0 ∈ get_sorted_percents c) by (by eapply list_elem_of_lookup_2).
    assert (Hx1 : x1 ∈ get_sorted_percents c) by (by eapply list_elem_of_lookup_2).
    pose proof Hx0 as [y0 Hy0]%sorted_percents_elem.
    pose proof Hx1 as [y1 Hy1]%sorted_percents_elem.
    pose proof (Hkeys x0 ltac:(eauto)). pose proof (Hkeys x1 ltac:(eauto)).
    pose proof (Hvals _ _ Hy0). pose proof (Hvals _ _ Hy1).
    rewrite (interpolate_linear_truncates c percent x0 x1 y0 y1); [|done|done| |done|done].
    + destruct (linear_value_range percent x0 x1 y0 y1) as (r & Hr & Hrange);
        try done; try (change (2 ^ 52) with 4503599627370496; lia).
      exists r. split; [done|]. lia.
    + intros k Hk. destruct (points c !! k) as [v|] eqn:Hv; [|done]. exfalso.
      destruct (sorted_between _ j x0 x1 Hs H1 H2 k); [|lia..].
      apply sorted_percents_elem. eauto.
Qed.

Lemma interpolate_smooth_range c percent :
  keys_in_range c → values_in_range c →
  (2 ≤ length (get_sorted_percents c))%nat → not_nan percent →
  ∃ r, interpolate_smooth c percent = Ok r ∧ 0 ≤ r ≤ 65535.
Proof.
  intros Hkeys Hvals Hn Hnan.
  pose proof (sorted_percents_strict c) as Hs.
  assert (Hxs : Forall (λ x, 0 ≤ x ≤ 100) (get_sorted_percents c)).
  { apply Forall_forall. intros k Hk. apply Hkeys. by apply sorted_percents_elem. }
  destruct (lookup_lt_is_Some_2 (get_sorted_percents c) 0) as [first Hfirst]; [lia|].
  destruct (last (get_sorted_percents c)) as [final|] eqn:Hfinal; cycle 1.
  { apply last_None in Hfinal. rewrite Hfinal in Hn. simpl in Hn. lia. }
  assert (Hin0 : first ∈ get_sorted_percents c) by (by eapply list_elem_of_lookup_2).
  assert (Hin1 : final ∈ get_sorted_percents c).
  { apply last_Some in Hfinal as [l' Hl']. rewrite Hl'. apply elem_of_app. right.
    apply list_elem_of_here. }
  pose proof Hin0 as [v0 Hv0]%sorted_percents_elem.
  pose proof Hin1 as [v1 Hv1]%sorted_percents_elem.
  destruct (nle percent (Int first)) eqn:Hle.
  { exists v0. split; [by apply (interpolate_smooth_low c first)|by apply (Hvals first)]. }
  destruct (nge percent (Int final)) eqn:Hge.
  { exists v1. split; [by apply (interpolate_smooth_high c first final)|by apply (Hvals final)]. }
  assert (Ha : above percent first).
  { destruct (ncompare_not_nan percent first Hnan) as [cmp Hc]. unfold nle in Hle.
    unfold above. rewrite Hc in *. by destruct cmp. }
  assert (Hb : below percent final).
  { destruct (ncompare_not_nan percent final Hnan) as [cmp Hc]. unfold nge in Hge.
    unfold below. rewrite Hc in *. by destruct cmp. }
  destruct (segment_exists percent _ first final Hnan Hfirst Hfinal Ha Hb)
    as (j & x0 & x1 & Hj0 & Hj1 & Ha0 & Hb1).
  assert (Hx0 : x0 ∈ get_sorted_percents c) by (by eapply list_elem_of_lookup_2).
  assert (Hx1 : x1 ∈ get_sorted_percents c) by (by eapply list_elem_of_lookup_2).
  destruct (find_segment_spec percent x0 x1 Ha0 Hb1 (get_sorted_percents c) 0 Hs)
    as (j' & Hseg & Hj0' & Hj1'); [by apply (sorted_between _ j)|done..|].
  simpl in Hseg.
  destruct (mapM_getitem (points c) (get_sorted_percents c))
    as (ys & Hmap & Hlen & Hlook).
  { intros k Hk. by apply sorted_percents_elem. }
  assert (Hys : Forall (λ y, 0 ≤ y ≤ 65535) ys).
  { apply Forall_lookup. intros i y Hi.
    destruct (lookup_lt_is_Some_2 (get_sorted_percents c) i) as [k Hk].
    { rewrite <- Hlen. by eapply lookup_lt_Some. }
    rewrite (Hlook _ _ Hk) in Hi. by apply (Hvals k). }
  destruct (tangents_of_ok _ ys Hn Hlen Hs Hxs Hys) as (ts & Htan & Hlts & Hts).
  assert (Hlt : (S j' < length (get_sorted_percents c))%nat) by (by eapply lookup_lt_Some).
  destruct (lookup_lt_is_Some_2 ys j') as [y0 Hy0]; [lia|].
  destruct (lookup_lt_is_Some_2 ys (S j')) as [y1 Hy1]; [lia|].
  destruct (lookup_lt_is_Some_2 ts j') as [m0 Hm0]; [lia|].
  destruct (lookup_lt_is_Some_2 ts (S j')) as [m1 Hm1]; [lia|].
  destruct (hermite_ok percent x0 x1 y0 y1 m0 m1) as [result Hherm].
  { exact (Forall_lookup_1 _ _ _ _ Hxs Hj0'). }
  { exact (Forall_lookup_1 _ _ _ _ Hxs Hj1'). }
  { exact (Forall_lookup_1 _ _ _ _ Hys Hy0). }
  { exact (Forall_lookup_1 _ _ _ _ Hys Hy1). }
  { exact (Forall_lookup_1 _ _ _ _ Hts Hm0). }
  { exact (Forall_lookup_1 _ _ _ _ Hts Hm1). }
  { done. }
  { done. }
  destruct (clamp_result_range y0 y1 result) as (r & Hr & Hrange & _).
  exists r. split; [|done].
  unfold interpolate_smooth. cbv zeta.
  rewrite (proj2 (Nat.ltb_ge _ _) Hn).
  unfold item, item_last. rewrite Hfirst. cbn [of_option mbind res_bind]. rewrite Hle.
  rewrite Hfinal. cbn [of_option mbind res_bind]. rewrite Hge.
  rewrite Hmap. cbn [mbind res_bind]. rewrite Htan. cbn [mbind res_bind].
  rewrite Hseg, Hj0', Hj1', Hy0, Hy1, Hm0, Hm1. cbn [of_option mbind res_bind].
  by rewrite Hherm.
Qed.

Lemma raw_interpolate_range c percent :
  keys_in_range c → values_in_range c → points c ≠ ∅ → not_nan percent →
  ∃ r, raw_interpolate c percent = Ok r ∧ 0 ≤ r ≤ 65535.
Proof.
  intros Hkeys Hvals Hne Hn. unfold raw_interpolate.
  destruct (use_smooth c && (3 <=? size (points c))%nat) eqn:Hmode.
  - apply andb_prop in Hmode as [_ Hsz%Nat.leb_le].
    apply interpolate_smooth_range; [done|done| |done]. rewrite size_sorted_percents. lia.
  - by apply interpolate_linear_range.
Qed.

(** ** The threshold remap (lines 272-275) *)

Lemma apply_threshold_range c raw :
  0 ≤ threshold c ≤ 65535 → 0 ≤ raw ≤ 65535 →
  ∃ r, apply_threshold c raw = Ok r ∧ threshold c ≤ r ≤ 65535
       ∧ (raw = 0 → r = threshold c) ∧ (raw = 65535 → r = 65535).
Proof.
  intros Ht Hraw. unfold apply_threshold, PWM_MAX.
  assert (H53 : 2 ^ 53 = 9007199254740992) by done.
  destruct (ndiv_Int_between raw 65535) as (q & -> & Hq & Hq0 & Hq1); [lia|lia|].
  cbn [mbind res_bind]. unfold nmul, to_float. cbn [mbind res_bind].
  destruct (of_int_between (65535 - threshold c) ltac:(lia)) as [-> Hfu].
  cbn [mbind res_bind]. unfold nadd, to_float.
  destruct (of_int_between (threshold c) ltac:(lia)) as [-> Hft].
  cbn [mbind res_bind].
  set (t := threshold c) in *. set (u := 65535 - t) in *.
  assert (Hsum : ∀ lo hi, 0 ≤ lo → hi ≤ 1 → between lo hi q →
            ∃ r, py_int (Flt (float_of t + q * float_of u)) = Ok r
                 ∧ t + lo * u ≤ r ≤ t + hi * u).
  { intros lo hi Hlo Hhi Hb. apply between_int.
    apply (between_add _ _ t t (lo * u) (hi * u)); try done; try nia.
    apply (between_mul _ _ lo hi u u); try done; try nia. }
  destruct (Hsum 0 1 ltac:(lia) ltac:(lia) Hq) as (r & Hr & Hrange).
  exists r. split; [done|]. split; [unfold u in Hrange; lia|]. split.
  - intros H0. destruct (Hsum 0 0 ltac:(lia) ltac:(lia) (Hq0 H0)) as (r' & Hr' & Hrange').
    rewrite Hr in Hr'. injection Hr' as <-. lia.
  - intros H1. destruct (Hsum 1 1 ltac:(lia) ltac:(lia) (Hq1 H1)) as (r' & Hr' & Hrange').
    rewrite Hr in Hr'. injection Hr' as <-. unfold u in Hrange'. lia.
Qed.

Lemma interpolate_range c percent :
  keys_in_range c → values_in_range c → points c ≠ ∅ → 0 ≤ threshold c ≤ 65535 →
  not_nan percent →
  ∃ r, interpolate c percent = Ok r ∧ 0 ≤ r ≤ 65535
       ∧ (ngt percent (Int 0) = true → threshold c ≤ r).
Proof.
  intros Hkeys Hvals Hne Ht Hn. unfold interpolate.
  destruct (raw_interpolate_range c percent Hkeys Hvals Hne Hn) as (raw & -> & Hraw).
  cbn [mbind res_bind].
  destruct (Z.ltb_spec 0 (threshold c)) as [Hpos|Hzero];
    [destruct (ngt percent (Int 0)) eqn:Hgt|]; cbn [andb].
  - destruct (apply_threshold_range c raw Ht Hraw) as (r & -> & Hr & _).
    exists r. split; [done|]. split; [lia|]. intros _. lia.
  - exists raw. by split.
  - exists raw. split; [done|]. split; [done|]. intros _. lia.
Qed.

(** ** The percents of a table (line 282) *)

Lemma lut_percent_between size i :
  2 ≤ size ≤ 2 ^ 53 → 0 ≤ i < size →
  ∃ p, lut_percent size i = Ok (Flt p) ∧ between 0 100 p
       ∧ (i = 0 → between 0 0 p) ∧ (i = size - 1 → between 100 100 p).
Proof.
  intros Hsize Hi. unfold lut_percent.
  assert (H53 : 2 ^ 53 = 9007199254740992) by done.
  destruct (ndiv_Int_between i (size - 1)) as (q & -> & Hq & Hq0 & Hq1); [lia|lia|].
  cbn [mbind res_bind]. unfold nmul, to_float. cbn [mbind res_bind].
  destruct (of_int_between 100 ltac:(by vm_compute)) as [-> Hf].
  cbn [mbind res_bind]. eexists. split; [done|].
  split; [|split].
  - apply (between_mul _ _ 0 1 100 100); try done; lia.
  - intros H0. apply (between_mul _ _ 0 0 100 100); try done; try lia. by apply Hq0.
  - intros H1. apply (between_mul _ _ 1 1 100 100); try done; try lia. by apply Hq1.
Qed.

Lemma mapM_total_Forall {A B : Type} (f : A → res B) (P : B → Prop) (l : list A) :
  (∀ a, a ∈ l → ∃ b, f a = Ok b ∧ P b) →
  ∃ ks, mapM f l = Ok ks ∧ Forall P ks.
Proof.
  induction l as [|a l IH]; intros H; [by exists []|].
  destruct (H a ltac:(apply list_elem_of_here)) as (b & Hb & HP).
  destruct IH as (ks & Hks & Hall); [intros a' Ha'; apply H; by apply list_elem_of_further|].
  exists (b :: ks).
  change (mapM f (a :: l)) with (y ← f a; k ← mapM f l; Ok (y :: k)).
  rewrite Hb, Hks. split; [done|]. by constructor.
Qed.

(** ** The percents of a table after the first are positive *)

Lemma shr_fexp_exponent m e l : e ≤ (shr_fexp prec emax m e l).2.
Proof.
  unfold shr_fexp, shr. destruct (fexp prec emax (Zdigits2 m + e) - e); simpl; lia.
Qed.

Lemma binary_round_aux_exponent s q e l s' m e2 :
  binary_round_aux prec emax s q e l = S754_finite s' m e2 → e ≤ e2.
Proof.
  unfold binary_round_aux.
  pose proof (shr_fexp_exponent q e l) as H1.
  destruct (shr_fexp prec emax q e l) as [mrs e1]. simpl in H1.
  pose proof (shr_fexp_exponent (round_nearest_even (shr_m mrs) (loc_of_shr_record mrs))
                e1 loc_Exact) as H2.
  destruct (shr_fexp prec emax _ e1 loc_Exact) as [mrs' e']. simpl in H2.
  destruct (shr_m mrs'); [done| |done].
  destruct (e' <=? emax - prec); [|done]. intros [= _ _ <-]. lia.
Qed.

Lemma SF_nonzero_positive x z : SF_nonzero false x → z ≤ 0 → SF_cmp_Z x z = Some Gt.
Proof.
  destruct x as [s|s| |s m e]; simpl; try done; intros -> Hz; [done|].
  f_equal. destruct (Z.leb_spec 0 e).
  - apply Z.compare_gt_iff. simpl.
    assert (0 < 2 ^ e) by (apply Z.pow_pos_nonneg; lia). nia.
  - apply Z.compare_gt_iff. simpl.
    assert (0 < 2 ^ (- e)) by (apply Z.pow_pos_nonneg; lia). nia.
Qed.

(** The quotient of two whole numbers [1 ≤ a ≤ w < 2^53] is far from the
    least numbers of the format. *)
Lemma SFdiv_positive x y a w :
  valid_binary x = true → valid_binary y = true →
  1 ≤ a ≤ w → w < 2 ^ 53 →
  SF_between a a x → SF_between w w y →
  ∃ m e, SFdiv prec emax x y = S754_finite false m e ∧ -105 ≤ e.
Proof.
  intros Hvx Hvy Ha Hw Hx Hy.
  assert (H53 : 2 ^ 53 = 9007199254740992) by done.
  pose proof (SFdiv_between x y a a w 0 1 Hvx Hvy ltac:(lia) ltac:(lia) ltac:(lia)
                ltac:(lia) ltac:(lia) ltac:(lia) Hx Hy) as Hq.
  apply SF_between_cases in Hx; [|done|lia|lia].
  apply SF_between_cases in Hy; [|done|lia|lia].
  destruct y as [sy|sy| |sy my ey]; try done; [lia|].
  destruct x as [sx|sx| |sx mx ex]; try done; [lia|].
  destruct Hx as (Hex & Hx1 & Hx2). destruct Hy as (Hey & Hy1 & Hy2).
  assert (Hpx : 0 < 2 ^ (- ex)) by (apply Z.pow_pos_nonneg; lia).
  assert (Hpy : 0 < 2 ^ (- ey)) by (apply Z.pow_pos_nonneg; lia).
  destruct sx; [simpl in Hx1; nia|]. destruct sy; [simpl in Hy1; nia|].
  simpl in Hx1, Hx2, Hy1, Hy2.
  apply valid_exponent in Hvx.
  revert Hq. simpl SFdiv. unfold SFdiv_core_binary.
  set (d1 := Zdigits2 (Z.pos mx)). set (d2 := Zdigits2 (Z.pos my)).
  change (Z.pos (digits2_pos mx)) with d1 in Hvx.
  destruct (Zdigits2_bounds (Z.pos mx) ltac:(lia)) as (_ & Hd1u & Hd1). specialize (Hd1 ltac:(lia)).
  destruct (Zdigits2_bounds (Z.pos my) ltac:(lia)) as (Hd2p & Hd2 & _).
  fold d1 in Hd1, Hd1u. fold d2 in Hd2, Hd2p.
  assert (Hde1 : 1 ≤ d1 + ex).
  { destruct (Z.le_gt_cases 1 (d1 + ex)) as [|Hgt]; [done|]. exfalso.
    assert (2 ^ d1 ≤ 2 ^ (- ex)) by (apply Z.pow_le_mono_r; lia). nia. }
  assert (Hde2 : d2 + ey ≤ 53).
  { assert (d2 ≤ 53 - ey); [|lia]. apply Zdigits2_le; [lia|]. split; [lia|].
    replace (53 - ey) with (53 + - ey) by lia. rewrite Z.pow_add_r by lia. nia. }
  assert (Hd153 : d1 = 53 ∧ -52 ≤ ex) by lia. destruct Hd153 as [Hd153 Hex52].
  set (e' := Z.min (fexp prec emax (d1 + ex - (d2 + ey))) (ex - ey)).
  assert (He' : -105 ≤ e' ∧ e' ≤ d1 + ex - (d2 + ey) - 53 ∧ e' ≤ ex - ey).
  { unfold e', fexp. change (SpecFloat.emin prec emax) with (-1074). change prec with 53. lia. }
  set (s := ex - ey - e').
  assert (Hs : 53 - d1 + d2 ≤ s) by (unfold s; lia).
  set (m' := match s with Z.pos _ => Z.shiftl (Z.pos mx) s | 0 => Z.pos mx | Z.neg _ => 0 end).
  assert (Hm' : m' = Z.pos mx * 2 ^ s).
  { unfold m'. destruct s as [|p|p] eqn:Es; [simpl; lia| |lia].
    by rewrite Z.shiftl_mul_pow2. }
  clearbody m'.
  assert (Hbig : Z.pos my ≤ m').
  { rewrite Hm'.
    assert (2 ^ d2 ≤ 2 ^ s) by (apply Z.pow_le_mono_r; lia).
    nia. }
  pose proof (Z_div_mod m' (Z.pos my) ltac:(lia)) as Hdm.
  destruct (Z.div_eucl m' (Z.pos my)) as [q r]. destruct Hdm as [Hdm Hr].
  assert (Hq : 0 < q) by nia.
  pose proof (binary_round_aux_nonzero false q e' (new_location (Z.pos my) r) Hq
                ltac:(change emin with (-1074); lia)) as Hnz.
  pose proof (binary_round_aux_exponent false q e' (new_location (Z.pos my) r)) as Hexp.
  destruct (binary_round_aux prec emax false q e' (new_location (Z.pos my) r))
    as [sz|sz| |sz mz ez]; try done.
  - by intros ?%SF_between_not_infinity.
  - intros _. simpl in Hnz. subst sz. exists mz, ez. split; [done|].
    specialize (Hexp _ _ _ eq_refl). lia.
Qed.

Lemma Prim2SF_hundred : Prim2SF (float_of 100) = S754_finite false 7036874417766400 (-46).
Proof. by vm_compute. Qed.

Lemma lut_percent_positive size i :
  2 ≤ size ≤ 2 ^ 53 → 1 ≤ i < size →
  ∃ p, lut_percent size i = Ok (Flt p) ∧ ngt (Flt p) (Int 0) = true.
Proof.
  intros Hsize Hi. unfold lut_percent.
  assert (H53 : 2 ^ 53 = 9007199254740992) by done.
  rewrite ndiv_Int_small by lia.
  destruct (of_int_between i ltac:(lia)) as [_ Hfi].
  destruct (of_int_between (size - 1) ltac:(lia)) as [_ Hfn].
  cbn [mbind res_bind]. unfold nmul, to_float. cbn [mbind res_bind].
  destruct (of_int_between 100 ltac:(by vm_compute)) as [-> _].
  cbn [mbind res_bind]. eexists. split; [done|].
  unfold ngt, ncompare. rewrite mul_spec, div_spec, Prim2SF_hundred.
  unfold SF64mul, SF64div.
  destruct (SFdiv_positive (Prim2SF (float_of i)) (Prim2SF (float_of (size - 1))) i (size - 1))
    as (m & e & -> & He); try done; try lia; try apply Prim2SF_valid.
  simpl SFmul.
  rewrite SF_nonzero_positive; [done| |done].
  apply binary_round_aux_nonzero; [done|]. change emin with (-1074). lia.
Qed.

(** ** Linear interpolation stays between its two points *)

(** X16: strictly between two neighbouring keys (below [2^52] in magnitude)
    whose stored values are not negative (and below [2^52]),
    [interpolate_linear] returns, and what it returns lies between the two
    stored values: the line never leaves the segment, whatever the rounding
    of its three floating-point operations. *)
Theorem interpolate_linear_between_neighbours c percent lower upper vl vu :
  points c !! lower = Some vl → points c !! upper = Some vu →
  (∀ k, lower < k < upper → points c !! k = None) →
  - 2 ^ 52 < lower → upper < 2 ^ 52 → 0 ≤ vl < 2 ^ 52 → 0 ≤ vu < 2 ^ 52 →
  above percent lower → below percent upper →
  ∃ r, interpolate_linear c percent = Ok r ∧ Z.min vl vu ≤ r ≤ Z.max vl vu.
Proof.
  intros Hvl Hvu Hnone Hl Hu Hl' Hu' Ha Hb.
  rewrite (interpolate_linear_truncates c percent lower upper vl vu) by done.
  by apply linear_value_range.
Qed.

Lemma interpolate_linear_between_neighbours_witness :
  ∃ r, interpolate_linear linear_default (Flt 25) = Ok r
       ∧ Z.min 0 32767 ≤ r ≤ Z.max 0 32767.
Proof.
  apply (interpolate_linear_between_neighbours linear_default (Flt 25) 1 50 0 32767).
  - reflexivity.
  - reflexivity.
  - intros k Hk. unfold linear_default, default_points; simpl.
    rewrite !lookup_insert_ne by lia. apply lookup_empty.
  - reflexivity.
  - reflexivity.
  - split; [lia|reflexivity].
  - split; [lia|reflexivity].
  - reflexivity.
  - reflexivity.
Defined.

(** ** Every evaluation is a PWM value *)

(** X17: on a curve with at least one point, keys from 0 to 100, values
    from 0 to 65535 and a threshold from 0 to 65535, [interpolate] returns
    for every percent that is no NaN, an [int] or a [float] of any size,
    infinities included, in linear and in smooth mode; what it returns is a
    PWM value, from 0 to 65535, and it is at least the threshold when the
    percent is above 0. *)
Theorem interpolate_returns_pwm_value c percent :
  keys_in_range c → values_in_range c → points c ≠ ∅ → 0 ≤ threshold c ≤ 65535 →
  not_nan percent →
  ∃ r, interpolate c percent = Ok r ∧ 0 ≤ r ≤ 65535
       ∧ (ngt percent (Int 0) = true → threshold c ≤ r).
Proof. apply interpolate_range. Qed.

Lemma init_nonempty nm : points (init nm) ≠ ∅.
Proof. intros H. by apply (f_equal (λ m : gmap Z Z, m !! 0)) in H. Qed.

Lemma interpolate_returns_pwm_value_witness :
  ∃ r, interpolate (init "red") (Flt 25) = Ok r ∧ 0 ≤ r ≤ 65535
       ∧ (ngt (Flt 25) (Int 0) = true → threshold (init "red") ≤ r).
Proof.
  apply (interpolate_returns_pwm_value (init "red") (Flt 25)).
  - apply init_keys_in_range.
  - apply init_values_in_range.
  - apply init_nonempty.
  - simpl. lia.
  - simpl. by vm_compute.
Defined.

(** ** Tables *)

Lemma generate_lut_entry c size i :
  keys_in_range c → values_in_range c → points c ≠ ∅ → 0 ≤ threshold c ≤ 65535 →
  2 ≤ size ≤ 2 ^ 53 → 0 ≤ i < size →
  ∃ v, (percent ← lut_percent size i; interpolate c percent) = Ok v
       ∧ 0 ≤ v ≤ 65535 ∧ (0 < i → threshold c ≤ v).
Proof.
  intros Hkeys Hvals Hne Ht Hsize Hi.
  destruct (lut_percent_between size i Hsize Hi) as (p & Hp & Hb & _).
  rewrite Hp. cbn [mbind res_bind].
  destruct (interpolate_range c (Flt p) Hkeys Hvals Hne Ht (between_not_nan _ _ _ Hb))
    as (r & Hr & Hrange & Hth).
  exists r. split; [done|]. split; [done|]. intros Hpos. apply Hth.
  destruct (lut_percent_positive size i Hsize ltac:(lia)) as (p' & Hp' & Hgt).
  rewrite Hp in Hp'. by injection Hp' as <-.
Qed.

Lemma generate_lut_range c size :
  keys_in_range c → values_in_range c → points c ≠ ∅ → 0 ≤ threshold c ≤ 65535 →
  2 ≤ size ≤ 2 ^ 53 →
  ∃ lut, generate_lut c size = Ok lut
         ∧ length lut = Z.to_nat size
         ∧ Forall (λ v, 0 ≤ v ≤ 65535) lut
         ∧ ∀ i v, lut !! i = Some v → (0 < i)%nat → threshold c ≤ v.
Proof.
  intros Hkeys Hvals Hne Ht Hsize.
  destruct (mapM_total_Forall (λ i, percent ← lut_percent size i; interpolate c percent)
              (λ v, 0 ≤ v ≤ 65535) (seqZ 0 size)) as (lut & Hlut & Hall).
  { intros i Hi%elem_of_seqZ.
    destruct (generate_lut_entry c size i Hkeys Hvals Hne Ht Hsize ltac:(lia))
      as (v & Hv & Hrange & _).
    by exists v. }
  exists lut. split; [done|].
  assert (Hlen : length lut = Z.to_nat size).
  { apply mapM_Ok_length in Hlut. by rewrite Hlut, length_seqZ. }
  split; [done|]. split; [done|].
  intros i v Hi Hpos.
  assert (Hlt : (i < Z.to_nat size)%nat) by (rewrite <- Hlen; by eapply lookup_lt_Some).
  destruct (generate_lut_lookup c size lut (Z.of_nat i) Hlut ltac:(lia)) as (v' & Hv' & Hl').
  rewrite Nat2Z.id, Hi in Hl'. injection Hl' as <-.
  destruct (generate_lut_entry c size (Z.of_nat i) Hkeys Hvals Hne Ht Hsize ltac:(lia))
    as (v' & Hv'' & _ & Hth).
  rewrite Hv' in Hv''. injection Hv'' as <-. apply Hth. lia.
Qed.

(** X18: on a curve with at least one point, keys from 0 to 100, values
    from 0 to 65535 and a threshold from 0 to 65535, [generate_lut] returns
    for every size from 2 to [2^53], in linear and in smooth mode: the table
    has [size] entries, every entry is a PWM value, from 0 to 65535, and
    every entry after the first is at least the threshold. *)
Theorem generate_lut_returns_pwm_values c size :
  keys_in_range c → values_in_range c → points c ≠ ∅ → 0 ≤ threshold c ≤ 65535 →
  2 ≤ size ≤ 2 ^ 53 →
  ∃ lut, generate_lut c size = Ok lut
         ∧ length lut = Z.to_nat size
         ∧ Forall (λ v, 0 ≤ v ≤ 65535) lut
         ∧ ∀ i v, lut !! i = Some v → (0 < i)%nat → threshold c ≤ v.
Proof. apply generate_lut_range. Qed.

Lemma generate_lut_returns_pwm_values_witness :
  ∃ lut, generate_lut (init "red") 256 = Ok lut
         ∧ length lut = Z.to_nat 256
         ∧ Forall (λ v, 0 ≤ v ≤ 65535) lut
         ∧ ∀ i v, lut !! i = Some v → (0 < i)%nat → threshold (init "red") ≤ v.
Proof.
  apply (generate_lut_returns_pwm_values (init "red") 256).
  - apply init_keys_in_range.
  - apply init_values_in_range.
  - apply init_nonempty.
  - simpl. lia.
  - split; [lia|]. by vm_compute.
Defined.

(** The raw value at a percent not above the least key, and at one not
    below the greatest key, in the mode of the curve. *)
Lemma raw_interpolate_low c lo vlo percent :
  get_sorted_percents c !! 0%nat = Some lo → points c !! lo = Some vlo →
  nle percent (Int lo) = true → raw_interpolate c percent = Ok vlo.
Proof.
  intros H0 Hv Hle. unfold raw_interpolate.
  destruct (use_smooth c && (3 <=? size (points c))%nat) eqn:Hmode.
  - apply andb_prop in Hmode as [_ Hsz%Nat.leb_le].
    apply (interpolate_smooth_low c lo); [|done..]. rewrite size_sorted_percents. lia.
  - by apply (interpolate_linear_low c lo).
Qed.

Lemma raw_interpolate_high c lo hi vlo vhi percent :
  get_sorted_percents c !! 0%nat = Some lo → last (get_sorted_percents c) = Some hi →
  points c !! lo = Some vlo → points c !! hi = Some vhi →
  nge percent (Int hi) = true → raw_interpolate c percent = Ok vhi.
Proof.
  intros H0 Hl Hvlo Hvhi Hge.
  destruct (nle percent (Int lo)) eqn:Hle.
  - pose proof (nle_nge_Int _ _ _ Hle Hge) as Hhl.
    pose proof (sorted_percents_strict c) as Hs.
    assert (Hin : lo ∈ get_sorted_percents c) by (by eapply list_elem_of_lookup_2).
    pose proof (sorted_last_greatest _ _ Hs Hl lo Hin) as Hlh.
    assert (hi = lo) as -> by lia. rewrite Hvlo in Hvhi. injection Hvhi as <-.
    by apply (raw_interpolate_low c lo).
  - unfold raw_interpolate.
    destruct (use_smooth c && (3 <=? size (points c))%nat) eqn:Hmode.
    + apply andb_prop in Hmode as [_ Hsz%Nat.leb_le].
      apply (interpolate_smooth_high c lo hi); [|done..]. rewrite size_sorted_percents. lia.
    + by apply (interpolate_linear_high c lo hi).
Qed.

(** X19: the two ends of a table. On a curve with values from 0 to 65535,
    a threshold from 0 to 65535, and [lo] its least and [hi] its greatest
    key, both from 0 to 100, [generate_lut] returns for every size from 2
    to [2^53]; the first entry of the table is the value stored at [lo],
    whatever the threshold, and the last entry is the value stored at [hi],
    remapped above the threshold when there is one: it is the stored value
    when the threshold is 0, and it is 65535 when the stored value is
    65535. *)
Theorem generate_lut_ends c size lo hi vlo vhi :
  values_in_range c → points c !! lo = Some vlo → points c !! hi = Some vhi →
  (∀ k, is_Some (points c !! k) → lo ≤ k ≤ hi) →
  0 ≤ lo → hi ≤ 100 → 0 ≤ threshold c ≤ 65535 →
  2 ≤ size ≤ 2 ^ 53 →
  ∃ lut top,
    generate_lut c size = Ok lut
    ∧ lut !! 0%nat = Some vlo
    ∧ lut !! Z.to_nat (size - 1) = Some top
    ∧ threshold c ≤ top ≤ 65535
    ∧ (threshold c = 0 → top = vhi)
    ∧ (0 < threshold c → apply_threshold c vhi = Ok top)
    ∧ (vhi = 65535 → top = 65535).
Proof.
  intros Hvals Hvlo Hvhi Hall Hlo Hhi Ht Hsize.
  assert (Hkeys : keys_in_range c) by (intros k Hk; specialize (Hall k Hk); lia).
  assert (Hne : points c ≠ ∅) by (intros E; by rewrite E, lookup_empty in Hvlo).
  pose proof (Hvals _ _ Hvhi) as Hrange.
  destruct (generate_lut_range c size Hkeys Hvals Hne Ht Hsize) as (lut & Hlut & _).
  destruct (sorted_ends c lo hi ltac:(eauto) ltac:(eauto) Hall) as [H0 Hl].
  destruct (generate_lut_lookup c size lut (size - 1) Hlut ltac:(lia)) as (v & Hv & Hl1).
  exists lut, v. split; [done|]. split.
  - destruct (generate_lut_lookup c size lut 0 Hlut ltac:(lia)) as (v' & Hv' & Hl0).
    change (Z.to_nat 0) with 0%nat in Hl0. rewrite Hl0. f_equal.
    destruct (lut_percent_between size 0 Hsize ltac:(lia)) as (p & Hp & _ & Hp0 & _).
    specialize (Hp0 eq_refl). rewrite Hp in Hv'. cbn [mbind res_bind] in Hv'.
    unfold interpolate in Hv'.
    rewrite (raw_interpolate_low c lo vlo) in Hv';
      [|done|done|by apply (between_nle _ 0 0)].
    cbn [mbind res_bind] in Hv'.
    rewrite (between_not_ngt _ 0 0 0 Hp0), andb_false_r in Hv' by lia. by injection Hv'.
  - split; [done|].
    destruct (lut_percent_between size (size - 1) Hsize ltac:(lia)) as (p & Hp & _ & _ & Hp1).
    specialize (Hp1 eq_refl). rewrite Hp in Hv. cbn [mbind res_bind] in Hv.
    unfold interpolate in Hv.
    rewrite (raw_interpolate_high c lo hi vlo vhi) in Hv;
      [|done|done|done|done|by apply (between_nge _ 100 100)].
    cbn [mbind res_bind] in Hv.
    rewrite (between_ngt _ 100 100 0 Hp1), andb_true_r in Hv by lia.
    destruct (Z.ltb_spec 0 (threshold c)) as [Hpos|Hzero].
    + destruct (apply_threshold_range c vhi Ht Hrange) as (r & Hr & Hr1 & _ & Hr3).
      rewrite Hr in Hv. injection Hv as <-.
      split; [lia|]. split; [lia|]. split; [done|done].
    + injection Hv as <-. split; [lia|]. split; [done|]. split; [lia|done].
Qed.

Lemma generate_lut_ends_witness :
  ∃ lut top,
    generate_lut (init "red") 256 = Ok lut
    ∧ lut !! 0%nat = Some 0
    ∧ lut !! Z.to_nat (256 - 1) = Some top
    ∧ threshold (init "red") ≤ top ≤ 65535
    ∧ (threshold (init "red") = 0 → top = 65535)
    ∧ (0 < threshold (init "red") → apply_threshold (init "red") 65535 = Ok top)
    ∧ (65535 = 65535 → top = 65535).
Proof.
  apply (generate_lut_ends (init "red") 256 0 100 0 65535).
  - apply init_values_in_range.
  - reflexivity.
  - reflexivity.
  - apply init_keys_in_range.
  - lia.
  - lia.
  - simpl. lia.
  - split; [lia|]. by vm_compute.
Defined.

(** ** The curve display *)

(** [int((a / b) * n)] for whole numbers [0 ≤ a ≤ b] and [0 ≤ n]. *)
Lemma scale_range a b n :
  0 ≤ a ≤ b → 1 ≤ b < 2 ^ 53 → 0 ≤ n < 2 ^ 53 →
  ∃ i, (q ← ndiv (Int a) (Int b); s ← nmul q (Int n); py_int s) = Ok i
       ∧ 0 ≤ i ≤ n ∧ (a = 0 → i = 0) ∧ (a = b → i = n).
Proof.
  intros Ha Hb Hn.
  destruct (ndiv_Int_between a b Ha Hb) as (q & -> & Hq & Hq0 & Hq1).
  cbn [mbind res_bind]. unfold nmul, to_float. cbn [mbind res_bind].
  destruct (of_int_between n ltac:(lia)) as [-> Hfn]. cbn [mbind res_bind].
  assert (Hprod : ∀ lo hi, 0 ≤ lo → hi ≤ 1 → between lo hi q →
            ∃ i, py_int (Flt (q * float_of n)) = Ok i ∧ lo * n ≤ i ≤ hi * n).
  { intros lo hi Hlo Hhi Hb'. apply between_int.
    apply (between_mul _ _ lo hi n n); try done; try nia. }
  destruct (Hprod 0 1 ltac:(lia) ltac:(lia) Hq) as (i & Hi & Hrange).
  exists i. split; [done|]. split; [lia|]. split.
  - intros H0. destruct (Hprod 0 0 ltac:(lia) ltac:(lia) (Hq0 H0)) as (i' & Hi' & Hrange').
    rewrite Hi in Hi'. injection Hi' as <-. lia.
  - intros H1. destruct (Hprod 1 1 ltac:(lia) ltac:(lia) (Hq1 H1)) as (i' & Hi' & Hrange').
    rewrite Hi in Hi'. injection Hi' as <-. lia.
Qed.

Lemma pixel_x_range a percent :
  0 ≤ percent ≤ 100 → 0 ≤ plot_w a < 2 ^ 53 →
  ∃ px, pixel_x a percent = Ok px
        ∧ plot_x a ≤ px ≤ plot_x a + plot_w a
        ∧ (percent = 0 → px = plot_x a)
        ∧ (percent = 100 → px = plot_x a + plot_w a).
Proof.
  intros Hp Hw. unfold pixel_x.
  destruct (scale_range percent 100 (plot_w a) Hp ltac:(by vm_compute) Hw)
    as (i & Hi & Hrange & H0 & H1).
  destruct (ndiv (Int percent) (Int 100)) as [q|]; [|done]. cbn [mbind res_bind] in *.
  destruct (nmul q (Int (plot_w a))) as [s|]; [|done]. cbn [mbind res_bind] in *.
  rewrite Hi. cbn [mbind res_bind]. eexists. split; [done|].
  split; [lia|]. split; intros E; [rewrite (H0 E)|rewrite (H1 E)]; lia.
Qed.

Lemma pixel_y_range a value :
  0 ≤ value ≤ 65535 → 0 ≤ plot_h a < 2 ^ 53 →
  ∃ py, pixel_y a value = Ok py
        ∧ plot_y a ≤ py ≤ plot_y a + plot_h a
        ∧ (value = 0 → py = plot_y a + plot_h a)
        ∧ (value = 65535 → py = plot_y a).
Proof.
  intros Hv Hh. unfold pixel_y, PWM_MAX.
  destruct (scale_range value 65535 (plot_h a) Hv ltac:(by vm_compute) Hh)
    as (i & Hi & Hrange & H0 & H1).
  destruct (ndiv (Int value) (Int 65535)) as [q|]; [|done]. cbn [mbind res_bind] in *.
  destruct (nmul q (Int (plot_h a))) as [s|]; [|done]. cbn [mbind res_bind] in *.
  rewrite Hi. cbn [mbind res_bind]. eexists. split; [done|].
  split; [lia|]. split; intros E; [rewrite (H0 E)|rewrite (H1 E)]; lia.
Qed.

Lemma curve_pixels_inside a eval :
  0 ≤ plot_w a < 2 ^ 53 → 0 ≤ plot_h a < 2 ^ 53 →
  (∀ i, 0 ≤ i ≤ 100 → ∃ v, eval (Int i) = Ok v ∧ 0 ≤ v ≤ 65535) →
  ∃ pixels, curve_pixels a eval = Ok pixels ∧ Forall (inside a) pixels.
Proof.
  intros Hw Hh Heval. apply mapM_total_Forall.
  intros i Hi%elem_of_seqZ.
  destruct (Heval i ltac:(lia)) as (v & -> & Hv). cbn [mbind res_bind].
  destruct (pixel_x_range a i ltac:(lia) Hw) as (px & -> & Hpx & _).
  destruct (pixel_y_range a v Hv Hh) as (py & -> & Hpy & _).
  cbn [mbind res_bind]. eexists. split; [done|]. by split.
Qed.

Lemma polyline_inside a pixels : ∀ prev,
  Forall (inside a) pixels → (∀ q, prev = Some q → inside a q) →
  Forall (shape_inside a) (polyline prev pixels).
Proof.
  induction pixels as [|p rest IH]; intros prev Hall Hprev; [constructor|].
  apply Forall_cons in Hall as [Hp Hrest]. simpl.
  destruct prev as [q|].
  - constructor.
    + pose proof (Hprev q eq_refl) as Hq. destruct p, q. by split.
    + apply IH; [done|]. by intros ? [= <-].
  - apply IH; [done|]. by intros ? [= <-].
Qed.

Lemma markers_inside a (m : gmap Z Z) :
  0 ≤ plot_w a < 2 ^ 53 → 0 ≤ plot_h a < 2 ^ 53 →
  (∀ k v, m !! k = Some v → 0 ≤ k ≤ 100 ∧ 0 ≤ v ≤ 65535) →
  ∃ markers, mapM (marker a) (map_to_list m) = Ok markers
             ∧ Forall (shape_inside a) markers.
Proof.
  intros Hw Hh Hm. apply mapM_total_Forall.
  intros [k v] Hkv%elem_of_map_to_list. destruct (Hm k v Hkv) as [Hk Hv].
  unfold marker.
  destruct (pixel_x_range a k Hk Hw) as (px & -> & Hpx & _).
  destruct (pixel_y_range a v Hv Hh) as (py & -> & Hpy & _).
  cbn [mbind res_bind]. eexists. split; [done|].
  unfold shape_inside, inside. change (10 `div` 2) with 5. simpl. lia.
Qed.

Lemma curve_pixels_empty a c :
  points c = ∅ → curve_pixels a (interpolate c) = Raise IndexError.
Proof.
  intros He. unfold curve_pixels.
  assert (Hseq : seqZ 0 101 = 0 :: seqZ 1 100) by done.
  rewrite Hseq. apply mapM_head_raise. by rewrite interpolate_empty.
Qed.

(** X20: what [paintEvent] draws of a curve, in a widget of 50 pixels or
    more each way. On a curve with at least one point, keys from 0 to 100,
    values from 0 to 65535 and a threshold from 0 to 65535, it raises
    nothing, whatever the sweep position, and every line it draws (the
    threshold line, the two curves, the sweep line) has its two ends, and
    every ellipse (the markers of the points, the sweep dot) its centre,
    within the plot area. On a curve without points it raises IndexError;
    without calibration it draws nothing. *)
Theorem paint_curve_inside_plot width height cal sweep_position :
  50 ≤ width < 2 ^ 52 → 50 ≤ height < 2 ^ 52 → 0 ≤ threshold cal ≤ 65535 →
  (keys_in_range cal → values_in_range cal → points cal ≠ ∅ →
   ∃ shapes, paint_curve width height (Some cal) sweep_position = Ok shapes
             ∧ Forall (shape_inside (plot_area width height)) shapes)
  ∧ (points cal = ∅ →
     paint_curve width height (Some cal) sweep_position = Raise IndexError)
  ∧ paint_curve width height None sweep_position = Ok [].
Proof.
  intros Hwidth Hheight Ht.
  set (a := plot_area width height).
  assert (H52 : 2 ^ 52 = 4503599627370496) by done.
  assert (H53 : 2 ^ 53 = 9007199254740992) by done.
  assert (Hw : 0 ≤ plot_w a < 2 ^ 53) by (unfold a, plot_area, margin; simpl; lia).
  assert (Hh : 0 ≤ plot_h a < 2 ^ 53) by (unfold a, plot_area, margin; simpl; lia).
  assert (Hthresh : ∃ thresh,
            (if 0 <? threshold cal then
               thresh_y ← pixel_y a (threshold cal);
               Ok [Line (plot_x a) thresh_y (plot_x a + plot_w a) thresh_y]
             else Ok []) = Ok thresh ∧ Forall (shape_inside a) thresh).
  { destruct (0 <? threshold cal); [|by exists []].
    destruct (pixel_y_range a (threshold cal) Ht Hh) as (py & -> & Hpy & _).
    cbn [mbind res_bind]. eexists. split; [done|].
    constructor; [|constructor]. unfold shape_inside, inside. cbn [fst snd]. lia. }
  destruct Hthresh as (thresh & Hthresh & Hthresh_in).
  split; [|split; [|done]].
  - intros Hkeys Hvals Hne. unfold paint_curve. fold a. cbv zeta.
    rewrite Hthresh. cbn [mbind res_bind].
    assert (Hfaint : ∃ faint,
              (if use_smooth cal && (3 <=? size (points cal))%nat then
                 pixels ← curve_pixels a (interpolate_linear cal);
                 Ok (polyline None pixels)
               else Ok []) = Ok faint ∧ Forall (shape_inside a) faint).
    { destruct (use_smooth cal && (3 <=? size (points cal))%nat); [|by exists []].
      destruct (curve_pixels_inside a (interpolate_linear cal) Hw Hh) as (pixels & -> & Hall).
      { intros i Hi. by apply interpolate_linear_range. }
      cbn [mbind res_bind]. eexists. split; [done|]. by apply polyline_inside. }
    destruct Hfaint as (faint & -> & Hfaint_in). cbn [mbind res_bind].
    destruct (curve_pixels_inside a (interpolate cal) Hw Hh) as (pixels & -> & Hall).
    { intros i Hi. destruct (interpolate_range cal (Int i)) as (r & Hr & Hrange & _);
        [done..|]. by exists r. }
    cbn [mbind res_bind].
    destruct (markers_inside a (points cal) Hw Hh) as (markers & -> & Hmarkers).
    { intros k v Hkv. split; [apply Hkeys; eauto|by apply (Hvals k)]. }
    cbn [mbind res_bind].
    assert (Hsweep : ∃ sweep,
              (if (0 <=? sweep_position) && (sweep_position <=? 100) then
                 sweep_x ← pixel_x a sweep_position;
                 sweep_value ← interpolate cal (Int sweep_position);
                 sweep_y ← pixel_y a sweep_value;
                 Ok [Line sweep_x (plot_y a) sweep_x (plot_y a + plot_h a);
                     Ellipse (sweep_x - 6) (sweep_y - 6) 12 12]
               else Ok []) = Ok sweep ∧ Forall (shape_inside a) sweep).
    { destruct ((0 <=? sweep_position) && (sweep_position <=? 100)) eqn:Hs; [|by exists []].
      apply andb_prop in Hs as [H0%Z.leb_le H1%Z.leb_le].
      destruct (pixel_x_range a sweep_position ltac:(lia) Hw) as (px & -> & Hpx & _).
      cbn [mbind res_bind].
      destruct (interpolate_range cal (Int sweep_position)) as (r & -> & Hrange & _); try done.
      cbn [mbind res_bind].
      destruct (pixel_y_range a r Hrange Hh) as (py & -> & Hpy & _).
      cbn [mbind res_bind]. eexists. split; [done|].
      constructor; [|constructor; [|constructor]]; unfold shape_inside, inside.
      - cbn [fst snd]. lia.
      - change (12 `div` 2) with 6. cbn [fst snd]. lia. }
    destruct Hsweep as (sweep & -> & Hsweep_in). cbn [mbind res_bind].
    eexists. split; [done|].
    repeat (apply Forall_app; split); try done. by apply polyline_inside.
  - intros He. unfold paint_curve. fold a. cbv zeta.
    rewrite Hthresh. cbn [mbind res_bind].
    rewrite He. change (size (∅ : gmap Z Z)) with 0%nat. rewrite andb_false_r.
    cbn [mbind res_bind].
    assert (Hc : curve_pixels a (interpolate cal) = Raise IndexError)
      by (by apply curve_pixels_empty).
    by rewrite Hc.
Qed.

Lemma paint_curve_inside_plot_witness :
  (keys_in_range (init "red") → values_in_range (init "red") → points (init "red") ≠ ∅ →
   ∃ shapes, paint_curve 300 200 (Some (init "red")) 50 = Ok shapes
             ∧ Forall (shape_inside (plot_area 300 200)) shapes)
  ∧ (points (init "red") = ∅ →
     paint_curve 300 200 (Some (init "red")) 50 = Raise IndexError)
  ∧ paint_curve 300 200 None 50 = Ok [].
Proof.
  apply (paint_curve_inside_plot 300 200 (init "red") 50).
  - split; [lia|]. by vm_compute.
  - split; [lia|]. by vm_compute.
  - simpl. lia.
Defined.

(** ** Testing a point through a working link *)

Lemma sent_eq l l' data :
  ser l' = ser l → port l' = port l → wire l' = wire l ++ data → l' = sent l data.
Proof. destruct l, l'. unfold sent. simpl. by intros -> -> ->. Qed.

Lemma clamp_pwm_id v : 0 ≤ v ≤ 65535 → clamp_pwm v = v.
Proof. unfold clamp_pwm, PWM_MAX. lia. Qed.

Lemma send_interpolated_working t l percent :
  documented (calibration t) → working l →
  ∃ v, interpolate (calibration t) (Int percent) = Ok v ∧ 0 ≤ v ≤ 65535
       ∧ send_interpolated t l percent
         = Fine (sent l (channel_frame (channel_name t) v), v).
Proof.
  intros (Hkeys & Hvals & Hne & Ht) Hw.
  destruct (interpolate_range (calibration t) (Int percent) Hkeys Hvals Hne Ht I)
    as (v & Hv & Hrange & _).
  exists v. split; [done|]. split; [done|].
  unfold send_interpolated. rewrite Hv. cbn [lift mbind result_bind].
  destruct (send_channel_working l (channel_name t) v Hw) as (l' & -> & Hs & Hp & Hwire).
  cbn [mbind result_bind]. rewrite clamp_pwm_id in Hwire by done.
  by rewrite (sent_eq l l' _ Hs Hp Hwire).
Qed.

(** X21: on a curve of the documented domain (at least one point, keys 0
    to 100, values 0 to 65535, threshold 0 to 65535) and through an open
    port that accepts its bytes, testing a point never fails, at any whole
    percent: [_on_test_point] and [_on_sweep_change] evaluate the curve
    there and write exactly the frame of that value, a PWM value that needs
    no clamping, in the channel of the tab; [_on_sweep_change] then shows
    the percent on the curve display; [_jump_to_next] never fails
    either. *)
Theorem test_point_sends_curve_value t l percent :
  documented (calibration t) → working l →
  ∃ v, interpolate (calibration t) (Int percent) = Ok v ∧ 0 ≤ v ≤ 65535
       ∧ on_test_point t l percent
         = Fine (sent l (channel_frame (channel_name t) v), v)
       ∧ on_sweep_change t l percent
         = (set_curve_sweep_position t percent,
            Fine (sent l (channel_frame (channel_name t) v), v))
       ∧ ∃ t' p w,
           jump_to_next t l
           = (t', Fine (sent l (channel_frame (channel_name t) w), Some (p, w)))
           ∧ interpolate (calibration t) (Int p) = Ok w
           ∧ is_Some (points (calibration t) !! p).
Proof.
  intros Hdoc Hw.
  destruct (send_interpolated_working t l percent Hdoc Hw) as (v & Hv & Hrange & Hsend).
  exists v. split; [done|]. split; [done|]. split; [done|]. split.
  { unfold on_sweep_change. by rewrite Hsend. }
  unfold jump_to_next.
  destruct Hdoc as (Hkeys & Hvals & Hne & Ht).
  destruct (sorted_percents_nonempty _ Hne) as (first & final & H0 & _).
  destruct (get_sorted_percents (calibration t)) as [|a rest] eqn:Hsorted; [done|].
  set (n := Z.of_nat (length (a :: rest))).
  set (i := (current_test_index t + 1) `mod` n).
  assert (Hn : 0 < n) by (unfold n; simpl; lia).
  pose proof (Z.mod_pos_bound (current_test_index t + 1) n Hn) as Hi. fold i in Hi.
  destruct (lookup_lt_is_Some_2 (a :: rest) (Z.to_nat i)) as [p Hp].
  { unfold n in Hi. lia. }
  assert (Hin : is_Some (points (calibration t) !! p)).
  { apply sorted_percents_elem. rewrite Hsorted. by eapply list_elem_of_lookup_2. }
  set (t' := set_current_test_index t i).
  assert (Hdoc' : documented (calibration t')) by done.
  destruct (send_interpolated_working t' l p Hdoc' Hw) as (w & Hw' & _ & Hsend').
  exists t', p, w. split; [|by split].
  f_equal. change (current_test_index t') with i.
  unfold item. rewrite Hp. cbn [of_option lift mbind result_bind].
  unfold on_test_point. rewrite Hsend'. done.
Qed.

Lemma test_point_sends_curve_value_witness :
  let t := mkTab "red" (init "Red") [] 0 0 0 None false (Flt 0) 1 false (-1) in
  let l := mkLaser (Some (mkSerial true true)) (Some "COM3") [] in
  ∃ v, interpolate (calibration t) (Int 50) = Ok v ∧ 0 ≤ v ≤ 65535
       ∧ on_test_point t l 50 = Fine (sent l (channel_frame (channel_name t) v), v)
       ∧ on_sweep_change t l 50
         = (set_curve_sweep_position t 50,
            Fine (sent l (channel_frame (channel_name t) v), v))
       ∧ ∃ t' p w,
           jump_to_next t l
           = (t', Fine (sent l (channel_frame (channel_name t) w), Some (p, w)))
           ∧ interpolate (calibration t) (Int p) = Ok w
           ∧ is_Some (points (calibration t) !! p).
Proof.
  intros t l.
  apply (test_point_sends_curve_value t l 50).
  - split; [apply init_keys_in_range|].
    split; [apply init_values_in_range|].
    split; [apply init_nonempty|simpl; lia].
  - exists (mkSerial true true). split; [reflexivity|]. split; reflexivity.
Defined.

(** ** A sweep never fails *)

Lemma sweep_tick_fine t l speed direction_text mode_text :
  documented (calibration t) → working l → sweep_ok t → 1 ≤ speed ≤ 100 →
  ∃ t' l',
    sweep_tick t l speed direction_text mode_text = (t', Fine l')
    ∧ calibration t' = calibration t ∧ channel_name t' = channel_name t
    ∧ sweep_ok t'
    ∧ (l' = l ∨ ∃ v, 0 ≤ v ≤ 65535 ∧ l' = sent l (channel_frame (channel_name t) v)).
Proof.
  intros Hdoc Hw (H0 & H100 & Hd) Hs. unfold sweep_tick.
  destruct (sweep_running t) eqn:Hrun; cbn [negb]; cycle 1.
  { exists t, l. split; [done|]. split; [done|]. split; [done|]. split; [done|]. by left. }
  destruct (sweep_step_total _ _ _ H0 H100 Hd Hs) as (f & -> & Hnan).
  pose proof (sweep_bounds_cases (Flt f) (sweep_direction t) direction_text mode_text Hnan Hd)
    as Hb.
  destruct (sweep_bounds (Flt f) (sweep_direction t) direction_text mode_text)
    as [[position' direction']|].
  - destruct Hb as (Hd' & Hp0 & Hp100 & percent & Hint & Hpercent).
    cbn [sweep_position set_sweep]. rewrite Hint.
    set (t1 := set_sweep t true position' direction' (sweep_timer t)).
    assert (Hdoc1 : documented (calibration t1)) by done.
    destruct (send_interpolated_working t1 l percent Hdoc1 Hw) as (v & _ & Hv & ->).
    eexists _, _. split; [done|]. split; [done|]. split; [done|]. split; [done|].
    right. by exists v.
  - pose proof (sweep_stop_position_ok (Flt f)) as [Hs0 Hs100].
    unfold stop_sweep.
    set (t1 := set_sweep _ false _ _ false).
    destruct (send_channel_working l (channel_name t1) 0 Hw) as (l' & -> & Hse & Hp & Hwire).
    eexists _, _. split; [done|]. split; [done|]. split; [done|]. split; [done|].
    right. exists 0. split; [lia|]. by apply sent_eq.
Qed.

Lemma sent_sent l a b : sent (sent l a) b = sent l (a ++ b).
Proof. unfold sent. simpl. by rewrite app_assoc. Qed.

Lemma sent_nil l : sent l [] = l.
Proof. destruct l. unfold sent. simpl. by rewrite app_nil_r. Qed.

Lemma working_sent_data l data : working l → working (sent l data).
Proof. intros Hw. by apply (working_sent l). Qed.

(** X22: a sweep never fails. On a curve of the documented domain, through
    an open port that accepts its bytes, from a position between 0 and 100
    and a direction of 1 or -1, any number of timer ticks at a speed from 1
    to 100 ends without an exception, in every direction and mode; the curve
    is unchanged, the position is still between 0 and 100, and what went to
    the device is a sequence of at most one frame a tick, each in the
    channel of the tab and holding a value from 0 to 65535. *)
Theorem sweep_never_fails t l speed direction_text mode_text k :
  documented (calibration t) → working l → sweep_ok t → 1 ≤ speed ≤ 100 →
  ∃ t' frames,
    sweep_ticks k t l speed direction_text mode_text = (t', Fine (sent l (concat frames)))
    ∧ calibration t' = calibration t ∧ channel_name t' = channel_name t
    ∧ sweep_ok t'
    ∧ (length frames ≤ k)%nat
    ∧ Forall (λ frame, ∃ v, 0 ≤ v ≤ 65535 ∧ frame = channel_frame (channel_name t) v) frames.
Proof.
  intros Hdoc Hw Hok Hs. induction k as [|k IH].
  { exists t, []. simpl. rewrite sent_nil.
    split; [done|]. split; [done|]. split; [done|]. split; [done|]. split; [lia|constructor]. }
  destruct IH as (t1 & frames & Hk & Hc & Hn & Hok1 & Hlen & Hall).
  cbn [sweep_ticks]. rewrite Hk.
  destruct (sweep_tick_fine t1 (sent l (concat frames)) speed direction_text mode_text)
    as (t' & l' & -> & Hc' & Hn' & Hok' & Hl'); [by rewrite Hc|by apply working_sent_data|done..|].
  destruct Hl' as [-> | (v & Hv & ->)].
  - exists t', frames. split; [done|]. split; [congruence|]. split; [congruence|].
    split; [done|]. split; [lia|done].
  - exists t', (frames ++ [channel_frame (channel_name t) v]).
    rewrite sent_sent, concat_app. simpl. rewrite app_nil_r, Hn.
    split; [done|]. split; [congruence|]. split; [congruence|]. split; [done|].
    split; [rewrite length_app; simpl; lia|].
    apply Forall_app. split; [done|]. constructor; [|done]. by exists v.
Qed.

Lemma sweep_never_fails_witness :
  let t := (toggle_sweep (mkTab "red" (init "Red") [] 0 0 0 None false (Flt 0) 1 false (-1))
              laser_init true "Loop").1 in
  let l := mkLaser (Some (mkSerial true true)) (Some "COM3") [] in
  ∃ t' frames,
    sweep_ticks 1000 t l 30 "Loop" "Continuous" = (t', Fine (sent l (concat frames)))
    ∧ calibration t' = calibration t ∧ channel_name t' = channel_name t
    ∧ sweep_ok t'
    ∧ (length frames ≤ 1000)%nat
    ∧ Forall (λ frame, ∃ v, 0 ≤ v ≤ 65535 ∧ frame = channel_frame (channel_name t) v) frames.
Proof.
  intros t l.
  refine (sweep_never_fails t l 30 "Loop" "Continuous" 1000 _ _ _ _).
  - split; [apply init_keys_in_range|].
    split; [apply init_values_in_range|].
    split; [apply init_nonempty|simpl; lia].
  - exists (mkSerial true true). split; [reflexivity|]. split; reflexivity.
  - split; [reflexivity|]. split; [reflexivity|]. left. reflexivity.
  - lia.
Defined.

(** ** The code view *)

Lemma row_body_lines n st iv lines :
  row_body n (st.1, lines ++ st.2) iv
  = ((row_body n st iv).1, lines ++ (row_body n st iv).2).
Proof.
  destruct st as [row ls], iv as [i val]. simpl.
  destruct ((length (row ++ [format_5d val]) =? 8)%nat || (Z.of_nat i =? n - 1)); simpl;
    [|done].
  by rewrite app_assoc.
Qed.

Lemma foldl_row_body_lines n (xs : list (nat * Z)) : ∀ st lines,
  foldl (row_body n) (st.1, lines ++ st.2) xs
  = ((foldl (row_body n) st xs).1, lines ++ (foldl (row_body n) st xs).2).
Proof.
  induction xs as [|iv xs IH]; intros st lines; cbn [foldl].
  - done.
  - rewrite row_body_lines. apply (IH (row_body n st iv)).
Qed.

Lemma code_rows_app lut lines : code_rows lut lines = lines ++ code_rows lut [].
Proof.
  unfold code_rows.
  pose proof (foldl_row_body_lines (Z.of_nat (length lut)) (enumerate lut) ([], []) lines) as H.
  simpl in H. rewrite app_nil_r in H. by rewrite H.
Qed.

Lemma code_channel_lines lines name cal size lut :
  generate_lut cal size = Ok lut →
  code_channel lines name cal size = Ok (lines ++ channel_lines name cal size lut).
Proof.
  intros Hlut. unfold code_channel, channel_lines. rewrite Hlut. cbn [mbind res_bind].
  rewrite code_rows_app. f_equal. by rewrite <- !app_assoc.
Qed.

(** X23: the code view. When the size box reads a size from 2 to [2^53]
    (each of its four entries does) and the three curves are of the
    documented domain, [_generate_code] raises nothing: the three tables
    exist, each with [size] entries from 0 to 65535, and the text is the
    header followed, for RED, GREEN and BLUE in turn, by the comment line,
    the declaration, the rows of the table and the closing lines, joined by
    newlines; [refresh] puts that text into the view and leaves the curves
    and the size box as they are. *)
Theorem generate_code_returns e size :
  get_size (size_text e) = Ok size → 2 ≤ size ≤ 2 ^ 53 →
  documented (red_cal e) → documented (green_cal e) → documented (blue_cal e) →
  ∃ r g b,
    generate_lut (red_cal e) size = Ok r
    ∧ generate_lut (green_cal e) size = Ok g
    ∧ generate_lut (blue_cal e) size = Ok b
    ∧ Forall (λ lut, length lut = Z.to_nat size ∧ Forall (λ v, 0 ≤ v ≤ 65535) lut) [r; g; b]
    ∧ let text :=
        String.concat newline
          (code_header size
           ++ channel_lines "RED" (red_cal e) size r
           ++ channel_lines "GREEN" (green_cal e) size g
           ++ channel_lines "BLUE" (blue_cal e) size b) in
      generate_code (size_text e) (red_cal e) (green_cal e) (blue_cal e) = Ok text
      ∧ refresh e
        = (mkExport (red_cal e) (green_cal e) (blue_cal e) (size_text e) text, None).
Proof.
  intros Hsize Hrange (Hk1 & Hv1 & Hn1 & Ht1) (Hk2 & Hv2 & Hn2 & Ht2) (Hk3 & Hv3 & Hn3 & Ht3).
  destruct (generate_lut_range _ size Hk1 Hv1 Hn1 Ht1 Hrange) as (r & Hr & Hlr & Har & _).
  destruct (generate_lut_range _ size Hk2 Hv2 Hn2 Ht2 Hrange) as (g & Hg & Hlg & Hag & _).
  destruct (generate_lut_range _ size Hk3 Hv3 Hn3 Ht3 Hrange) as (b & Hb & Hlb & Hab & _).
  exists r, g, b. split; [done|]. split; [done|]. split; [done|].
  split; [by repeat constructor|].
  cbv zeta.
  assert (Hcode : generate_code (size_text e) (red_cal e) (green_cal e) (blue_cal e)
                  = Ok (String.concat newline
                          (code_header size
                           ++ channel_lines "RED" (red_cal e) size r
                           ++ channel_lines "GREEN" (green_cal e) size g
                           ++ channel_lines "BLUE" (blue_cal e) size b))).
  { unfold generate_code. rewrite Hsize. cbn [mbind res_bind].
    rewrite (code_channel_lines _ _ _ _ r Hr). cbn [mbind res_bind].
    rewrite (code_channel_lines _ _ _ _ g Hg). cbn [mbind res_bind].
    rewrite (code_channel_lines _ _ _ _ b Hb). cbn [mbind res_bind].
    unfold code_header. by rewrite <- !app_assoc. }
  split; [done|]. unfold refresh. by rewrite Hcode.
Qed.

Lemma generate_code_returns_witness :
  let e := mkExport (init "Red") (init "Green") (init "Blue") "65536 (full 16-bit)" "" in
  ∃ r g b,
    generate_lut (red_cal e) 65536 = Ok r
    ∧ generate_lut (green_cal e) 65536 = Ok g
    ∧ generate_lut (blue_cal e) 65536 = Ok b
    ∧ Forall (λ lut, length lut = Z.to_nat 65536 ∧ Forall (λ v, 0 ≤ v ≤ 65535) lut) [r; g; b]
    ∧ let text :=
        String.concat newline
          (code_header 65536
           ++ channel_lines "RED" (red_cal e) 65536 r
           ++ channel_lines "GREEN" (green_cal e) 65536 g
           ++ channel_lines "BLUE" (blue_cal e) 65536 b) in
      generate_code (size_text e) (red_cal e) (green_cal e) (blue_cal e) = Ok text
      ∧ refresh e
        = (mkExport (red_cal e) (green_cal e) (blue_cal e) (size_text e) text, None).
Proof.
  intros e.
  assert (Hdoc : ∀ nm, documented (init nm)).
  { intros nm. split; [apply init_keys_in_range|].
    split; [apply init_values_in_range|].
    split; [apply init_nonempty|simpl; lia]. }
  refine (generate_code_returns e 65536 _ _ _ _ _).
  - by vm_compute.
  - split; [lia|]. by vm_compute.
  - apply Hdoc.
  - apply Hdoc.
  - apply Hdoc.
Defined.

(** ** The main window *)

Lemma send_zero l channel :
  ∃ zeros,
    send_channel l channel (Int 0) = Fine (sent l zeros)
    ∧ (zeros = [] ∨ zeros = replicate 6 0)
    ∧ (working l → is_Some (channel_slot channel) → zeros = replicate 6 0)
    ∧ (is_connected l = false → zeros = []).
Proof.
  assert (Hrgb : ∃ zeros,
            send_rgb l (Int 0) (Int 0) (Int 0) = Fine (sent l zeros)
            ∧ (zeros = [] ∨ zeros = replicate 6 0)
            ∧ (working l → zeros = replicate 6 0)
            ∧ (is_connected l = false → zeros = [])).
  { unfold send_rgb. destruct (is_connected l) eqn:Hc; cbn [negb].
    - cbn. unfold write. destruct (ser l) as [s|] eqn:Hs.
      + destruct (accepts s) eqn:Ha.
        * exists (replicate 6 0). rewrite <- Hs. split; [done|]. split; [by right|]. done.
        * exists []. rewrite sent_nil. split; [done|]. split; [by left|].
          split; [|done]. intros (s' & Hs' & _ & Ha'). congruence.
      + unfold is_connected in Hc. by rewrite Hs in Hc.
    - exists []. rewrite sent_nil. split; [done|]. split; [by left|].
      split; [|done]. intros (s & Hs & Ho & _). unfold is_connected in Hc.
      by rewrite Hs, Ho in Hc. }
  destruct Hrgb as (zeros & Hrgb & Hcases & Hw & Hn).
  unfold send_channel, channel_slot. cbn [py_int lift mbind result_bind].
  change (0 `max` (PWM_MAX `min` 0)) with 0.
  destruct (String.eqb channel "red");
    [|destruct (String.eqb channel "green"); [|destruct (String.eqb channel "blue")]].
  1-3: exists zeros; split; [done|]; split; [done|]; split; [by intros ? _; apply Hw|done].
  exists []. rewrite sent_nil. split; [done|]. split; [by left|].
  split; [by intros _ [? ?]|done].
Qed.

Lemma is_connected_sent l data : is_connected (sent l data) = is_connected l.
Proof. done. Qed.

Lemma tab_stop_spec t l :
  ∃ t' zeros,
    tab_stop t l = (t', Fine (sent l zeros))
    ∧ (zeros = [] ∨ zeros = replicate 6 0)
    ∧ (working l → is_Some (channel_slot (channel_name t)) → zeros = replicate 6 0)
    ∧ (is_connected l = false → zeros = [])
    ∧ sweep_running t' = false ∧ sweep_timer t' = false
    ∧ threshold_timer t' ≠ Some true
    ∧ calibration t' = calibration t ∧ channel_name t' = channel_name t.
Proof.
  unfold tab_stop.
  destruct (send_zero l (channel_name t)) as (zeros & -> & Hcases & Hw & Hn).
  eexists _, zeros. split; [done|]. split; [done|]. split; [done|]. split; [done|].
  cbn. split; [done|]. split; [done|]. split; [by destruct (threshold_timer t)|done].
Qed.

Lemma disconnect_spec l :
  ∃ zeros,
    disconnect l = Fine (mkLaser None None (wire l ++ zeros))
    ∧ (zeros = [] ∨ zeros = replicate 6 0)
    ∧ (working l → zeros = replicate 6 0)
    ∧ (is_connected l = false → zeros = []).
Proof.
  unfold disconnect. destruct (is_connected l) eqn:Hc.
  - unfold send_rgb. rewrite Hc. cbn. unfold write.
    destruct (ser l) as [s|] eqn:Hs; [|unfold is_connected in Hc; by rewrite Hs in Hc].
    destruct (accepts s) eqn:Ha.
    + exists (replicate 6 0). split; [done|]. split; [by right|]. done.
    + exists []. rewrite app_nil_r. split; [done|]. split; [by left|].
      split; [|done]. intros (s' & Hs' & _ & Ha'). congruence.
  - exists []. cbn. rewrite app_nil_r. split; [done|]. split; [by left|].
    split; [|done]. intros (s & Hs & Ho & _). unfold is_connected in Hc.
    by rewrite Hs, Ho in Hc.
Qed.

Lemma zeros_cases (zeros : list Z) :
  zeros = [] ∨ zeros = replicate 6 0 → Forall (λ byte, byte = 0) zeros.
Proof. intros [-> | ->]; by repeat constructor. Qed.

(** X24: closing the window switches the laser off. Whatever the state of
    the link and of the three tabs, [closeEvent] raises nothing; after it
    the link has no port, no sweep runs and no timer of a tab is left
    running, the curves are unchanged, and every byte that went to the
    device is 0. Through an open port that accepts its bytes, with the
    tabs of the channels red, green and blue, exactly four frames of
    zeros are written, one for each tab and one by [disconnect]; on a link
    that is not connected nothing is written. *)
Theorem close_event_switches_off w :
  ∃ w' zeros,
    close_event w = (w', None)
    ∧ laser w' = mkLaser None None (wire (laser w) ++ zeros)
    ∧ is_connected (laser w') = false
    ∧ Forall (λ byte, byte = 0) zeros
    ∧ (working (laser w) →
       is_Some (channel_slot (channel_name (red_tab w))) →
       is_Some (channel_slot (channel_name (green_tab w))) →
       is_Some (channel_slot (channel_name (blue_tab w))) →
       zeros = replicate 24 0)
    ∧ (is_connected (laser w) = false → zeros = [])
    ∧ Forall2 (λ t' t, sweep_running t' = false ∧ sweep_timer t' = false
                       ∧ threshold_timer t' ≠ Some true
                       ∧ calibration t' = calibration t)
        [red_tab w'; green_tab w'; blue_tab w'] [red_tab w; green_tab w; blue_tab w].
Proof.
  unfold close_event.
  destruct (tab_stop_spec (red_tab w) (laser w))
    as (r & z1 & -> & Hz1 & Hw1 & Hn1 & Hr1 & Hr2 & Hr3 & Hr4 & _).
  set (l1 := sent (laser w) z1).
  destruct (tab_stop_spec (green_tab w) l1)
    as (g & z2 & -> & Hz2 & Hw2 & Hn2 & Hg1 & Hg2 & Hg3 & Hg4 & _).
  set (l2 := sent l1 z2).
  destruct (tab_stop_spec (blue_tab w) l2)
    as (b & z3 & -> & Hz3 & Hw3 & Hn3 & Hb1 & Hb2 & Hb3 & Hb4 & _).
  set (l3 := sent l2 z3).
  destruct (disconnect_spec l3) as (z4 & -> & Hz4 & Hw4 & Hn4).
  eexists _, (z1 ++ z2 ++ z3 ++ z4). split; [done|]. cbn [laser].
  split; [unfold l3, l2, l1, sent; cbn [wire]; by rewrite <- !app_assoc|]. split; [done|].
  split; [repeat (apply Forall_app; split); by apply zeros_cases|].
  split; [|split].
  - intros Hw Hsr Hsg Hsb.
    assert (Hwl1 : working l1) by (by apply working_sent_data).
    assert (Hwl2 : working l2) by (by apply working_sent_data).
    assert (Hwl3 : working l3) by (by apply working_sent_data).
    by rewrite (Hw1 Hw Hsr), (Hw2 Hwl1 Hsg), (Hw3 Hwl2 Hsb), (Hw4 Hwl3).
  - intros Hc. by rewrite (Hn1 Hc), (Hn2 Hc), (Hn3 Hc), (Hn4 Hc).
  - by repeat constructor.
Qed.

Lemma tab_init_names :
  ∃ r g b, tab_init "Red" = Ok r ∧ tab_init "Green" = Ok g ∧ tab_init "Blue" = Ok b
           ∧ channel_name r = "red" ∧ channel_name g = "green" ∧ channel_name b = "blue".
Proof.
  eexists _, _, _. split; [by vm_compute|]. split; [by vm_compute|]. split; [by vm_compute|].
  done.
Qed.

(** X25: the connect button and the port box. The window starts not
    connected, its three tabs on the channels red, green and blue, the port
    box showing the ports found, the first one current, or the one item
    "No ports found", as after every [_refresh_ports]. On a connected link
    [_toggle_connection] disconnects: it raises nothing, the link has no
    port afterwards and the button reads "Connect". On a link that is not
    connected it opens the current port unless the text of the box is empty
    or contains "No ports": so after a refresh that found no port it does
    nothing, whatever opening would give; otherwise, when opening succeeds
    the link holds the new port and the button reads "Disconnect", and when
    opening raises nothing changes. *)
Theorem toggle_connection_spec w opened :
  (∀ ports, ∃ w0,
     wizard_init ports = Ok w0
     ∧ laser w0 = laser_init ∧ is_connected (laser w0) = false
     ∧ channel_name (red_tab w0) = "red" ∧ channel_name (green_tab w0) = "green"
     ∧ channel_name (blue_tab w0) = "blue"
     ∧ connect_btn w0 = "Connect"
     ∧ port_text w0 = default "No ports found" (head ports))
  ∧ (∀ ports, port_text (refresh_ports w ports) = default "No ports found" (head ports)
              ∧ laser (refresh_ports w ports) = laser w)
  ∧ (is_connected (laser w) = true →
     ∃ w', toggle_connection w opened = (w', None)
           ∧ is_connected (laser w') = false
           ∧ ser (laser w') = None ∧ port (laser w') = None
           ∧ connect_btn w' = "Connect" ∧ status_label w' = "Disconnected")
  ∧ (is_connected (laser w) = false →
     toggle_connection (refresh_ports w []) opened = (refresh_ports w [], None))
  ∧ (is_connected (laser w) = false →
     nonempty (port_text w) = true → contains "No ports" (port_text w) = false →
     match opened with
     | Some s =>
         ∃ w', toggle_connection w opened = (w', None)
               ∧ laser w' = mkLaser (Some s) (Some (port_text w)) (wire (laser w))
               ∧ is_connected (laser w') = is_open s
               ∧ connect_btn w' = "Disconnect"
               ∧ status_label w' = "Connected: " +:+ port_text w
     | None => toggle_connection w opened = (w, None)
     end).
Proof.
  assert (Hrefresh : ∀ w1 ports,
            port_text (refresh_ports w1 ports) = default "No ports found" (head ports)).
  { intros w1 ports. unfold port_text, refresh_ports. cbn. by destruct ports. }
  split; [|split; [|split; [|split]]].
  - intros ports. destruct tab_init_names as (r & g & b & Hr & Hg & Hb & Hnr & Hng & Hnb).
    unfold wizard_init. rewrite Hr, Hg, Hb. cbn [mbind res_bind].
    eexists. split; [done|]. split; [done|]. split; [done|].
    split; [done|]. split; [done|]. split; [done|]. split; [done|]. apply Hrefresh.
  - intros ports. by split.
  - intros Hc. unfold toggle_connection. rewrite Hc.
    destruct (disconnect_spec (laser w)) as (zeros & -> & _).
    eexists. split; [done|]. done.
  - intros Hc. unfold toggle_connection.
    change (laser (refresh_ports w [])) with (laser w). rewrite Hc. reflexivity.
  - intros Hc Hne Hno. unfold toggle_connection. rewrite Hc, Hne, Hno. cbn [andb negb].
    destruct opened as [s|]; cbn [connect].
    + eexists. split; [done|]. done.
    + by destruct w.
Qed.

(** ** The tangents of a curve of the documented domain are finite *)

(** A secant, [dy / dx]. *)
Lemma secant_mag dy dx :
  -65535 ≤ dy ≤ 65535 → 1 ≤ dx ≤ 100 →
  SF_mag (-6) 18 (Prim2SF (float_of dy / float_of dx)).
Proof.
  intros Hdy Hdx. rewrite div_spec.
  pose proof (float_of_nz dx 7 ltac:(change (2 ^ 7) with 128; lia) ltac:(lia)) as Hx.
  destruct (Z.eq_dec dy 0) as [->|Hne].
  - rewrite Prim2SF_float_of_zero. unfold SF64div.
    destruct (Prim2SF (float_of dx)); done.
  - pose proof (float_of_nz dy 17 ltac:(change (2 ^ 17) with 131072; lia) ltac:(lia)) as Hy.
    unfold SF64div. apply (SF_nz_mag (xorb (dy <? 0) (dx <? 0))).
    eapply SF_nz_mono;
      [| |exact (SFdiv_nz _ _ _ _ 1 17 1 7 (Prim2SF_valid _) (Prim2SF_valid _) Hy Hx
                  ltac:(lia) ltac:(lia) ltac:(lia) ltac:(lia))]; lia.
Qed.

Lemma secants_mag xs : ∀ ys,
  length ys = length xs →
  StronglySorted Z.lt xs →
  Forall (λ x, 0 ≤ x ≤ 100) xs →
  Forall (λ y, 0 ≤ y ≤ 65535) ys →
  ∃ ds, secants xs ys = Ok ds
        ∧ length ds = (length xs - 1)%nat ∧ Forall delta_mag ds.
Proof.
  induction xs as [|x0 xs IH]; intros ys Hlen Hs Hx Hy.
  { destruct ys; [|done]. by exists []. }
  destruct ys as [|y0 ys]; [done|].
  destruct xs as [|x1 xs].
  { destruct ys; [|done]. by exists []. }
  destruct ys as [|y1 ys]; [done|].
  apply StronglySorted_inv in Hs as [Hs Hlt].
  apply Forall_cons in Hx as [Hx0 Hx], Hy as [Hy0 Hy].
  destruct (IH (y1 :: ys)) as (ds & Hds & Hlen' & Hgood); [simpl in *; lia|done..|].
  apply Forall_cons in Hlt as [Hlt _].
  pose proof (proj1 (Forall_cons _ _ _) Hx) as [Hx1 _].
  pose proof (proj1 (Forall_cons _ _ _) Hy) as [Hy1 _].
  assert (Hb : 65535 < float_overflow) by (by vm_compute).
  rewrite secants_cons, Hds.
  rewrite (proj2 (Z.eqb_neq (x1 - x0) 0)) by lia. cbn [negb].
  rewrite ndiv_Int_small by below_53. simpl.
  eexists. split; [done|]. split; [simpl in *; lia|].
  constructor; [|done]. eexists. split; [done|]. apply secant_mag; lia.
Qed.

Lemma nle_zero_false_positive x lo hi :
  SF_mag lo hi x →
  (∀ c, SF_cmp_Z x 0 = Some c → c = Gt) →
  SF_nz false lo hi x.
Proof.
  destruct x as [s|s| |s m e]; simpl; try done.
  - intros _ H. by specialize (H Eq eq_refl).
  - intros HE H. split; [|done]. destruct s; [|done]. exfalso.
    assert (Hc : SF_cmp_Z (S754_finite true m e) 0 = Some Lt).
    { pose proof (nle_zero_of_signed (S754_finite true m e) eq_refl) as [Hc|Hc]; [done|].
      exfalso. unfold SF_cmp_Z in Hc. injection Hc as Hc. simpl in Hc.
      destruct (Z.leb_spec 0 e).
      - apply Z.compare_eq in Hc.
        assert (0 < 2 ^ e) by (apply Z.pow_pos_nonneg; lia). nia.
      - done. }
    simpl in H. by specialize (H Lt Hc).
Qed.

Lemma Prim2SF_one : Prim2SF (float_of 1) = S754_finite false 4503599627370496 (-52).
Proof. by vm_compute. Qed.

Lemma Prim2SF_two : Prim2SF (float_of 2) = S754_finite false 4503599627370496 (-51).
Proof. by vm_compute. Qed.

Lemma Prim2SF_three : Prim2SF 3%float = S754_finite false 6755399441055744 (-51).
Proof. by vm_compute. Qed.

(** Lines 212-218: the tangent at an interior point. *)
Lemma interior_tangent_mag deltas tangents i dp di :
  deltas !! (i - 1)%nat = Some dp → deltas !! i = Some di →
  delta_mag dp → delta_mag di →
  ∃ t, interior_tangent deltas tangents i = Ok (<[i := t]> tangents) ∧ num_mag (-9) 21 t.
Proof.
  intros Hdp Hdi (f1 & -> & H1) (f2 & -> & H2).
  unfold interior_tangent, item. rewrite Hdp, Hdi. simpl.
  destruct (nle (Flt (f1 * f2)) (Int 0)) eqn:Hp.
  { by exists (Int 0). }
  assert (Hprod : SF_mag (-13) 37 (Prim2SF (f1 * f2))).
  { rewrite mul_spec.
    apply (SFmul_mag _ _ (-6) 18 (-6) 18); try apply Prim2SF_valid; try done; lia. }
  assert (Hpos : SF_nz false (-13) 37 (Prim2SF (f1 * f2))).
  { apply nle_zero_false_positive; [done|]. intros c Hc.
    unfold nle, ncompare in Hp. rewrite Hc in Hp. by destruct c. }
  assert (Hsame : ∃ s, SF_nz s (-6) 18 (Prim2SF f1) ∧ SF_nz s (-6) 18 (Prim2SF f2)).
  { rewrite mul_spec in Hpos. unfold SF64mul in Hpos.
    destruct (SF_mag_cases _ _ _ H1) as [[s1 Hz1]|[s1 Hn1]].
    { rewrite Hz1 in Hpos. by destruct (Prim2SF f2). }
    destruct (SF_mag_cases _ _ _ H2) as [[s2 Hz2]|[s2 Hn2]].
    { rewrite Hz2 in Hpos. by destruct (Prim2SF f1). }
    pose proof (SFmul_nz _ _ s1 s2 (-6) 18 (-6) 18 (Prim2SF_valid f1) (Prim2SF_valid f2)
                  Hn1 Hn2 ltac:(lia) ltac:(lia) ltac:(lia) ltac:(lia)) as Hm.
    destruct (SFmul prec emax (Prim2SF f1) (Prim2SF f2)); try done.
    destruct Hpos as [-> _], Hm as [Hs _].
    exists s1. split; [done|]. by destruct s1, s2. }
  destruct Hsame as (s & Hn1 & Hn2).
  rewrite (SF_nz_not_zero _ _ _ _ Hn1). simpl.
  rewrite (SF_nz_not_zero _ _ _ _ Hn2). simpl.
  assert (Hone : SF_nz false 1 1 (Prim2SF (float_of 1))) by (by rewrite Prim2SF_one).
  assert (Htwo : SF_nz false 2 2 (Prim2SF (float_of 2))) by (by rewrite Prim2SF_two).
  assert (Hr1 : SF_nz s (-17) 9 (Prim2SF (float_of 1 / f1))).
  { rewrite div_spec.
    pose proof (SFdiv_nz _ _ false s 1 1 (-6) 18 (Prim2SF_valid _) (Prim2SF_valid f1)
                  Hone Hn1 ltac:(lia) ltac:(lia) ltac:(lia) ltac:(lia)) as H.
    by destruct s. }
  assert (Hr2 : SF_nz s (-17) 9 (Prim2SF (float_of 1 / f2))).
  { rewrite div_spec.
    pose proof (SFdiv_nz _ _ false s 1 1 (-6) 18 (Prim2SF_valid _) (Prim2SF_valid f2)
                  Hone Hn2 ltac:(lia) ltac:(lia) ltac:(lia) ltac:(lia)) as H.
    by destruct s. }
  assert (Hsum : SF_nz s (-17) 11 (Prim2SF (float_of 1 / f1 + float_of 1 / f2))).
  { rewrite add_spec.
    exact (SFadd_nz _ _ s (-17) 9 (-17) 9 (Prim2SF_valid _) (Prim2SF_valid _)
             Hr1 Hr2 ltac:(lia) ltac:(lia) ltac:(lia)). }
  rewrite (SF_nz_not_zero _ _ _ _ Hsum). simpl.
  eexists. split; [reflexivity|]. simpl. rewrite div_spec.
  pose proof (SFdiv_nz _ _ false s 2 2 (-17) 11 (Prim2SF_valid _) (Prim2SF_valid _)
                Htwo Hsum ltac:(lia) ltac:(lia) ltac:(lia) ltac:(lia)) as H.
  eapply SF_nz_mag. exact H.
Qed.

Lemma num_mag_to_float lo hi t :
  num_mag lo hi t → ∃ g, to_float t = Ok g ∧ SF_mag lo hi (Prim2SF g).
Proof.
  destruct t as [z|g]; simpl.
  - intros ->. exists (float_of 0). split; [done|]. by rewrite Prim2SF_float_of_zero.
  - eauto.
Qed.

Lemma num_mag_mono lo hi lo' hi' t : lo' ≤ lo → hi ≤ hi' → num_mag lo hi t → num_mag lo' hi' t.
Proof. destruct t; simpl; [done|]. apply SF_mag_mono. Qed.

Lemma SFmul_self x lo hi :
  valid_binary x = true → SF_mag lo hi x →
  -1021 ≤ lo → -1020 ≤ lo + lo → hi + hi ≤ 1023 →
  SFmul prec emax x x = S754_zero false
  ∨ SF_nz false (lo + lo - 1) (hi + hi + 1) (SFmul prec emax x x).
Proof.
  intros Hv Hx Hlo Hl Hh.
  destruct (SF_mag_cases _ _ _ Hx) as [[s ->]|[s Hn]].
  - left. by destruct s.
  - right. pose proof (SFmul_nz x x s s lo hi lo hi Hv Hv Hn Hn Hlo Hlo Hl Hh) as H.
    by destruct s.
Qed.

Lemma above_nine_mag x lo hi :
  SF_cmp_Z x 9 = Some Gt → SF_nz false lo hi x → SF_nz false 4 hi x.
Proof.
  destruct x as [s|s| |s m e]; unfold SF_cmp_Z, SF_nz; try done. intros Hc [-> HE].
  split; [done|]. split; [|lia].
  destruct (Zdigits2_pos_bounds (Z.pos m) ltac:(lia)) as (_ & _ & Hhi).
  simpl Zdigits2 in Hhi. injection Hc as Hc.
  change (cond_Zopp false (Z.pos m)) with (Z.pos m) in Hc.
  destruct (Z.le_gt_cases 4 (Z.pos (digits2_pos m) + e)) as [|Hlt]; [done|]. exfalso.
  destruct (Z.leb_spec 0 e) as [He|He].
  - assert (Hc' : 9 < Z.pos m * 2 ^ e) by (apply Z.compare_gt_iff; exact Hc).
    assert (Z.pos m * 2 ^ e < 2 ^ (Z.pos (digits2_pos m) + e)).
    { rewrite Z.pow_add_r by lia. apply Z.mul_lt_mono_pos_r; [|done].
      apply Z.pow_pos_nonneg; lia. }
    assert (2 ^ (Z.pos (digits2_pos m) + e) ≤ 2 ^ 3) by (apply Z.pow_le_mono_r; lia).
    change (2 ^ 3) with 8 in *. lia.
  - assert (Hc' : 9 * 2 ^ (- e) < Z.pos m) by (apply Z.compare_gt_iff; exact Hc).
    assert (Hp : 0 < 2 ^ (- e)) by (apply Z.pow_pos_nonneg; lia).
    assert (2 ^ Z.pos (digits2_pos m) ≤ 2 ^ (3 + - e)) by (apply Z.pow_le_mono_r; lia).
    rewrite Z.pow_add_r in H by lia. change (2 ^ 3) with 8 in *. lia.
Qed.

(** Lines 224-236: the limit on the two tangents of a segment. *)
Lemma limit_tangents_mag deltas tangents i d ti ti1 l h l' h' :
  deltas !! i = Some d → delta_mag d →
  tangents !! i = Some ti → tangents !! S i = Some ti1 →
  num_mag l h ti → num_mag l' h' ti1 →
  -104 ≤ l → -104 ≤ l' → h ≤ 51 → h' ≤ 51 → l ≤ h → l' ≤ h' →
  ∃ t0 t1,
    limit_tangents deltas tangents i = Ok (<[S i := t1]> (<[i := t0]> tangents))
    ∧ num_mag (l - 86) (h + 30) t0 ∧ num_mag (l' - 86) (h' + 30) t1.
Proof.
  intros Hd (f & -> & Hf) Hti Hti1 Ht Ht1 Hl Hl' Hh Hh' Hlh Hlh'.
  unfold limit_tangents, item. rewrite Hd. simpl.
  destruct (neqb (Flt f) (Int 0)) eqn:Hz.
  { by exists (Int 0), (Int 0). }
  assert (Hfn : ∃ s, SF_nz s (-6) 18 (Prim2SF f)).
  { destruct (SF_mag_cases _ _ _ Hf) as [[s Hs]|]; [|done].
    unfold neqb, ncompare in Hz. by rewrite Hs in Hz. }
  destruct Hfn as [s Hfn].
  pose proof (SF_nz_not_zero _ _ _ _ Hfn) as Hfz.
  rewrite Hti. simpl.
  destruct (num_mag_to_float _ _ _ Ht) as (g & Hg & Hgm).
  destruct (num_mag_to_float _ _ _ Ht1) as (g1 & Hg1 & Hgm1).
  assert (Halpha : ndiv ti (Flt f) = Ok (Flt (g / f))).
  { unfold ndiv. destruct ti; rewrite Hg; simpl; by rewrite Hfz. }
  assert (Hbeta : ndiv ti1 (Flt f) = Ok (Flt (g1 / f))).
  { unfold ndiv. destruct ti1; rewrite Hg1; simpl; by rewrite Hfz. }
  rewrite Halpha. simpl. rewrite Hti1. simpl. rewrite Hbeta. simpl.
  set (alpha := (g / f)%float). set (beta := (g1 / f)%float).
  assert (Ha : SF_mag (l - 18) (h + 8) (Prim2SF alpha)).
  { unfold alpha. rewrite div_spec.
    eapply SF_mag_mono;
      [| |apply (SFdiv_mag _ _ s l h (-6) 18); try apply Prim2SF_valid; try done; lia]; lia. }
  assert (Hb : SF_mag (l' - 18) (h' + 8) (Prim2SF beta)).
  { unfold beta. rewrite div_spec.
    eapply SF_mag_mono;
      [| |apply (SFdiv_mag _ _ s l' h' (-6) 18); try apply Prim2SF_valid; try done; lia]; lia. }
  destruct (ngt (Flt (alpha * alpha + beta * beta)) (Int 9)) eqn:Hgt; cycle 1.
  { exists ti, ti1. rewrite (list_insert_id tangents i ti Hti).
    rewrite (list_insert_id tangents (S i) ti1 Hti1).
    split; [done|].
    split; [apply (num_mag_mono l h)|apply (num_mag_mono l' h')]; (done || lia). }
  assert (Haa : Prim2SF (alpha * alpha) = S754_zero false
                ∨ SF_nz false (-245) 119 (Prim2SF (alpha * alpha))).
  { rewrite mul_spec.
    destruct (SFmul_self (Prim2SF alpha) (l - 18) (h + 8) (Prim2SF_valid _) Ha
                ltac:(lia) ltac:(lia) ltac:(lia)) as [Hz'|Hn]; [by left|right].
    eapply SF_nz_mono; [| |exact Hn]; lia. }
  assert (Hbb : Prim2SF (beta * beta) = S754_zero false
                ∨ SF_nz false (-245) 119 (Prim2SF (beta * beta))).
  { rewrite mul_spec.
    destruct (SFmul_self (Prim2SF beta) (l' - 18) (h' + 8) (Prim2SF_valid _) Hb
                ltac:(lia) ltac:(lia) ltac:(lia)) as [Hz'|Hn]; [by left|right].
    eapply SF_nz_mono; [| |exact Hn]; lia. }
  set (sq := (alpha * alpha + beta * beta)%float) in *.
  assert (Hsq : SF_nz false 4 121 (Prim2SF sq)).
  { assert (Hcmp : SF_cmp_Z (Prim2SF sq) 9 = Some Gt).
    { unfold ngt, ncompare in Hgt. by destruct (SF_cmp_Z (Prim2SF sq) 9) as [[]|]. }
    apply (above_nine_mag _ (-245)); [done|].
    unfold sq in *. rewrite add_spec in *.
    destruct (SFadd_pos _ _ (-245) 119 (-245) 119 (Prim2SF_valid _) (Prim2SF_valid _)
                Haa Hbb ltac:(lia) ltac:(lia) ltac:(lia)) as [Hz'|Hn].
    - unfold SF64add in Hcmp. by rewrite Hz' in Hcmp.
    - exact Hn. }
  assert (Hlt : (sq <? 0)%float = false).
  { rewrite ltb_spec, Prim2SF_zero. unfold SFltb, SFcompare.
    destruct (Prim2SF sq) as [| | |[] m e]; try done. by destruct Hsq. }
  unfold py_sqrt. simpl. rewrite Hlt. simpl.
  assert (Hr : SF_nz false 2 62 (Prim2SF (sqrt sq))).
  { rewrite sqrt_spec.
    exact (SFsqrt_nz _ 4 121 (Prim2SF_valid _) Hsq ltac:(lia) ltac:(lia)). }
  rewrite (SF_nz_not_zero _ _ _ _ Hr). simpl.
  set (tau := (3 / sqrt sq)%float).
  assert (Htau : SF_mag (-60) 2 (Prim2SF tau)).
  { unfold tau. rewrite div_spec. eapply SF_nz_mag.
    assert (H3 : SF_nz false 2 2 (Prim2SF 3)) by (by rewrite Prim2SF_three).
    exact (SFdiv_nz _ _ false false 2 2 2 62 (Prim2SF_valid _) (Prim2SF_valid _)
             H3 Hr ltac:(lia) ltac:(lia) ltac:(lia) ltac:(lia)). }
  eexists _, _. split; [reflexivity|].
  assert (Hstep : ∀ x lx hx, SF_mag lx hx (Prim2SF x) → -122 ≤ lx → hx ≤ 59 →
            SF_mag (lx - 68) (hx + 22) (Prim2SF (tau * x * f))).
  { intros x lx hx Hx Hlx Hhx. rewrite !mul_spec.
    assert (Hta : SF_mag (-60 + lx - 1) (2 + hx + 1) (SF64mul (Prim2SF tau) (Prim2SF x))).
    { apply SFmul_mag; try apply Prim2SF_valid; try done; lia. }
    rewrite <- mul_spec in Hta |- *.
    eapply SF_mag_mono;
      [| |apply (SFmul_mag _ _ (-60 + lx - 1) (2 + hx + 1) (-6) 18);
          try apply Prim2SF_valid; try done; lia]; lia. }
  split.
  - simpl. eapply SF_mag_mono; [| |apply (Hstep alpha _ _ Ha); lia]; lia.
  - simpl. eapply SF_mag_mono; [| |apply (Hstep beta _ _ Hb); lia]; lia.
Qed.

Lemma for_each_seq_invariant {S : Type} (I : nat → S → Prop) (body : S → nat → res S) n :
  ∀ a s,
    I a s →
    (∀ i s, (a ≤ i < a + n)%nat → I i s → ∃ s', body s i = Ok s' ∧ I (Datatypes.S i) s') →
    ∃ s', for_each body (seq a n) s = Ok s' ∧ I (a + n)%nat s'.
Proof.
  induction n as [|n IH]; intros a s Hs Hbody; simpl.
  - exists s. by rewrite Nat.add_0_r.
  - destruct (Hbody a s ltac:(lia) Hs) as (s1 & -> & Hs1). simpl.
    destruct (IH (Datatypes.S a) s1 Hs1) as (s' & Hs' & HI).
    { intros i s2 Hi. apply Hbody. lia. }
    exists s'. split; [done|]. by replace (a + Datatypes.S n)%nat with (Datatypes.S a + n)%nat by lia.
Qed.

(** All tangents of a curve of the documented domain are the integer 0 or
    finite [float]s. *)
Lemma tangents_of_mag xs ys :
  (2 ≤ length xs)%nat →
  length ys = length xs →
  StronglySorted Z.lt xs →
  Forall (λ x, 0 ≤ x ≤ 100) xs →
  Forall (λ y, 0 ≤ y ≤ 65535) ys →
  ∃ ts, tangents_of xs ys = Ok ts
        ∧ length ts = length xs ∧ Forall (num_mag (-181) 81) ts.
Proof.
  intros Hn Hlen Hs Hx Hy.
  destruct (secants_mag xs ys Hlen Hs Hx Hy) as (ds & Hds & Hdl & Hgood).
  unfold tangents_of. rewrite Hds. simpl.
  set (n := length xs) in *.
  assert (Hlookup : ∀ i, (i < n - 1)%nat → ∃ d, ds !! i = Some d ∧ delta_mag d).
  { intros i Hi. destruct (lookup_lt_is_Some_2 ds i) as [d Hd]; [lia|].
    exists d. split; [done|]. by eapply Forall_lookup_1. }
  assert (Hdelta : ∀ d, delta_mag d → num_mag (-9) 21 d).
  { intros d (f & -> & Hf). simpl. eapply SF_mag_mono; [| |exact Hf]; lia. }
  destruct (Hlookup 0%nat) as (d0 & Hd0 & Hg0); [lia|].
  unfold item at 1. rewrite Hd0. simpl.
  set (I := λ ts : list num, length ts = n ∧ Forall (num_mag (-9) 21) ts).
  assert (I0 : I (<[0%nat := d0]> (replicate n (Flt 0)))).
  { split; [by rewrite length_insert, length_replicate|].
    apply Forall_insert; [|by apply Hdelta].
    apply Forall_replicate. unfold num_mag. by rewrite Prim2SF_zero. }
  destruct (for_each_invariant I (λ i, 1 ≤ i ≤ n - 2)%nat (interior_tangent ds)
              (seq 1 (n - 2)) ) with (s := <[0%nat := d0]> (replicate n (Flt 0)))
    as (ts1 & -> & I1); [| |done|].
  { intros ts i [Hl Hall] Hi.
    destruct (Hlookup (i - 1)%nat) as (dp & Hdp & Hgp); [lia|].
    destruct (Hlookup i) as (di & Hdi & Hgi); [lia|].
    destruct (interior_tangent_mag ds ts i dp di Hdp Hdi Hgp Hgi) as (t & -> & Ht).
    eexists. split; [done|]. split; [by rewrite length_insert|by apply Forall_insert]. }
  { apply Forall_seq. intros j Hj. lia. }
  simpl.
  assert (Hlast : ∃ dl, last ds = Some dl ∧ delta_mag dl).
  { destruct (last ds) as [dl|] eqn:Hl.
    - exists dl. split; [done|]. apply last_Some in Hl as [? ->].
      apply Forall_app in Hgood as [_ Hg]. by rewrite Forall_singleton in Hg.
    - apply last_None in Hl. subst ds. simpl in Hdl. lia. }
  destruct Hlast as (dl & Hdl' & Hgl).
  unfold item_last. rewrite Hdl'. simpl.
  assert (I2 : I (<[(n - 1)%nat := dl]> ts1)).
  { destruct I1 as [Hl Hall]. split; [by rewrite length_insert|].
    apply Forall_insert; [done|by apply Hdelta]. }
  set (J := λ (i : nat) (ts : list num),
         length ts = n
         ∧ ∀ j t, ts !! j = Some t →
             if (j <? i)%nat then num_mag (-181) 81 t
             else if (j =? i)%nat then num_mag (-95) 51 t
             else num_mag (-9) 21 t).
  assert (J0 : J 0%nat (<[(n - 1)%nat := dl]> ts1)).
  { destruct I2 as [Hl Hall]. split; [done|]. intros j t Hj.
    pose proof (Forall_lookup_1 _ _ _ _ Hall Hj) as Ht.
    replace (j <? 0)%nat with false by (symmetry; apply Nat.ltb_ge; lia).
    destruct (j =? 0)%nat; [|done]. eapply num_mag_mono; [| |exact Ht]; lia. }
  destruct (for_each_seq_invariant J (limit_tangents ds) (n - 1) 0
              (<[(n - 1)%nat := dl]> ts1) J0) as (ts2 & Hts2 & [Hl2 J2]).
  { intros i ts Hi [Hl HJ].
    destruct (Hlookup i) as (di & Hdi & Hgi); [lia|].
    destruct (lookup_lt_is_Some_2 ts i) as [ti Hti]; [lia|].
    destruct (lookup_lt_is_Some_2 ts (S i)) as [ti1 Hti1]; [lia|].
    pose proof (HJ _ _ Hti) as Hci. pose proof (HJ _ _ Hti1) as Hci1.
    rewrite Nat.ltb_irrefl, Nat.eqb_refl in Hci.
    replace (S i <? i)%nat with false in Hci1 by (symmetry; apply Nat.ltb_ge; lia).
    replace (S i =? i)%nat with false in Hci1 by (symmetry; apply Nat.eqb_neq; lia).
    destruct (limit_tangents_mag ds ts i di ti ti1 (-95) 51 (-9) 21 Hdi Hgi Hti Hti1 Hci Hci1)
      as (t0 & t1 & -> & Ht0 & Ht1); try lia.
    eexists. split; [done|]. split; [by rewrite !length_insert|].
    intros j t Hj.
    destruct (decide (j = S i)) as [->|Hne1].
    { rewrite list_lookup_insert_eq in Hj by (rewrite length_insert; lia).
      injection Hj as <-.
      replace (S i <? S i)%nat with false by (symmetry; apply Nat.ltb_ge; lia).
      rewrite Nat.eqb_refl. eapply num_mag_mono; [| |exact Ht1]; lia. }
    rewrite list_lookup_insert_ne in Hj by done.
    destruct (decide (j = i)) as [->|Hne0].
    { rewrite list_lookup_insert_eq in Hj by lia. injection Hj as <-.
      replace (i <? S i)%nat with true by (symmetry; apply Nat.ltb_lt; lia).
      eapply num_mag_mono; [| |exact Ht0]; lia. }
    rewrite list_lookup_insert_ne in Hj by done.
    pose proof (HJ _ _ Hj) as Hc.
    destruct (Nat.ltb_spec j i).
    - replace (j <? S i)%nat with true by (symmetry; apply Nat.ltb_lt; lia). done.
    - replace (j =? i)%nat with false in Hc by (symmetry; apply Nat.eqb_neq; lia).
      replace (j <? S i)%nat with false by (symmetry; apply Nat.ltb_ge; lia).
      replace (j =? S i)%nat with false by (symmetry; apply Nat.eqb_neq; lia). done. }
  unfold range. rewrite Hts2. exists ts2. split; [done|]. split; [done|].
  apply Forall_lookup. intros j t Hj. specialize (J2 _ _ Hj).
  change (0 + (n - 1))%nat with (n - 1)%nat in J2.
  destruct (j <? n - 1)%nat; [done|].
  destruct (j =? n - 1)%nat; eapply num_mag_mono; try exact J2; lia.
Qed.

(** ** The smooth curve passes through its points *)

Lemma SF_cmp_Z_Eq_Gt x k a : SF_cmp_Z x k = Some Eq → a < k → SF_cmp_Z x a = Some Gt.
Proof.
  destruct x as [s|s| |s m e]; unfold SF_cmp_Z; try done.
  - intros H%(inj Some)%Z.compare_eq Ha. f_equal. apply Z.compare_gt_iff. lia.
  - by destruct s.
  - cbv zeta. destruct (Z.leb_spec 0 e) as [He|He]; intros H%(inj Some)%Z.compare_eq Ha; f_equal.
    + apply Z.compare_gt_iff. lia.
    + apply Z.compare_gt_iff. rewrite H.
      apply Z.mul_lt_mono_pos_r; [|done]. apply Z.pow_pos_nonneg; lia.
Qed.

Lemma SF_cmp_Z_Eq_Lt x k b : SF_cmp_Z x k = Some Eq → k < b → SF_cmp_Z x b = Some Lt.
Proof.
  destruct x as [s|s| |s m e]; unfold SF_cmp_Z; try done.
  - intros H%(inj Some)%Z.compare_eq Hb. f_equal. apply Z.compare_lt_iff. lia.
  - by destruct s.
  - cbv zeta. destruct (Z.leb_spec 0 e) as [He|He]; intros H%(inj Some)%Z.compare_eq Hb; f_equal.
    + apply Z.compare_lt_iff. lia.
    + apply Z.compare_lt_iff. rewrite H.
      apply Z.mul_lt_mono_pos_r; [|done]. apply Z.pow_pos_nonneg; lia.
Qed.

Lemma equal_above p k a : ncompare p (Int k) = Some Eq → a < k → above p a.
Proof.
  destruct p as [z|f]; unfold above, ncompare.
  - intros H%(inj Some)%Z.compare_eq Ha. f_equal. apply Z.compare_gt_iff. lia.
  - apply SF_cmp_Z_Eq_Gt.
Qed.

Lemma equal_below p k b : ncompare p (Int k) = Some Eq → k < b → below p b.
Proof.
  destruct p as [z|f]; unfold below, ncompare.
  - intros H%(inj Some)%Z.compare_eq Hb. f_equal. apply Z.compare_lt_iff. lia.
  - apply SF_cmp_Z_Eq_Lt.
Qed.

Lemma equal_between f k : ncompare (Flt f) (Int k) = Some Eq ↔ between k k f.
Proof.
  unfold between, SF_between, SF_geZ, SF_leZ, ncompare. split.
  - intros H. split; by right.
  - intros [[H1|H1] [H2|H2]]; try done. rewrite H1 in H2. done.
Qed.

(** The binary64 number 1 is the only one equal to the integer 1. *)
Lemma between_one f : between 1 1 f → f = 1%float.
Proof.
  intros H. unfold between in H.
  pose proof (Prim2SF_valid f) as Hv.
  pose proof (SF_between_cases _ 1 1 Hv ltac:(done) ltac:(done) H) as Hc.
  destruct (Prim2SF f) as [s|s| |s m e] eqn:Hf; try done; [lia|].
  destruct Hc as [He Hm]. rewrite !Z.mul_1_l in Hm.
  assert (Hp : 0 < 2 ^ (- e)) by (apply Z.pow_pos_nonneg; lia).
  destruct s; simpl in Hm; [lia|].
  assert (Hm' : Z.pos m = 2 ^ (- e)) by lia.
  assert (Hd : Zdigits2 (Z.pos m) = - e + 1).
  { apply Zdigits2_unique; [|lia]. rewrite Hm'.
    replace (- e + 1 - 1) with (- e) by lia. split; [lia|].
    apply Z.pow_lt_mono_r; lia. }
  simpl Zdigits2 in Hd.
  pose proof (valid_exponent _ _ _ Hv) as Hve. rewrite Hd in Hve.
  assert (e = -52) by lia. subst e.
  change (2 ^ (- -52)) with 4503599627370496 in Hm'. injection Hm' as ->.
  rewrite <- (SF2Prim_Prim2SF f), Hf. reflexivity.
Qed.

Lemma key_fraction percent x0 k :
  ncompare percent (Int k) = Some Eq → 0 ≤ x0 → x0 < k ≤ 100 →
  (d ← nsub percent (Int x0); ndiv d (Int (k - x0))) = Ok (Flt 1).
Proof.
  intros Heq Hx0 Hk.
  assert (Hb : 100 < float_overflow) by (by vm_compute).
  destruct percent as [z|p].
  - unfold ncompare in Heq. apply (inj Some), Z.compare_eq in Heq. subst z.
    cbn [nsub mbind res_bind].
    destruct (ndiv_Int_between (k - x0) (k - x0)) as (q & -> & _ & _ & Hq);
      [lia|change (2 ^ 53) with 9007199254740992; lia|].
    by rewrite (between_one q (Hq eq_refl)).
  - apply equal_between in Heq.
    unfold nsub. cbn [to_float mbind res_bind].
    rewrite (of_int_small x0) by lia. cbn [mbind res_bind].
    assert (Hd : between (k - x0) (k - x0) (p - float_of x0)).
    { apply between_sub; try done;
        try (change (2 ^ 53) with 9007199254740992; lia).
      apply float_of_between. change (2 ^ 53) with 9007199254740992. lia. }
    assert (Hh : between (k - x0) (k - x0) (float_of (k - x0))).
    { apply float_of_between. change (2 ^ 53) with 9007199254740992. lia. }
    unfold ndiv. cbn [to_float mbind res_bind].
    rewrite (of_int_small (k - x0)) by lia. cbn [mbind res_bind].
    rewrite (between_nonzero _ (k - x0)) by (done || lia).
    do 2 f_equal. apply between_one.
    apply (between_div _ _ (k - x0) (k - x0) (k - x0) 1 1); try done;
      change (2 ^ 53) with 9007199254740992; lia.
Qed.

Lemma between_zero_cases f : between 0 0 f → ∃ s, Prim2SF f = S754_zero s.
Proof.
  intros H. unfold between in H.
  pose proof (SF_between_cases _ 0 0 (Prim2SF_valid f) ltac:(done) ltac:(done) H) as Hc.
  destruct (Prim2SF f) as [s|s| |s m e]; try done; [by exists s|].
  destruct Hc as [_ Hm]. destruct s; simpl in Hm; lia.
Qed.

(** A zero times a finite number is a zero. *)
Lemma zero_mul_mag a g lo hi :
  between 0 0 a → SF_mag lo hi (Prim2SF g) → between 0 0 (a * g)%float.
Proof.
  intros [s Ha]%between_zero_cases Hg. unfold between. rewrite mul_spec, Ha.
  destruct (Prim2SF g) as [s'|s'| |s' m e]; try done; by apply SF_between_zero.
Qed.

Lemma nmul_Flt_Int f z :
  Z.abs z < float_overflow → nmul (Flt f) (Int z) = Ok (Flt (f * float_of z)).
Proof. intros H. unfold nmul. cbn [to_float mbind res_bind]. by rewrite of_int_small. Qed.

Lemma nmul_Flt_mag f m lo hi :
  num_mag lo hi m → ∃ g, nmul (Flt f) m = Ok (Flt (f * g)) ∧ SF_mag lo hi (Prim2SF g).
Proof.
  intros H. destruct (num_mag_to_float _ _ _ H) as (g & Hg & Hm). exists g. split; [|done].
  unfold nmul. cbn [to_float mbind res_bind]. destruct m; by rewrite Hg.
Qed.

(** Lines 238-255 at the upper end of the segment: [t] is 1, the basis is
    0, 0, 1, 0, and the polynomial is the value of the end point. *)
Lemma hermite_at_key percent x0 k y0 y1 m0 m1 :
  ncompare percent (Int k) = Some Eq → 0 ≤ x0 → x0 < k ≤ 100 →
  0 ≤ y0 ≤ 65535 → 0 ≤ y1 ≤ 65535 →
  num_mag (-181) 81 m0 → num_mag (-181) 81 m1 →
  ∃ r, hermite percent x0 k y0 y1 m0 m1 = Ok (Flt r) ∧ between y1 y1 r.
Proof.
  intros Heq Hx0 Hk Hy0 Hy1 Hm0 Hm1.
  assert (Hb : 65535 < float_overflow) by (by vm_compute).
  assert (H53 : 2 ^ 53 = 9007199254740992) by done.
  unfold hermite. cbv zeta.
  rewrite (proj2 (Z.eqb_neq (k - x0) 0)) by lia. cbn [negb].
  rewrite (key_fraction percent x0 k Heq Hx0 Hk). cbn [mbind res_bind].
  change (∃ r,
    (p0 ← nmul (Flt 0) (Int y0);
     a ← nmul (Flt 0) (Int (k - x0)); p1 ← nmul a m0;
     p2 ← nmul (Flt 1) (Int y1);
     a ← nmul (Flt 0) (Int (k - x0)); p3 ← nmul a m1;
     s ← nadd p0 p1; s ← nadd s p2; nadd s p3) = Ok (Flt r) ∧ between y1 y1 r).
  assert (Hz : between 0 0 0%float) by (apply (float_of_between 0); done).
  assert (Ho : between 1 1 1%float) by (apply (float_of_between 1); done).
  rewrite !nmul_Flt_Int by lia. cbn [mbind res_bind].
  destruct (nmul_Flt_mag (0 * float_of (k - x0)) m0 _ _ Hm0) as (g0 & -> & Hg0).
  destruct (nmul_Flt_mag (0 * float_of (k - x0)) m1 _ _ Hm1) as (g1 & -> & Hg1).
  cbn [mbind res_bind nadd to_float].
  eexists. split; [reflexivity|].
  assert (Hp0 : between 0 0 (0 * float_of y0)).
  { apply (between_mul _ _ 0 0 y0 y0); try done; try lia.
    apply float_of_between. lia. }
  assert (Ha : between 0 0 (0 * float_of (k - x0))).
  { apply (between_mul _ _ 0 0 (k - x0) (k - x0)); try done; try lia.
    apply float_of_between. lia. }
  assert (Hp2 : between y1 y1 (1 * float_of y1)).
  { apply (between_mono _ (1 * y1) (1 * y1)); [lia..|].
    apply (between_mul _ _ 1 1 y1 y1); try done; try lia.
    apply float_of_between. lia. }
  pose proof (zero_mul_mag _ _ _ _ Ha Hg0) as Hp1.
  pose proof (zero_mul_mag _ _ _ _ Ha Hg1) as Hp3.
  apply (between_mono _ (0 + 0 + y1 + 0) (0 + 0 + y1 + 0)); [lia..|].
  apply between_add; try done; try lia.
  apply between_add; try done; try lia.
  apply between_add; try done; lia.
Qed.

(** Lines 257-262 on a number equal to the value of an end point. *)
Lemma py_min_equal a x v :
  ncompare x (Int v) = Some Eq → v ≤ a → ncompare (py_min (Int a) x) (Int v) = Some Eq.
Proof.
  intros Hx Ha. unfold py_min. destruct (nlt x (Int a)) eqn:Hlt; [done|].
  destruct (Z.eq_dec v a) as [->|Hne]; [unfold ncompare; by rewrite Z.compare_refl|].
  pose proof (equal_below x v a Hx ltac:(lia)) as Hb.
  apply nlt_Int_r in Hb. by rewrite Hb in Hlt.
Qed.

Lemma py_max_equal a x v :
  ncompare x (Int v) = Some Eq → a ≤ v → ncompare (py_max (Int a) x) (Int v) = Some Eq.
Proof.
  intros Hx Ha. unfold py_max. destruct (ngt x (Int a)) eqn:Hgt; [done|].
  destruct (Z.eq_dec v a) as [->|Hne]; [unfold ncompare; by rewrite Z.compare_refl|].
  pose proof (equal_above x v a Hx ltac:(lia)) as Hb.
  unfold above in Hb. unfold ngt in Hgt. by rewrite Hb in Hgt.
Qed.

Lemma py_int_equal x v : ncompare x (Int v) = Some Eq → py_int x = Ok v.
Proof.
  destruct x as [z|f].
  - unfold ncompare. by intros ->%(inj Some)%Z.compare_eq.
  - intros H%equal_between. destruct (between_int _ _ _ H) as (r & -> & Hr).
    f_equal. lia.
Qed.

Lemma clamp_result_equal y0 y1 result v :
  ncompare result (Int v) = Some Eq →
  Z.min y0 y1 ≤ v ≤ Z.max y0 y1 → 0 ≤ v ≤ 65535 →
  clamp_result y0 y1 result = Ok v.
Proof.
  intros Hr Hv Hrange. unfold clamp_result. cbv zeta.
  apply py_int_equal, py_max_equal; [|lia].
  apply py_min_equal; [|unfold PWM_MAX; lia].
  apply py_max_equal; [|lia]. apply py_min_equal; [done|lia].
Qed.

Lemma sorted_of_length_one c k :
  is_Some (points c !! k) → (length (get_sorted_percents c) < 2)%nat →
  get_sorted_percents c = [k].
Proof.
  intros Hk%sorted_percents_elem Hn.
  destruct (get_sorted_percents c) as [|a [|b l]]; simpl in Hn; [|by apply list_elem_of_singleton in Hk as ->|lia].
  by apply elem_of_nil in Hk.
Qed.

Lemma interpolate_smooth_at_key c percent k v :
  keys_in_range c → values_in_range c →
  ncompare percent (Int k) = Some Eq → points c !! k = Some v →
  interpolate_smooth c percent = Ok v.
Proof.
  intros Hkeys Hvals Heq Hv.
  destruct (Nat.lt_ge_cases (length (get_sorted_percents c)) 2) as [Hshort|Hn].
  { unfold interpolate_smooth. cbv zeta.
    rewrite (proj2 (Nat.ltb_lt _ _) Hshort).
    rewrite (sorted_of_length_one c k) by done. by rewrite Hv. }
  pose proof (sorted_percents_strict c) as Hs.
  assert (Hxs : Forall (λ x, 0 ≤ x ≤ 100) (get_sorted_percents c)).
  { apply Forall_forall. intros x Hx. apply Hkeys. by apply sorted_percents_elem. }
  assert (Hin : k ∈ get_sorted_percents c) by (by apply sorted_percents_elem).
  destruct (lookup_lt_is_Some_2 (get_sorted_percents c) 0) as [first Hfirst]; [lia|].
  destruct (last (get_sorted_percents c)) as [final|] eqn:Hfinal; cycle 1.
  { apply last_None in Hfinal. rewrite Hfinal in Hn. simpl in Hn. lia. }
  pose proof (sorted_head_least _ _ Hs Hfirst k Hin) as Hlow.
  pose proof (sorted_last_greatest _ _ Hs Hfinal k Hin) as Hhigh.
  destruct (Z.eq_dec k first) as [->|Hne0].
  { apply (interpolate_smooth_low c first); try done. unfold nle. by rewrite Heq. }
  assert (Hle : nle percent (Int first) = false).
  { apply (nle_above _ first); [|lia]. apply (equal_above _ k); [done|lia]. }
  destruct (Z.eq_dec k final) as [->|Hne1].
  { apply (interpolate_smooth_high c first final); try done. unfold nge. by rewrite Heq. }
  assert (Hge : nge percent (Int final) = false).
  { apply (nge_below _ final); [|lia]. apply (equal_below _ k); [done|lia]. }
  apply list_elem_of_lookup in Hin as [j Hj].
  destruct j as [|j]; [rewrite Hfirst in Hj; by simplify_eq|].
  destruct (lookup_lt_is_Some_2 (get_sorted_percents c) j) as [x0 Hj0].
  { apply lookup_lt_Some in Hj. lia. }
  assert (Hlt0 : x0 < k).
  { exact (sorted_consecutive _ _ _ _ Hs Hj0 Hj). }
  assert (Ha0 : above percent x0) by (by apply (equal_above _ k)).
  assert (Hb1 : nle percent (Int k) = true) by (unfold nle; by rewrite Heq).
  assert (Hx0 : x0 ∈ get_sorted_percents c) by (by eapply list_elem_of_lookup_2).
  assert (Hx1 : k ∈ get_sorted_percents c) by (by eapply list_elem_of_lookup_2).
  destruct (find_segment_spec percent x0 k Ha0 Hb1 (get_sorted_percents c) 0 Hs)
    as (j' & Hseg & Hj0' & Hj1'); [by apply (sorted_between _ j)|done..|].
  simpl in Hseg.
  destruct (mapM_getitem (points c) (get_sorted_percents c))
    as (ys & Hmap & Hlen & Hlook).
  { intros x Hx. by apply sorted_percents_elem. }
  assert (Hys : Forall (λ y, 0 ≤ y ≤ 65535) ys).
  { apply Forall_lookup. intros i y Hi.
    destruct (lookup_lt_is_Some_2 (get_sorted_percents c) i) as [x Hx].
    { rewrite <- Hlen. by eapply lookup_lt_Some. }
    rewrite (Hlook _ _ Hx) in Hi. by apply (Hvals x). }
  destruct (tangents_of_mag _ ys Hn Hlen Hs Hxs Hys) as (ts & Htan & Hlts & Hts).
  assert (Hlt : (S j' < length (get_sorted_percents c))%nat) by (by eapply lookup_lt_Some).
  destruct (lookup_lt_is_Some_2 ys j') as [y0 Hy0]; [lia|].
  assert (Hy1 : ys !! S j' = Some v) by (by rewrite (Hlook _ _ Hj1')).
  destruct (lookup_lt_is_Some_2 ts j') as [m0 Hm0]; [lia|].
  destruct (lookup_lt_is_Some_2 ts (S j')) as [m1 Hm1]; [lia|].
  pose proof (Forall_lookup_1 _ _ _ _ Hxs Hj0') as Hr0.
  pose proof (Forall_lookup_1 _ _ _ _ Hxs Hj1') as Hr1.
  pose proof (Forall_lookup_1 _ _ _ _ Hys Hy0) as Hry0.
  pose proof (Forall_lookup_1 _ _ _ _ Hys Hy1) as Hry1.
  cbv beta in Hr0, Hr1, Hry0, Hry1.
  destruct (hermite_at_key percent x0 k y0 v m0 m1) as (r & Hherm & Hr);
    [done|lia|lia|done|done| | |].
  { exact (Forall_lookup_1 _ _ _ _ Hts Hm0). }
  { exact (Forall_lookup_1 _ _ _ _ Hts Hm1). }
  unfold interpolate_smooth. cbv zeta.
  rewrite (proj2 (Nat.ltb_ge _ _) Hn).
  unfold item, item_last. rewrite Hfirst. cbn [of_option mbind res_bind]. rewrite Hle.
  rewrite Hfinal. cbn [of_option mbind res_bind]. rewrite Hge.
  rewrite Hmap. cbn [mbind res_bind]. rewrite Htan. cbn [mbind res_bind].
  rewrite Hseg, Hj0', Hj1', Hy0, Hy1, Hm0, Hm1. cbn [of_option mbind res_bind].
  rewrite Hherm. cbn [mbind res_bind].
  apply clamp_result_equal; [by apply equal_between|lia|done].
Qed.

(** X26: every stored point is on the curve the program evaluates.  For a
    curve whose keys lie in 0..100 and whose values lie in 0..65535, and a
    percent equal to a stored key, [interpolate_smooth] returns the value
    stored under that key, whatever the other points are; so does the
    evaluation of the curve in its current mode, and so does [interpolate]
    when the threshold is 0. *)
Theorem smooth_curve_passes_through_points c percent k v :
  keys_in_range c → values_in_range c →
  num_key percent = Some k → points c !! k = Some v →
  interpolate_smooth c percent = Ok v
  ∧ raw_interpolate c percent = Ok v
  ∧ (threshold c = 0 → interpolate c percent = Ok v).
Proof.
  intros Hkeys Hvals Hkey Hv.
  pose proof (num_key_Some _ _ Hkey) as Heq.
  pose proof (interpolate_smooth_at_key c percent k v Hkeys Hvals Heq Hv) as Hsmooth.
  assert (Hraw : raw_interpolate c percent = Ok v).
  { unfold raw_interpolate. destruct (use_smooth c && _); [done|].
    by apply (interpolate_linear_key c percent k). }
  split; [done|]. split; [done|].
  intros Hth. unfold interpolate. rewrite Hraw. cbn [mbind res_bind].
  by rewrite Hth.
Qed.

Lemma smooth_curve_passes_through_points_witness :
  interpolate_smooth (init "red") (Flt 50) = Ok 32767
  ∧ raw_interpolate (init "red") (Flt 50) = Ok 32767
  ∧ (threshold (init "red") = 0 → interpolate (init "red") (Flt 50) = Ok 32767).
Proof.
  apply (smooth_curve_passes_through_points (init "red") (Flt 50) 50 32767).
  - apply init_keys_in_range.
  - apply init_values_in_range.
  - by vm_compute.
  - by vm_compute.
Defined.

(** ** The value of the smooth curve inside a segment *)

Lemma SF_trunc_truncation x r :
  SF_trunc x = Ok r →
  match SF_cmp_Z x 0 with
  | Some Lt =>
      (SF_cmp_Z x r = Some Lt ∨ SF_cmp_Z x r = Some Eq) ∧ SF_cmp_Z x (r - 1) = Some Gt
  | Some _ =>
      (SF_cmp_Z x r = Some Gt ∨ SF_cmp_Z x r = Some Eq) ∧ SF_cmp_Z x (r + 1) = Some Lt
  | None => False
  end.
Proof.
  destruct x as [s|s| |s m e]; unfold SF_trunc, SF_cmp_Z; try done.
  { intros [= <-]. split; [by right|done]. }
  cbv zeta. intros [= <-].
  assert (Hm : 0 < Z.pos m) by lia.
  destruct (Z.leb_spec 0 e) as [He|He].
  - assert (HP : 0 < 2 ^ e) by (apply Z.pow_pos_nonneg; lia).
    set (P := 2 ^ e) in *.
    destruct s; unfold cond_Zopp.
    + replace (- Z.pos m * P ?= 0) with Lt by (symmetry; apply Z.compare_lt_iff; nia).
      split; [right; f_equal; apply Z.compare_eq_iff; lia|].
      f_equal. apply Z.compare_gt_iff. lia.
    + replace (Z.pos m * P ?= 0) with Gt by (symmetry; apply Z.compare_gt_iff; nia).
      split; [right; f_equal; apply Z.compare_eq_iff; lia|].
      f_equal. apply Z.compare_lt_iff. lia.
  - assert (HP : 0 < 2 ^ (- e)) by (apply Z.pow_pos_nonneg; lia).
    set (P := 2 ^ (- e)) in *.
    pose proof (Z.div_mod (Z.pos m) P ltac:(lia)) as Hdm.
    pose proof (Z.mod_pos_bound (Z.pos m) P HP) as Hmod.
    rewrite Z.mul_0_l.
    destruct s; unfold cond_Zopp.
    + change (- Z.pos m ?= 0) with Lt. cbv iota.
      split.
      * apply Some_cmp_cases, compare_le_cases. nia.
      * f_equal. apply Z.compare_gt_iff. nia.
    + change (Z.pos m ?= 0) with Gt. cbv iota.
      split.
      * apply Some_cmp_cases, compare_ge_cases. nia.
      * f_equal. apply Z.compare_lt_iff. nia.
Qed.

(** [int(x)] is the truncation of [x] toward zero. *)
Lemma py_int_truncation x r : py_int x = Ok r → truncation x r.
Proof.
  destruct x as [z|f]; unfold truncation, py_int.
  - intros [= ->].
    assert (H1 : nle (Int r) (Int r) = true)
      by (unfold nle, ncompare; by rewrite Z.compare_refl).
    assert (H2 : nlt (Int (r - 1)) (Int r) = true).
    { unfold nlt, ncompare.
      by replace (r - 1 ?= r) with Lt by (symmetry; apply Z.compare_lt_iff; lia). }
    assert (H3 : nlt (Int r) (Int (r + 1)) = true).
    { unfold nlt, ncompare.
      by replace (r ?= r + 1) with Lt by (symmetry; apply Z.compare_lt_iff; lia). }
    unfold ncompare at 1. by destruct (r ?= 0).
  - intros H%SF_trunc_truncation. unfold nle, nlt, ncompare.
    destruct (SF_cmp_Z (Prim2SF f) 0) as [[]|]; [| | |done];
      destruct H as [[H1|H1] H2]; by rewrite H1, H2.
Qed.

(** Lines 257-258, [max(lo, min(hi, x))], below and above the bounds. *)
Lemma py_clamp_low lo hi a :
  lo ≤ hi → nle a (Int lo) = true → py_max (Int lo) (py_min (Int hi) a) = Int lo.
Proof.
  intros Hle Ha. unfold py_max, py_min.
  assert (Hgt : ngt a (Int lo) = false).
  { unfold nle in Ha. unfold ngt. by destruct (ncompare a (Int lo)) as [[]|]. }
  destruct (nlt a (Int hi)) eqn:Hlt; [by rewrite Hgt|].
  unfold ngt, ncompare. destruct (Z.compare_spec hi lo); try done.
  exfalso. unfold nle in Ha.
  destruct (ncompare a (Int lo)) as [[]|] eqn:Hc; try done.
  - pose proof (equal_below a lo hi Hc ltac:(lia)) as Hb.
    apply nlt_Int_r in Hb. by rewrite Hb in Hlt.
  - pose proof (ncompare_Int_r_Lt a lo hi Hc ltac:(lia)) as Hb.
    apply nlt_Int_r in Hb. by rewrite Hb in Hlt.
Qed.

Lemma py_clamp_high lo hi a :
  lo ≤ hi → nge a (Int hi) = true → py_max (Int lo) (py_min (Int hi) a) = Int hi.
Proof.
  intros Hle Ha. unfold py_max, py_min.
  assert (Hlt : nlt a (Int hi) = false).
  { unfold nge in Ha. unfold nlt. by destruct (ncompare a (Int hi)) as [[]|]. }
  rewrite Hlt. unfold ngt, ncompare.
  destruct (Z.compare_spec hi lo); [by subst|lia|done].
Qed.

(** Lines 257-262 in the three positions of the Hermite value. *)
Lemma clamp_result_cases y0 y1 result :
  0 ≤ Z.min y0 y1 → Z.max y0 y1 ≤ 65535 →
  ∃ r, clamp_result y0 y1 result = Ok r
       ∧ Z.min y0 y1 ≤ r ≤ Z.max y0 y1
       ∧ (above result (Z.min y0 y1) → below result (Z.max y0 y1) → truncation result r)
       ∧ (nle result (Int (Z.min y0 y1)) = true → r = Z.min y0 y1)
       ∧ (nge result (Int (Z.max y0 y1)) = true → r = Z.max y0 y1).
Proof.
  intros Hlo Hhi.
  destruct (clamp_result_range y0 y1 result) as (r & Hr & _ & Hrange).
  exists r. split; [done|]. split; [by apply Hrange|].
  unfold clamp_result, PWM_MAX in Hr. cbv zeta in Hr.
  split; [|split].
  - intros Ha Hb. rewrite (py_clamp_within _ _ _ Ha Hb) in Hr.
    rewrite py_clamp_within in Hr;
      [|by apply (above_mono _ (Z.min y0 y1))|by apply (below_mono _ (Z.max y0 y1))].
    by apply py_int_truncation.
  - intros Hle. rewrite (py_clamp_low (Z.min y0 y1) (Z.max y0 y1) result) in Hr by (done || lia).
    rewrite py_clamp_Int in Hr. cbn [py_int] in Hr. injection Hr as <-. lia.
  - intros Hge. rewrite (py_clamp_high (Z.min y0 y1) (Z.max y0 y1) result) in Hr by (done || lia).
    rewrite py_clamp_Int in Hr. cbn [py_int] in Hr. injection Hr as <-. lia.
Qed.

(** C1: on a curve whose keys are percentages and whose values are PWM
    values, for a percent above the key [x0], not above the next key [x1]
    and below some key, [interpolate_smooth] returns, and what it returns is
    fixed by the code in this way. Its value list [ys] and tangent list [ts]
    are those of lines 195-236; the segment is the one from [x0] to [x1], at
    the same index [i] in the keys, the values and the tangents; [result] is
    the Hermite value of lines 238-255 on that segment; and the integer [r]
    returned is [result] clamped to the values at the two ends, clamped to
    [0, 65535] and passed to [int]: the truncation of [result] toward zero
    when [result] is strictly between the two end values, the smaller end
    value when [result] is not above it and the larger when [result] is not
    below it. So [r] is between the two end values and between 0 and 65535.
    It is the raw value of the curve in smooth mode when the curve has three
    points or more. *)
Theorem interpolate_smooth_within_segment c percent x0 x1 y0 y1 top :
  keys_in_range c → values_in_range c →
  points c !! x0 = Some y0 → points c !! x1 = Some y1 →
  (∀ k, x0 < k < x1 → points c !! k = None) →
  above percent x0 → nle percent (Int x1) = true →
  is_Some (points c !! top) → below percent top →
  ∃ ys ts i m0 m1 result r,
    mapM (getitem (points c)) (get_sorted_percents c) = Ok ys
    ∧ tangents_of (get_sorted_percents c) ys = Ok ts
    ∧ get_sorted_percents c !! i = Some x0 ∧ get_sorted_percents c !! S i = Some x1
    ∧ ys !! i = Some y0 ∧ ys !! S i = Some y1
    ∧ ts !! i = Some m0 ∧ ts !! S i = Some m1
    ∧ hermite percent x0 x1 y0 y1 m0 m1 = Ok result
    ∧ interpolate_smooth c percent = clamp_result y0 y1 result
    ∧ interpolate_smooth c percent = Ok r
    ∧ (above result (Z.min y0 y1) → below result (Z.max y0 y1) → truncation result r)
    ∧ (nle result (Int (Z.min y0 y1)) = true → r = Z.min y0 y1)
    ∧ (nge result (Int (Z.max y0 y1)) = true → r = Z.max y0 y1)
    ∧ Z.min y0 y1 ≤ r ≤ Z.max y0 y1
    ∧ 0 ≤ r ≤ 65535
    ∧ (use_smooth c = true → (3 ≤ size (points c))%nat → raw_interpolate c percent = Ok r).
Proof.
  intros Hkeys Hvals Hy0 Hy1 Hnone Ha Hb Htop Hbelow.
  pose proof (above_nle_lt _ _ _ Ha Hb) as Hlt.
  pose proof (sorted_percents_strict c) as Hs.
  assert (H0 : x0 ∈ get_sorted_percents c) by (apply sorted_percents_elem; eauto).
  assert (H1 : x1 ∈ get_sorted_percents c) by (apply sorted_percents_elem; eauto).
  assert (Ht : top ∈ get_sorted_percents c) by (by apply sorted_percents_elem).
  assert (Hn : (2 ≤ length (get_sorted_percents c))%nat)
    by (apply (length_two_distinct _ x0 x1); [done..|lia]).
  assert (Hxs : Forall (λ x, 0 ≤ x ≤ 100) (get_sorted_percents c)).
  { apply Forall_forall. intros k Hk. apply Hkeys. by apply sorted_percents_elem. }
  destruct (lookup_lt_is_Some_2 (get_sorted_percents c) 0) as [first Hfirst]; [lia|].
  pose proof (nle_above percent x0 first Ha
                (sorted_head_least _ _ Hs Hfirst _ H0)) as Hnle.
  destruct (last (get_sorted_percents c)) as [final|] eqn:Hfinal; cycle 1.
  { apply last_None in Hfinal. rewrite Hfinal in H0. by apply elem_of_nil in H0. }
  pose proof (nge_below percent top final Hbelow
                (sorted_last_greatest _ _ Hs Hfinal _ Ht)) as Hnge.
  destruct (find_segment_spec percent x0 x1 Ha Hb (get_sorted_percents c) 0 Hs)
    as (j & Hseg & Hj0 & Hj1); [|done..|].
  { intros k Hk. apply sorted_percents_elem in Hk as [v Hv].
    destruct (Z.le_gt_cases k x0) as [|Hgt]; [by left|].
    destruct (Z.le_gt_cases x1 k) as [|Hlt']; [by right|].
    rewrite Hnone in Hv by lia. done. }
  simpl in Hseg.
  destruct (mapM_getitem (points c) (get_sorted_percents c))
    as (ys & Hmap & Hlen & Hlook).
  { intros k Hk. by apply sorted_percents_elem. }
  assert (Hys : Forall (λ y, 0 ≤ y ≤ 65535) ys).
  { apply Forall_lookup. intros i y Hi.
    destruct (lookup_lt_is_Some_2 (get_sorted_percents c) i) as [k Hk].
    { rewrite <- Hlen. by eapply lookup_lt_Some. }
    rewrite (Hlook _ _ Hk) in Hi. by apply (Hvals k). }
  destruct (tangents_of_ok _ ys Hn Hlen Hs Hxs Hys) as (ts & Htan & Hlts & Hts).
  destruct (lookup_lt_is_Some_2 ts j) as [m0 Hm0].
  { rewrite Hlts. apply lookup_lt_Some in Hj1. lia. }
  destruct (lookup_lt_is_Some_2 ts (S j)) as [m1 Hm1].
  { rewrite Hlts. by apply lookup_lt_Some in Hj1. }
  destruct (hermite_ok percent x0 x1 y0 y1 m0 m1) as [result Hherm];
    [by apply Hkeys; eauto|by apply Hkeys; eauto|by eapply Hvals|by eapply Hvals
    |by eapply Forall_lookup_1|by eapply Forall_lookup_1|done..|].
  pose proof (Hvals _ _ Hy0) as Hr0. pose proof (Hvals _ _ Hy1) as Hr1.
  destruct (clamp_result_cases y0 y1 result) as (r & Hr & Hseg_range & Htr & Hlow & Hhigh);
    [lia..|].
  assert (Hsmooth : interpolate_smooth c percent = clamp_result y0 y1 result).
  { unfold interpolate_smooth. cbv zeta.
    rewrite (proj2 (Nat.ltb_ge _ _) Hn).
    unfold item, item_last. rewrite Hfirst. cbn [of_option mbind res_bind]. rewrite Hnle.
    rewrite Hfinal. cbn [of_option mbind res_bind]. rewrite Hnge.
    rewrite Hmap. cbn [mbind res_bind]. rewrite Htan. cbn [mbind res_bind].
    rewrite Hseg.
    rewrite Hj0, Hj1, (Hlook _ _ Hj0), (Hlook _ _ Hj1), Hy0, Hy1, Hm0, Hm1.
    cbn [of_option mbind res_bind]. by rewrite Hherm. }
  exists ys, ts, j, m0, m1, result, r.
  split; [done|]. split; [done|]. split; [done|]. split; [done|].
  split; [by rewrite (Hlook _ _ Hj0)|]. split; [by rewrite (Hlook _ _ Hj1)|].
  split; [done|]. split; [done|]. split; [done|]. split; [done|].
  split; [by rewrite Hsmooth|]. split; [done|]. split; [done|]. split; [done|].
  split; [done|]. split; [lia|].
  intros Hsm Hsz. unfold raw_interpolate.
  by rewrite Hsm, (proj2 (Nat.leb_le _ _) Hsz), Hsmooth.
Qed.

Lemma interpolate_smooth_within_segment_witness :
  ∃ ys ts i m0 m1 result r,
    mapM (getitem (points (init "red"))) (get_sorted_percents (init "red")) = Ok ys
    ∧ tangents_of (get_sorted_percents (init "red")) ys = Ok ts
    ∧ get_sorted_percents (init "red") !! i = Some 1
    ∧ get_sorted_percents (init "red") !! S i = Some 50
    ∧ ys !! i = Some 0 ∧ ys !! S i = Some 32767
    ∧ ts !! i = Some m0 ∧ ts !! S i = Some m1
    ∧ hermite (Int 25) 1 50 0 32767 m0 m1 = Ok result
    ∧ interpolate_smooth (init "red") (Int 25) = clamp_result 0 32767 result
    ∧ interpolate_smooth (init "red") (Int 25) = Ok r
    ∧ (above result (Z.min 0 32767) → below result (Z.max 0 32767) → truncation result r)
    ∧ (nle result (Int (Z.min 0 32767)) = true → r = Z.min 0 32767)
    ∧ (nge result (Int (Z.max 0 32767)) = true → r = Z.max 0 32767)
    ∧ Z.min 0 32767 ≤ r ≤ Z.max 0 32767
    ∧ 0 ≤ r ≤ 65535
    ∧ (use_smooth (init "red") = true → (3 ≤ size (points (init "red")))%nat →
       raw_interpolate (init "red") (Int 25) = Ok r).
Proof.
  apply (interpolate_smooth_within_segment (init "red") (Int 25) 1 50 0 32767 100).
  - apply init_keys_in_range.
  - apply init_values_in_range.
  - reflexivity.
  - reflexivity.
  - intros k Hk. destruct (default_points !! k) as [v|] eqn:Hv; [|done].
    apply default_points_lookup in Hv. lia.
  - reflexivity.
  - reflexivity.
  - by exists 65535.
  - reflexivity.
Defined.

(** The same call by computation: the tangents at keys 1 and 50 of the
    default curve give at 25 percent a Hermite value between 11911.5 and
    11912, and the call returns 11911, the truncation, where rounding to
    the nearest integer gives 11912. *)
Lemma interpolate_smooth_default_quarter :
  ∃ ts m0 m1 f,
    tangents_of [0; 1; 50; 100] [0; 0; 32767; 65535] = Ok ts
    ∧ ts !! 1%nat = Some m0 ∧ ts !! 2%nat = Some m1
    ∧ hermite (Int 25) 1 50 0 32767 m0 m1 = Ok (Flt f)
    ∧ above (Flt (f + f)) 23823 ∧ below (Flt f) 11912
    ∧ truncation (Flt f) 11911
    ∧ interpolate_smooth (init "red") (Int 25) = Ok 11911.
Proof.
  do 4 eexists. split; [by vm_compute|]. split; [reflexivity|]. split; [reflexivity|].
  split; [by vm_compute|]. by vm_compute.
Qed.

(** ** Loading a record without points *)

(** [int] on strings with blanks: it skips the blanks of both ends, code
    point 160 among them, and raises on the separator 28, which
    [str.split] takes for a blank. *)
Lemma int_of_str_blanks :
  int_of_str " 50 " = Ok 50
  ∧ int_of_str (String (ascii_of_N 160) "9") = Ok 9
  ∧ int_of_str (String (ascii_of_N 28) "9") = Raise ValueError
  ∧ is_space (ascii_of_N 28) = true
  ∧ int_of_str "5 0" = Raise ValueError
  ∧ int_of_str "1_0" = Ok 10
  ∧ int_of_str "" = Raise ValueError.
Proof. by vm_compute. Qed.

(** C9: [from_dict] on a record without a [points] field leaves the curve
    with no point at all, not with the four points [__init__] gives, while
    an absent threshold and an absent mode do get the values of [__init__]
    and an absent name keeps the name: the call returns, and the curve it
    leaves cannot be evaluated, [interpolate] raising [IndexError] at every
    percent and [generate_lut] at every size from 2 on; [_load_json], the
    caller, ends with that exception when it regenerates the code. The rest
    of the claim is as the code has it: whatever the record holds, name,
    threshold and mode are the record's or the defaults; keys written as
    decimal strings or given as integers become integer keys; and loading
    what [to_dict] wrote gives back the curve. *)
Theorem from_dict_without_points_gives_no_points :
  (∀ c nm th sm,
     from_dict c (mkSnap nm th sm None)
     = (mkCal (default (name c) nm) (default 0 th) (default true sm) ∅, None))
  ∧ (∀ nm, points (init nm) = default_points ∧ default_points ≠ ∅
           ∧ threshold (init nm) = 0 ∧ use_smooth (init nm) = true)
  ∧ (∀ c nm th sm percent,
       interpolate (from_dict c (mkSnap nm th sm None)).1 percent = Raise IndexError)
  ∧ (∀ c nm th sm size,
       2 ≤ size < 2 ^ 53 →
       generate_lut (from_dict c (mkSnap nm th sm None)).1 size = Raise IndexError)
  ∧ (∀ e nm th sm size,
       get_size (size_text e) = Ok size → 2 ≤ size < 2 ^ 53 →
       load_json e (mkFile (Some (mkSnap nm th sm None)) None None)
       = (mkExport (mkCal (default (name (red_cal e)) nm) (default 0 th) (default true sm) ∅)
                   (green_cal e) (blue_cal e) (size_text e) (code_text e),
          Some IndexError))
  ∧ (∀ c nm th sm pts,
       name (from_dict c (mkSnap nm th sm pts)).1 = default (name c) nm
       ∧ threshold (from_dict c (mkSnap nm th sm pts)).1 = default 0 th
       ∧ use_smooth (from_dict c (mkSnap nm th sm pts)).1 = default true sm)
  ∧ (∀ c nm th sm items m,
       coerce_items items ∅ = Ok m →
       from_dict c (mkSnap nm th sm (Some items))
         = (mkCal (default (name c) nm) (default 0 th) (default true sm) m, None))
  ∧ (∀ k v, coerce_items [(KStr (py_str k), v)] ∅ = Ok {[k := v]}
            ∧ coerce_items [(KInt k, v)] ∅ = Ok {[k := v]})
  ∧ (∀ c c0, from_dict c0 (to_dict c) = (c, None)).
Proof.
  split; [done|]. split.
  { intros nm. split; [done|]. split; [|done].
    intros H. apply (f_equal (λ m : gmap Z Z, m !! 0)) in H. discriminate H. }
  split; [intros; by apply interpolate_empty|].
  split; [intros; by apply generate_lut_empty|].
  split.
  { intros e nm th sm size Hsize Hs.
    unfold load_json, load_channel. cbn [file_red file_green file_blue].
    change (from_dict (red_cal e) (mkSnap nm th sm None))
      with (mkCal (default (name (red_cal e)) nm) (default 0 th) (default true sm) ∅, @None exn).
    cbv iota. unfold refresh, generate_code.
    cbn [size_text red_cal green_cal blue_cal]. rewrite Hsize. cbn [mbind res_bind].
    unfold code_channel at 3. rewrite generate_lut_empty by done. done. }
  split.
  { intros c nm th sm pts. unfold from_dict. cbn [snap_name snap_threshold snap_use_smooth].
    by destruct (coerce_items _ _). }
  split.
  { intros c nm th sm items m H. unfold from_dict; simpl. by rewrite H. }
  split.
  { intros k v; simpl. rewrite int_of_str_py_str. done. }
  intros c c0. apply from_dict_to_dict.
Qed.
